(** * UsefulFunctions.py: Southern Ocean grid utilities

    A shallow embedding of [Scripts/UsefulFunctions.py] (ACCESS-OM2-01 sea
    ice and ocean helpers) and the proofs of its specified properties.

    Conventions of the embedding.
    - A float64 cell is [NaN] or an exact rational ([Num]); infinities
      and signed zeros are outside the model.  Cells are moved, masked,
      summed and averaged without rounding.
    - The arithmetic [corrlong] does on longitudes is float64
      arithmetic: every operation rounds to the nearest float64, ties to
      the even one.
    - A labelled array (xarray [DataArray]) is a function from named
      positions to cells, together with its ordered dimension list, its
      coordinate variables and its attributes.
    - A Python exception is [None]. *)

From Stdlib Require Import ZArith QArith Qcanon Qround Qabs Qpower.
From Stdlib Require Import Reals Qreals Lra Lqa.
From Stdlib Require Import List String Ascii DecimalString Bool Arith Lia.
From Stdlib Require Import Permutation Sorted FunctionalExtensionality.
Import ListNotations.

Local Open Scope string_scope.
Local Open Scope nat_scope.

(** ** Cells and labels *)

(** A float64 cell. *)
Inductive f64 : Type :=
| NaN
| Num (q : Qc).

Definition isnan (v : f64) : bool :=
  match v with NaN => true | Num _ => false end.

(** IEEE multiplication and addition: NaN is absorbing. *)
Definition fmul (a b : f64) : f64 :=
  match a, b with
  | Num x, Num y => Num (x * y)%Qc
  | _, _ => NaN
  end.

(** [a == b] on cells: NaN equals nothing. *)
Definition feq (a b : f64) : bool :=
  match a, b with
  | Num x, Num y => Qc_eq_bool x y
  | _, _ => false
  end.

Definition Qcleb (x y : Qc) : bool := Qle_bool x y.
Definition Qcltb (x y : Qc) : bool := negb (Qle_bool y x).

Definition Z2Qc (z : Z) : Qc := Q2Qc (inject_Z z).

(** ** Named positions *)

(** A position gives an offset along every axis name. *)
Definition pos : Type := string -> nat.

Definition origin : pos := fun _ => 0.

Definition upd (i : pos) (d : string) (k : nat) : pos :=
  fun d' => if String.eqb d' d then k else i d'.

(** [i] with its offset along [d] sent through [p]. *)
Definition along (d : string) (p : nat -> nat) (i : pos) : pos :=
  upd i d (p (i d)).

(** ** Association lists (Python dicts keep insertion order) *)

Fixpoint lookup {A : Type} (k : string) (l : list (string * A)) : option A :=
  match l with
  | [] => None
  | (k', v) :: t => if String.eqb k k' then Some v else lookup k t
  end.

(** [d[k] = v]: overwrite in place, or append. *)
Fixpoint assign {A : Type} (k : string) (v : A) (l : list (string * A))
  : list (string * A) :=
  match l with
  | [] => [(k, v)]
  | (k', v') :: t =>
      if String.eqb k k' then (k, v) :: t else (k', v') :: assign k v t
  end.

Definition mem (k : string) (l : list string) : bool :=
  existsb (String.eqb k) l.

Definition remove_key {A : Type} (k : string) (l : list (string * A))
  : list (string * A) :=
  filter (fun e => negb (String.eqb (fst e) k)) l.

(** ** Labelled arrays *)

(** The values of a coordinate variable, by dtype. *)
Inductive cdata : Type :=
| CTime (f : pos -> Z)        (* datetime64[ns]: nanoseconds since the epoch *)
| CNum (f : pos -> Qc)        (* float64 / int64 *)
| CStr (f : pos -> string).   (* object (str) *)

Record Coord : Type := mkCoord {
  cdims : list string;
  cvals : cdata
}.

Record DataArray (V : Type) : Type := mkDA {
  name : option string;
  dims : list (string * nat);
  values : pos -> V;
  coords : list (string * Coord);
  attrs : list (string * string)
}.

Arguments mkDA {V}.
Arguments name {V}.
Arguments dims {V}.
Arguments values {V}.
Arguments coords {V}.
Arguments attrs {V}.

Definition cdata_at (g : pos -> pos) (c : cdata) : cdata :=
  match c with
  | CTime f => CTime (fun i => f (g i))
  | CNum f => CNum (fun i => f (g i))
  | CStr f => CStr (fun i => f (g i))
  end.

Definition size {V : Type} (da : DataArray V) (d : string) : option nat :=
  lookup d (dims da).

(** [da.shape] *)
Definition shape {V : Type} (da : DataArray V) : list nat :=
  map snd (dims da).

Definition dim_names {V : Type} (da : DataArray V) : list string :=
  map fst (dims da).

(** The positions inside an array. *)
Definition inside (ds : list (string * nat)) (i : pos) : Prop :=
  forall d n, In (d, n) ds -> i d < n.

(** [da[key]]: a coordinate variable; a dimension without coordinate
    reads as [arange(n)]. *)
Definition getitem {V : Type} (da : DataArray V) (key : string) : option Coord :=
  match lookup key (coords da) with
  | Some c => Some c
  | None =>
      match size da key with
      | Some _ => Some (mkCoord [key] (CNum (fun i => Z2Qc (Z.of_nat (i key)))))
      | None => None
      end
  end.

(** The vector of a numeric coordinate along [d] of length [n]. *)
Definition num_vector (c : cdata) (d : string) (n : nat) : option (list Qc) :=
  match c with
  | CNum f => Some (map (fun k => f (upd origin d k)) (seq 0 n))
  | _ => None
  end.

Definition time_vector (c : cdata) (d : string) (n : nat) : option (list Z) :=
  match c with
  | CTime f => Some (map (fun k => f (upd origin d k)) (seq 0 n))
  | _ => None
  end.

Definition str_vector (c : cdata) (d : string) (n : nat) : option (list string) :=
  match c with
  | CStr f => Some (map (fun k => f (upd origin d k)) (seq 0 n))
  | _ => None
  end.

(** [da.isel({d: order})] with an integer array: reorder along [d]. *)
Definition take_coord (d : string) (order : list nat) (c : Coord) : Coord :=
  if mem d (cdims c)
  then mkCoord (cdims c) (cdata_at (along d (fun k => nth k order k)) (cvals c))
  else c.

Definition isel_order {V : Type} (d : string) (order : list nat)
  (da : DataArray V) : DataArray V :=
  mkDA (name da)
       (map (fun e => if String.eqb (fst e) d then (d, List.length order) else e) (dims da))
       (fun i => values da (along d (fun k => nth k order k) i))
       (map (fun e => (fst e, take_coord d order (snd e))) (coords da))
       (attrs da).

(** ** Stable sorting (np.lexsort on one key) *)

Fixpoint insert_key (x : Qc * nat) (l : list (Qc * nat)) : list (Qc * nat) :=
  match l with
  | [] => [x]
  | h :: t => if Qcltb (fst h) (fst x) then h :: insert_key x t else x :: h :: t
  end.

Fixpoint sort_keys (l : list (Qc * nat)) : list (Qc * nat) :=
  match l with
  | [] => []
  | x :: t => insert_key x (sort_keys t)
  end.

(** [np.lexsort((keys,))]: the positions of [keys] in ascending key order,
    equal keys in their original order. *)
Definition lexsort (keys : list Qc) : list nat :=
  map snd (sort_keys (combine keys (seq 0 (List.length keys)))).

(** ** float64 arithmetic *)

(** The longitudes of a field are float64 numbers and [corrlong] computes
    with them: every sum and every difference is rounded to the nearest
    float64, ties to the even one.  A float64 has 53 significant bits and
    its smallest positive value is 2^-1074.  Overflow is outside the
    model: no operation of [corrlong] on a finite longitude overflows. *)

Local Open Scope Q_scope.

Definition pow2 (e : Z) : Q := 2 ^ e.

(** The binade of a number other than zero: the e with
    2^e <= |q| < 2^(e+1). *)
Definition ilog2 (q : Q) : Z :=
  let a := Qabs q in
  if Qle_bool 1 a then Z.log2 (Qfloor a) else (- Z.log2_up (Qceiling (/ a)))%Z.

(** The nearest whole number, ties to the even one. *)
Definition rne (q : Q) : Z :=
  let f := Qfloor q in
  match Qcompare (q - inject_Z f) (1 # 2) with
  | Lt => f
  | Gt => (f + 1)%Z
  | Eq => if Z.even f then f else (f + 1)%Z
  end.

(** The exponent of the unit in the last place of the float64 numbers of
    the binade of q. *)
Definition ulp_exponent (q : Q) : Z := Z.max (ilog2 q - 52) (-1074).

Definition round64Q (q : Q) : Q :=
  if Qeq_bool q 0 then 0
  else inject_Z (rne (q / pow2 (ulp_exponent q))) * pow2 (ulp_exponent q).

(** Rounding towards zero. *)
Definition trunc (q : Q) : Z := if Qle_bool 0 q then Qfloor q else Qceiling q.

(** A number float64 holds: a whole number of at most 53 bits times a
    power of two not below 2^-1074. *)
Definition representable (q : Q) : Prop :=
  exists n e, q == inject_Z n * pow2 e /\ (Z.abs n <= 2 ^ 53)%Z /\ (-1074 <= e)%Z.

Local Close Scope Q_scope.

(** The float64 nearest to a number. *)
Definition round64 (x : Qc) : Qc := Q2Qc (round64Q x).

(** [a + b] and [a - b] on float64. *)
Definition add64 (a b : Qc) : Qc := round64 (a + b).
Definition sub64 (a b : Qc) : Qc := round64 (a - b).

(** C's [fmod]: exact, with the sign of the dividend. *)
Definition c_fmod (a b : Qc) : Qc := (a - b * Z2Qc (trunc (a / b)))%Qc.

(** [a % b] on float64, for a divisor other than zero: [fmod], moved by
    one b when its sign is not that of b; that addition is rounded. *)
Definition mod64 (a b : Qc) : Qc :=
  let m := c_fmod a b in
  if Qc_eq_bool m (Z2Qc 0) then m
  else if xorb (Qcltb b (Z2Qc 0)) (Qcltb m (Z2Qc 0)) then add64 m b
  else m.

(** ** corrlong *)

(** [((x + 180) % 360) - 180] *)
Definition wrap_longitude (x : Qc) : Qc :=
  sub64 (mod64 (add64 x (Z2Qc 180)) (Z2Qc 360)) (Z2Qc 180).

(** [array[long_name] = f(array[long_name])] for an arithmetic [f]:
    only a numeric coordinate supports it. *)
Definition map_num (f : Qc -> Qc) (c : Coord) : option Coord :=
  match cvals c with
  | CNum g => Some (mkCoord (cdims c) (CNum (fun i => f (g i))))
  | _ => None
  end.

Definition set_coord {V : Type} (key : string) (c : Coord) (da : DataArray V)
  : DataArray V :=
  mkDA (name da) (dims da) (values da) (assign key c (coords da)) (attrs da).

(** [array.sortby(array[key])]: the key must be one-dimensional. *)
Definition sortby {V : Type} (key : string) (da : DataArray V)
  : option (DataArray V) :=
  match getitem da key with
  | Some c =>
      match cdims c with
      | [d] =>
          match size da d with
          | Some n =>
              match num_vector (cvals c) d n with
              | Some ks => Some (isel_order d (lexsort ks) da)
              | None => None
              end
          | None => None
          end
      | _ => None
      end
  | None => None
  end.

Definition name_in {V : Type} (da : DataArray V) (l : list string) : bool :=
  match name da with
  | Some s => mem s l
  | None => false
  end.

Definition corrlong {V : Type} (array : DataArray V) : option (DataArray V) :=
  let long_name := if name_in array ["u"; "v"] then "xu_ocean" else "xt_ocean" in
  match getitem array long_name with
  | Some c =>
      match map_num wrap_longitude c with
      | Some c' => sortby long_name (set_coord long_name c' array)
      | None => None
      end
  | None => None
  end.

(** ** Exceptions *)

Definition bind {A B : Type} (m : option A) (k : A -> option B) : option B :=
  match m with
  | Some a => k a
  | None => None
  end.

Notation "'do' x <- m ; k" := (bind m (fun x => k))
  (at level 10, x name, m at level 100, k at level 200).

Definition guard (b : bool) : option unit :=
  if b then Some tt else None.

(** ** Label-based slicing (pandas [Index.slice_locs]) *)

Fixpoint ascending (l : list Qc) : bool :=
  match l with
  | a :: (b :: _) as t => Qcleb a b && ascending t
  | _ => true
  end.

Fixpoint descending (l : list Qc) : bool :=
  match l with
  | a :: (b :: _) as t => Qcleb b a && descending t
  | _ => true
  end.

Definition count (p : Qc -> bool) (l : list Qc) : nat :=
  List.length (filter p l).

(** The offsets at which [x] occurs. *)
Fixpoint occurrences (x : Qc) (from : nat) (l : list Qc) : list nat :=
  match l with
  | [] => []
  | y :: t =>
      if Qc_eq_bool y x then from :: occurrences x (S from) t
      else occurrences x (S from) t
  end.

Fixpoint consecutive (l : list nat) : bool :=
  match l with
  | a :: (b :: _) as t => Nat.eqb b (S a) && consecutive t
  | _ => true
  end.

Inductive side : Type := Left | Right.

(** [Index.get_slice_bound(label, side)]: a monotonic index is searched
    by bisection; any other index must hold the label, in one run. *)
Definition get_slice_bound (idx : list Qc) (label : Qc) (s : side) : option nat :=
  if ascending idx then
    Some (count (fun y => match s with
                          | Left => Qcltb y label
                          | Right => Qcleb y label
                          end) idx)
  else if descending idx then
    Some (count (fun y => match s with
                          | Left => Qcltb label y
                          | Right => Qcleb label y
                          end) idx)
  else
    match occurrences label 0 idx with
    | [] => None
    | p :: ps =>
        if consecutive (p :: ps)
        then Some (match s with Left => p | Right => S (last ps p) end)
        else None
    end.

(** [da.isel({d: slice(start, stop)})] for offsets within the axis. *)
Definition slice_coord (d : string) (start : nat) (c : Coord) : Coord :=
  if mem d (cdims c)
  then mkCoord (cdims c) (cdata_at (along d (fun k => k + start)) (cvals c))
  else c.

Definition isel_slice {V : Type} (d : string) (start stop : nat)
  (da : DataArray V) : DataArray V :=
  mkDA (name da)
       (map (fun e => if String.eqb (fst e) d then (d, stop - start) else e) (dims da))
       (fun i => values da (along d (fun k => k + start) i))
       (map (fun e => (fst e, slice_coord d start (snd e))) (coords da))
       (attrs da).

(** The index of dimension [d]: its one-dimensional coordinate. *)
Definition index_of {V : Type} (da : DataArray V) (d : string) : option (list Qc) :=
  do n <- size da d;
  do c <- lookup d (coords da);
  match cdims c with
  | [d'] => if String.eqb d' d then num_vector (cvals c) d n else None
  | _ => None
  end.

(** [da.sel({d: slice(lo, hi)})] *)
Definition sel_slice {V : Type} (d : string) (lo hi : Qc) (da : DataArray V)
  : option (DataArray V) :=
  do idx <- index_of da d;
  do start <- get_slice_bound idx lo Left;
  do stop <- get_slice_bound idx hi Right;
  Some (isel_slice d start stop da).

(** ** getACCESSdata_SO *)

(** The keyword arguments of [cc.querying.getvar]. *)
Record Query : Type := mkQuery {
  frequency : option string;
  start_time : option string;
  end_time : option string;
  decode_coords : bool;
  n_files : option nat
}.

(** A cookbook session answers a query for a variable of an experiment,
    or raises. *)
Definition Session : Type := string -> string -> Query -> option (DataArray f64).

Definition getvar (exp var : string) (ses : Session) (q : Query)
  : option (DataArray f64) :=
  ses exp var q.

(** [dt.timedelta(hours = 12)] in nanoseconds. *)
Definition twelve_hours : Z := 12 * 3600 * 1000000000.

(** [vararray['time'] = vararray.time.to_pandas() - dt.timedelta(hours = 12)] *)
Definition shift_time {V : Type} (da : DataArray V) : option (DataArray V) :=
  do c <- getitem da "time";
  match cvals c, cdims c with
  | CTime f, ([] | [_]) =>
      Some (set_coord "time" (mkCoord (cdims c) (CTime (fun i => f i - twelve_hours)%Z)) da)
  | _, _ => None
  end.

(** [da.coords[key] = src.values]: a bare one-dimensional array becomes
    the coordinate of dimension [key], which must exist with that length. *)
Definition set_index {V : Type} (key : string) (src : Coord) (src_size : string -> option nat)
  (da : DataArray V) : option (DataArray V) :=
  match cdims src with
  | [d] =>
      do n <- src_size d;
      do m <- size da key;
      do _ <- guard (Nat.eqb n m);
      Some (set_coord key
              (mkCoord [key] (cdata_at (fun i => upd origin d (i key)) (cvals src))) da)
  | _ => None
  end.

Definition rename_name (old new : string) (s : string) : string :=
  if String.eqb s old then new else s.

(** [da.rename({old: new})]: [old] must exist and [new] must be free. *)
Definition rename {V : Type} (old new : string) (da : DataArray V)
  : option (DataArray V) :=
  let used := (dim_names da ++ map fst (coords da))%list in
  do _ <- guard (mem old used && negb (mem new used));
  let back (i : pos) : pos := fun d => i (rename_name old new d) in
  Some (mkDA (name da)
          (map (fun e => (rename_name old new (fst e), snd e)) (dims da))
          (fun i => values da (back i))
          (map (fun e => (rename_name old new (fst e),
                          mkCoord (map (rename_name old new) (cdims (snd e)))
                                  (cdata_at back (cvals (snd e)))))
               (coords da))
          (attrs da)).

(** [da.drop(names)] *)
Definition drop {V : Type} (names : list string) (da : DataArray V) : DataArray V :=
  mkDA (name da) (dims da) (values da)
       (filter (fun e => negb (mem (fst e) names)) (coords da)) (attrs da).

Definition default {A : Type} (d : A) (o : option A) : A :=
  match o with Some a => a | None => d end.

(** The field before it is cut to the latitude band: the catalogue's
    answer, with time and grid corrected when it is sea-ice data. *)
Definition load (var start end_ freq : string) (ses : Session)
  (exp : string) (ice_data : bool) : option (DataArray f64) :=
  if ice_data then
    do vararray <- getvar exp var ses
                     (mkQuery (Some freq) (Some start) (Some end_) false None);
    do area_t <- getvar exp "area_t" ses (mkQuery None None None true (Some 1));
    do vararray <- shift_time vararray;
    do xt <- getitem area_t "xt_ocean";
    do vararray <- set_index "ni" xt (size area_t) vararray;
    do yt <- getitem area_t "yt_ocean";
    do vararray <- set_index "nj" yt (size area_t) vararray;
    do vararray <- rename "ni" "xt_ocean" vararray;
    do vararray <- rename "nj" "yt_ocean" vararray;
    if 3 <? List.length (coords vararray)
    then Some (drop (filter (fun i => negb (mem i ["time"; "xt_ocean"; "yt_ocean"]))
                            (map fst (coords vararray))) vararray)
    else Some vararray
  else
    getvar exp var ses (mkQuery (Some freq) (Some start) (Some end_) true None).

Definition getACCESSdata_SO (var start end_ freq : string) (ses : Session)
  (minlat maxlat : option Qc) (exp : option string) (ice_data : option bool)
  : option (DataArray f64) :=
  let minlat := default (Z2Qc (-90)) minlat in
  let maxlat := default (Z2Qc (-45)) maxlat in
  let exp := default "01deg_jra55v140_iaf_cycle4" exp in
  let ice_data := default false ice_data in
  do vararray <- load var start end_ freq ses exp ice_data;
  if name_in vararray ["u"; "v"]
  then sel_slice "yu_ocean" minlat maxlat vararray
  else sel_slice "yt_ocean" minlat maxlat vararray.

(** ** Array operations used by extract_bottom_layer *)

Definition map_values {A B : Type} (f : A -> B) (da : DataArray A) : DataArray B :=
  mkDA (name da) (dims da) (fun i => f (values da i)) (coords da) (attrs da).

Definition without (d : string) (l : list string) : list string :=
  filter (fun x => negb (String.eqb x d)) l.

(** [da.isel({d: k})]: the axis goes and its coordinates become scalars. *)
Definition isel {V : Type} (d : string) (k : nat) (da : DataArray V)
  : option (DataArray V) :=
  do n <- size da d;
  do _ <- guard (k <? n);
  Some (mkDA (name da) (remove_key d (dims da))
          (fun i => values da (upd i d k))
          (map (fun e => (fst e,
                          if mem d (cdims (snd e))
                          then mkCoord (without d (cdims (snd e)))
                                       (cdata_at (fun i => upd i d k) (cvals (snd e)))
                          else snd e))
               (coords da))
          (attrs da)).

(** [xr.where(cond, x, y)] with scalar branches. *)
Definition xr_where (cond : DataArray bool) (x y : f64) : DataArray f64 :=
  mkDA (name cond) (dims cond) (fun i => if values cond i then x else y)
       (coords cond) [].

Definition nan_to_zero (v : f64) : Qc :=
  match v with Num q => q | NaN => 0%Qc end.

(** The sum of the first [n] cells of a run, missing cells counting 0. *)
Definition nansum (f : nat -> f64) (n : nat) : Qc :=
  fold_right Qcplus 0%Qc (map (fun k => nan_to_zero (f k)) (seq 0 n)).

Definition fmax (a b : f64) : f64 :=
  match a, b with
  | NaN, x => x
  | x, NaN => x
  | Num p, Num q => Num (if Qcleb p q then q else p)
  end.

(** The largest valid cell among the first [n], NaN when there is none. *)
Definition nanmax (f : nat -> f64) (n : nat) : f64 :=
  fold_right fmax NaN (map f (seq 0 n)).

(** A reduction along [d] drops the axis and the coordinates lying on it. *)
Definition reduce {A B : Type} (d : string) (r : (nat -> A) -> nat -> B)
  (keep : list (string * string) -> list (string * string))
  (da : DataArray A) : option (DataArray B) :=
  do n <- size da d;
  Some (mkDA (name da) (remove_key d (dims da))
          (fun i => r (fun k => values da (upd i d k)) n)
          (filter (fun e => negb (mem d (cdims (snd e)))) (coords da))
          (keep (attrs da))).

(** [da.cumsum(d)], skipping missing cells. *)
Definition da_cumsum (d : string) (da : DataArray f64) : option (DataArray f64) :=
  do _ <- size da d;
  Some (mkDA (name da) (dims da)
          (fun i => Num (nansum (fun k => values da (upd i d k)) (S (i d))))
          (coords da) []).

(** [da.max(d)], skipping missing cells; an empty axis has no maximum. *)
Definition da_max (d : string) (da : DataArray f64) : option (DataArray f64) :=
  do n <- size da d;
  do _ <- guard (0 <? n);
  reduce d nanmax (fun _ => []) da.

(** [da.sum(d)], skipping missing cells. *)
Definition da_sum (d : string) (da : DataArray f64) : option (DataArray f64) :=
  reduce d (fun f n => Num (nansum f n)) (fun _ => []) da.

Definition eq_name (a b : option string) : bool :=
  match a, b with
  | Some x, Some y => String.eqb x y
  | None, None => true
  | _, _ => false
  end.

Definition is_index (e : string * Coord) : bool :=
  match cdims (snd e) with
  | [d] => String.eqb d (fst e)
  | _ => false
  end.

(** Coordinates of a binary operation: those of the left operand, an
    index of the right operand overriding a scalar of the same name,
    then the new ones of the right operand. *)
Definition merge_coords (a b : list (string * Coord)) : list (string * Coord) :=
  (map (fun e => if is_index e then e
                 else match lookup (fst e) (filter is_index b) with
                      | Some c => (fst e, c)
                      | None => e
                      end) a
   ++ filter (fun e => negb (mem (fst e) (map fst a))) b)%list.

(** Broadcasting by name: the axes of the left operand, then the new axes
    of the right one; a shared axis must have one length. *)
Definition merge_dims (a b : list (string * nat)) : option (list (string * nat)) :=
  do _ <- guard (forallb (fun e => match lookup (fst e) a with
                                   | Some n => Nat.eqb n (snd e)
                                   | None => true
                                   end) b);
  Some (a ++ filter (fun e => negb (mem (fst e) (map fst a))) b)%list.

(** An element-wise binary operation on two arrays derived from one
    array (their indexes agree, so alignment changes nothing). *)
Definition binop {A B C : Type} (f : A -> B -> C) (a : DataArray A) (b : DataArray B)
  : option (DataArray C) :=
  do ds <- merge_dims (dims a) (dims b);
  Some (mkDA (if eq_name (name a) (name b) then name a else None)
          ds
          (fun i => f (values a i) (values b i))
          (merge_coords (coords a) (coords b))
          []).

(** [da.transpose] on the names [order]: [order] must list every axis once. *)
Definition transpose {V : Type} (order : list string) (da : DataArray V)
  : option (DataArray V) :=
  do _ <- guard (Nat.eqb (List.length order) (List.length (dims da))
                 && forallb (fun d => mem d order) (dim_names da)
                 && forallb (fun d => mem d (dim_names da)) order);
  Some (mkDA (name da)
          (map (fun d => (d, default 0 (size da d))) order)
          (values da) (coords da) (attrs da)).

(** ** extract_bottom_layer *)

Definition extract_bottom_layer (da : DataArray f64) : option (DataArray f64) :=
  (* 1 at every cell holding data in the first time step *)
  do first <- isel "time" 0 da;
  let valid := map_values (fun v => negb (isnan v)) first in
  let mask_2d := xr_where valid (Num 1%Qc) NaN in
  (* running count of the cells holding data along depth *)
  do running <- da_cumsum "st_ocean" mask_2d;
  do mask_2d <- binop (fun v (c : bool) => if c then v else NaN) running valid;
  (* 1 at the deepest cell holding data *)
  do deepest <- da_max "st_ocean" mask_2d;
  do hit <- binop feq mask_2d deepest;
  let mask_2d := xr_where hit (Num 1%Qc) NaN in
  (* apply the mask and collapse the depth axis *)
  do masked <- binop fmul mask_2d da;
  do da <- da_sum "st_ocean" masked;
  transpose ["time"; "yt_ocean"; "xt_ocean"] da.

(** ** nn_dist *)

(** What holds the cells of an array.  The [nanargmax] of numpy and that
    of dask both raise on a run without data; with dask the error comes
    when the edge curve is built, before the search tree. *)
Inductive backend : Type := Numpy | Dask.

(** One step of the scan for the first largest valid cell. *)
Definition argmax_step (f : nat -> f64) (best : option (nat * Qc)) (k : nat)
  : option (nat * Qc) :=
  match f k, best with
  | NaN, _ => best
  | Num q, None => Some (k, q)
  | Num q, Some (_, b) => if Qcltb b q then Some (k, q) else best
  end.

Definition nanargmax (f : nat -> f64) (n : nat) : option nat :=
  option_map fst (fold_left (argmax_step f) (seq 0 n) None).

(** Every position inside the axes [ds]. *)
Fixpoint positions (ds : list (string * nat)) : list pos :=
  match ds with
  | [] => [origin]
  | (d, n) :: t => flat_map (fun i => map (upd i d) (seq 0 n)) (positions t)
  end.

Definition is_some {A : Type} (o : option A) : bool :=
  match o with Some _ => true | None => false end.

(** [da.argmax(dim = d)], skipping missing cells. *)
Definition da_argmax (b : backend) (d : string) (da : DataArray f64)
  : option (DataArray nat) :=
  do n <- size da d;
  do _ <- guard (0 <? n);
  do _ <- guard (forallb (fun i => is_some (nanargmax (fun k => values da (upd i d k)) n))
                         (positions (remove_key d (dims da))));
  reduce d (fun f n => default 0 (nanargmax f n)) (fun _ => []) da.

(** [np.vstack([target_da.yt_ocean[target_da.argmax(dim = 'yt_ocean')],
    target_da.xt_ocean]).T] for a two-dimensional reference field: one
    (y, x) pair per column. *)
Definition ice_coords (b : backend) (target_da : DataArray f64)
  : option (list (Qc * Qc)) :=
  match dims target_da with
  | [(d0, n0); (d1, n1)] =>
      do idx <- da_argmax b "yt_ocean" target_da;
      do ny <- size target_da "yt_ocean";
      do yc <- getitem target_da "yt_ocean";
      do ys <- num_vector (cvals yc) "yt_ocean" ny;
      do xc <- getitem target_da "xt_ocean";
      match dims idx, cdims xc with
      | [(dc, nc)], [dx] =>
          do nx <- size target_da dx;
          do xs <- num_vector (cvals xc) dx nx;
          do _ <- guard (Nat.eqb nc nx);
          Some (combine (map (fun j => nth (values idx (upd origin dc j)) ys 0%Qc)
                             (seq 0 nc))
                        xs)
      | _, _ => None
      end
  | _ => None
  end.

Local Open Scope R_scope.

Definition deg2rad (x : Qc) : R := Q2R x * PI / 180.

(** The haversine metric of scikit-learn on (latitude, longitude) pairs
    in radians. *)
Definition haversine (p q : R * R) : R :=
  2 * asin (sqrt ((sin ((fst p - fst q) / 2))² +
                  cos (fst p) * cos (fst q) * (sin ((snd p - snd q) / 2))²)).

(** [BallTree(points, metric = 'haversine').query(X)], distances only:
    for each row of [X] the distance to its nearest point. *)
Definition nearest (points : list (R * R)) (x : R * R) : option R :=
  match points with
  | [] => None
  | p :: ps => Some (fold_left (fun m q => Rmin m (haversine x q)) ps (haversine x p))
  end.

Definition query (points X : list (R * R)) : option (list R) :=
  match X with
  | [] => None
  | _ => fold_right (fun x acc =>
                       match nearest points x, acc with
                       | Some r, Some l => Some (r :: l)
                       | _, _ => None
                       end) (Some []) X
  end.

Definition earth_radius_km : R := 6371.

(** The distance field, before any persistence. *)
Definition distance_field (b : backend) (target_da : DataArray f64)
  (grid_coords_numpy : list (R * R)) : option (DataArray R) :=
  do pts <- ice_coords b target_da;
  do dist_rad <- query (map (fun p => (deg2rad (fst p), deg2rad (snd p))) pts)
                       grid_coords_numpy;
  match dims target_da with
  | [(d0, n0); (d1, n1)] =>
      do _ <- guard (Nat.eqb (List.length dist_rad) (n0 * n1));
      do tc <- getitem target_da "time";
      do _ <- guard (match cdims tc with [] => true | _ => false end);
      do ny <- size target_da "yt_ocean";
      do yc <- getitem target_da "yt_ocean";
      do _ <- guard (Nat.eqb ny n0);
      do xc <- getitem target_da "xt_ocean";
      match cdims xc with
      | [dx] =>
          do nx <- size target_da dx;
          do _ <- guard (Nat.eqb nx n1);
          Some (mkDA (Some "dist_km"%string)
                  [("time"%string, 1%nat); ("yt_ocean"%string, n0); ("xt_ocean"%string, n1)]
                  (fun i => nth (i "yt_ocean"%string * n1 + i "xt_ocean"%string)
                                (map (fun r => r * earth_radius_km) dist_rad) 0)
                  [("time"%string,
                    mkCoord ["time"%string] (cdata_at (fun _ => origin) (cvals tc)));
                   ("yt_ocean"%string,
                    mkCoord ["yt_ocean"%string]
                      (cdata_at (fun i => upd origin "yt_ocean" (i "yt_ocean"%string))
                                (cvals yc)));
                   ("xt_ocean"%string,
                    mkCoord ["xt_ocean"%string]
                      (cdata_at (fun i => upd origin dx (i "xt_ocean"%string))
                                (cvals xc)))]
                  [("units", "km"); ("long_name", "distance to nearest neighbour")]%string)
      | _ => None
      end
  | _ => None
  end.

Local Close Scope R_scope.

(** *** Dates and file names *)

(** Year and month of a day count since 1970-01-01 (proleptic Gregorian
    calendar). *)
Definition year_month (days : Z) : Z * Z :=
  let z := (days + 719468)%Z in
  let era := (z / 146097)%Z in
  let doe := (z - era * 146097)%Z in
  let yoe := ((doe - doe / 1460 + doe / 36524 - doe / 146096) / 365)%Z in
  let doy := (doe - (365 * yoe + yoe / 4 - yoe / 100))%Z in
  let mp := ((5 * doy + 2) / 153)%Z in
  let m := (if mp <? 10 then mp + 3 else mp - 9)%Z in
  ((yoe + era * 400 + (if m <=? 2 then 1 else 0))%Z, m).

Definition nanoseconds_per_day : Z := 86400 * 1000000000.

(** [time.dt.year] and [time.dt.month] of a datetime64[ns]. *)
Definition dt_year (ns : Z) : Z := fst (year_month (ns / nanoseconds_per_day)).
Definition dt_month (ns : Z) : Z := snd (year_month (ns / nanoseconds_per_day)).

(** [str(z)] *)
Definition str (z : Z) : string := NilZero.string_of_int (Z.to_int z).

Fixpoint zeros (k : nat) : string :=
  match k with
  | O => EmptyString
  | S k' => String "0" (zeros k')
  end.

(** [s.zfill(width)]: zeros go after a leading sign. *)
Definition zfill (width : nat) (s : string) : string :=
  let pad := zeros (width - String.length s) in
  match s with
  | String c rest =>
      if (Ascii.eqb c "-" || Ascii.eqb c "+")%bool
      then String c (pad ++ rest)
      else pad ++ s
  | EmptyString => pad
  end.

Definition endswith_sep (s : string) : bool :=
  match String.get (String.length s - 1) s with
  | Some c => Ascii.eqb c "/"
  | None => false
  end.

(** [os.path.join(a, b)] (posix) *)
Definition path_join (a b : string) : string :=
  if String.prefix "/" b then b
  else if (Nat.eqb (String.length a) 0 || endswith_sep a)%bool then a ++ b
  else a ++ "/" ++ b.

(** What a call does to the outside world, in order. *)
Inductive effect : Type :=
| MakeDirs (path : string)                      (* os.makedirs(path, exist_ok = True) *)
| ToNetcdf (path : string) (field : DataArray R) (* field.to_netcdf(path) *)
| Warning (message : string).                   (* print / warnings.warn *)

(** [nn_dist(target_da, grid_coords_numpy, **kwargs)]: the effects
    performed, and the returned field unless an exception ended the call. *)
Definition nn_dist (b : backend) (target_da : DataArray f64)
  (grid_coords_numpy : list (R * R)) (kwargs : list (string * string))
  : list effect * option (DataArray R) :=
  match distance_field b target_da grid_coords_numpy with
  | None => ([], None)
  | Some dist_km =>
      match lookup "folder_out" kwargs with
      | Some folder_out =>
          match lookup "file_base" kwargs with
          | Some file_base =>
              match option_map cvals (lookup "time" (coords dist_km)) with
              | Some (CTime t) =>
                  let month := zfill 2 (str (dt_month (t origin))) in
                  let year := dt_year (t origin) in
                  let file_out :=
                    path_join folder_out (file_base ++ "_" ++ str year ++ "-" ++ month ++ ".nc") in
                  ([MakeDirs folder_out; ToNetcdf file_out dist_km], Some dist_km)
              | _ => ([MakeDirs folder_out], None)
              end
          | None =>
              (* the else branch is a bare string literal: nothing happens *)
              ([MakeDirs folder_out], Some dist_km)
          end
      | None => ([], Some dist_km)
      end
  end.

(** ** ds_sdm *)

(** A row of an SDM prediction table (the columns kept by [df_ready]). *)
Record Row : Type := mkRow {
  yt_ocean : f64;
  xt_ocean : f64;
  pred : f64;
  month : Z;
  model : option string
}.

Definition DataFrame : Type := list Row.

(** [pd.concat(frames)]: nothing to concatenate is an error. *)
Definition concat (frames : list DataFrame) : option DataFrame :=
  match frames with
  | [] => None
  | _ => Some (List.concat frames)
  end.

(** [series.unique()]: distinct values in order of first appearance. *)
Fixpoint unique {A : Type} (eqb : A -> A -> bool) (l : list A) : list A :=
  match l with
  | [] => []
  | x :: t => x :: filter (fun y => negb (eqb x y)) (unique eqb t)
  end.

(** The group key of a row; a missing coordinate leaves the row out. *)
Definition key_of (r : Row) : option (Qc * Qc) :=
  match yt_ocean r, xt_ocean r with
  | Num y, Num x => Some (y, x)
  | _, _ => None
  end.

Definition key_eqb (a b : Qc * Qc) : bool :=
  Qc_eq_bool (fst a) (fst b) && Qc_eq_bool (snd a) (snd b).

Definition key_ltb (a b : Qc * Qc) : bool :=
  Qcltb (fst a) (fst b) || (Qc_eq_bool (fst a) (fst b) && Qcltb (snd a) (snd b)).

Fixpoint insert_group (k : Qc * Qc) (l : list (Qc * Qc)) : list (Qc * Qc) :=
  match l with
  | [] => [k]
  | h :: t =>
      if key_ltb k h then k :: l
      else if key_ltb h k then h :: insert_group k t
      else l
  end.

(** The keys of the groups, sorted by (yt_ocean, xt_ocean). *)
Definition group_keys (df : DataFrame) : list (Qc * Qc) :=
  fold_right (fun r acc => match key_of r with
                           | Some k => insert_group k acc
                           | None => acc
                           end) [] df.

Definition in_group (k : Qc * Qc) (r : Row) : bool :=
  match key_of r with
  | Some k' => key_eqb k k'
  | None => false
  end.

Definition valid_cells (l : list f64) : list Qc :=
  flat_map (fun v => match v with Num q => [q] | NaN => [] end) l.

(** The mean of the valid cells, NaN when there is none. *)
Definition mean (l : list f64) : f64 :=
  match valid_cells l with
  | [] => NaN
  | q :: qs =>
      Num (fold_right Qcplus 0%Qc (q :: qs) / Z2Qc (Z.of_nat (List.length (q :: qs))))%Qc
  end.

(** The mean of an integer column whose entries are all equal. *)
Definition mean_month (l : list Z) : Z :=
  (fold_right Z.add 0 l / Z.of_nat (List.length l))%Z.

(** [df.groupby(['yt_ocean', 'xt_ocean']).mean('pred').reset_index()]:
    one row per group, the numeric columns averaged, no model column. *)
Definition groupby_mean (df : DataFrame) : DataFrame :=
  map (fun k =>
         let rows := filter (in_group k) df in
         mkRow (Num (fst k)) (Num (snd k)) (mean (map pred rows))
               (mean_month (map month rows)) None)
      (group_keys df).

(** [df['model'] = name] *)
Definition set_model (name : string) (df : DataFrame) : DataFrame :=
  map (fun r => mkRow (yt_ocean r) (xt_ocean r) (pred r) (month r) (Some name)) df.

(** [df.model.dropna().unique()] *)
Definition model_names (df : DataFrame) : list string :=
  unique String.eqb
    (flat_map (fun r => match model r with Some s => [s] | None => [] end) df).

(** [calendar.month_name]: thirteen entries, the first one empty. *)
Definition month_names : list string :=
  [""; "January"; "February"; "March"; "April"; "May"; "June"; "July";
   "August"; "September"; "October"; "November"; "December"].

(** [calendar.month_name[m]]: a negative index counts from the end. *)
Definition month_name (m : Z) : option string :=
  if ((0 <=? m) && (m <? 13))%Z then nth_error month_names (Z.to_nat m)
  else if ((-13 <=? m) && (m <? 0))%Z then nth_error month_names (Z.to_nat (m + 13))
  else None.

Definition from_list {A : Type} (d : string) (l : list A) (dflt : A) : pos -> A :=
  fun i => nth (i d) l dflt.

(** The coordinate values handed to the [xr.DataArray] constructor for
    axis [d] of length [n]: a one-dimensional array of that length. *)
Definition values_for {V : Type} (src : DataArray V) (key d : string) (n : nat)
  : option Coord :=
  do c <- getitem src key;
  match cdims c with
  | [dc] =>
      do m <- size src dc;
      do _ <- guard (Nat.eqb m n);
      Some (mkCoord [d] (cdata_at (fun i => upd origin dc (i d)) (cvals c)))
  | _ => None
  end.

(** The body of the loop over months: the (model, yt_ocean, xt_ocean)
    array of month [m]. *)
Definition month_array {V : Type} (df : DataFrame) (grid_sample : DataArray V) (m : Z)
  : option (DataArray f64) :=
  let mth := filter (fun r => Z.eqb (month r) m) df in
  let mth_mean := set_model "Ensemble" (groupby_mean mth) in
  let mth := (mth ++ mth_mean)%list in
  let mods := model_names mth in
  match shape grid_sample with
  | [n0; n1] =>
      do _ <- guard (Nat.eqb (List.length mth) (List.length mods * n0 * n1));
      do xc <- values_for grid_sample "xt_ocean" "xt_ocean" n1;
      do yc <- values_for grid_sample "yt_ocean" "yt_ocean" n0;
      Some (mkDA None
              [("model", List.length mods); ("yt_ocean", n0); ("xt_ocean", n1)]
              (fun i => nth ((i "model" * n0 + i "yt_ocean") * n1 + i "xt_ocean")
                            (map pred mth) NaN)
              [("model", mkCoord ["model"] (CStr (from_list "model" mods "")));
               ("xt_ocean", xc); ("yt_ocean", yc)]
              [])
  | _ => None
  end.

(** The model labels of a month's array. *)
Definition labels (da : DataArray f64) : list string :=
  match lookup "model" (coords da), size da "model" with
  | Some c, Some n => default [] (str_vector (cvals c) "model" n)
  | _, _ => []
  end.

Fixpoint insert_label (s : string) (l : list string) : list string :=
  match l with
  | [] => [s]
  | h :: t => if String.leb s h then s :: l else h :: insert_label s t
  end.

(** The union of several indexes ([pd.Index.union]): the distinct labels
    in order of appearance, then sorted. *)
Definition union_sorted (ls : list (list string)) : list string :=
  fold_right insert_label [] (unique String.eqb (List.concat ls)).

Fixpoint find_label (s : string) (l : list string) : option nat :=
  match l with
  | [] => None
  | h :: t => if String.eqb s h then Some 0 else option_map S (find_label s t)
  end.

(** [da.reindex(model = joined)]: a label the array lacks reads NaN. *)
Definition reindex_model (joined : list string) (da : DataArray f64) : DataArray f64 :=
  let old := labels da in
  mkDA (name da)
       (map (fun e => if String.eqb (fst e) "model" then ("model", List.length joined) else e)
            (dims da))
       (fun i => match find_label (nth (i "model") joined "") old with
                 | Some p => values da (upd i "model" p)
                 | None => NaN
                 end)
       (map (fun e => if String.eqb (fst e) "model"
                      then ("model", mkCoord ["model"] (CStr (from_list "model" joined "")))
                      else e)
            (coords da))
       (attrs da).

Definition list_eqb (a b : list string) : bool :=
  Nat.eqb (List.length a) (List.length b)
  && forallb (fun p => String.eqb (fst p) (snd p)) (combine a b).

(** [xr.Dataset(ds)]: the variables are aligned on their indexes with an
    outer join; equal indexes are kept as they are. *)
Definition Dataset (ds : list (string * DataArray f64)) : list (string * DataArray f64) :=
  match map (fun e => labels (snd e)) ds with
  | [] => ds
  | first :: rest =>
      if forallb (list_eqb first) rest then ds
      else map (fun e => (fst e, reindex_model (union_sorted (first :: rest)) (snd e))) ds
  end.

Definition ds_sdm {V : Type} (list_df : list DataFrame) (grid_sample : DataArray V)
  : option (list (string * DataArray f64)) :=
  do df <- concat list_df;
  do ds <- fold_left (fun acc m =>
                        do ds <- acc;
                        do mth_da <- month_array df grid_sample m;
                        do mth_name <- month_name m;
                        Some (assign mth_name mth_da ds))
                     (unique Z.eqb (map month df)) (Some []);
  Some (Dataset ds).

(** ** Vocabulary of the statements *)

(** A one-dimensional numeric coordinate: its axis and its vector. *)
Definition coordinate {V : Type} (da : DataArray V) (key : string)
  : option (string * list Qc) :=
  do c <- getitem da key;
  match cdims c with
  | [d] =>
      do n <- size da d;
      do v <- num_vector (cvals c) d n;
      Some (d, v)
  | _ => None
  end.

(** The longitude axis [corrlong] works on: its dimension and vector. *)
Definition x_axis {V : Type} (da : DataArray V) : option (string * list Qc) :=
  coordinate da (if name_in da ["u"; "v"] then "xu_ocean" else "xt_ocean").

(** The timestamps of the time axis. *)
Definition time_of {V : Type} (da : DataArray V) : option (list Z) :=
  do n <- size da "time";
  do c <- lookup "time" (coords da);
  match cdims c with
  | [d] => if String.eqb d "time" then time_vector (cvals c) "time" n else None
  | _ => None
  end.

(** The latitude axis the subsetting works on. *)
Definition y_name {V : Type} (da : DataArray V) : string :=
  if name_in da ["u"; "v"] then "yu_ocean" else "yt_ocean".

Definition in_band (lo hi : Qc) (y : Qc) : bool :=
  Qcleb lo y && Qcleb y hi.

(** The ocean name of an axis of the sea-ice grid. *)
Definition ocean_name (d : string) : string :=
  rename_name "nj" "yt_ocean" (rename_name "ni" "xt_ocean" d).

(** The ice-grid position an ocean-named position stands for. *)
Definition ice_pos (i : pos) : pos := fun d => i (ocean_name d).

(** The coordinates of a sea-ice field once reconciled with [area_t]. *)
Definition ocean_coord (c : Coord) : Coord :=
  mkCoord (map ocean_name (cdims c)) (cdata_at ice_pos (cvals c)).

Definition long_name_of {V : Type} (da : DataArray V) : string :=
  if name_in da ["u"; "v"] then "xu_ocean" else "xt_ocean".

(** A coordinate that reads nothing but its own axis [d]. *)
Definition axis_only (d : string) (c : Coord) : Prop :=
  cdims c = [d] /\
  match cvals c with
  | CTime f => forall i j : pos, i d = j d -> f i = f j
  | CNum f => forall i j : pos, i d = j d -> f i = f j
  | CStr f => forall i j : pos, i d = j d -> f i = f j
  end.

(** Two coordinate variables that agree at every position of an array. *)
Definition same_coord (ds : list (string * nat)) (a b : Coord) : Prop :=
  cdims a = cdims b /\
  match cvals a, cvals b with
  | CTime f, CTime g => forall i, inside ds i -> f i = g i
  | CNum f, CNum g => forall i, inside ds i -> f i = g i
  | CStr f, CStr g => forall i, inside ds i -> f i = g i
  | _, _ => False
  end.

(** Identical fields: same name, axes, attributes, coordinates and cells. *)
Definition same_field {V : Type} (a b : DataArray V) : Prop :=
  name a = name b /\ dims a = dims b /\ attrs a = attrs b /\
  (forall i, inside (dims a) i -> values a i = values b i) /\
  Forall2 (fun ca cb => fst ca = fst cb /\ same_coord (dims a) (snd ca) (snd cb))
          (coords a) (coords b).

Definition normalised (x : Qc) : Prop :=
  (Z2Qc (-180) <= x)%Qc /\ (x < Z2Qc 180)%Qc.

(** Within half a turn of zero, both ends included. *)
Definition within_half_turn (x : Qc) : Prop :=
  (Z2Qc (-180) <= x)%Qc /\ (x <= Z2Qc 180)%Qc.

(** A number that float64 holds as it is. *)
Definition float64 (x : Qc) : Prop := round64 x = x.

(** A float64 longitude to which 180 is added without rounding. *)
Definition shifts_exactly (x : Qc) : Prop :=
  float64 x /\ float64 (x + Z2Qc 180)%Qc.

(** Two numbers at most [eps] apart. *)
Definition near (eps a b : Qc) : Prop :=
  (b - eps <= a)%Qc /\ (a <= b + eps)%Qc.

(** What the roundings of [wrap_longitude] can add up to at x:
    |x + 180| 2^-53 + 2^-44. *)
Definition rounding_slack (x : Qc) : Qc :=
  Q2Qc (Qabs (x + Z2Qc 180)%Qc * pow2 (-53) + pow2 (-44))%Q.

(** The order of [np.lexsort] on the sort keys. *)
Definition key_le (a b : Qc * nat) : Prop := (fst a <= fst b)%Qc.


(** The depth column through position [i]. *)
Definition column (da : DataArray f64) (i : pos) (k : nat) : f64 :=
  values da (upd i "st_ocean" k).

(** [k] is the deepest offset holding data in a column of [n] cells. *)
Definition deepest_valid (col : nat -> f64) (n k : nat) : Prop :=
  k < n /\ isnan (col k) = false /\
  forall k', k < k' -> k' < n -> isnan (col k') = true.

(** How many of the first [n] offsets satisfy [v]. *)
Definition count_valid (v : nat -> bool) (n : nat) : nat :=
  List.length (filter v (seq 0 n)).

(** The mask of [extract_bottom_layer] along one column: the running
    count of cells with data, kept where there is data, compared with
    its maximum. *)
Definition column_mask (first : nat -> f64) (n k : nat) : f64 :=
  let valid j := negb (isnan (first j)) in
  let running j := Num (nansum (fun j' => if valid j' then Num 1%Qc else NaN) (S j)) in
  let kept j := if valid j then running j else NaN in
  if feq (kept k) (nanmax kept n) then Num 1%Qc else NaN.

(** The cells of the reference field along y, at x offset [j]. *)
Definition ycolumn (da : DataArray f64) (j : nat) (k : nat) : f64 :=
  values da (upd (upd origin "xt_ocean" j) "yt_ocean" k).

(** A run of [n] cells with at least one valid cell. *)
Definition has_data (col : nat -> f64) (n : nat) : Prop :=
  exists k, k < n /\ isnan (col k) = false.

(** [k] is the first offset at which the run attains its largest valid
    value [m]. *)
Definition first_maximum (col : nat -> f64) (n k : nat) (m : Qc) : Prop :=
  k < n /\ col k = Num m /\
  (forall k' q, k' < n -> col k' = Num q -> (q <= m)%Qc) /\
  (forall k' q, k' < k -> col k' = Num q -> (q < m)%Qc).

(** What the scan for the maximum knows after the first [a] cells. *)
Definition scanned (f : nat -> f64) (a : nat) (best : option (nat * Qc)) : Prop :=
  match best with
  | None => forall k, k < a -> f k = NaN
  | Some (kb, m) => first_maximum f a kb m
  end.

(** The edge curve of a (y, x) reference field with latitudes [ys] and
    longitudes [xs]: per column, the latitude of the first maximum. *)
Definition edge_points (target_da : DataArray f64) (ny nx : nat) (ys xs : list Qc)
  : list (Qc * Qc) :=
  combine (map (fun j => nth (default 0 (nanargmax (ycolumn target_da j) ny)) ys 0%Qc)
               (seq 0 nx))
          xs.

(** A (latitude, longitude) pair of degrees, in radians. *)
Definition radians (p : Qc * Qc) : R * R := (deg2rad (fst p), deg2rad (snd p)).

(** The model names of a table, row by row, missing ones left out. *)
Definition names_of (df : DataFrame) : list string :=
  flat_map (fun r => match model r with Some s => [s] | None => [] end) df.

(** The rows of month [m]. *)
Definition rows_of (df : DataFrame) (m : Z) : DataFrame :=
  filter (fun r => Z.eqb (month r) m) df.

(** The predictions made for cell (y, x) in month [m], one per model that
    has a row there. *)
Definition cell_preds (df : DataFrame) (m : Z) (y x : Qc) : list f64 :=
  map pred (filter (in_group (y, x)) (rows_of df m)).

(** Every row lies on a cell of the grid. *)
Definition on_grid (ys xs : list Qc) (rows : DataFrame) : Prop :=
  forall r, In r rows ->
            exists y x, key_of r = Some (y, x) /\ In y ys /\ In x xs.

(** Every cell of the grid has a row. *)
Definition covers (ys xs : list Qc) (rows : DataFrame) : Prop :=
  forall y x, In y ys -> In x xs -> exists r, In r rows /\ key_of r = Some (y, x).

(** A month whose rows fill the grid once per model. *)
Definition full_month (df : DataFrame) (ys xs : list Qc) (m : Z) : Prop :=
  on_grid ys xs (rows_of df m) /\
  covers ys xs (rows_of df m) /\
  List.length (rows_of df m)
  = List.length (model_names (rows_of df m)) * (List.length ys * List.length xs).

Fixpoint strictly_ascending (l : list Qc) : bool :=
  match l with
  | a :: (b :: _) as t => Qcltb a b && strictly_ascending t
  | _ => true
  end.

(** The order of the group keys: by y, then by x. *)
Definition key_lt (a b : Qc * Qc) : Prop :=
  (fst a < fst b)%Qc \/ (fst a = fst b /\ snd a < snd b)%Qc.

(** ** Sample data *)

(** A numeric coordinate along [d] read off a list of whole numbers. *)
Definition numbers (d : string) (l : list Z) : Coord :=
  mkCoord [d] (CNum (fun i => Z2Qc (nth (i d) l 0%Z))).

Definition timestamps (l : list Z) : Coord :=
  mkCoord ["time"] (CTime (fun i => nth (i "time") l 0%Z)).

(** 2010-01-01T00:00 *)
Definition new_year_2010 : Z := 14610 * nanoseconds_per_day.

(** Two daily records of sea-ice concentration on a 2 x 2 ice grid. *)
Definition sample_ice : DataArray f64 :=
  mkDA (Some "aice") [("time", 2); ("nj", 2); ("ni", 2)]
       (fun i => Num (Z2Qc (Z.of_nat (4 * i "time" + 2 * i "nj" + i "ni"))))
       [("time", timestamps [new_year_2010; (new_year_2010 + nanoseconds_per_day)%Z])]
       [].

(** The reference ocean field with latitudes [ys] and longitudes 0, 1. *)
Definition sample_area_t (ys : list Z) : DataArray f64 :=
  mkDA (Some "area_t") [("yt_ocean", List.length ys); ("xt_ocean", 2)]
       (fun _ => Num 1%Qc)
       [("yt_ocean", numbers "yt_ocean" ys); ("xt_ocean", numbers "xt_ocean" [0; 1]%Z)]
       [].

(** One record of zonal velocity on four latitudes of the u-grid. *)
Definition sample_u : DataArray f64 :=
  mkDA (Some "u") [("time", 1); ("st_ocean", 1); ("yu_ocean", 4); ("xu_ocean", 2)]
       (fun i => Num (Z2Qc (Z.of_nat (2 * i "yu_ocean" + i "xu_ocean"))))
       [("time", timestamps [new_year_2010]);
        ("yu_ocean", numbers "yu_ocean" [-80; -60; -45; -40]%Z);
        ("xu_ocean", numbers "xu_ocean" [0; 1]%Z)]
       [].

(** A catalogue that knows these three variables. *)
Definition sample_session (ys : list Z) : Session :=
  fun exp var q =>
    if String.eqb var "area_t" then Some (sample_area_t ys)
    else if String.eqb var "aice" then Some sample_ice
    else if String.eqb var "u" then Some sample_u
    else None.

(** A field on the longitudes 0, 90, 180, 270. *)
(** The float64 that 0.1 is read as, and the float64 just below -180. *)
Definition tenth : Qc := round64 (Q2Qc (1 # 10)).

Definition just_below_minus_180 : Qc := Q2Qc (- (180) - pow2 (-45))%Q.

(** One column of data at longitude x. *)
Definition sample_meridian (x : Qc) : DataArray f64 :=
  mkDA (Some "sst") [("xt_ocean", 1)]
       (fun _ => Num (Z2Qc 1))
       [("xt_ocean", mkCoord ["xt_ocean"] (CNum (fun _ => x)))]
       [].

Definition sample_lon : DataArray f64 :=
  mkDA (Some "sst") [("xt_ocean", 4)]
       (fun i => Num (Z2Qc (Z.of_nat (i "xt_ocean"))))
       [("xt_ocean", numbers "xt_ocean" [0; 90; 180; 270]%Z)]
       [].

(** The same columns on longitudes already in [-180, 180). *)
Definition sample_lon_west : DataArray f64 :=
  mkDA (Some "sst") [("xt_ocean", 4)]
       (fun i => Num (Z2Qc (Z.of_nat (i "xt_ocean"))))
       [("xt_ocean", numbers "xt_ocean" [-180; -90; 0; 90]%Z)]
       [].

(** Two records of a 4-level field on a 1 x 2 grid: the column at x = 0
    holds data at depths 0, 1, 2 and nothing below; the column at x = 1
    (land) holds nothing at all. *)
Definition sample_depths : DataArray f64 :=
  mkDA (Some "temp")
       [("time", 2); ("st_ocean", 4); ("yt_ocean", 1); ("xt_ocean", 2)]
       (fun i => if (Nat.eqb (i "xt_ocean") 0 && (i "st_ocean" <? 3))%bool
                 then Num (Z2Qc (Z.of_nat (10 * i "time" + i "st_ocean" + 1)))
                 else NaN)
       [] [].

(** The cell at time [t] of the column at x = [x]. *)
Definition cell (t x : nat) : pos :=
  upd (upd origin "time" t) "xt_ocean" x.

(** A sea-ice concentration record on three latitudes and two longitudes:
    the column at x = 0 holds 1, 5, 5 (its maximum twice), the column at
    x = 1 holds data at its middle cell only. *)
Definition sample_ref : DataArray f64 :=
  mkDA (Some "aice") [("yt_ocean", 3); ("xt_ocean", 2)]
       (fun i => if Nat.eqb (i "xt_ocean") 0
                 then nth (i "yt_ocean") [Num (Z2Qc 1); Num (Z2Qc 5); Num (Z2Qc 5)] NaN
                 else nth (i "yt_ocean") [NaN; Num (Z2Qc 2); NaN] NaN)
       [("time", mkCoord [] (CTime (fun _ => new_year_2010)));
        ("yt_ocean", numbers "yt_ocean" [-70; -60; -50]%Z);
        ("xt_ocean", numbers "xt_ocean" [10; 20]%Z)]
       [].

(** The six cells of that grid, in radians, row by row. *)
Definition sample_grid : list (R * R) :=
  map radians
      (map (fun p => (Z2Qc (fst p), Z2Qc (snd p)))
           [(-70, 10); (-70, 20); (-60, 10); (-60, 20); (-50, 10); (-50, 20)]%Z).

(** A single ice cell at latitude 0, longitude 1 degree. *)
Definition sample_point : DataArray f64 :=
  mkDA (Some "aice") [("yt_ocean", 1); ("xt_ocean", 1)]
       (fun _ => Num 1%Qc)
       [("time", mkCoord [] (CTime (fun _ => new_year_2010)));
        ("yt_ocean", numbers "yt_ocean" [0]%Z);
        ("xt_ocean", numbers "xt_ocean" [1]%Z)]
       [].

(** The sample grid of the SDM tables: one latitude, two longitudes. *)
Definition sample_sdm_grid : DataArray f64 :=
  mkDA None [("yt_ocean", 1); ("xt_ocean", 2)] (fun _ => NaN)
       [("yt_ocean", numbers "yt_ocean" [-60]%Z);
        ("xt_ocean", numbers "xt_ocean" [10; 20]%Z)]
       [].

Definition sdm_row (y x : Z) (v : Qc) (m : Z) (name : string) : Row :=
  mkRow (Num (Z2Qc y)) (Num (Z2Qc x)) (Num v) m (Some name).

(** January predictions of two models on that grid. *)
Definition sample_gam : DataFrame :=
  [sdm_row (-60) 10 (Z2Qc 1) 1 "GAM"; sdm_row (-60) 20 (Z2Qc 2) 1 "GAM"].

Definition sample_rf : DataFrame :=
  [sdm_row (-60) 20 (Z2Qc 4) 1 "RF"; sdm_row (-60) 10 (Z2Qc 4) 1 "RF"].

(** A sample grid whose latitudes run from north to south: two
    latitudes, one longitude. *)
Definition sample_grid_north_first : DataArray f64 :=
  mkDA None [("yt_ocean", 2); ("xt_ocean", 1)] (fun _ => NaN)
       [("yt_ocean", numbers "yt_ocean" [-50; -60]%Z);
        ("xt_ocean", numbers "xt_ocean" [10]%Z)]
       [].

(** January predictions of two models on that grid, listed in the order
    of the grid: 1 and 3 at latitude -50, 100 and 300 at latitude -60. *)
Definition sample_gam_north_first : DataFrame :=
  [sdm_row (-50) 10 (Z2Qc 1) 1 "GAM"; sdm_row (-60) 10 (Z2Qc 100) 1 "GAM"].

Definition sample_rf_north_first : DataFrame :=
  [sdm_row (-50) 10 (Z2Qc 3) 1 "RF"; sdm_row (-60) 10 (Z2Qc 300) 1 "RF"].

(** The cell of layer [p] at latitude offset [k] on a grid of one
    longitude. *)
Definition at_cell (p k : nat) : pos := upd (upd origin "model" p) "yt_ocean" k.

(* ================================================================== *)
(** * Further definitions *)

(** ** df_ready *)

(** A table as [pd.read_csv] returns it: the names of its columns and its
    rows. *)
Record Csv : Type := mkCsv {
  columns : list string;
  records : list Row
}.

(** What [pd.read_csv] finds at a path: a table, or nothing it can read. *)
Definition Files : Type := string -> option Csv.

Definition read_csv (fs : Files) (file_path : string) : option Csv := fs file_path.

(** A row of the target grid table: its columns are yt_ocean, xt_ocean
    and month. *)
Record Cell : Type := mkCell {
  cell_y : f64;
  cell_x : f64;
  cell_month : Z
}.

(** [df['model'] = model] *)
Definition set_model_column (model : string) (df : Csv) : Csv :=
  mkCsv (if mem "model" (columns df) then columns df
         else (columns df ++ ["model"])%list)
        (set_model model (records df)).

(** [df[names]]: a name that is no column raises. *)
Definition select_columns (names : list string) (df : Csv) : option Csv :=
  do _ <- guard (forallb (fun c => mem c (columns df)) names);
  Some (mkCsv names (records df)).

(** Join keys are compared as pandas compares them: a missing key equals
    a missing key. *)
Definition same_key (a b : f64) : bool :=
  match a, b with
  | NaN, NaN => true
  | Num p, Num q => Qc_eq_bool p q
  | _, _ => false
  end.

Definition on_cell (c : Cell) (r : Row) : bool :=
  same_key (cell_x c) (xt_ocean r) && same_key (cell_y c) (yt_ocean r)
  && Z.eqb (cell_month c) (month r).

(** [left.merge(right, on = ['xt_ocean', 'yt_ocean', 'month'], how = 'left')]:
    the rows of [left] in their order, each once per matching row of
    [right] in the order of [right], or once with the other columns
    missing when no row matches. *)
Definition merge_left (left : list Cell) (right : list Row) : DataFrame :=
  flat_map (fun c =>
              match filter (on_cell c) right with
              | [] => [mkRow (cell_y c) (cell_x c) NaN (cell_month c) None]
              | hits =>
                  map (fun r => mkRow (cell_y c) (cell_x c) (pred r) (cell_month c) (model r))
                      hits
              end) left.

Definition df_ready (fs : Files) (file_path model : string) (df_coords : list Cell)
  : option DataFrame :=
  do df <- read_csv fs file_path;
  let df := set_model_column model df in
  do df <- select_columns ["yt_ocean"; "xt_ocean"; "pred"; "month"; "model"] df;
  Some (merge_left df_coords (records df)).

(** ** Vocabulary of the further statements *)

(** The grid cell a row of a prepared table stands on. *)
Definition cell_of (r : Row) : Cell := mkCell (yt_ocean r) (xt_ocean r) (month r).

(** The rows of a file that predict for cell [c]. *)
Definition predictions (df : Csv) (c : Cell) : list Row :=
  filter (on_cell c) (records df).

(** A file with the four columns [df_ready] reads. *)
Definition readable (df : Csv) : bool :=
  forallb (fun c => mem c (columns df)) ["yt_ocean"; "xt_ocean"; "pred"; "month"].

(** The prediction a file holds for a cell, missing when it holds none. *)
Definition prediction (df : Csv) (c : Cell) : f64 :=
  match predictions df c with
  | r :: _ => pred r
  | [] => NaN
  end.

(** A file that predicts exactly once for every cell of a grid table. *)
Definition predicts_once (cells : list Cell) (df : Csv) : bool :=
  forallb (fun c => Nat.eqb (List.length (predictions df c)) 1) cells.

(** The target grid table that lists, month after month, the cells of a
    grid row by row. *)
Definition grid_table (months : list Z) (ys xs : list Qc) : list Cell :=
  flat_map (fun m => map (fun k => mkCell (Num (fst k)) (Num (snd k)) m) (list_prod ys xs))
           months.

(** The row of a prepared table for a cell. *)
Definition prepared_row (name : string) (df : Csv) (c : Cell) : Row :=
  mkRow (cell_y c) (cell_x c) (prediction df c) (cell_month c) (Some name).

(** A source of predictions: the path of a file, the name of its model
    and the table the file holds. *)
Definition Source : Type := string * string * Csv.

Definition source_path (s : Source) : string := fst (fst s).
Definition source_model (s : Source) : string := snd (fst s).
Definition source_file (s : Source) : Csv := snd s.

(** [full_month], decided. *)
Definition full_month_b (df : DataFrame) (ys xs : list Qc) (m : Z) : bool :=
  let rows := rows_of df m in
  forallb (fun r => existsb (fun y => existsb (fun x => in_group (y, x) r) xs) ys) rows
  && forallb (fun y => forallb (fun x => existsb (in_group (y, x)) rows) xs) ys
  && Nat.eqb (List.length rows)
             (List.length (model_names rows) * (List.length ys * List.length xs)).

(** Tables [ds_sdm] can work on: every month is one of the twelve and
    full, and no model is named Ensemble. *)
Definition full_tables (df : DataFrame) (ys xs : list Qc) : bool :=
  forallb (fun m => (1 <=? m)%Z && (m <=? 12)%Z && full_month_b df ys xs m) (map month df)
  && forallb (fun r => negb (eq_name (model r) (Some "Ensemble"))) df.

(** ** Further sample data *)

(** Two records of a 2-level field on one cell: both levels hold data in
    the first record, the deeper one is missing in the second. *)
Definition sample_changing : DataArray f64 :=
  mkDA (Some "temp") [("time", 2); ("st_ocean", 2); ("yt_ocean", 1); ("xt_ocean", 1)]
       (fun i => if (Nat.eqb (i "time") 1 && Nat.eqb (i "st_ocean") 1)%bool then NaN
                 else Num (Z2Qc (Z.of_nat (10 * i "time" + i "st_ocean" + 1))))
       [] [].

(** A reference field on two latitudes and two longitudes whose column at
    x = 1 holds no data (land). *)
Definition sample_ref_land : DataArray f64 :=
  mkDA (Some "aice") [("yt_ocean", 2); ("xt_ocean", 2)]
       (fun i => if Nat.eqb (i "xt_ocean") 0 then Num (Z2Qc 1) else NaN)
       [("time", mkCoord [] (CTime (fun _ => new_year_2010)));
        ("yt_ocean", numbers "yt_ocean" [-70; -60]%Z);
        ("xt_ocean", numbers "xt_ocean" [10; 20]%Z)]
       [].

(** A wind-stress record on the u-grid: its name is neither u nor v. *)
Definition sample_tau_x : DataArray f64 :=
  mkDA (Some "tau_x") [("time", 1); ("yu_ocean", 4); ("xu_ocean", 2)]
       (fun i => Num (Z2Qc (Z.of_nat (2 * i "yu_ocean" + i "xu_ocean"))))
       [("time", timestamps [new_year_2010]);
        ("yu_ocean", numbers "yu_ocean" [-80; -60; -45; -40]%Z);
        ("xu_ocean", numbers "xu_ocean" [0; 1]%Z)]
       [].

(** A catalogue that answers every query with that record. *)
Definition sample_stress_session : Session :=
  fun exp var q => Some sample_tau_x.

(** A sea-ice record as the catalogue holds it with its coordinates left
    undecoded: the curvilinear longitudes and latitudes of the ice grid
    come along as data on (nj, ni). *)
Definition sample_ice_geo : DataArray f64 :=
  mkDA (Some "hi") [("time", 1); ("nj", 2); ("ni", 2)]
       (fun i => Num (Z2Qc (Z.of_nat (2 * i "nj" + i "ni"))))
       [("time", timestamps [new_year_2010]);
        ("TLON", mkCoord ["nj"; "ni"] (CNum (fun i => Z2Qc (Z.of_nat (i "ni")))));
        ("TLAT", mkCoord ["nj"; "ni"] (CNum (fun i => Z2Qc (Z.of_nat (i "nj")))));
        ("ULON", mkCoord ["nj"; "ni"] (CNum (fun i => Z2Qc (Z.of_nat (i "ni")))));
        ("ULAT", mkCoord ["nj"; "ni"] (CNum (fun i => Z2Qc (Z.of_nat (i "nj")))))]
       [].

Definition sample_geo_session : Session :=
  fun exp var q =>
    if String.eqb var "area_t" then Some (sample_area_t [-80; -79]%Z)
    else Some sample_ice_geo.

(** January predictions of a third model, which misses the cell at
    x = 20. *)
Definition sample_brt_short : DataFrame :=
  [sdm_row (-60) 10 (Z2Qc 7) 1 "BRT"].

(** A table whose single row bears the month number 13. *)
Definition sample_month_13 : DataFrame :=
  [sdm_row (-60) 10 (Z2Qc 7) 13 "GAM"].

(** January predictions of a model, listed from east to west. *)
Definition sample_rf_east_first : DataFrame :=
  [sdm_row (-60) 20 (Z2Qc 3) 1 "RF"; sdm_row (-60) 10 (Z2Qc 4) 1 "RF"].

(** February predictions of the first model alone. *)
Definition sample_gam_february : DataFrame :=
  [sdm_row (-60) 10 (Z2Qc 5) 2 "GAM"; sdm_row (-60) 20 (Z2Qc 6) 2 "GAM"].

(** A file of predictions for two cells of January, one of them off the
    sample grid, with a model column of its own. *)
Definition sample_csv : Csv :=
  mkCsv ["xt_ocean"; "yt_ocean"; "month"; "pred"; "model"; "se"]
        [sdm_row (-60) 20 (Z2Qc 2) 1 "old"; sdm_row (-50) 10 (Z2Qc 9) 1 "old"].

Definition sample_files : Files :=
  fun path => if String.eqb path "gam.csv" then Some sample_csv else None.

(** The two cells of the sample grid, in January. *)
Definition sample_cells : list Cell :=
  [mkCell (Num (Z2Qc (-60))) (Num (Z2Qc 10)) 1; mkCell (Num (Z2Qc (-60))) (Num (Z2Qc 20)) 1].

(** A row of a file without a model column. *)
Definition csv_row (y x : Z) (v : Qc) (m : Z) : Row :=
  mkRow (Num (Z2Qc y)) (Num (Z2Qc x)) (Num v) m None.

(** Two files of January predictions on the sample grid, the first one
    listing the eastern cell first. *)
Definition sample_csv_gam : Csv :=
  mkCsv ["yt_ocean"; "xt_ocean"; "pred"; "month"]
        [csv_row (-60) 20 (Z2Qc 2) 1; csv_row (-60) 10 (Z2Qc 1) 1].

Definition sample_csv_rf : Csv :=
  mkCsv ["yt_ocean"; "xt_ocean"; "pred"; "month"]
        [csv_row (-60) 10 (Z2Qc 4) 1; csv_row (-60) 20 (Z2Qc 3) 1].

Definition sample_sources : list Source :=
  [("gam_full.csv", "GAM", sample_csv_gam); ("rf_full.csv", "RF", sample_csv_rf)].

Definition sample_source_files : Files :=
  fun path =>
    if String.eqb path "gam_full.csv" then Some sample_csv_gam
    else if String.eqb path "rf_full.csv" then Some sample_csv_rf
    else None.
(* ================================================================== *)
(** * Proofs *)

(** ** Named positions *)

Lemma upd_same : forall i d k, upd i d k d = k.
Proof. intros; unfold upd; now rewrite String.eqb_refl. Qed.

Lemma upd_other : forall i d k d', d' <> d -> upd i d k d' = i d'.
Proof.
  intros i d k d' H; unfold upd.
  destruct (String.eqb_spec d' d); [contradiction | reflexivity].
Qed.

Lemma upd_upd : forall i d a b, upd (upd i d a) d b = upd i d b.
Proof.
  intros; apply functional_extensionality; intro d'; unfold upd.
  now destruct (String.eqb d' d).
Qed.

Lemma upd_id : forall i d, upd i d (i d) = i.
Proof.
  intros; apply functional_extensionality; intro d'; unfold upd.
  destruct (String.eqb_spec d' d); congruence.
Qed.

Lemma upd_comm : forall i d1 d2 a b,
  d1 <> d2 -> upd (upd i d1 a) d2 b = upd (upd i d2 b) d1 a.
Proof.
  intros; apply functional_extensionality; intro d'; unfold upd.
  destruct (String.eqb_spec d' d2), (String.eqb_spec d' d1); congruence.
Qed.

(** ** Association lists *)

Lemma lookup_assign_same : forall (A : Type) k (v : A) l,
  lookup k (assign k v l) = Some v.
Proof.
  induction l as [| [k' v'] t IH]; simpl.
  - now rewrite String.eqb_refl.
  - destruct (String.eqb k k') eqn:E; simpl.
    + now rewrite String.eqb_refl.
    + now rewrite E.
Qed.

Lemma lookup_assign_other : forall (A : Type) k k' (v : A) l,
  k' <> k -> lookup k' (assign k v l) = lookup k' l.
Proof.
  induction l as [| [k0 v0] t IH]; simpl; intro H.
  - destruct (String.eqb_spec k' k); [contradiction | reflexivity].
  - destruct (String.eqb_spec k k0); simpl.
    + subst k0. destruct (String.eqb_spec k' k); [contradiction | reflexivity].
    + destruct (String.eqb k' k0); auto.
Qed.

Lemma lookup_In : forall (A : Type) k (v : A) l,
  lookup k l = Some v -> In (k, v) l.
Proof.
  induction l as [| [k' v'] t IH]; simpl; [discriminate |].
  destruct (String.eqb_spec k k'); intro H.
  - left; congruence.
  - right; auto.
Qed.

(** ** Rational arithmetic *)

Lemma Qcleb_spec : forall x y, Qcleb x y = true <-> (x <= y)%Qc.
Proof. intros; unfold Qcleb, Qcle; apply Qle_bool_iff. Qed.

Lemma Qcltb_spec : forall x y, Qcltb x y = true <-> (x < y)%Qc.
Proof.
  intros; unfold Qcltb, Qclt.
  rewrite negb_true_iff, <- not_true_iff_false, Qle_bool_iff.
  split; [apply Qnot_le_lt | apply Qlt_not_le].
Qed.

Lemma Qcltb_false : forall x y, Qcltb x y = false <-> (y <= x)%Qc.
Proof.
  intros; unfold Qcltb, Qcle.
  rewrite negb_false_iff; apply Qle_bool_iff.
Qed.

Lemma Qc_eq_bool_refl : forall x, Qc_eq_bool x x = true.
Proof.
  intro x; unfold Qc_eq_bool. destruct (Qc_eq_dec x x); congruence.
Qed.

Lemma Qc_eq_bool_spec : forall x y, Qc_eq_bool x y = true <-> x = y.
Proof.
  split; [apply Qc_eq_bool_correct | intros ->; apply Qc_eq_bool_refl].
Qed.

Lemma this_Z2Qc : forall z, (this (Z2Qc z) == inject_Z z)%Q.
Proof. intro z; unfold Z2Qc, Q2Qc; cbn [this]; apply Qred_correct. Qed.

(** ** float64 arithmetic *)

Local Open Scope Q_scope.

Lemma pow2_pos : forall e, 0 < pow2 e.
Proof. intro e. apply Qpower_0_lt. reflexivity. Qed.

Lemma pow2_plus : forall a b, pow2 (a + b) == pow2 a * pow2 b.
Proof. intros a b. unfold pow2. apply Qpower_plus. discriminate. Qed.

Lemma pow2_le : forall a b, (a <= b)%Z -> pow2 a <= pow2 b.
Proof. intros a b H. unfold pow2. apply Qpower_le_compat_l; [exact H | discriminate]. Qed.

Lemma pow2_lt : forall a b, (a < b)%Z -> pow2 a < pow2 b.
Proof. intros a b H. unfold pow2. apply Qpower_lt_compat_l; [exact H | reflexivity]. Qed.

Lemma pow2_Z : forall e, (0 <= e)%Z -> pow2 e == inject_Z (2 ^ e).
Proof. intros e H. unfold pow2. rewrite Zpower_Qpower by exact H. reflexivity. Qed.

Lemma rne_comp : forall q q', q == q' -> rne q = rne q'.
Proof.
  intros q q' H. unfold rne. rewrite (Qfloor_comp _ _ H).
  assert (E : q - inject_Z (Qfloor q') == q' - inject_Z (Qfloor q')) by (rewrite H; reflexivity).
  rewrite (Qcompare_comp _ _ E (1#2) (1#2) (Qeq_refl _)). reflexivity.
Qed.

Lemma rne_cases : forall q,
  let f := Qfloor q in
  (rne q = f /\ q - inject_Z f <= 1 # 2) \/
  (rne q = (f + 1)%Z /\ 1 # 2 <= q - inject_Z f).
Proof.
  intro q. cbv zeta. unfold rne.
  destruct (Qcompare (q - inject_Z (Qfloor q)) (1 # 2)) eqn:E.
  - apply Qeq_alt in E. destruct (Z.even (Qfloor q)); [left | right]; split; auto; rewrite E; apply Qle_refl.
  - apply Qlt_alt in E. left. split; [reflexivity | now apply Qlt_le_weak].
  - apply Qgt_alt in E. right. split; [reflexivity | now apply Qlt_le_weak].
Qed.

Lemma rne_error : forall q,
  - (1 # 2) <= inject_Z (rne q) - q <= 1 # 2.
Proof.
  intro q. pose proof (Qfloor_le q) as F1. pose proof (Qlt_floor q) as F2.
  rewrite inject_Z_plus in F2. change (inject_Z 1) with 1 in F2.
  destruct (rne_cases q) as [[-> H] | [-> H]].
  - split; lra.
  - rewrite inject_Z_plus. change (inject_Z 1) with 1. split; lra.
Qed.

Lemma rne_Z : forall z, rne (inject_Z z) = z.
Proof.
  intro z. pose proof (rne_error (inject_Z z)) as [H1 H2].
  assert (A : inject_Z (rne (inject_Z z) - z) < inject_Z 1).
  { unfold Z.sub. rewrite inject_Z_plus, inject_Z_opp. change (inject_Z 1) with 1. lra. }
  assert (B : inject_Z (-1) < inject_Z (rne (inject_Z z) - z)).
  { unfold Z.sub. rewrite inject_Z_plus, inject_Z_opp. change (inject_Z (-1)) with (-1). lra. }
  rewrite <- Zlt_Qlt in A, B. lia.
Qed.

Lemma rne_le : forall q n, q <= inject_Z n -> (rne q <= n)%Z.
Proof.
  intros q n H. pose proof (rne_error q) as [H1 H2].
  destruct (rne_cases q) as [[E _] | [E Hh]].
  - rewrite E. rewrite <- (Qfloor_Z n). now apply Qfloor_resp_le.
  - rewrite E. pose proof (Qfloor_resp_le _ _ H) as F. rewrite Qfloor_Z in F.
    destruct (Z.eq_dec (Qfloor q) n) as [En | ]; [| lia].
    exfalso. rewrite En in Hh. lra.
Qed.

Lemma rne_ge : forall q n, inject_Z n <= q -> (n <= rne q)%Z.
Proof.
  intros q n H.
  pose proof (Qfloor_resp_le _ _ H) as F. rewrite Qfloor_Z in F.
  destruct (rne_cases q) as [[E _] | [E _]]; rewrite E; lia.
Qed.

Lemma pow2_opp : forall e, pow2 (- e) == / pow2 e.
Proof. intro e. unfold pow2. apply Qpower_opp. Qed.

Lemma pow2_cancel : forall e, pow2 e * pow2 (- e) == 1.
Proof.
  intro e. rewrite pow2_opp. apply Qmult_inv_r.
  pose proof (pow2_pos e). lra.
Qed.

Lemma div_pow2 : forall q e, q / pow2 e == q * pow2 (- e).
Proof. intros q e. unfold Qdiv. now rewrite pow2_opp. Qed.

Lemma ilog2_comp : forall q q', q == q' -> ilog2 q = ilog2 q'.
Proof.
  intros q q' H. unfold ilog2.
  assert (A : Qabs q == Qabs q') by now apply Qabs_wd.
  assert (B : Qle_bool 1 (Qabs q) = Qle_bool 1 (Qabs q')).
  { destruct (Qle_bool 1 (Qabs q)) eqn:E1, (Qle_bool 1 (Qabs q')) eqn:E2; try reflexivity.
    - rewrite Qle_bool_iff in E1. rewrite A in E1. rewrite <- Qle_bool_iff in E1. congruence.
    - rewrite Qle_bool_iff in E2. rewrite <- A in E2. rewrite <- Qle_bool_iff in E2. congruence. }
  rewrite B. rewrite (Qfloor_comp _ _ A).
  assert (C : / Qabs q == / Qabs q') by now rewrite A.
  now rewrite (Qceiling_comp _ _ C).
Qed.

Lemma Qabs_pos_lt : forall q, ~ q == 0 -> 0 < Qabs q.
Proof.
  intros q H. pose proof (Qabs_nonneg q) as N.
  destruct (Qeq_dec (Qabs q) 0) as [E | E]; [| lra].
  exfalso. apply H. pose proof (Qle_Qabs q). pose proof (Qle_Qabs (- q)) as G.
  rewrite Qabs_opp in G. lra.
Qed.

(** The binade of a number. *)
Lemma ilog2_spec : forall q, ~ q == 0 ->
  pow2 (ilog2 q) <= Qabs q /\ Qabs q < pow2 (ilog2 q + 1).
Proof.
  intros q Hq. pose proof (Qabs_pos_lt q Hq) as Ha. unfold ilog2.
  set (a := Qabs q) in *.
  destruct (Qle_bool 1 a) eqn:E.
  - apply Qle_bool_iff in E.
    assert (Hf : (0 < Qfloor a)%Z).
    { pose proof (Qfloor_resp_le _ _ E) as F. change 1 with (inject_Z 1) in F.
      rewrite Qfloor_Z in F. lia. }
    destruct (Z.log2_spec _ Hf) as [L1 L2].
    pose proof (Z.log2_nonneg (Qfloor a)) as L0.
    rewrite !pow2_Z by lia.
    pose proof (Qfloor_le a) as F1. pose proof (Qlt_floor a) as F2.
    split.
    + apply Qle_trans with (inject_Z (Qfloor a)); [| exact F1]. now rewrite <- Zle_Qle.
    + apply Qlt_le_trans with (inject_Z (Qfloor a + 1)); [exact F2 |].
      rewrite <- Zle_Qle. unfold Z.succ in L2. lia.
  - assert (E' : a < 1).
    { apply Qnot_le_lt. intro C. apply Qle_bool_iff in C. congruence. }
    set (t := / a).
    assert (Hta : t * a == 1) by (unfold t; rewrite Qmult_comm; apply Qmult_inv_r; lra).
    clearbody t. clearbody a.
    assert (Ht : 1 < t) by nra.
    pose proof (Qle_ceiling t) as C1. pose proof (Qceiling_lt t) as C2.
    assert (Hc : (1 < Qceiling t)%Z).
    { rewrite Zlt_Qlt. change (inject_Z 1) with 1. lra. }
    destruct (Z.log2_up_spec _ Hc) as [L1 L2].
    pose proof (Z.log2_up_pos _ Hc) as L0.
    set (k := Z.log2_up (Qceiling t)) in *.
    split.
    + rewrite pow2_opp.
      assert (P : t <= pow2 k).
      { rewrite pow2_Z by lia. apply Qle_trans with (inject_Z (Qceiling t)); [exact C1 |].
        now rewrite <- Zle_Qle. }
      pose proof (pow2_pos k) as Pk.
      apply Qle_shift_inv_r; [exact Pk |].
      assert (0 <= a * (pow2 k - t)) by (apply Qmult_le_0_compat; lra). lra.
    + replace (- k + 1)%Z with (- (k - 1))%Z by lia. rewrite pow2_opp.
      assert (P : pow2 (k - 1) < t).
      { rewrite pow2_Z by lia. apply Qle_lt_trans with (inject_Z (Qceiling t - 1)); [| exact C2].
        rewrite <- Zle_Qle. change (Z.pred k) with (k - 1)%Z in L1. lia. }
      pose proof (pow2_pos (k - 1)) as Pk.
      apply Qlt_shift_inv_l; [exact Pk |].
      assert (0 < a * (t - pow2 (k - 1))) by (apply Qmult_lt_0_compat; lra). lra.
Qed.

Lemma ilog2_lt : forall q k, ~ q == 0 -> Qabs q < pow2 k -> (ilog2 q < k)%Z.
Proof.
  intros q k Hq H. destruct (ilog2_spec q Hq) as [L _].
  destruct (Z_lt_le_dec (ilog2 q) k) as [| C]; [assumption |].
  apply pow2_le in C. lra.
Qed.

Lemma ilog2_ge : forall q k, ~ q == 0 -> pow2 k <= Qabs q -> (k <= ilog2 q)%Z.
Proof.
  intros q k Hq H. destruct (ilog2_spec q Hq) as [_ U].
  destruct (Z_le_gt_dec k (ilog2 q)) as [| C]; [assumption |].
  assert (C' : (ilog2 q + 1 <= k)%Z) by lia.
  apply pow2_le in C'. lra.
Qed.

Lemma round64Q_comp : forall q q', q == q' -> round64Q q == round64Q q'.
Proof.
  intros q q' H. unfold round64Q, ulp_exponent.
  rewrite (ilog2_comp _ _ H).
  assert (B : Qeq_bool q 0 = Qeq_bool q' 0).
  { destruct (Qeq_bool q 0) eqn:E1, (Qeq_bool q' 0) eqn:E2; try reflexivity.
    - apply Qeq_bool_iff in E1. rewrite H in E1. apply Qeq_bool_iff in E1. congruence.
    - apply Qeq_bool_iff in E2. rewrite <- H in E2. apply Qeq_bool_iff in E2. congruence. }
  rewrite B. destruct (Qeq_bool q' 0); [reflexivity |].
  set (e := Z.max (ilog2 q' - 52) (-1074)).
  assert (C : q / pow2 e == q' / pow2 e) by now rewrite H.
  now rewrite (rne_comp _ _ C).
Qed.

Lemma round64Q_0 : round64Q 0 == 0.
Proof. reflexivity. Qed.

Lemma round64Q_nonzero : forall q, ~ q == 0 ->
  round64Q q = inject_Z (rne (q / pow2 (ulp_exponent q))) * pow2 (ulp_exponent q).
Proof.
  intros q H. unfold round64Q. destruct (Qeq_bool q 0) eqn:E; [| reflexivity].
  apply Qeq_bool_iff in E. contradiction.
Qed.

(** Below 2^53 the spacing of float64 is at most 1: rounding does not
    cross an integer. *)
Lemma ulp_exponent_small : forall q, ~ q == 0 -> Qabs q < pow2 53 -> (ulp_exponent q <= 0)%Z.
Proof.
  intros q Hq H. pose proof (ilog2_lt q 53 Hq H). unfold ulp_exponent. lia.
Qed.

Lemma round64Q_le_Z : forall q b, Qabs q < pow2 53 -> q <= inject_Z b -> round64Q q <= inject_Z b.
Proof.
  intros q b Hs H. destruct (Qeq_dec q 0) as [E | E].
  - rewrite (round64Q_comp _ _ E). rewrite round64Q_0. lra.
  - rewrite round64Q_nonzero by exact E.
    pose proof (ulp_exponent_small q E Hs) as He. set (e := ulp_exponent q) in *.
    pose proof (pow2_pos e) as Pe. pose proof (pow2_pos (- e)) as Pn.
    pose proof (pow2_cancel e) as Pc.
    assert (Pz : pow2 (- e) == inject_Z (2 ^ (- e))) by (apply pow2_Z; lia).
    assert (A : q / pow2 e <= inject_Z (b * 2 ^ (- e))).
    { rewrite div_pow2, inject_Z_mult, <- Pz. nra. }
    apply rne_le in A. rewrite Zle_Qle, inject_Z_mult, <- Pz in A.
    set (r := inject_Z (rne (q / pow2 e))) in *.
    assert (r * pow2 e <= inject_Z b * pow2 (- e) * pow2 e) by nra.
    assert (inject_Z b * pow2 (- e) * pow2 e == inject_Z b) by (rewrite <- Qmult_assoc, (Qmult_comm (pow2 (- e))), Pc; ring).
    lra.
Qed.

Lemma round64Q_ge_Z : forall q b, Qabs q < pow2 53 -> inject_Z b <= q -> inject_Z b <= round64Q q.
Proof.
  intros q b Hs H. destruct (Qeq_dec q 0) as [E | E].
  - rewrite (round64Q_comp _ _ E). rewrite round64Q_0. lra.
  - rewrite round64Q_nonzero by exact E.
    pose proof (ulp_exponent_small q E Hs) as He. set (e := ulp_exponent q) in *.
    pose proof (pow2_pos e) as Pe. pose proof (pow2_pos (- e)) as Pn.
    pose proof (pow2_cancel e) as Pc.
    assert (Pz : pow2 (- e) == inject_Z (2 ^ (- e))) by (apply pow2_Z; lia).
    assert (A : inject_Z (b * 2 ^ (- e)) <= q / pow2 e).
    { rewrite div_pow2, inject_Z_mult, <- Pz. nra. }
    apply rne_ge in A. rewrite Zle_Qle, inject_Z_mult, <- Pz in A.
    set (r := inject_Z (rne (q / pow2 e))) in *.
    assert (inject_Z b * pow2 (- e) * pow2 e <= r * pow2 e) by nra.
    assert (inject_Z b * pow2 (- e) * pow2 e == inject_Z b) by (rewrite <- Qmult_assoc, (Qmult_comm (pow2 (- e))), Pc; ring).
    lra.
Qed.

(** Rounding moves a number by at most half a unit in the last place. *)
Lemma round64Q_error : forall q,
  - (pow2 (ulp_exponent q) * (1 # 2)) <= round64Q q - q <= pow2 (ulp_exponent q) * (1 # 2).
Proof.
  intro q. pose proof (pow2_pos (ulp_exponent q)) as Pe.
  destruct (Qeq_dec q 0) as [E | E].
  - pose proof (round64Q_comp _ _ E) as R. rewrite round64Q_0 in R. split; lra.
  - rewrite round64Q_nonzero by exact E. set (e := ulp_exponent q) in *.
    pose proof (rne_error (q / pow2 e)) as [H1 H2].
    set (r := inject_Z (rne (q / pow2 e))) in *.
    assert (Hq : q == q / pow2 e * pow2 e) by (field; lra).
    set (t := q / pow2 e) in *. clearbody t r.
    assert (0 <= (r - t + (1 # 2)) * pow2 e) by (apply Qmult_le_0_compat; lra).
    assert (0 <= ((1 # 2) - (r - t)) * pow2 e) by (apply Qmult_le_0_compat; lra).
    split; lra.
Qed.

Lemma this_round64 : forall x, this (round64 x) == round64Q x.
Proof. intro x. unfold round64, Q2Qc; cbn [this]. apply Qred_correct. Qed.

Lemma this_plus : forall x y : Qc, this (x + y)%Qc == this x + this y.
Proof. intros. unfold Qcplus, Q2Qc; cbn [this]. apply Qred_correct. Qed.

Lemma this_minus : forall x y : Qc, this (x - y)%Qc == this x - this y.
Proof.
  intros. unfold Qcminus, Qcplus, Qcopp, Q2Qc; cbn [this].
  rewrite !Qred_correct. reflexivity.
Qed.

Lemma this_mult : forall x y : Qc, this (x * y)%Qc == this x * this y.
Proof. intros. unfold Qcmult, Q2Qc; cbn [this]. apply Qred_correct. Qed.

Lemma this_add64 : forall a b, this (add64 a b) == round64Q (this a + this b).
Proof. intros. unfold add64. rewrite this_round64. apply round64Q_comp, this_plus. Qed.

Lemma this_sub64 : forall a b, this (sub64 a b) == round64Q (this a - this b).
Proof. intros. unfold sub64. rewrite this_round64. apply round64Q_comp, this_minus. Qed.

Lemma this_add64_Z : forall a z, this (add64 a (Z2Qc z)) == round64Q (this a + inject_Z z).
Proof.
  intros. rewrite this_add64. apply round64Q_comp. rewrite this_Z2Qc. reflexivity.
Qed.

Lemma this_sub64_Z : forall a z, this (sub64 a (Z2Qc z)) == round64Q (this a - inject_Z z).
Proof.
  intros. rewrite this_sub64. apply round64Q_comp. rewrite this_Z2Qc. reflexivity.
Qed.

Lemma Qcltb_0 : forall m : Qc, Qcltb m (Z2Qc 0) = true <-> this m < 0.
Proof.
  intro m. unfold Qcltb. rewrite negb_true_iff, <- not_true_iff_false, Qle_bool_iff.
  rewrite this_Z2Qc. change (inject_Z 0) with 0. split; [apply Qnot_le_lt | apply Qlt_not_le].
Qed.

Lemma Qc_eq_bool_0 : forall m : Qc, Qc_eq_bool m (Z2Qc 0) = true <-> this m == 0.
Proof.
  intro m. split.
  - intro H. apply Qc_eq_bool_correct in H. rewrite H. reflexivity.
  - intro H. unfold Qc_eq_bool. destruct (Qc_eq_dec m (Z2Qc 0)) as [| N]; [reflexivity |].
    exfalso. apply N. apply Qc_is_canon. rewrite H. reflexivity.
Qed.

Lemma trunc_spec : forall q,
  (0 <= q -> inject_Z (trunc q) <= q /\ q < inject_Z (trunc q) + 1) /\
  (q < 0 -> q <= inject_Z (trunc q) /\ inject_Z (trunc q) - 1 < q).
Proof.
  intro q. unfold trunc. destruct (Qle_bool 0 q) eqn:E.
  - apply Qle_bool_iff in E. split; [| intro; lra]. intros _.
    pose proof (Qfloor_le q). pose proof (Qlt_floor q) as F.
    rewrite inject_Z_plus in F. change (inject_Z 1) with 1 in F. split; lra.
  - assert (q < 0).
    { apply Qnot_le_lt. intro C. apply Qle_bool_iff in C. congruence. }
    split; [intro; lra |]. intros _.
    pose proof (Qle_ceiling q). pose proof (Qceiling_lt q) as F.
    unfold Z.sub in F. rewrite inject_Z_plus in F. change (inject_Z (- (1))) with (- (1)) in F.
    split; lra.
Qed.

Lemma trunc_comp : forall q q', q == q' -> trunc q = trunc q'.
Proof.
  intros q q' H. unfold trunc.
  assert (B : Qle_bool 0 q = Qle_bool 0 q').
  { destruct (Qle_bool 0 q) eqn:E1, (Qle_bool 0 q') eqn:E2; try reflexivity.
    - rewrite Qle_bool_iff in E1. rewrite H in E1. rewrite <- Qle_bool_iff in E1. congruence.
    - rewrite Qle_bool_iff in E2. rewrite <- H in E2. rewrite <- Qle_bool_iff in E2. congruence. }
  rewrite B, (Qfloor_comp _ _ H), (Qceiling_comp _ _ H). reflexivity.
Qed.

Lemma this_c_fmod : forall a z,
  this (c_fmod a (Z2Qc z))
  == this a - inject_Z z * inject_Z (trunc (this a / inject_Z z)).
Proof.
  intros a z; unfold c_fmod, Qcminus, Qcplus, Qcopp, Qcmult, Qcdiv, Qcinv, Z2Qc, Q2Qc; cbn [this].
  repeat (rewrite ?Qred_correct).
  assert (E : trunc (this a / Qred (inject_Z z)) = trunc (this a / inject_Z z)).
  { apply trunc_comp. rewrite !Qred_correct. reflexivity. }
  rewrite E. rewrite (Qred_correct (inject_Z z)).
  rewrite (Qred_correct (inject_Z (trunc (this a / inject_Z z)))). ring.
Qed.

(** [fmod(a, 360)] is a less a whole number of turns of 360, on the side
    of a. *)
Lemma c_fmod_360 : forall a : Qc,
  exists t : Z,
    this (c_fmod a (Z2Qc 360)) == this a - 360 * inject_Z t /\
    (0 <= this a -> 0 <= this (c_fmod a (Z2Qc 360)) < 360) /\
    (this a < 0 -> - (360) < this (c_fmod a (Z2Qc 360)) <= 0) /\
    (0 <= this a < 360 -> t = 0%Z).
Proof.
  intro a. pose proof (this_c_fmod a 360) as E.
  change (inject_Z 360) with 360 in E.
  set (m := this (c_fmod a (Z2Qc 360))) in *. clearbody m.
  set (q := this a / 360) in *.
  exists (trunc q).
  assert (Ha : this a == q * 360) by (unfold q; field).
  destruct (trunc_spec q) as [P N]. clearbody q.
  split; [exact E |].
  split; [| split].
  - intro H. destruct P as [P1 P2]; [lra |]. split; lra.
  - intro H. destruct N as [N1 N2]; [lra |]. split; lra.
  - intros [H1 H2]. destruct P as [P1 P2]; [lra |].
    assert (A : inject_Z (trunc q) < inject_Z 1) by (change (inject_Z 1) with 1; lra).
    assert (B : inject_Z (-1) < inject_Z (trunc q)) by (change (inject_Z (-1)) with (-1); lra).
    rewrite <- Zlt_Qlt in A, B. lia.
Qed.

Lemma Qabs_lt_of : forall q b, - b < q -> q < b -> Qabs q < b.
Proof. intros q b H1 H2. apply Qabs_Qlt_condition. split; assumption. Qed.

Lemma pow2_9 : pow2 9 == 512.
Proof. reflexivity. Qed.

Lemma pow2_8 : pow2 8 == 256.
Proof. reflexivity. Qed.

Lemma pow2_53_large : 1000 < pow2 53.
Proof. rewrite pow2_Z by lia. reflexivity. Qed.

(** The spacing of float64 around a number of magnitude below 2^k. *)
Lemma ulp_exponent_le : forall q k,
  ~ q == 0 -> Qabs q < pow2 k -> (-1074 <= k - 53)%Z -> (ulp_exponent q <= k - 53)%Z.
Proof.
  intros q k Hq H Hk. pose proof (ilog2_lt q k Hq H). unfold ulp_exponent. lia.
Qed.

Lemma round64Q_error_below : forall q k,
  Qabs q < pow2 k -> (-1074 <= k - 53)%Z ->
  - pow2 (k - 54) <= round64Q q - q <= pow2 (k - 54).
Proof.
  intros q k H Hk. pose proof (pow2_pos (k - 54)) as Pk.
  destruct (Qeq_dec q 0) as [E | E].
  - pose proof (round64Q_comp _ _ E) as R. rewrite round64Q_0 in R. split; lra.
  - pose proof (round64Q_error q) as [E1 E2].
    pose proof (ulp_exponent_le q k E H Hk) as L. apply pow2_le in L.
    assert (P : pow2 (k - 53) == 2 * pow2 (k - 54)).
    { replace (k - 53)%Z with (1 + (k - 54))%Z by lia. rewrite pow2_plus. reflexivity. }
    split; lra.
Qed.

Lemma ulp_bound : forall q, ~ q == 0 ->
  pow2 (ulp_exponent q) <= Qabs q * pow2 (-52) + pow2 (-1074).
Proof.
  intros q E. pose proof (pow2_pos (-1074)) as P1. pose proof (pow2_pos (-52)) as P2.
  pose proof (Qabs_nonneg q) as N.
  assert (M : 0 <= Qabs q * pow2 (-52)) by (apply Qmult_le_0_compat; lra).
  unfold ulp_exponent.
  destruct (Z.max_spec (ilog2 q - 52) (-1074)) as [[_ ->] | [_ ->]]; [lra |].
  destruct (ilog2_spec q E) as [L _].
  replace (ilog2 q - 52)%Z with (ilog2 q + (-52))%Z by lia. rewrite pow2_plus.
  assert (0 <= (Qabs q - pow2 (ilog2 q)) * pow2 (-52)) by (apply Qmult_le_0_compat; lra).
  lra.
Qed.

(** The relative error of rounding. *)
Lemma round64Q_error_rel : forall q,
  - (Qabs q * pow2 (-53) + pow2 (-1075)) <= round64Q q - q
  <= Qabs q * pow2 (-53) + pow2 (-1075).
Proof.
  intro q. pose proof (pow2_pos (-1075)) as P1. pose proof (pow2_pos (-53)) as P2.
  pose proof (Qabs_nonneg q) as N.
  assert (M : 0 <= Qabs q * pow2 (-53)) by (apply Qmult_le_0_compat; lra).
  destruct (Qeq_dec q 0) as [E | E].
  - pose proof (round64Q_comp _ _ E) as R. rewrite round64Q_0 in R. split; lra.
  - pose proof (round64Q_error q) as [E1 E2]. pose proof (ulp_bound q E) as U.
    assert (A : pow2 (-52) == 2 * pow2 (-53)) by reflexivity.
    assert (B : pow2 (-1074) == 2 * pow2 (-1075)) by reflexivity.
    rewrite A, B in U. split; lra.
Qed.

(** [a % 360] on float64: a less a whole number of turns, up to the
    rounding of the one addition, and between 0 and 360, both included. *)
Lemma mod64_360 : forall a : Qc,
  exists (t : Z) (delta : Q),
    this (mod64 a (Z2Qc 360)) == this a - 360 * inject_Z t + delta /\
    - pow2 (-45) <= delta <= pow2 (-45) /\
    0 <= this (mod64 a (Z2Qc 360)) <= 360 /\
    (0 <= this a < 360 -> mod64 a (Z2Qc 360) = a).
Proof.
  intro a. destruct (c_fmod_360 a) as (t & Em & Hpos & Hneg & Ht).
  pose proof (pow2_pos (-45)) as P45.
  unfold mod64. set (m := c_fmod a (Z2Qc 360)) in *.
  destruct (Qc_eq_bool m (Z2Qc 0)) eqn:E0.
  - apply Qc_eq_bool_0 in E0. exists t, 0. split; [rewrite Em; ring |].
    split; [split; lra |]. split; [split; lra |].
    intro H. apply Qc_is_canon. rewrite Em, (Ht H). ring.
  - assert (N0 : ~ this m == 0).
    { intro C. apply Qc_eq_bool_0 in C. congruence. }
    change (Qcltb (Z2Qc 360) (Z2Qc 0)) with false. cbn [xorb].
    destruct (Qcltb m (Z2Qc 0)) eqn:El.
    + apply Qcltb_0 in El.
      assert (Ha : this a < 0).
      { destruct (Qlt_le_dec (this a) 0) as [| C]; [assumption |].
        destruct (Hpos C). lra. }
      destruct (Hneg Ha) as [M1 M2].
      pose proof (this_add64_Z m 360) as Er.
      change (inject_Z 360) with 360 in Er.
      set (z := this m + 360) in *.
      assert (Hz : Qabs z < pow2 9).
      { rewrite pow2_9. apply Qabs_lt_of; unfold z; lra. }
      assert (Hz' : Qabs z < pow2 53).
      { pose proof pow2_53_large. apply Qabs_lt_of; unfold z; lra. }
      pose proof (round64Q_error_below z 9 Hz ltac:(lia)) as [D1 D2].
      change (9 - 54)%Z with (-45)%Z in D1, D2.
      pose proof (round64Q_ge_Z z 0 Hz') as G. pose proof (round64Q_le_Z z 360 Hz') as L.
      change (inject_Z 0) with 0 in G. change (inject_Z 360) with 360 in L.
      exists (t - 1)%Z, (round64Q z - z).
      split.
      { rewrite Er. assert (Ez : z == this m + 360) by reflexivity.
        unfold Z.sub. rewrite inject_Z_plus. change (inject_Z (- (1))) with (- (1)).
        clearbody z. lra. }
      split; [split; assumption |].
      split.
      { rewrite Er. split; [apply G | apply L]; unfold z; lra. }
      intro H. lra.
    + assert (Hm : 0 < this m).
      { destruct (Qlt_le_dec 0 (this m)) as [| C]; [assumption |].
        exfalso. assert (C' : this m < 0) by lra. apply Qcltb_0 in C'. congruence. }
      assert (Ha : 0 <= this a).
      { destruct (Qlt_le_dec (this a) 0) as [C |]; [| assumption].
        destruct (Hneg C). lra. }
      destruct (Hpos Ha) as [M1 M2].
      exists t, 0. split; [rewrite Em; ring |].
      split; [split; lra |]. split; [split; lra |].
      intro H. apply Qc_is_canon. rewrite Em, (Ht H). ring.
Qed.

(** What float64 makes of ((x + 180) % 360) - 180. *)
Lemma wrap_longitude_spec : forall x : Qc,
  exists (turns : Z) (d1 d2 d3 : Q),
    this (wrap_longitude x) == this x - 360 * inject_Z turns + d1 + d2 + d3 /\
    d1 == round64Q (this x + 180) - (this x + 180) /\
    - pow2 (-45) <= d2 <= pow2 (-45) /\
    - pow2 (-46) <= d3 <= pow2 (-46) /\
    - (180) <= this (wrap_longitude x) <= 180.
Proof.
  intro x. unfold wrap_longitude.
  set (a := add64 x (Z2Qc 180)).
  assert (Ea : this a == round64Q (this x + 180)).
  { unfold a. apply this_add64_Z. }
  destruct (mod64_360 a) as (t & d2 & Er & Hd2 & Hr & _).
  set (r := mod64 a (Z2Qc 360)) in *.
  pose proof (this_sub64_Z r 180) as Ey.
  change (inject_Z 180) with 180 in Ey.
  set (z := this r - 180) in *.
  assert (Hz : Qabs z < pow2 8).
  { rewrite pow2_8. apply Qabs_lt_of; unfold z; lra. }
  assert (Hz' : Qabs z < pow2 53).
  { pose proof pow2_53_large. apply Qabs_lt_of; unfold z; lra. }
  pose proof (round64Q_error_below z 8 Hz ltac:(lia)) as Hd3.
  change (8 - 54)%Z with (-46)%Z in Hd3.
  pose proof (round64Q_ge_Z z (-180) Hz') as G. pose proof (round64Q_le_Z z 180 Hz') as L.
  change (inject_Z (-180)) with (- (180)) in G. change (inject_Z 180) with 180 in L.
  exists t, (round64Q (this x + 180) - (this x + 180)), d2, (round64Q z - z).
  split.
  { rewrite Ey. assert (Ez : z == this r - 180) by reflexivity. clearbody z. lra. }
  split; [reflexivity |]. split; [exact Hd2 |]. split; [exact Hd3 |].
  rewrite Ey. split; [apply G | apply L]; unfold z; lra.
Qed.

(** The wrapped longitude lies within half a turn of zero, both ends
    included. *)
Lemma wrap_longitude_range : forall x, within_half_turn (wrap_longitude x).
Proof.
  intro x. destruct (wrap_longitude_spec x) as (t & d1 & d2 & d3 & _ & _ & _ & _ & H1 & H2).
  unfold within_half_turn, Qcle. rewrite !this_Z2Qc.
  change (inject_Z (-180)) with (- (180)). change (inject_Z 180) with 180.
  split; assumption.
Qed.

(** A float64 longitude in [-180, 180) to which 180 is added without
    rounding is left as it is. *)
Lemma wrap_longitude_fixed : forall x,
  normalised x -> float64 x -> float64 (x + Z2Qc 180)%Qc -> wrap_longitude x = x.
Proof.
  intros x [H1 H2] Fx Fa. unfold wrap_longitude.
  change (add64 x (Z2Qc 180)) with (round64 (x + Z2Qc 180)%Qc). rewrite Fa.
  unfold Qcle, Qclt in H1, H2. rewrite this_Z2Qc in H1, H2.
  change (inject_Z (-180)) with (- (180)) in H1. change (inject_Z 180) with 180 in H2.
  destruct (mod64_360 (x + Z2Qc 180)%Qc) as (_ & _ & _ & _ & _ & E).
  rewrite E.
  - unfold sub64. replace (x + Z2Qc 180 - Z2Qc 180)%Qc with x by ring. exact Fx.
  - rewrite this_plus, this_Z2Qc. change (inject_Z 180) with 180. split; lra.
Qed.

(** A wrapped longitude is the longitude less a whole number of turns,
    up to the rounding of float64. *)
Lemma wrap_longitude_turns : forall x : Qc,
  exists turns : Z,
    Qabs (this (wrap_longitude x) - (this x - 360 * inject_Z turns))
    <= Qabs (this x + 180) * pow2 (-53) + pow2 (-44).
Proof.
  intro x. destruct (wrap_longitude_spec x) as (t & d1 & d2 & d3 & E & E1 & H2 & H3 & _).
  exists t. pose proof (round64Q_error_rel (this x + 180)) as H1. rewrite <- E1 in H1.
  assert (A : pow2 (-44) == 4 * pow2 (-46)) by reflexivity.
  assert (B : pow2 (-45) == 2 * pow2 (-46)) by reflexivity.
  assert (C : pow2 (-1075) <= pow2 (-46)) by (apply pow2_le; lia).
  pose proof (pow2_pos (-46)).
  apply Qabs_Qle_condition. rewrite E. split; lra.
Qed.

Lemma inject_Z_abs : forall n, inject_Z (Z.abs n) == Qabs (inject_Z n).
Proof. intro n. unfold inject_Z. rewrite <- Zabs_Qabs. reflexivity. Qed.

Lemma Qabs_scaled : forall n e, Qabs (inject_Z n * pow2 e) == inject_Z (Z.abs n) * pow2 e.
Proof.
  intros n e. rewrite Qabs_Qmult, inject_Z_abs.
  rewrite (Qabs_pos (pow2 e)); [reflexivity |]. pose proof (pow2_pos e). lra.
Qed.

Lemma round64Q_scaled : forall n e,
  (Z.abs n < 2 ^ 53)%Z -> (-1074 <= e)%Z ->
  round64Q (inject_Z n * pow2 e) == inject_Z n * pow2 e.
Proof.
  intros n e Hn He. set (q := inject_Z n * pow2 e).
  pose proof (pow2_pos e) as Pe.
  destruct (Qeq_dec q 0) as [E | E].
  - rewrite (round64Q_comp _ _ E), round64Q_0. now symmetry.
  - assert (Hq : Qabs q < pow2 (e + 53)).
    { unfold q. rewrite Qabs_scaled, pow2_plus, (pow2_Z 53) by lia.
      rewrite (Qmult_comm (pow2 e)). apply Qmult_lt_compat_r; [exact Pe |].
      now rewrite <- Zlt_Qlt. }
    pose proof (ilog2_lt q (e + 53) E Hq) as Hl.
    rewrite round64Q_nonzero by exact E.
    set (u := ulp_exponent q).
    assert (Hu : (u <= e)%Z) by (unfold u, ulp_exponent; lia).
    assert (Ed : q / pow2 u == inject_Z (n * 2 ^ (e - u))).
    { rewrite div_pow2, inject_Z_mult, <- pow2_Z by lia. unfold q.
      replace (e - u)%Z with (e + - u)%Z by lia. rewrite pow2_plus. ring. }
    rewrite (rne_comp _ _ Ed), rne_Z, inject_Z_mult, <- pow2_Z by lia.
    unfold q. rewrite <- Qmult_assoc, <- pow2_plus.
    replace (e - u + u)%Z with e by lia. reflexivity.
Qed.

(** Rounding leaves a float64 as it is. *)
Lemma round64Q_representable : forall q, representable q -> round64Q q == q.
Proof.
  intros q (n & e & E & Hn & He). rewrite (round64Q_comp _ _ E), E.
  destruct (Z.eq_dec (Z.abs n) (2 ^ 53)) as [Ht | Ht].
  - assert (En : inject_Z n * pow2 e == inject_Z (n / 2) * pow2 (e + 1)).
    { rewrite pow2_plus. change (pow2 1) with 2.
      assert (D : n = (2 * (n / 2))%Z).
      { destruct (Z.abs_eq_or_opp n) as [A | A]; rewrite A in Ht.
        - rewrite Ht. reflexivity.
        - assert (n = - 2 ^ 53)%Z by lia. subst n. reflexivity. }
      rewrite D at 1. rewrite inject_Z_mult. change (inject_Z 2) with 2. ring. }
    rewrite (round64Q_comp _ _ En), En. apply round64Q_scaled; [| lia].
    destruct (Z.abs_eq_or_opp n) as [A | A]; rewrite A in Ht.
    + rewrite Ht. vm_compute. reflexivity.
    + assert (n = - 2 ^ 53)%Z by lia. subst n. vm_compute. reflexivity.
  - apply round64Q_scaled; lia.
Qed.

(** What rounding returns is a float64. *)
Lemma round64Q_is_representable : forall q, representable (round64Q q).
Proof.
  intro q. destruct (Qeq_dec q 0) as [E | E].
  - exists 0%Z, 0%Z. rewrite (round64Q_comp _ _ E), round64Q_0.
    split; [reflexivity |]. split; [vm_compute; discriminate | lia].
  - rewrite round64Q_nonzero by exact E. set (u := ulp_exponent q).
    exists (rne (q / pow2 u)), u. split; [reflexivity |].
    split; [| unfold u, ulp_exponent; lia].
    destruct (ilog2_spec q E) as [_ U].
    pose proof (pow2_pos u) as Pu. pose proof (pow2_pos (- u)) as Pn.
    assert (Hs : (ilog2 q + 1 - u <= 53)%Z) by (unfold u, ulp_exponent; lia).
    assert (Hb : Qabs (q / pow2 u) < pow2 53).
    { rewrite div_pow2, Qabs_Qmult, (Qabs_pos (pow2 (- u))) by lra.
      apply Qlt_le_trans with (pow2 (ilog2 q + 1) * pow2 (- u)).
      - apply Qmult_lt_compat_r; assumption.
      - rewrite <- pow2_plus. apply pow2_le. lia. }
    apply Qabs_Qlt_condition in Hb. destruct Hb as [B1 B2].
    rewrite (pow2_Z 53) in B1, B2 by lia.
    assert (L : (rne (q / pow2 u) <= 2 ^ 53)%Z) by (apply rne_le; lra).
    assert (G : (- 2 ^ 53 <= rne (q / pow2 u))%Z).
    { apply rne_ge. rewrite inject_Z_opp. lra. }
    lia.
Qed.

Lemma representable_comp : forall q q', q == q' -> representable q -> representable q'.
Proof.
  intros q q' E (n & e & H & Hn & He). exists n, e. split; [| split]; try assumption.
  now rewrite <- E.
Qed.

Lemma float64_of_representable : forall x : Qc, representable (this x) -> float64 x.
Proof.
  intros x H. unfold float64. apply Qc_is_canon.
  rewrite this_round64. now apply round64Q_representable.
Qed.

Lemma representable_round64 : forall x : Qc, representable (this (round64 x)).
Proof.
  intro x. apply (representable_comp (round64Q (this x))).
  - symmetry. apply this_round64.
  - apply round64Q_is_representable.
Qed.

(** A whole number between two others, read off their multiples by a
    positive number. *)
Lemma between_scaled : forall k n p,
  0 < p -> - (inject_Z n * p) <= inject_Z k * p <= inject_Z n * p ->
  (Z.abs k <= n)%Z.
Proof.
  intros k n p Hp [H1 H2].
  assert (A : inject_Z k <= inject_Z n).
  { apply (Qmult_le_r _ _ p); assumption. }
  assert (B : inject_Z (- n) <= inject_Z k).
  { rewrite inject_Z_opp. apply (Qmult_le_r _ _ p); [assumption | lra]. }
  rewrite <- Zle_Qle in A, B. lia.
Qed.

(** Taking a multiple of 2^j times a whole number off a float64 leaves a
    float64, when the result is no larger than the number was. *)
Lemma representable_minus : forall q c j t,
  representable q ->
  Qabs (q - inject_Z c * pow2 j * inject_Z t) <= Qabs q ->
  Qabs (q - inject_Z c * pow2 j * inject_Z t) <= inject_Z (2 ^ 53) * pow2 j ->
  (-1074 <= j)%Z ->
  representable (q - inject_Z c * pow2 j * inject_Z t).
Proof.
  intros q c j t (n & e & E & Hn & He) Hle Hsmall Hj.
  set (m := q - inject_Z c * pow2 j * inject_Z t) in *.
  pose proof (pow2_pos e) as Pe. pose proof (pow2_pos j) as Pj.
  destruct (Z_le_gt_dec j e) as [C | C].
  - (* the number is a multiple of 2^j *)
    exists (n * 2 ^ (e - j) - c * t)%Z, j.
    assert (Em : m == inject_Z (n * 2 ^ (e - j) - c * t) * pow2 j).
    { unfold m. rewrite E. unfold Z.sub at 1.
      rewrite inject_Z_plus, inject_Z_opp, !inject_Z_mult, <- pow2_Z by lia.
      replace e with (e - j + j)%Z at 1 by lia. rewrite pow2_plus. ring. }
    split; [exact Em |]. split; [| exact Hj].
    apply (between_scaled _ _ (pow2 j) Pj).
    rewrite <- Em. apply Qabs_Qle_condition. exact Hsmall.
  - (* the multiple is a multiple of 2^e *)
    exists (n - c * 2 ^ (j - e) * t)%Z, e.
    assert (Em : m == inject_Z (n - c * 2 ^ (j - e) * t) * pow2 e).
    { unfold m. rewrite E. unfold Z.sub at 1.
      rewrite inject_Z_plus, inject_Z_opp, !inject_Z_mult, <- pow2_Z by lia.
      replace j with (j - e + e)%Z at 1 by lia. rewrite pow2_plus. ring. }
    split; [exact Em |]. split; [| exact He].
    assert (Ha : Qabs q == inject_Z (Z.abs n) * pow2 e).
    { rewrite (Qabs_wd _ _ E). apply Qabs_scaled. }
    assert (B : (Z.abs (n - c * 2 ^ (j - e) * t) <= Z.abs n)%Z).
    { apply (between_scaled _ _ (pow2 e) Pe).
      rewrite <- Em, <- Ha. apply Qabs_Qle_condition. exact Hle. }
    lia.
Qed.

Lemma Qabs_le_of : forall q b, - b <= q -> q <= b -> Qabs q <= b.
Proof. intros q b H1 H2. apply Qabs_Qle_condition. split; assumption. Qed.

Lemma large_53 : 1000 <= inject_Z (2 ^ 53) * pow2 2.
Proof. vm_compute. discriminate. Qed.

Lemma turn_360 : forall t, 360 * inject_Z t == inject_Z 45 * pow2 3 * inject_Z t.
Proof. intro t. change (inject_Z 45 * pow2 3) with (360 # 1). ring. Qed.

(** [a % 360] of a float64 is a float64. *)
Lemma mod64_360_representable : forall a : Qc,
  representable (this a) -> representable (this (mod64 a (Z2Qc 360))).
Proof.
  intros a Ha. destruct (c_fmod_360 a) as (t & Em & Hpos & Hneg & _).
  unfold mod64. set (m := c_fmod a (Z2Qc 360)) in *.
  assert (Hm : representable (this m)).
  { apply (representable_comp (this a - inject_Z 45 * pow2 3 * inject_Z t)).
    - rewrite Em, turn_360. reflexivity.
    - assert (E : this a - inject_Z 45 * pow2 3 * inject_Z t == this m)
        by (rewrite Em, turn_360; reflexivity).
      apply representable_minus; [exact Ha | | | lia]; rewrite (Qabs_wd _ _ E).
      + destruct (Qlt_le_dec (this a) 0) as [C | C].
        * destruct (Hneg C) as [M1 M2].
          assert (T : inject_Z t <= 0).
          { destruct (Qlt_le_dec 0 (inject_Z t)) as [P |]; [| assumption].
            change 0 with (inject_Z 0) in P. rewrite <- Zlt_Qlt in P.
            assert (P' : (1 <= t)%Z) by lia. rewrite Zle_Qle in P'.
            change (inject_Z 1) with 1 in P'. lra. }
          rewrite (Qabs_neg (this m)), (Qabs_neg (this a)) by lra. lra.
        * destruct (Hpos C) as [M1 M2].
          assert (T : 0 <= inject_Z t).
          { destruct (Qlt_le_dec (inject_Z t) 0) as [P |]; [| assumption].
            change 0 with (inject_Z 0) in P. rewrite <- Zlt_Qlt in P.
            assert (P' : (t <= -1)%Z) by lia. rewrite Zle_Qle in P'.
            change (inject_Z (-1)) with (- (1)) in P'. lra. }
          rewrite (Qabs_pos (this m)), (Qabs_pos (this a)) by lra. lra.
      + assert (B : - (360) < this m < 360).
        { destruct (Qlt_le_dec (this a) 0) as [C | C].
          - destruct (Hneg C). split; lra.
          - destruct (Hpos C). split; lra. }
        assert (L : 1000 <= inject_Z (2 ^ 53) * pow2 3) by (vm_compute; discriminate).
        apply Qabs_le_of; lra. }
  destruct (Qc_eq_bool m (Z2Qc 0)); [exact Hm |].
  destruct (xorb (Qcltb (Z2Qc 360) (Z2Qc 0)) (Qcltb m (Z2Qc 0))); [| exact Hm].
  apply representable_round64.
Qed.

(** A wrapped longitude other than 180 is a float64 in [-180, 180) to
    which 180 is added without rounding. *)
Lemma wrap_longitude_exact : forall x : Qc,
  wrap_longitude x <> Z2Qc 180 ->
  representable (this (wrap_longitude x)) /\
  representable (this (wrap_longitude x) + 180) /\
  - (180) <= this (wrap_longitude x) < 180.
Proof.
  intros x Hne.
  destruct (wrap_longitude_spec x) as (_ & _ & _ & _ & _ & _ & _ & _ & R1 & R2).
  assert (Hy : representable (this (wrap_longitude x))) by apply representable_round64.
  assert (Hlt : this (wrap_longitude x) < 180).
  { destruct (Qlt_le_dec (this (wrap_longitude x)) 180) as [| C]; [assumption |].
    exfalso. apply Hne. apply Qc_is_canon. rewrite this_Z2Qc.
    change (inject_Z 180) with 180. lra. }
  split; [exact Hy |]. split; [| split; assumption].
  revert Hne Hy R1 R2 Hlt. unfold wrap_longitude.
  set (a := add64 x (Z2Qc 180)).
  assert (Ha : representable (this a)) by apply representable_round64.
  pose proof (mod64_360_representable a Ha) as Hr.
  destruct (mod64_360 a) as (_ & _ & _ & _ & [B1 B2] & _).
  set (r := mod64 a (Z2Qc 360)) in *.
  pose proof (this_sub64_Z r 180) as Ey. change (inject_Z 180) with 180 in Ey.
  set (y := sub64 r (Z2Qc 180)) in *. intros Hne Hy R1 R2 Hlt.
  pose proof large_53 as L.
  destruct (Qlt_le_dec (this r) 90) as [C | C].
  - (* the difference is rounded, and 180 is added to it exactly *)
    assert (Hz : Qabs (this r - 180) < pow2 53).
    { pose proof pow2_53_large. apply Qabs_lt_of; lra. }
    pose proof (round64Q_le_Z (this r - 180) (-90) Hz) as U.
    change (inject_Z (-90)) with (- (90)) in U.
    assert (Uy : this y <= - (90)) by (rewrite Ey; apply U; lra).
    apply (representable_comp (this y - inject_Z 45 * pow2 2 * inject_Z (-1))).
    + assert (K : inject_Z 45 * pow2 2 * inject_Z (-1) == - (180)) by reflexivity.
      lra.
    + assert (E : this y - inject_Z 45 * pow2 2 * inject_Z (-1) == this y + 180).
      { assert (K : inject_Z 45 * pow2 2 * inject_Z (-1) == - (180)) by reflexivity.
        lra. }
      apply representable_minus; [exact Hy | | | lia]; rewrite (Qabs_wd _ _ E).
      * rewrite (Qabs_pos (this y + 180)), (Qabs_neg (this y)) by lra. lra.
      * apply Qabs_le_of; lra.
  - (* the difference is exact *)
    assert (Hz : representable (this r - 180)).
    { apply (representable_comp (this r - inject_Z 45 * pow2 2 * inject_Z 1)).
      - assert (K : inject_Z 45 * pow2 2 * inject_Z 1 == 180) by reflexivity.
        lra.
      - assert (E : this r - inject_Z 45 * pow2 2 * inject_Z 1 == this r - 180).
        { assert (K : inject_Z 45 * pow2 2 * inject_Z 1 == 180) by reflexivity.
          lra. }
        apply representable_minus; [exact Hr | | | lia]; rewrite (Qabs_wd _ _ E).
        + rewrite (Qabs_pos (this r)) by lra. apply Qabs_le_of; lra.
        + apply Qabs_le_of; lra. }
    apply (representable_comp (this r)); [| exact Hr].
    rewrite Ey, (round64Q_representable _ Hz). ring.
Qed.

(** Wrapping a wrapped longitude other than 180 changes nothing. *)
Lemma wrap_longitude_idempotent : forall x : Qc,
  wrap_longitude x <> Z2Qc 180 ->
  wrap_longitude (wrap_longitude x) = wrap_longitude x.
Proof.
  intros x Hne. destruct (wrap_longitude_exact x Hne) as (Hy & Hs & R1 & R2).
  apply wrap_longitude_fixed.
  - unfold normalised, Qcle, Qclt. rewrite !this_Z2Qc.
    change (inject_Z (-180)) with (- (180)). change (inject_Z 180) with 180.
    split; assumption.
  - apply float64_of_representable. exact Hy.
  - apply float64_of_representable.
    apply (representable_comp (this (wrap_longitude x) + 180)); [| exact Hs].
    rewrite this_plus, this_Z2Qc. reflexivity.
Qed.

Local Close Scope Q_scope.

(** ** Stable sorting *)

Lemma insert_key_perm : forall x l, Permutation (x :: l) (insert_key x l).
Proof.
  induction l as [| h t IH]; simpl; [reflexivity |].
  destruct (Qcltb (fst h) (fst x)); [| reflexivity].
  rewrite perm_swap. now constructor.
Qed.

Lemma sort_keys_perm : forall l, Permutation l (sort_keys l).
Proof.
  induction l as [| x t IH]; simpl; [constructor |].
  rewrite <- insert_key_perm. now constructor.
Qed.

Lemma insert_key_sorted : forall x l,
  Sorted key_le l -> Sorted key_le (insert_key x l).
Proof.
  induction l as [| h t IH]; simpl; intro H.
  - repeat constructor.
  - destruct (Qcltb (fst h) (fst x)) eqn:E.
    + inversion H as [| ? ? Ht Hh]; subst.
      constructor; [auto |].
      apply Qcltb_spec in E.
      destruct t as [| h' t']; simpl.
      * constructor. unfold key_le. now apply Qclt_le_weak.
      * destruct (Qcltb (fst h') (fst x)).
        -- constructor. now inversion Hh.
        -- constructor. unfold key_le. now apply Qclt_le_weak.
    + apply Qcltb_false in E. constructor; [assumption | now constructor].
Qed.

Lemma sort_keys_sorted : forall l, Sorted key_le (sort_keys l).
Proof.
  induction l; simpl; [constructor | now apply insert_key_sorted].
Qed.

Lemma sort_keys_fixed : forall l, Sorted key_le l -> sort_keys l = l.
Proof.
  induction l as [| x t IH]; simpl; intro H; [reflexivity |].
  inversion H as [| ? ? Ht Hx]; subst. rewrite IH by assumption.
  destruct t as [| h t']; simpl; [reflexivity |].
  inversion Hx as [| ? ? Hle]; subst.
  apply Qcltb_false in Hle. now rewrite Hle.
Qed.

Lemma sorted_combine : forall (ks : list Qc) (ps : list nat),
  List.length ks = List.length ps ->
  Sorted Qcle ks -> Sorted key_le (combine ks ps).
Proof.
  induction ks as [| k t IH]; intros ps Hl H; simpl; [constructor |].
  destruct ps as [| p ps']; [discriminate |].
  inversion H as [| ? ? Ht Hk]; subst. injection Hl as Hl.
  constructor; [now apply IH |].
  destruct t as [| k' t'], ps' as [| p' ps'']; simpl; try constructor; try discriminate.
  now inversion Hk.
Qed.

Lemma sorted_map_fst : forall l, Sorted key_le l -> Sorted Qcle (map fst l).
Proof.
  induction l as [| x t IH]; simpl; intro H; [constructor |].
  inversion H as [| ? ? Ht Hx]; subst. constructor; [auto |].
  destruct t; simpl; constructor. now inversion Hx.
Qed.

Lemma map_snd_combine : forall (A B : Type) (a : list A) (b : list B),
  List.length a = List.length b -> map snd (combine a b) = b.
Proof.
  induction a; destruct b; simpl; intros; try discriminate; auto.
  f_equal; auto.
Qed.

Lemma map_fst_combine : forall (A B : Type) (a : list A) (b : list B),
  List.length a = List.length b -> map fst (combine a b) = a.
Proof.
  induction a; destruct b; simpl; intros; try discriminate; auto.
  f_equal; auto.
Qed.

Lemma lexsort_perm : forall ks, Permutation (lexsort ks) (seq 0 (List.length ks)).
Proof.
  intro ks; unfold lexsort.
  rewrite <- sort_keys_perm, map_snd_combine; [reflexivity | now rewrite length_seq].
Qed.

Lemma lexsort_length : forall ks, List.length (lexsort ks) = List.length ks.
Proof.
  intro ks. rewrite (Permutation_length (lexsort_perm ks)). apply length_seq.
Qed.

Lemma combine_seq_nth : forall (ks : list Qc) e,
  In e (combine ks (seq 0 (List.length ks))) -> fst e = nth (snd e) ks 0%Qc.
Proof.
  intros ks [k p] H. simpl.
  apply (In_nth _ _ (0%Qc, 0)) in H. destruct H as [j [Hj E]].
  rewrite length_combine, length_seq, Nat.min_id in Hj.
  rewrite combine_nth in E by now rewrite length_seq.
  rewrite seq_nth in E by assumption. simpl in E. now inversion E.
Qed.

(** The keys read through the sorting order are the sorted keys. *)
Lemma lexsort_keys : forall ks,
  map (fun p => nth p ks 0%Qc) (lexsort ks) =
  map fst (sort_keys (combine ks (seq 0 (List.length ks)))).
Proof.
  intro ks; unfold lexsort. rewrite map_map. apply map_ext_in.
  intros e He. symmetry. apply combine_seq_nth.
  eapply Permutation_in; [symmetry; apply sort_keys_perm | exact He].
Qed.

Lemma lexsort_sorted : forall ks,
  Sorted Qcle (map (fun p => nth p ks 0%Qc) (lexsort ks)).
Proof.
  intro ks. rewrite lexsort_keys. apply sorted_map_fst, sort_keys_sorted.
Qed.

Lemma lexsort_keys_perm : forall ks,
  Permutation (map (fun p => nth p ks 0%Qc) (lexsort ks)) ks.
Proof.
  intro ks. rewrite lexsort_keys, <- sort_keys_perm, map_fst_combine;
    [reflexivity | now rewrite length_seq].
Qed.

Lemma lexsort_fixed : forall ks, Sorted Qcle ks -> lexsort ks = seq 0 (List.length ks).
Proof.
  intros ks H; unfold lexsort.
  rewrite sort_keys_fixed by (apply sorted_combine; [now rewrite length_seq | assumption]).
  apply map_snd_combine. now rewrite length_seq.
Qed.

Lemma nth_seq_id : forall n k, nth k (seq 0 n) k = k.
Proof.
  intros n k. destruct (Nat.lt_ge_cases k n).
  - now rewrite seq_nth.
  - apply nth_overflow. now rewrite length_seq.
Qed.

(** ** corrlong *)

Lemma lookup_map_snd : forall (A B : Type) (g : A -> B) k (l : list (string * A)),
  lookup k (map (fun e => (fst e, g (snd e))) l) = option_map g (lookup k l).
Proof.
  induction l as [| [k' v] t IH]; simpl; [reflexivity |].
  destruct (String.eqb k k'); auto.
Qed.

Lemma size_resized : forall d m (ds : list (string * nat)) n,
  lookup d ds = Some n ->
  lookup d (map (fun e => if String.eqb (fst e) d then (d, m) else e) ds) = Some m.
Proof.
  induction ds as [| [k v] t IH]; simpl; intros n H; [discriminate |].
  destruct (String.eqb_spec d k).
  - subst k. rewrite String.eqb_refl. simpl. now rewrite String.eqb_refl.
  - destruct (String.eqb_spec k d); [congruence |]. simpl.
    destruct (String.eqb_spec d k); [congruence |]. eauto.
Qed.

Lemma resize_same : forall d n (ds : list (string * nat)),
  NoDup (map fst ds) -> lookup d ds = Some n ->
  map (fun e => if String.eqb (fst e) d then (d, n) else e) ds = ds.
Proof.
  induction ds as [| [k v] t IH]; simpl; intros Hnd H; [reflexivity |].
  inversion Hnd as [| ? ? Hk Ht]; subst.
  destruct (String.eqb_spec d k).
  - subst k. rewrite String.eqb_refl. injection H as ->. f_equal.
    rewrite <- (map_id t) at 2. apply map_ext_in. intros [k' v'] Hin.
    simpl. destruct (String.eqb_spec k' d); [| reflexivity].
    subst k'. exfalso. apply Hk. now apply (in_map fst) in Hin.
  - destruct (String.eqb_spec k d); [congruence |]. f_equal. now apply IH.
Qed.

Lemma map_nth_order : forall (order : list nat),
  map (fun k => nth k order k) (seq 0 (List.length order)) = order.
Proof.
  intro order. apply (nth_ext _ _ 0 0).
  - now rewrite length_map, length_seq.
  - intros j Hj. rewrite length_map, length_seq in Hj.
    rewrite (nth_indep _ 0 (nth 0 order 0)) by now rewrite length_map, length_seq.
    rewrite (map_nth (fun k => nth k order k)). rewrite seq_nth by assumption.
    simpl. apply nth_indep. assumption.
Qed.

Lemma wrap_longitude_zero : wrap_longitude 0%Qc = 0%Qc.
Proof. apply Qc_is_canon. reflexivity. Qed.

Lemma Forall_map_fixed : forall xs,
  Forall normalised xs -> Forall shifts_exactly xs -> map wrap_longitude xs = xs.
Proof.
  induction 1 as [| x t Hx _ IH]; intro He; [reflexivity |].
  inversion He as [| ? ? [F1 F2] Ht]; subst. simpl. f_equal.
  - now apply wrap_longitude_fixed.
  - now apply IH.
Qed.

Lemma inside_lt : forall ds i d n, inside ds i -> lookup d ds = Some n -> i d < n.
Proof. intros ds i d n Hi H. apply (Hi d n). now apply lookup_In. Qed.

(** Replacing the first coordinate named [k] and then transforming every
    coordinate relates the result to the original list entry by entry. *)
Lemma Forall2_assign_map :
  forall (R : string * Coord -> string * Coord -> Prop)
         (g : string * Coord -> string * Coord) k c c' l,
    lookup k l = Some c ->
    (forall e, R (g e) e) ->
    R (g (k, c')) (k, c) ->
    Forall2 R (map g (assign k c' l)) l.
Proof.
  induction l as [| [k0 c0] t IH]; simpl; intros H Hall Hk; [discriminate |].
  destruct (String.eqb_spec k k0).
  - subst k0. injection H as ->. simpl. constructor; [assumption |].
    clear - Hall. induction t; simpl; constructor; auto.
  - simpl. constructor; auto.
Qed.

Lemma x_axis_inv : forall (V : Type) (da : DataArray V) d xs,
  x_axis da = Some (d, xs) ->
  exists c f n,
    getitem da (long_name_of da) = Some c /\ cdims c = [d] /\ cvals c = CNum f /\
    size da d = Some n /\ xs = map (fun k => f (upd origin d k)) (seq 0 n).
Proof.
  intros V da d xs H. unfold x_axis, coordinate in H. fold (long_name_of da) in H.
  destruct (getitem da (long_name_of da)) as [c |]; simpl in H; [| discriminate].
  destruct (cdims c) as [| d' [| ? ?]] eqn:Ec; try discriminate.
  destruct (size da d') as [n |] eqn:En; simpl in H; [| discriminate].
  destruct (cvals c) as [f | f | f] eqn:Ev; simpl in H; try discriminate.
  injection H as <- <-. exists c, f, n. rewrite Ec. auto.
Qed.

(** C6, amended: [corrlong] maps every longitude x of the x axis to what
    float64 arithmetic makes of ((x + 180) mod 360) - 180, which lies in
    [-180, 180], both ends included, and reorders the field ascending
    along that axis: the new vector is a sorted permutation of the
    wrapped longitudes and the values move with it.  On a field whose
    longitudes are already in [-180, 180) and ascending, and are float64
    numbers to which 180 is added without rounding (the dimension names
    distinct, the longitude coordinate lying along its own axis only), a
    further application returns the same field: same values, same
    order. *)
Theorem corrlong_normalises_and_is_idempotent :
  forall (V : Type) (array : DataArray V) (d : string) (xs : list Qc),
    x_axis array = Some (d, xs) ->
    exists r xs' order,
      corrlong array = Some r /\
      x_axis r = Some (d, xs') /\
      Permutation order (seq 0 (List.length xs)) /\
      xs' = map (fun p => wrap_longitude (nth p xs 0%Qc)) order /\
      Permutation xs' (map wrap_longitude xs) /\
      Forall within_half_turn xs' /\
      Sorted Qcle xs' /\
      (forall i, values r i = values array (upd i d (nth (i d) order (i d)))) /\
      (NoDup (dim_names array) ->
       (exists c, lookup (long_name_of array) (coords array) = Some c /\ axis_only d c) ->
       Forall normalised xs -> Forall shifts_exactly xs -> Sorted Qcle xs ->
       same_field r array).
Proof.
  intros V array d xs Hx.
  destruct (x_axis_inv _ _ _ _ Hx) as (c & f & n & Hg & Hcd & Hcv & Hn & Hxs).
  set (ln := long_name_of array) in *.
  set (c' := mkCoord (cdims c) (CNum (fun i => wrap_longitude (f i)))).
  set (a1 := set_coord ln c' array).
  set (order := lexsort (map wrap_longitude xs)).
  set (r := isel_order d order a1).
  assert (Hlen : List.length xs = n) by (subst xs; now rewrite length_map, length_seq).
  assert (Hks : map (fun k => wrap_longitude (f (upd origin d k))) (seq 0 n)
                = map wrap_longitude xs) by (subst xs; now rewrite map_map).
  assert (Hnth : forall p, nth p (map wrap_longitude xs) 0%Qc = wrap_longitude (nth p xs 0%Qc)).
  { intro p. rewrite <- wrap_longitude_zero at 1. apply map_nth. }
  assert (Hcorr : corrlong array = Some r).
  { unfold corrlong. fold (long_name_of array). fold ln. rewrite Hg. unfold map_num.
    rewrite Hcv. simpl. fold c'. fold a1. unfold sortby, getitem. simpl.
    rewrite lookup_assign_same. simpl. rewrite Hcd.
    unfold size in *. simpl. rewrite Hn. simpl. rewrite Hks. reflexivity. }
  assert (Hord : List.length order = n).
  { unfold order. now rewrite lexsort_length, length_map. }
  exists r, (map (fun p => wrap_longitude (nth p xs 0%Qc)) order), order.
  split; [exact Hcorr |].
  split.
  { unfold x_axis, coordinate. unfold name_in. simpl. fold (name_in array ["u"; "v"]).
    fold (long_name_of array). fold ln. unfold getitem. simpl.
    rewrite (lookup_map_snd _ _ (take_coord d order)), lookup_assign_same. simpl.
    unfold take_coord. simpl. rewrite Hcd. simpl. rewrite String.eqb_refl. simpl.
    unfold size. simpl. rewrite (size_resized d _ _ n) by exact Hn. simpl.
    do 2 f_equal. rewrite Hord.
    transitivity (map (fun p => wrap_longitude (nth p xs 0%Qc))
                      (map (fun k => nth k order k) (seq 0 (List.length order))));
      [| now rewrite map_nth_order].
    rewrite Hord, map_map.
    apply map_ext_in. intros k Hk. unfold along. rewrite upd_same, upd_upd.
    f_equal. subst xs.
    apply in_seq in Hk.
    assert (Hp : nth k order k < n).
    { assert (Hin : In (nth k order k) order) by (apply nth_In; lia).
      eapply Permutation_in in Hin; [| apply lexsort_perm].
      rewrite length_map, length_map, length_seq in Hin. apply in_seq in Hin. lia. }
    rewrite (nth_indep _ 0%Qc (f (upd origin d 0))) by now rewrite length_map, length_seq.
    rewrite (map_nth (fun k => f (upd origin d k))). now rewrite seq_nth. }
  split.
  { unfold order. rewrite <- (length_map wrap_longitude xs). apply lexsort_perm. }
  split; [reflexivity |].
  assert (Hmap : map (fun p => wrap_longitude (nth p xs 0%Qc)) order
                 = map (fun p => nth p (map wrap_longitude xs) 0%Qc) order).
  { apply map_ext. intro p. now rewrite Hnth. }
  split.
  { rewrite Hmap. apply lexsort_keys_perm. }
  split.
  { rewrite Hmap. apply Forall_forall. intros x Hin.
    eapply Permutation_in in Hin; [| apply lexsort_keys_perm].
    apply in_map_iff in Hin. destruct Hin as [y [<- _]]. apply wrap_longitude_range. }
  split.
  { rewrite Hmap. apply lexsort_sorted. }
  split.
  { intro i. reflexivity. }
  intros Hnd [c0 [Hc0 Hax]] Hnorm Hexact Hsorted.
  assert (Hc : c0 = c).
  { unfold getitem in Hg. fold ln in Hc0. rewrite Hc0 in Hg. congruence. }
  subst c0.
  assert (Hid : order = seq 0 n).
  { unfold order. rewrite Forall_map_fixed by assumption.
    rewrite lexsort_fixed by assumption. now rewrite Hlen. }
  assert (Hal : forall i, along d (fun k => nth k order k) i = i).
  { intro i. unfold along. rewrite Hid, nth_seq_id. apply upd_id. }
  unfold same_field. simpl.
  split; [reflexivity |].
  split.
  { rewrite Hord. apply resize_same; [exact Hnd | exact Hn]. }
  split; [reflexivity |].
  split.
  { intros i _. now rewrite Hal. }
  apply (Forall2_assign_map _ (fun e => (fst e, take_coord d order (snd e))) ln c c').
  - unfold getitem in Hg. fold ln in Hc0. exact Hc0.
  - intros [k e]. simpl. split; [reflexivity |].
    unfold take_coord. destruct (mem d (cdims e)); simpl.
    + split; [reflexivity |].
      destruct (cvals e); simpl; intros i _; now rewrite Hal.
    + split; [reflexivity |]. destruct (cvals e); auto.
  - simpl. split; [reflexivity |].
    unfold take_coord. simpl. rewrite Hcd. simpl. rewrite String.eqb_refl. simpl.
    split; [now rewrite Hcd |]. rewrite Hcv. intros i Hi. rewrite Hal.
    destruct Hax as [_ Hax]. rewrite Hcv in Hax.
    rewrite (Hax i (upd origin d (i d))) by now rewrite upd_same.
    assert (Hin : In (f (upd origin d (i d))) xs).
    { subst xs. apply in_map_iff. exists (i d). split; [reflexivity |].
      apply in_seq. split; [lia |]. simpl.
      apply (inside_lt _ _ _ _ Hi). rewrite Hord.
      apply (size_resized d n _ n). exact Hn. }
    rewrite Forall_forall in Hnorm, Hexact.
    destruct (Hexact _ Hin). apply wrap_longitude_fixed; auto.
Qed.

(** ** Label-based slicing and getACCESSdata_SO *)

Lemma ascending_cons : forall a t,
  ascending (a :: t) = true -> Forall (fun y => (a <= y)%Qc) t /\ ascending t = true.
Proof.
  intros a t; revert a. induction t as [| b t IH]; intros a H.
  - split; [constructor | reflexivity].
  - simpl in H. apply andb_true_iff in H. destruct H as [Hab Ht].
    apply Qcleb_spec in Hab. destruct (IH b Ht) as [Hb Hs].
    split; [| exact Ht]. constructor; [exact Hab |].
    eapply Forall_impl; [| exact Hb]. intros y Hy. eapply Qcle_trans; eauto.
Qed.

Lemma count_none : forall p l,
  Forall (fun y => p y = false) l -> count p l = 0 /\ filter p l = [].
Proof.
  unfold count. induction 1 as [| y t Hy Ht [IH1 IH2]]; simpl; [auto |].
  rewrite Hy. auto.
Qed.

Lemma count_cons : forall p a t,
  count p (a :: t) = (if p a then 1 else 0) + count p t.
Proof. intros; unfold count; simpl. now destruct (p a). Qed.

(** On an ascending index, the positions between the two bisection
    points hold exactly the labels of the band. *)
Lemma band_slice : forall lo hi l,
  ascending l = true ->
  skipn (count (fun y => Qcltb y lo) l) (firstn (count (fun y => Qcleb y hi) l) l)
  = filter (in_band lo hi) l.
Proof.
  intros lo hi. induction l as [| a t IH]; intro H; [reflexivity |].
  destruct (ascending_cons _ _ H) as [Hall Ht]. specialize (IH Ht).
  rewrite !count_cons. simpl filter. unfold in_band at 1.
  destruct (Qcltb a lo) eqn:E1; destruct (Qcleb a hi) eqn:E2; simpl.
  - apply Qcltb_spec in E1. assert (E : Qcleb lo a = false).
    { apply not_true_iff_false. rewrite Qcleb_spec. now apply Qclt_not_le. }
    rewrite E. simpl. exact IH.
  - assert (Hz : Forall (fun y => Qcleb y hi = false) t).
    { eapply Forall_impl; [| exact Hall]. intros y Hy. simpl in Hy.
      apply not_true_iff_false. rewrite Qcleb_spec. intro Hc.
      apply not_true_iff_false in E2. apply E2. apply Qcleb_spec.
      eapply Qcle_trans; eauto. }
    destruct (count_none _ _ Hz) as [Hc Hf]. rewrite Hc. simpl.
    rewrite andb_false_r.
    assert (Hb : filter (in_band lo hi) t = []).
    { apply count_none. eapply Forall_impl; [| exact Hz].
      intros y Hy. simpl in Hy. unfold in_band. rewrite Hy. apply andb_false_r. }
    now rewrite Hb.
  - apply Qcltb_false in E1.
    assert (Hz : Forall (fun y => Qcltb y lo = false) t).
    { eapply Forall_impl; [| exact Hall]. intros y Hy. simpl in Hy.
      apply Qcltb_false. eapply Qcle_trans; eauto. }
    destruct (count_none _ _ Hz) as [Hc _]. rewrite Hc in *. simpl in IH.
    apply Qcleb_spec in E1. rewrite E1. simpl. f_equal. exact IH.
  - apply Qcltb_false in E1. apply Qcleb_spec in E1. rewrite E1. simpl.
    assert (Hz : Forall (fun y => Qcleb y hi = false) t).
    { eapply Forall_impl; [| exact Hall]. intros y Hy. simpl in Hy.
      apply not_true_iff_false. rewrite Qcleb_spec. intro Hc.
      apply not_true_iff_false in E2. apply E2. apply Qcleb_spec.
      eapply Qcle_trans; eauto. }
    destruct (count_none _ _ Hz) as [Hc Hf]. rewrite Hc. simpl.
    assert (Hz' : Forall (fun y => Qcltb y lo = false) t).
    { eapply Forall_impl; [| exact Hall]. intros y Hy. simpl in Hy.
      apply Qcltb_false. apply Qcleb_spec in E1. eapply Qcle_trans; eauto. }
    destruct (count_none _ _ Hz') as [Hc' _]. rewrite Hc'. simpl.
    symmetry. apply count_none. eapply Forall_impl; [| exact Hz].
    intros y Hy. simpl in Hy. unfold in_band. rewrite Hy. apply andb_false_r.
Qed.

Lemma count_le_length : forall p l, count p l <= List.length l.
Proof. intros; unfold count; apply filter_length_le. Qed.

Lemma map_seq_shift : forall (A : Type) (g : nat -> A) a m,
  map g (seq a m) = map (fun k => g (k + a)) (seq 0 m).
Proof.
  intros A g a m. revert a g. induction m as [| m IH]; intros a g; [reflexivity |].
  simpl. f_equal. rewrite (IH (S a)), (IH 1). apply map_ext. intro k.
  f_equal. lia.
Qed.

Lemma firstn_seq_le : forall n a len, n <= len -> firstn n (seq a len) = seq a n.
Proof.
  induction n as [| n IH]; intros a len H; [reflexivity |].
  destruct len as [| len]; [lia |]. simpl. f_equal. apply IH. lia.
Qed.

Lemma index_of_inv : forall (V : Type) (da : DataArray V) d ys,
  index_of da d = Some ys ->
  exists n c f, size da d = Some n /\ lookup d (coords da) = Some c /\
    cdims c = [d] /\ cvals c = CNum f /\
    ys = map (fun k => f (upd origin d k)) (seq 0 n).
Proof.
  intros V da d ys H. unfold index_of in H.
  destruct (size da d) as [n |] eqn:En; simpl in H; [| discriminate].
  destruct (lookup d (coords da)) as [c |] eqn:Ec; simpl in H; [| discriminate].
  destruct (cdims c) as [| d' [| ? ?]] eqn:Ed; try discriminate.
  destruct (String.eqb_spec d' d); [| discriminate]. subst d'.
  destruct (cvals c) as [f | f | f] eqn:Ev; simpl in H; try discriminate.
  injection H as <-. exists n, c, f. auto.
Qed.

Lemma get_slice_bound_ascending : forall idx label s,
  ascending idx = true ->
  get_slice_bound idx label s =
  Some (count (fun y => match s with
                        | Left => Qcltb y label
                        | Right => Qcleb y label
                        end) idx).
Proof. intros idx label s H; unfold get_slice_bound; now rewrite H. Qed.

(** Label-based slicing of an ascending axis keeps the band, cells and
    labels alike. *)
Lemma sel_slice_ascending : forall (V : Type) (da : DataArray V) d lo hi ys,
  index_of da d = Some ys -> ascending ys = true ->
  exists r,
    sel_slice d lo hi da = Some r /\
    name r = name da /\
    dim_names r = dim_names da /\
    index_of r d = Some (filter (in_band lo hi) ys) /\
    (forall i, values r i
               = values da (upd i d (i d + count (fun y => Qcltb y lo) ys))).
Proof.
  intros V da d lo hi ys Hidx Hasc.
  destruct (index_of_inv _ _ _ _ Hidx) as (n & c & f & Hn & Hc & Hcd & Hcv & Hys).
  set (start := count (fun y => Qcltb y lo) ys).
  set (stop := count (fun y => Qcleb y hi) ys).
  exists (isel_slice d start stop da).
  split.
  { unfold sel_slice. rewrite Hidx. simpl.
    rewrite !get_slice_bound_ascending by assumption. reflexivity. }
  split; [reflexivity |].
  split.
  { unfold dim_names. simpl. rewrite map_map. apply map_ext.
    intros [k v]. simpl. destruct (String.eqb_spec k d); simpl; congruence. }
  split; [| intro i; reflexivity].
  unfold index_of, size. simpl.
  rewrite (size_resized d _ _ n) by exact Hn. simpl.
  rewrite (lookup_map_snd _ _ (slice_coord d start)), Hc. simpl.
  unfold slice_coord. rewrite Hcd. simpl. rewrite String.eqb_refl. simpl.
  rewrite String.eqb_refl, Hcv. simpl. f_equal.
  rewrite <- (band_slice lo hi ys Hasc). fold start. fold stop.
  assert (Hstop : stop <= n).
  { unfold stop. etransitivity; [apply count_le_length |].
    subst ys. now rewrite length_map, length_seq. }
  subst ys. rewrite firstn_map, skipn_map, firstn_seq_le, skipn_seq by exact Hstop.
  simpl. rewrite (map_seq_shift _ _ start).
  apply map_ext. intro k. unfold along. now rewrite upd_same, upd_upd.
Qed.

(** C9: the field returned by [getACCESSdata_SO] is the loaded field cut
    along its y axis to the latitudes of the band [minlat, maxlat], -90
    and -45 when they are not given; the y axis is yu_ocean for a field
    named u or v and yt_ocean for any other.  The latitudes are read in
    ascending order, as the model grid has them. *)
Theorem getACCESSdata_SO_subsets_latitude_band :
  forall (var start end_ freq : string) (ses : Session)
         (minlat maxlat : option Qc) (exp : option string)
         (ice_data : option bool) (raw : DataArray f64) (ys : list Qc),
    let lo := default (Z2Qc (-90)) minlat in
    let hi := default (Z2Qc (-45)) maxlat in
    load var start end_ freq ses
         (default "01deg_jra55v140_iaf_cycle4" exp) (default false ice_data) = Some raw ->
    index_of raw (y_name raw) = Some ys ->
    ascending ys = true ->
    exists r,
      getACCESSdata_SO var start end_ freq ses minlat maxlat exp ice_data = Some r /\
      y_name raw = (if name_in raw ["u"; "v"] then "yu_ocean" else "yt_ocean") /\
      name r = name raw /\
      dim_names r = dim_names raw /\
      index_of r (y_name raw) = Some (filter (in_band lo hi) ys) /\
      Forall (fun y => (lo <= y)%Qc /\ (y <= hi)%Qc) (filter (in_band lo hi) ys) /\
      (forall i, values r i
                 = values raw (upd i (y_name raw)
                                 (i (y_name raw) + count (fun y => Qcltb y lo) ys))).
Proof.
  intros var start end_ freq ses minlat maxlat exp ice_data raw ys lo hi Hload Hidx Hasc.
  destruct (sel_slice_ascending _ raw (y_name raw) lo hi ys Hidx Hasc)
    as (r & Hsel & Hname & Hdims & Hr & Hval).
  exists r. split.
  { unfold getACCESSdata_SO. rewrite Hload. simpl. fold lo. fold hi.
    unfold y_name in Hsel. destruct (name_in raw ["u"; "v"]); exact Hsel. }
  split; [reflexivity |].
  split; [exact Hname |].
  split; [exact Hdims |].
  split; [exact Hr |].
  split; [| exact Hval].
  apply Forall_forall. intros y Hy. apply filter_In in Hy. destruct Hy as [_ Hy].
  unfold in_band in Hy. apply andb_true_iff in Hy. destruct Hy as [H1 H2].
  split; now apply Qcleb_spec.
Qed.

(** ** Renaming and dropping coordinates *)

Lemma mem_In : forall k l, mem k l = true <-> In k l.
Proof.
  intros k l; unfold mem. rewrite existsb_exists. split.
  - intros [x [Hx E]]. apply String.eqb_eq in E. now subst.
  - intro H. exists k. split; [assumption | apply String.eqb_refl].
Qed.

Lemma mem_false : forall k l, mem k l = false <-> ~ In k l.
Proof.
  intros k l. rewrite <- mem_In. destruct (mem k l); split; congruence.
Qed.

Lemma assign_names : forall (A : Type) k (v : A) l k',
  In k' (map fst (assign k v l)) <-> k' = k \/ In k' (map fst l).
Proof.
  induction l as [| [k0 v0] t IH]; simpl; intro k'.
  - intuition.
  - destruct (String.eqb_spec k k0); simpl.
    + subst k0. intuition.
    + rewrite IH. intuition.
Qed.

Lemma lookup_names : forall (A : Type) k (v : A) l,
  lookup k l = Some v -> In k (map fst l).
Proof.
  intros A k v l H. apply lookup_In in H. now apply (in_map fst) in H.
Qed.

Lemma rename_name_inj : forall old new a b,
  a <> new -> b <> new -> rename_name old new a = rename_name old new b -> a = b.
Proof.
  intros old new a b Ha Hb. unfold rename_name.
  destruct (String.eqb_spec a old), (String.eqb_spec b old); congruence.
Qed.

(** Looking up a renamed key in a renamed dictionary. *)
Lemma lookup_rename : forall (A B : Type) (g : A -> B) old new (l : list (string * A)) k,
  ~ In new (map fst l) -> k <> new ->
  lookup (rename_name old new k)
         (map (fun e => (rename_name old new (fst e), g (snd e))) l)
  = option_map g (lookup k l).
Proof.
  induction l as [| [k0 v0] t IH]; simpl; intros k Hnew Hk; [reflexivity |].
  destruct (String.eqb_spec k k0).
  - subst k0. now rewrite String.eqb_refl.
  - destruct (String.eqb_spec (rename_name old new k) (rename_name old new k0)) as [E | E].
    + exfalso. apply n. apply (rename_name_inj old new); auto.
    + apply IH; auto.
Qed.

Lemma option_map_id : forall (A : Type) (o : option A), option_map (fun x => x) o = o.
Proof. now destruct o. Qed.

Lemma rename_spec : forall (V : Type) old new (da : DataArray V),
  In old (dim_names da ++ map fst (coords da))%list ->
  ~ In new (dim_names da ++ map fst (coords da))%list ->
  rename old new da =
  Some (mkDA (name da)
          (map (fun e => (rename_name old new (fst e), snd e)) (dims da))
          (fun i => values da (fun d => i (rename_name old new d)))
          (map (fun e => (rename_name old new (fst e),
                          mkCoord (map (rename_name old new) (cdims (snd e)))
                                  (cdata_at (fun i d => i (rename_name old new d))
                                            (cvals (snd e)))))
               (coords da))
          (attrs da)).
Proof.
  intros V old new da Hold Hnew. unfold rename.
  apply mem_In in Hold. apply mem_false in Hnew. rewrite Hold, Hnew. reflexivity.
Qed.

Lemma lookup_filter_keys : forall (A : Type) (p : string -> bool) k (l : list (string * A)),
  p k = true -> lookup k (filter (fun e => p (fst e)) l) = lookup k l.
Proof.
  induction l as [| [k0 v0] t IH]; simpl; intro Hp; [reflexivity |].
  destruct (p k0) eqn:E0; simpl.
  - destruct (String.eqb k k0); auto.
  - destruct (String.eqb_spec k k0); [congruence | auto].
Qed.

(** Dropping every coordinate outside [keep] leaves those of [keep]. *)
Lemma lookup_drop : forall (V : Type) keep (da : DataArray V) k,
  mem k keep = true ->
  lookup k (coords (drop (filter (fun i => negb (mem i keep)) (map fst (coords da))) da))
  = lookup k (coords da).
Proof.
  intros V keep da k Hk. simpl.
  set (names := filter (fun i => negb (mem i keep)) (map fst (coords da))).
  apply (lookup_filter_keys _ (fun s => negb (mem s names))).
  apply negb_true_iff, mem_false. intro Hin. unfold names in Hin.
  apply filter_In in Hin. destruct Hin as [_ Hin]. now rewrite Hk in Hin.
Qed.

Lemma coordinate_inv : forall (V : Type) (da : DataArray V) key d xs,
  coordinate da key = Some (d, xs) ->
  exists c f n,
    getitem da key = Some c /\ cdims c = [d] /\ cvals c = CNum f /\
    size da d = Some n /\ xs = map (fun k => f (upd origin d k)) (seq 0 n).
Proof.
  intros V da key d xs H. unfold coordinate in H.
  destruct (getitem da key) as [c |]; simpl in H; [| discriminate].
  destruct (cdims c) as [| d' [| ? ?]] eqn:Ec; try discriminate.
  destruct (size da d') as [n |] eqn:En; simpl in H; [| discriminate].
  destruct (cvals c) as [f | f | f] eqn:Ev; simpl in H; try discriminate.
  injection H as <- <-. exists c, f, n. auto.
Qed.

Lemma time_of_inv : forall (V : Type) (da : DataArray V) ts,
  time_of da = Some ts ->
  exists n c f, size da "time" = Some n /\ lookup "time" (coords da) = Some c /\
    cdims c = ["time"] /\ cvals c = CTime f /\
    ts = map (fun k => f (upd origin "time" k)) (seq 0 n).
Proof.
  intros V da ts H. unfold time_of in H.
  destruct (size da "time") as [n |] eqn:En; simpl in H; [| discriminate].
  destruct (lookup "time" (coords da)) as [c |] eqn:Ec; simpl in H; [| discriminate].
  destruct (cdims c) as [| d' [| ? ?]] eqn:Ed; try discriminate.
  destruct (String.eqb_spec d' "time"); [| discriminate]. subst d'.
  destruct (cvals c) as [f | f | f] eqn:Ev; simpl in H; try discriminate.
  injection H as <-. exists n, c, f. auto.
Qed.

Lemma lookup_resize_other : forall d m k (ds : list (string * nat)),
  k <> d ->
  lookup k (map (fun e => if String.eqb (fst e) d then (d, m) else e) ds) = lookup k ds.
Proof.
  induction ds as [| [k0 v0] t IH]; simpl; intro H; [reflexivity |].
  destruct (String.eqb_spec k0 d); simpl.
  - subst k0. destruct (String.eqb_spec k d); [contradiction |]. auto.
  - destruct (String.eqb k k0); auto.
Qed.

(** ** Reconciling sea-ice fields *)

Lemma lookup_ocean : forall (A B C : Type) (g1 : A -> B) (g2 : B -> C)
    (l : list (string * A)) k,
  ~ In "xt_ocean" (map fst l) -> ~ In "yt_ocean" (map fst l) ->
  k <> "xt_ocean" -> k <> "yt_ocean" ->
  lookup (ocean_name k)
         (map (fun e => (rename_name "nj" "yt_ocean" (fst e), g2 (snd e)))
              (map (fun e => (rename_name "ni" "xt_ocean" (fst e), g1 (snd e))) l))
  = option_map (fun x => g2 (g1 x)) (lookup k l).
Proof.
  intros A B C g1 g2 l k Hx Hy Hkx Hky. unfold ocean_name.
  rewrite (lookup_rename _ _ g2 "nj" "yt_ocean").
  - rewrite (lookup_rename _ _ g1 "ni" "xt_ocean" l k Hx Hkx).
    now destruct (lookup k l).
  - rewrite map_map. simpl. intro Hin. apply in_map_iff in Hin.
    destruct Hin as [[k0 v0] [E Hin]]. simpl in E. apply Hy.
    unfold rename_name in E. destruct (String.eqb_spec k0 "ni"); [discriminate |].
    subst k0. now apply (in_map fst) in Hin.
  - unfold rename_name. destruct (String.eqb_spec k "ni"); [discriminate | assumption].
Qed.

Lemma ice_pos_time : forall k, ice_pos (upd origin "time" k) = upd origin "time" k.
Proof.
  intro k. apply functional_extensionality. intro d.
  unfold ice_pos, ocean_name, rename_name, upd.
  destruct (String.eqb_spec d "ni") as [-> | ?]; [reflexivity |].
  destruct (String.eqb_spec d "nj") as [-> | ?]; reflexivity.
Qed.

Lemma shift_time_spec : forall (V : Type) (da : DataArray V) ct ft,
  lookup "time" (coords da) = Some ct -> cdims ct = ["time"] -> cvals ct = CTime ft ->
  shift_time da
  = Some (set_coord "time" (mkCoord ["time"] (CTime (fun i => ft i - twelve_hours)%Z)) da).
Proof.
  intros V da ct ft H Hd Hv. unfold shift_time, getitem. rewrite H. simpl.
  rewrite Hv, Hd. reflexivity.
Qed.

Lemma set_index_spec : forall (V : Type) key src sz (da : DataArray V) d n,
  cdims src = [d] -> sz d = Some n -> size da key = Some n ->
  set_index key src sz da
  = Some (set_coord key
            (mkCoord [key] (cdata_at (fun i => upd origin d (i key)) (cvals src))) da).
Proof.
  intros V key src sz da d n Hd Hn Hk. unfold set_index. rewrite Hd, Hn. simpl.
  rewrite Hk. simpl. now rewrite Nat.eqb_refl.
Qed.

Lemma ocean_coord_twice : forall c,
  mkCoord (map (rename_name "nj" "yt_ocean") (map (rename_name "ni" "xt_ocean") (cdims c)))
          (cdata_at (fun i d => i (rename_name "nj" "yt_ocean" d))
             (cdata_at (fun i d => i (rename_name "ni" "xt_ocean" d)) (cvals c)))
  = ocean_coord c.
Proof.
  intro c. unfold ocean_coord. rewrite map_map. f_equal. now destruct (cvals c).
Qed.

Lemma renamed_name_in : forall (A : Type) old new k (l : list (string * A)),
  k <> new ->
  In k (map (fun e => rename_name old new (fst e)) l) -> In k (map fst l).
Proof.
  intros A old new k l Hk Hin. apply in_map_iff in Hin.
  destruct Hin as [[k0 v0] [E Hin]]. simpl in E. unfold rename_name in E.
  destruct (String.eqb_spec k0 old); [congruence |]. subst k0.
  now apply (in_map fst) in Hin.
Qed.

(** What [load] answers for sea-ice data: the raw field with its time
    shifted and its grid axes renamed and labelled after [area_t]. *)
Lemma load_ice : forall var start end_ freq ses exp ice area ct ft xc gx dx nx yc gy dy ny,
  getvar exp var ses (mkQuery (Some freq) (Some start) (Some end_) false None) = Some ice ->
  getvar exp "area_t" ses (mkQuery None None None true (Some 1)) = Some area ->
  lookup "time" (coords ice) = Some ct -> cdims ct = ["time"] -> cvals ct = CTime ft ->
  getitem area "xt_ocean" = Some xc -> cdims xc = [dx] -> cvals xc = CNum gx ->
  size area dx = Some nx -> size ice "ni" = Some nx ->
  getitem area "yt_ocean" = Some yc -> cdims yc = [dy] -> cvals yc = CNum gy ->
  size area dy = Some ny -> size ice "nj" = Some ny ->
  ~ In "xt_ocean" (dim_names ice ++ map fst (coords ice))%list ->
  ~ In "yt_ocean" (dim_names ice ++ map fst (coords ice))%list ->
  exists a,
    load var start end_ freq ses exp true = Some a /\
    name a = name ice /\
    dims a = map (fun e => (ocean_name (fst e), snd e)) (dims ice) /\
    (forall i, values a i = values ice (ice_pos i)) /\
    lookup "time" (coords a)
      = Some (mkCoord ["time"] (CTime (fun i => ft (ice_pos i) - twelve_hours)%Z)) /\
    lookup "xt_ocean" (coords a)
      = Some (mkCoord ["xt_ocean"] (CNum (fun i => gx (upd origin dx (i "xt_ocean"))))) /\
    lookup "yt_ocean" (coords a)
      = Some (mkCoord ["yt_ocean"] (CNum (fun i => gy (upd origin dy (i "yt_ocean"))))).
Proof.
  intros var start end_ freq ses exp ice area ct ft xc gx dx nx yc gy dy ny
         Hice Harea Hct Hctd Hctv Hxc Hxd Hxv Hnx Hni Hyc Hyd Hyv Hny Hnj Hfx Hfy.
  unfold load. rewrite Hice, Harea. cbn [bind].
  rewrite (shift_time_spec _ ice ct ft Hct Hctd Hctv). cbn [bind].
  rewrite Hxc. cbn [bind].
  rewrite (set_index_spec _ "ni" xc (size area) (set_coord "time" _ ice) dx nx Hxd Hnx Hni).
  cbn [bind].
  rewrite Hyc. cbn [bind].
  rewrite (set_index_spec _ "nj" yc (size area)
             (set_coord "ni" _ (set_coord "time" _ ice)) dy ny Hyd Hny Hnj).
  cbn [bind].
  rewrite Hxv, Hyv. cbn [cdata_at].
  set (a3 := set_coord "nj" _ (set_coord "ni" _ (set_coord "time" _ ice))).
  assert (Hnames3 : forall k, In k (map fst (coords a3)) <->
                              k = "nj" \/ k = "ni" \/ k = "time" \/ In k (map fst (coords ice))).
  { intro k. unfold a3. simpl. now rewrite !assign_names. }
  assert (Hfree3 : forall k, ~ In k (dim_names ice ++ map fst (coords ice))%list ->
                             k <> "nj" -> k <> "ni" -> k <> "time" ->
                             ~ In k (dim_names a3 ++ map fst (coords a3))%list).
  { intros k Hk H1 H2 H3 Hin. apply in_app_or in Hin. destruct Hin as [Hin | Hin].
    - apply Hk, in_or_app. now left.
    - apply Hnames3 in Hin. destruct Hin as [? | [? | [? | Hin]]]; try contradiction.
      apply Hk, in_or_app. now right. }
  rewrite (rename_spec _ "ni" "xt_ocean" a3).
  2:{ apply in_or_app. left. apply (lookup_names _ _ _ _ Hni). }
  2:{ apply Hfree3; [assumption | discriminate ..]. }
  cbn [bind].
  set (a4 := mkDA _ _ _ _ _).
  rewrite (rename_spec _ "nj" "yt_ocean" a4).
  2:{ apply in_or_app. left. unfold a4, dim_names. simpl. rewrite map_map. simpl.
      apply in_map_iff. exists ("nj", ny). split; [reflexivity |].
      now apply lookup_In. }
  2:{ unfold a4, dim_names. simpl. rewrite !map_map. simpl.
      intro Hin. apply (Hfree3 "yt_ocean"); [assumption | discriminate ..|].
      apply in_app_or in Hin. apply in_or_app.
      destruct Hin as [Hin | Hin]; [left | right];
        apply (renamed_name_in _ "ni" "xt_ocean") in Hin; (assumption || discriminate). }
  cbn [bind].
  set (a5 := mkDA _ _ _ _ _).
  assert (Hlk : forall k, k <> "xt_ocean" -> k <> "yt_ocean" ->
                  lookup (ocean_name k) (coords a5)
                  = option_map ocean_coord (lookup k (coords a3))).
  { intros k Hkx Hky. unfold a5, a4. cbn [coords].
    pose (G := fun old new c =>
                 mkCoord (map (rename_name old new) (cdims c))
                         (cdata_at (fun (i : pos) d => i (rename_name old new d)) (cvals c))).
    etransitivity;
      [apply (lookup_ocean _ _ _ (G "ni" "xt_ocean") (G "nj" "yt_ocean") (coords a3) k);
       try assumption |].
    3:{ destruct (lookup k (coords a3)) as [c |]; [| reflexivity].
        unfold option_map, G. f_equal. apply (ocean_coord_twice c). }
    - intro Hin. apply (Hfree3 "xt_ocean"); [assumption | discriminate ..|].
      apply in_or_app. now right.
    - intro Hin. apply (Hfree3 "yt_ocean"); [assumption | discriminate ..|].
      apply in_or_app. now right. }
  assert (Ht : lookup "time" (coords a5)
               = Some (mkCoord ["time"] (CTime (fun i => ft (ice_pos i) - twelve_hours)%Z))).
  { change "time" with (ocean_name "time") at 1.
    rewrite Hlk by discriminate. unfold a3. cbn [coords set_coord].
    rewrite !lookup_assign_other by discriminate. rewrite lookup_assign_same.
    reflexivity. }
  assert (Hx : lookup "xt_ocean" (coords a5)
               = Some (mkCoord ["xt_ocean"] (CNum (fun i => gx (upd origin dx (i "xt_ocean")))))).
  { change "xt_ocean" with (ocean_name "ni") at 1.
    rewrite Hlk by discriminate. unfold a3. cbn [coords set_coord].
    rewrite lookup_assign_other by discriminate. rewrite lookup_assign_same.
    reflexivity. }
  assert (Hy : lookup "yt_ocean" (coords a5)
               = Some (mkCoord ["yt_ocean"] (CNum (fun i => gy (upd origin dy (i "yt_ocean")))))).
  { change "yt_ocean" with (ocean_name "nj") at 1.
    rewrite Hlk by discriminate. unfold a3. cbn [coords set_coord].
    rewrite lookup_assign_same. reflexivity. }
  assert (Hd : dims a5 = map (fun e => (ocean_name (fst e), snd e)) (dims ice)).
  { unfold a5, a4, a3. cbn [dims set_coord]. now rewrite map_map. }
  destruct (3 <? List.length (coords a5)).
  - eexists. split; [reflexivity |].
    split; [reflexivity |]. split; [exact Hd |]. split; [intro i; reflexivity |].
    rewrite !lookup_drop by reflexivity. auto.
  - exists a5. split; [reflexivity |].
    split; [reflexivity |]. split; [exact Hd |]. split; [intro i; reflexivity |]. auto.
Qed.

Lemma lookup_ocean_dims : forall (l : list (string * nat)) k,
  ~ In "xt_ocean" (map fst l) -> ~ In "yt_ocean" (map fst l) ->
  k <> "xt_ocean" -> k <> "yt_ocean" ->
  lookup (ocean_name k) (map (fun e => (ocean_name (fst e), snd e)) l) = lookup k l.
Proof.
  intros l k Hx Hy Hkx Hky.
  rewrite <- (option_map_id _ (lookup k l)).
  rewrite <- (lookup_ocean _ _ _ (fun x => x) (fun x => x) l k Hx Hy Hkx Hky).
  now rewrite map_map.
Qed.

Lemma sel_slice_ascending_eq : forall (V : Type) (da : DataArray V) d lo hi ys,
  index_of da d = Some ys -> ascending ys = true ->
  sel_slice d lo hi da
  = Some (isel_slice d (count (fun y => Qcltb y lo) ys)
                       (count (fun y => Qcleb y hi) ys) da).
Proof.
  intros V da d lo hi ys Hidx Hasc. unfold sel_slice. rewrite Hidx. simpl.
  now rewrite !get_slice_bound_ascending by assumption.
Qed.

Lemma slice_coord_other : forall d s c k, cdims c = [k] -> k <> d -> slice_coord d s c = c.
Proof.
  intros d s c k Hc Hk. unfold slice_coord. rewrite Hc. simpl.
  destruct (String.eqb_spec d k); [congruence | reflexivity].
Qed.

Lemma index_of_slice_other : forall (V : Type) (da : DataArray V) d s e k,
  k <> d -> index_of (isel_slice d s e da) k = index_of da k.
Proof.
  intros V da d s e k Hk. unfold index_of, size. simpl.
  rewrite lookup_resize_other by assumption.
  destruct (lookup k (dims da)) as [n |]; [| reflexivity]. simpl.
  rewrite (lookup_map_snd _ _ (slice_coord d s)).
  destruct (lookup k (coords da)) as [c |]; [| reflexivity]. simpl.
  destruct (cdims c) as [| d' [| ? ?]] eqn:Ec.
  - unfold slice_coord. rewrite Ec. simpl. now rewrite Ec.
  - destruct (String.eqb_spec d' k).
    + subst d'. rewrite (slice_coord_other d s c k Ec Hk). rewrite Ec.
      now rewrite String.eqb_refl.
    + unfold slice_coord. rewrite Ec. destruct (mem d [d']); simpl; rewrite ?Ec;
        destruct (String.eqb_spec d' k); congruence.
  - unfold slice_coord. rewrite Ec. destruct (mem d _); simpl; now rewrite ?Ec.
Qed.

Lemma time_of_slice_other : forall (V : Type) (da : DataArray V) d s e,
  d <> "time" -> time_of (isel_slice d s e da) = time_of da.
Proof.
  intros V da d s e Hk. unfold time_of, size. simpl.
  rewrite lookup_resize_other by congruence.
  destruct (lookup "time" (dims da)) as [n |]; [| reflexivity]. simpl.
  rewrite (lookup_map_snd _ _ (slice_coord d s)).
  destruct (lookup "time" (coords da)) as [c |]; [| reflexivity]. simpl.
  destruct (cdims c) as [| d' [| ? ?]] eqn:Ec.
  - unfold slice_coord. rewrite Ec. simpl. now rewrite Ec.
  - destruct (String.eqb_spec d' "time").
    + subst d'. rewrite (slice_coord_other d s c "time" Ec) by congruence. rewrite Ec.
      reflexivity.
    + unfold slice_coord. rewrite Ec. destruct (mem d [d']); simpl; rewrite ?Ec;
        destruct (String.eqb_spec d' "time"); congruence.
  - unfold slice_coord. rewrite Ec. destruct (mem d _); simpl; now rewrite ?Ec.
Qed.

Lemma filter_all : forall (A : Type) (p : A -> bool) l,
  Forall (fun y => p y = true) l -> filter p l = l.
Proof.
  induction 1 as [| y t Hy Ht IH]; simpl; [reflexivity |]. now rewrite Hy, IH.
Qed.

(** C1, amended: for a sea-ice field [getACCESSdata_SO] returns a field
    whose timestamps are the raw ones minus twelve hours, whose x vector
    is the xt_ocean vector of area_t, whose axes ni and nj bear the names
    xt_ocean and yt_ocean, and whose y vector is the yt_ocean vector of
    area_t cut to the band [minlat, maxlat]: the whole vector when every
    latitude of area_t lies in the band, a part of it otherwise. *)
Theorem getACCESSdata_SO_reconciles_ice_fields :
  forall (var start end_ freq : string) (ses : Session)
         (minlat maxlat : option Qc) (exp : option string)
         (ice area : DataArray f64) (ts : list Z)
         (dx dy : string) (xs ys : list Qc),
    let lo := default (Z2Qc (-90)) minlat in
    let hi := default (Z2Qc (-45)) maxlat in
    let e := default "01deg_jra55v140_iaf_cycle4" exp in
    getvar e var ses (mkQuery (Some freq) (Some start) (Some end_) false None) = Some ice ->
    getvar e "area_t" ses (mkQuery None None None true (Some 1)) = Some area ->
    time_of ice = Some ts ->
    coordinate area "xt_ocean" = Some (dx, xs) ->
    coordinate area "yt_ocean" = Some (dy, ys) ->
    size ice "ni" = Some (List.length xs) ->
    size ice "nj" = Some (List.length ys) ->
    mem "xt_ocean" (dim_names ice ++ map fst (coords ice))%list = false ->
    mem "yt_ocean" (dim_names ice ++ map fst (coords ice))%list = false ->
    name_in ice ["u"; "v"] = false ->
    ascending ys = true ->
    exists r,
      getACCESSdata_SO var start end_ freq ses minlat maxlat exp (Some true) = Some r /\
      time_of r = Some (map (fun t => (t - twelve_hours)%Z) ts) /\
      index_of r "xt_ocean" = Some xs /\
      index_of r "yt_ocean" = Some (filter (in_band lo hi) ys) /\
      (Forall (fun y => in_band lo hi y = true) ys -> index_of r "yt_ocean" = Some ys) /\
      dim_names r = map ocean_name (dim_names ice).
Proof.
  intros var start end_ freq ses minlat maxlat exp ice area ts dx dy xs ys lo hi e
         Hice Harea Hts Hxs Hys Hni Hnj Hfx Hfy Hname Hasc.
  apply mem_false in Hfx, Hfy.
  destruct (time_of_inv _ _ _ Hts) as (nt & ct & ft & Hnt & Hct & Hctd & Hctv & Ets).
  destruct (coordinate_inv _ _ _ _ _ Hxs) as (xc & gx & nx & Hxc & Hxd & Hxv & Hnx & Exs).
  destruct (coordinate_inv _ _ _ _ _ Hys) as (yc & gy & ny & Hyc & Hyd & Hyv & Hny & Eys).
  assert (Lx : List.length xs = nx) by (subst xs; now rewrite length_map, length_seq).
  assert (Ly : List.length ys = ny) by (subst ys; now rewrite length_map, length_seq).
  rewrite Lx in Hni. rewrite Ly in Hnj.
  destruct (load_ice var start end_ freq ses e ice area ct ft xc gx dx nx yc gy dy ny
              Hice Harea Hct Hctd Hctv Hxc Hxd Hxv Hnx Hni Hyc Hyd Hyv Hny Hnj Hfx Hfy)
    as (a & Hload & Hna & Hda & Hva & Hta & Hxa & Hya).
  assert (Hfdx : ~ In "xt_ocean" (map fst (dims ice))).
  { intro H. apply Hfx, in_or_app. now left. }
  assert (Hfdy : ~ In "yt_ocean" (map fst (dims ice))).
  { intro H. apply Hfy, in_or_app. now left. }
  assert (Sx : size a "xt_ocean" = Some nx).
  { unfold size. rewrite Hda. change "xt_ocean" with (ocean_name "ni").
    rewrite lookup_ocean_dims; (assumption || discriminate). }
  assert (Sy : size a "yt_ocean" = Some ny).
  { unfold size. rewrite Hda. change "yt_ocean" with (ocean_name "nj").
    rewrite lookup_ocean_dims; (assumption || discriminate). }
  assert (St : size a "time" = Some nt).
  { unfold size. rewrite Hda. change "time" with (ocean_name "time").
    rewrite lookup_ocean_dims; (assumption || discriminate). }
  assert (Iy : index_of a "yt_ocean" = Some ys).
  { unfold index_of. rewrite Sy, Hya. simpl. f_equal. subst ys.
    apply map_ext. intro k. now rewrite upd_same. }
  assert (Ix : index_of a "xt_ocean" = Some xs).
  { unfold index_of. rewrite Sx, Hxa. simpl. f_equal. subst xs.
    apply map_ext. intro k. now rewrite upd_same. }
  assert (Ta : time_of a = Some (map (fun t => (t - twelve_hours)%Z) ts)).
  { unfold time_of. rewrite St, Hta. simpl. f_equal. subst ts. rewrite map_map.
    apply map_ext. intro k. now rewrite ice_pos_time. }
  set (r := isel_slice "yt_ocean" (count (fun y => Qcltb y lo) ys)
                       (count (fun y => Qcleb y hi) ys) a).
  assert (Hsel : sel_slice "yt_ocean" lo hi a = Some r)
    by (apply sel_slice_ascending_eq; assumption).
  destruct (sel_slice_ascending _ a "yt_ocean" lo hi ys Iy Hasc)
    as (r' & Hsel' & _ & Hdn & Hiy & _).
  assert (r' = r) by congruence. subst r'.
  exists r. split.
  { unfold getACCESSdata_SO. cbn [default]. fold e. rewrite Hload. cbn [bind].
    unfold name_in in *. rewrite Hna, Hname. exact Hsel. }
  split; [unfold r; rewrite time_of_slice_other by discriminate; exact Ta |].
  split; [unfold r; rewrite index_of_slice_other by discriminate; exact Ix |].
  split; [exact Hiy |].
  split; [intro Hall; rewrite Hiy; now rewrite filter_all |].
  rewrite Hdn. unfold dim_names. rewrite Hda, !map_map. reflexivity.
Qed.

(** *** Worked cases *)

Lemma corrlong_on_sample :
  (exists r xs',
     corrlong sample_lon = Some r /\
     x_axis r = Some ("xt_ocean", xs') /\
     Permutation xs' (map wrap_longitude (map Z2Qc [0; 90; 180; 270]%Z)) /\
     Forall within_half_turn xs' /\
     Sorted Qcle xs') /\
  (exists r, corrlong sample_lon_west = Some r /\ same_field r sample_lon_west).
Proof.
  split.
  - destruct (corrlong_normalises_and_is_idempotent
                f64 sample_lon "xt_ocean" (map Z2Qc [0; 90; 180; 270]%Z) eq_refl)
      as (r & xs' & order & H1 & H2 & _ & _ & H5 & H6 & H7 & _).
    exists r, xs'. repeat split; assumption.
  - destruct (corrlong_normalises_and_is_idempotent
                f64 sample_lon_west "xt_ocean" (map Z2Qc [-180; -90; 0; 90]%Z) eq_refl)
      as (r & xs' & order & H1 & _ & _ & _ & _ & _ & _ & _ & H9).
    exists r. split; [exact H1 |]. apply H9.
    + repeat constructor. simpl. tauto.
    + eexists. split; [reflexivity |]. split; [reflexivity |].
      simpl. intros i j E. now rewrite E.
    + repeat constructor; unfold Qcle; vm_compute; congruence.
    + repeat constructor; apply Qc_is_canon; vm_compute; reflexivity.
    + repeat constructor; unfold Qcle; vm_compute; congruence.
Defined.

(** C6, as stated, fails on float64 longitudes.  The longitude 0.1 lies
    in [-180, 180), but 0.1 + 180 is rounded and [corrlong] returns
    0.09999999999999432 in its place: a field with that longitude, in
    range and ascending, does not come back as it was.  The float64 just
    below -180 is mapped to 180 itself, outside [-180, 180). *)
Lemma corrlong_rounds_longitudes :
  (float64 tenth /\ normalised tenth /\
   x_axis (sample_meridian tenth) = Some ("xt_ocean", [tenth]) /\
   exists r y,
     corrlong (sample_meridian tenth) = Some r /\
     x_axis r = Some ("xt_ocean", [y]) /\
     this y = (3518437208883 # 35184372088832)%Q /\
     y <> tenth /\
     ~ same_field r (sample_meridian tenth)) /\
  (float64 just_below_minus_180 /\
   exists r y,
     corrlong (sample_meridian just_below_minus_180) = Some r /\
     x_axis r = Some ("xt_ocean", [y]) /\
     y = Z2Qc 180 /\
     ~ normalised y).
Proof.
  split.
  - split; [apply Qc_is_canon; vm_compute; reflexivity |].
    split; [split; unfold Qcle, Qclt; vm_compute; congruence |].
    split; [reflexivity |].
    eexists. eexists. split; [reflexivity |]. split; [reflexivity |].
    split; [vm_compute; reflexivity |].
    assert (N : wrap_longitude tenth <> tenth).
    { intro H. apply (f_equal this) in H. vm_compute in H. discriminate H. }
    split; [exact N |].
    intros (_ & _ & _ & _ & Hc). simpl in Hc.
    inversion Hc as [| ? ? ? ? [_ [_ Hv]] _]; subst. simpl in Hv.
    apply N. apply (Hv origin). intros d n Hin.
    destruct Hin as [E | []]. injection E as <- <-. unfold origin. lia.
  - split; [apply Qc_is_canon; vm_compute; reflexivity |].
    eexists. eexists. split; [reflexivity |]. split; [reflexivity |].
    split; [apply Qc_is_canon; vm_compute; reflexivity |].
    intros [_ H]. revert H. unfold Qclt. vm_compute. congruence.
Qed.

Lemma getACCESSdata_SO_on_sample_u :
  exists r,
    getACCESSdata_SO "u" "2010-01" "2010-01" "1 daily" (sample_session [-80; -79]%Z)
                     None None None None = Some r /\
    index_of r "yu_ocean" = Some (map Z2Qc [-80; -60; -45]%Z) /\
    dim_names r = ["time"; "st_ocean"; "yu_ocean"; "xu_ocean"].
Proof.
  destruct (getACCESSdata_SO_subsets_latitude_band
              "u" "2010-01" "2010-01" "1 daily" (sample_session [-80; -79]%Z)
              None None None None sample_u (map Z2Qc [-80; -60; -45; -40]%Z)
              eq_refl eq_refl eq_refl)
    as (r & H1 & _ & _ & H4 & H5 & _).
  exists r. repeat split; assumption.
Defined.

Lemma getACCESSdata_SO_on_sample_ice :
  exists r,
    getACCESSdata_SO "aice" "2010-01" "2010-01" "1 daily" (sample_session [-80; -79]%Z)
                     None None None (Some true) = Some r /\
    time_of r = Some [(new_year_2010 - twelve_hours)%Z;
                      (new_year_2010 + nanoseconds_per_day - twelve_hours)%Z] /\
    index_of r "xt_ocean" = Some (map Z2Qc [0; 1]%Z) /\
    index_of r "yt_ocean" = Some (map Z2Qc [-80; -79]%Z) /\
    dim_names r = ["time"; "yt_ocean"; "xt_ocean"].
Proof.
  destruct (getACCESSdata_SO_reconciles_ice_fields
              "aice" "2010-01" "2010-01" "1 daily" (sample_session [-80; -79]%Z)
              None None None sample_ice (sample_area_t [-80; -79]%Z)
              [new_year_2010; (new_year_2010 + nanoseconds_per_day)%Z]
              "xt_ocean" "yt_ocean" (map Z2Qc [0; 1]%Z) (map Z2Qc [-80; -79]%Z)
              eq_refl eq_refl eq_refl eq_refl eq_refl eq_refl eq_refl eq_refl eq_refl
              eq_refl eq_refl)
    as (r & H1 & H2 & H3 & H4 & _ & H6).
  exists r. repeat split; assumption.
Defined.

(** C1, as stated, fails: with the reference latitudes -80 and -40 and
    the default band, the returned field keeps -80 only, so its y vector
    is not that of [area_t]. *)
Lemma getACCESSdata_SO_drops_latitudes_outside_band :
  exists r,
    getACCESSdata_SO "aice" "2010-01" "2010-01" "1 daily" (sample_session [-80; -40]%Z)
                     None None None (Some true) = Some r /\
    index_of (sample_area_t [-80; -40]%Z) "yt_ocean" = Some (map Z2Qc [-80; -40]%Z) /\
    index_of r "yt_ocean" = Some (map Z2Qc [-80]%Z) /\
    index_of r "yt_ocean" <> index_of (sample_area_t [-80; -40]%Z) "yt_ocean".
Proof.
  eexists. split; [reflexivity |].
  split; [reflexivity |].
  split; [reflexivity |].
  intro H. vm_compute in H. discriminate H.
Qed.

(** ** Axis lists *)

Lemma lookup_NoDup : forall (A : Type) k (v : A) l,
  NoDup (map fst l) -> In (k, v) l -> lookup k l = Some v.
Proof.
  induction l as [| [k0 v0] t IH]; simpl; intros Hnd Hin; [contradiction |].
  inversion Hnd as [| ? ? Hk Ht]; subst.
  destruct Hin as [E | Hin].
  - injection E as -> ->. now rewrite String.eqb_refl.
  - destruct (String.eqb_spec k k0).
    + subst k0. exfalso. apply Hk. now apply (in_map fst) in Hin.
    + auto.
Qed.

Lemma remove_key_In : forall (A : Type) d (l : list (string * A)) e,
  In e (remove_key d l) <-> In e l /\ fst e <> d.
Proof.
  intros A d l e. unfold remove_key. rewrite filter_In.
  rewrite negb_true_iff. split; intros [H1 H2]; split; auto.
  - intro E. rewrite E, String.eqb_refl in H2. discriminate.
  - now apply String.eqb_neq.
Qed.

Lemma remove_key_names : forall (A : Type) d (l : list (string * A)) k,
  In k (map fst (remove_key d l)) <-> In k (map fst l) /\ k <> d.
Proof.
  intros A d l k. rewrite !in_map_iff. split.
  - intros [e [E He]]. apply remove_key_In in He. destruct He as [He Hd].
    subst k. split; [exists e; auto | assumption].
  - intros [[e [E He]] Hk]. exists e. split; [assumption |].
    apply remove_key_In. subst k. auto.
Qed.

Lemma remove_key_NoDup : forall (A : Type) d (l : list (string * A)),
  NoDup (map fst l) -> NoDup (map fst (remove_key d l)).
Proof.
  induction l as [| [k v] t IH]; simpl; intro H; [constructor |].
  inversion H as [| ? ? Hk Ht]; subst.
  destruct (String.eqb k d); simpl; [auto |].
  constructor; [| auto]. intro Hin. apply remove_key_names in Hin. tauto.
Qed.

Lemma lookup_remove_key : forall (A : Type) d k (l : list (string * A)),
  k <> d -> lookup k (remove_key d l) = lookup k l.
Proof.
  induction l as [| [k0 v0] t IH]; simpl; intro H; [reflexivity |].
  destruct (String.eqb_spec k0 d); simpl.
  - subst k0. destruct (String.eqb_spec k d); [contradiction | auto].
  - destruct (String.eqb k k0); auto.
Qed.

Lemma remove_key_app : forall (A : Type) d (a b : list (string * A)),
  remove_key d (a ++ b) = (remove_key d a ++ remove_key d b)%list.
Proof. intros; unfold remove_key; apply filter_app. Qed.

Lemma remove_key_length : forall (A : Type) d (l : list (string * A)),
  NoDup (map fst l) -> In d (map fst l) ->
  S (List.length (remove_key d l)) = List.length l.
Proof.
  induction l as [| [k v] t IH]; simpl; intros Hnd Hin; [contradiction |].
  inversion Hnd as [| ? ? Hk Ht]; subst.
  destruct (String.eqb_spec k d); simpl.
  - subst k. f_equal. unfold remove_key. 
    rewrite (filter_all _ (fun e => negb (String.eqb (fst e) d))); [reflexivity |].
    apply Forall_forall. intros e He. apply negb_true_iff, String.eqb_neq.
    intro E. apply Hk. rewrite <- E. now apply in_map.
  - f_equal. apply IH; [assumption |]. destruct Hin; [contradiction | assumption].
Qed.

Lemma filter_none : forall (A : Type) (p : A -> bool) l,
  (forall x, In x l -> p x = false) -> filter p l = [].
Proof.
  induction l as [| x t IH]; simpl; intro H; [reflexivity |].
  rewrite (H x) by now left. apply IH. intros y Hy. apply H. now right.
Qed.

Lemma merge_dims_sub : forall a b,
  NoDup (map fst a) -> (forall e, In e b -> In e a) -> merge_dims a b = Some a.
Proof.
  intros a b Hnd Hsub. unfold merge_dims.
  assert (G : forallb (fun e => match lookup (fst e) a with
                                | Some n => Nat.eqb n (snd e)
                                | None => true
                                end) b = true).
  { apply forallb_forall. intros [k v] He. simpl.
    rewrite (lookup_NoDup _ k v a Hnd (Hsub _ He)). apply Nat.eqb_refl. }
  rewrite G. simpl. f_equal.
  assert (F : filter (fun e => negb (mem (fst e) (map fst a))) b = []).
  { apply filter_none. intros e He. apply negb_false_iff, mem_In.
    apply in_map. now apply Hsub. }
  rewrite F. apply app_nil_r.
Qed.

Lemma filter_key : forall (A : Type) d (n : A) (l : list (string * A)),
  NoDup (map fst l) -> lookup d l = Some n ->
  filter (fun e => String.eqb (fst e) d) l = [(d, n)].
Proof.
  induction l as [| [k v] t IH]; simpl; intros Hnd H; [discriminate |].
  inversion Hnd as [| ? ? Hk Ht]; subst.
  destruct (String.eqb_spec d k).
  - subst k. injection H as ->. rewrite String.eqb_refl. f_equal.
    apply filter_none. intros e He. apply String.eqb_neq. intro E.
    apply Hk. rewrite <- E. now apply in_map.
  - destruct (String.eqb_spec k d); [congruence |]. now apply IH.
Qed.

(** Broadcasting an array against the one it was cut from along [d]
    appends [d] as the last axis. *)
Lemma merge_dims_restore : forall d n ds,
  NoDup (map fst ds) -> lookup d ds = Some n ->
  merge_dims (remove_key d ds) ds = Some (remove_key d ds ++ [(d, n)])%list.
Proof.
  intros d n ds Hnd Hd. unfold merge_dims.
  assert (G : forallb (fun e => match lookup (fst e) (remove_key d ds) with
                                | Some m => Nat.eqb m (snd e)
                                | None => true
                                end) ds = true).
  { apply forallb_forall. intros [k v] He. simpl.
    destruct (lookup k (remove_key d ds)) as [m |] eqn:E; [| reflexivity].
    apply lookup_In, remove_key_In in E. destruct E as [E _].
    assert (Some m = Some v) as [= ->]; [| apply Nat.eqb_refl].
    rewrite <- (lookup_NoDup _ k m ds Hnd E). now apply lookup_NoDup. }
  rewrite G. simpl. do 2 f_equal.
  rewrite <- (filter_key _ d n ds Hnd Hd). apply filter_ext_in.
  intros [k v] He. simpl. destruct (String.eqb_spec k d).
  - subst k. apply negb_true_iff, mem_false. intro Hin.
    apply remove_key_names in Hin. tauto.
  - apply negb_false_iff, mem_In, remove_key_names. split; [| assumption].
    now apply (in_map fst) in He.
Qed.

(** ** Columns *)

Lemma Z2Qc_le : forall a b, (Z2Qc a <= Z2Qc b)%Qc <-> (a <= b)%Z.
Proof.
  intros a b. unfold Qcle. rewrite !this_Z2Qc, <- Zle_Qle. reflexivity.
Qed.

Lemma Z2Qc_inj : forall a b, Z2Qc a = Z2Qc b -> a = b.
Proof.
  intros a b H. apply Z.le_antisymm; apply Z2Qc_le; rewrite H; apply Qcle_refl.
Qed.

Lemma Z2Qc_succ : forall z, (1 + Z2Qc z)%Qc = Z2Qc (1 + z).
Proof.
  intro z. apply Qc_is_canon. unfold Qcplus, Q2Qc. cbn [this].
  rewrite Qred_correct, !this_Z2Qc, inject_Z_plus. reflexivity.
Qed.

Lemma count_valid_S : forall v n,
  count_valid v (S n) = count_valid v n + (if v n then 1 else 0).
Proof.
  intros v n. unfold count_valid. rewrite seq_S, filter_app, length_app. simpl.
  now destruct (v n).
Qed.

Lemma count_valid_mono : forall v a b, a <= b -> count_valid v a <= count_valid v b.
Proof.
  intros v a b H. induction H; [lia |]. rewrite count_valid_S. lia.
Qed.

Lemma nansum_ones : forall (v : nat -> bool) n,
  nansum (fun j => if v j then Num 1%Qc else NaN) n
  = Z2Qc (Z.of_nat (count_valid v n)).
Proof.
  intros v n. unfold nansum, count_valid. generalize (seq 0 n). intro l.
  induction l as [| a t IH]; simpl; [reflexivity |].
  rewrite IH. destruct (v a); simpl.
  - rewrite Z2Qc_succ. f_equal. lia.
  - apply Qcplus_0_l.
Qed.

Lemma fold_fmax_in : forall l q,
  fold_right fmax NaN l = Num q -> In (Num q) l.
Proof.
  induction l as [| a t IH]; simpl; intros q H; [discriminate |].
  destruct a as [| p]; simpl in H.
  - right. auto.
  - destruct (fold_right fmax NaN t) as [| r] eqn:E; simpl in H.
    + left. exact H.
    + injection H as H. destruct (Qcleb p r).
      * right. apply IH. congruence.
      * left. congruence.
Qed.

Lemma fold_fmax_nan : forall l,
  (forall x, In x l -> x = NaN) -> fold_right fmax NaN l = NaN.
Proof.
  induction l as [| a t IH]; simpl; intro H; [reflexivity |].
  rewrite (H a) by now left. simpl. apply IH. intros x Hx. apply H. now right.
Qed.

Lemma fold_fmax_max : forall l m,
  In (Num m) l -> (forall q, In (Num q) l -> (q <= m)%Qc) ->
  fold_right fmax NaN l = Num m.
Proof.
  induction l as [| a t IH]; simpl; intros m Hin Hle; [contradiction |].
  assert (Ht : forall q, In (Num q) t -> (q <= m)%Qc) by (intros; apply Hle; auto).
  destruct (fold_right fmax NaN t) as [| r] eqn:E.
  - destruct Hin as [-> | Hin]; [reflexivity |].
    pose proof (IH m Hin Ht) as C. congruence.
  - assert (Hr : (r <= m)%Qc) by (apply Ht, fold_fmax_in; exact E).
    destruct a as [| p]; simpl.
    + destruct Hin as [Hin | Hin]; [discriminate |].
      pose proof (IH m Hin Ht) as C. congruence.
    + assert (Hp : (p <= m)%Qc) by (apply Hle; now left).
      destruct (Qcleb p r) eqn:Epr.
      * destruct Hin as [Hin | Hin].
        -- injection Hin as ->. apply Qcleb_spec in Epr. f_equal.
           now apply Qcle_antisym.
        -- pose proof (IH m Hin Ht) as C. congruence.
      * destruct Hin as [Hin | Hin]; [exact Hin |].
        pose proof (IH m Hin Ht) as C.
        assert (r = m) as -> by congruence.
        apply Qcleb_spec in Hp. congruence.
Qed.

Lemma nanmax_none : forall f n,
  (forall k, k < n -> f k = NaN) -> nanmax f n = NaN.
Proof.
  intros f n H. unfold nanmax. apply fold_fmax_nan. intros x Hx.
  apply in_map_iff in Hx. destruct Hx as [k [<- Hk]]. apply in_seq in Hk.
  apply H. lia.
Qed.

Lemma nanmax_max : forall f n k m,
  k < n -> f k = Num m -> (forall j q, j < n -> f j = Num q -> (q <= m)%Qc) ->
  nanmax f n = Num m.
Proof.
  intros f n k m Hk Hf Hle. unfold nanmax. apply fold_fmax_max.
  - rewrite <- Hf. apply in_map, in_seq. lia.
  - intros q Hq. apply in_map_iff in Hq. destruct Hq as [j [Hj Hin]].
    apply in_seq in Hin. apply (Hle j); [lia | assumption].
Qed.

Lemma nansum_none : forall f n, (forall k, k < n -> f k = NaN) -> nansum f n = 0%Qc.
Proof.
  intros f n H. unfold nansum.
  assert (G : forall l, (forall k, In k l -> f k = NaN) ->
              fold_right Qcplus 0%Qc (map (fun k => nan_to_zero (f k)) l) = 0%Qc).
  { induction l as [| a t IH]; simpl; intro Hl; [reflexivity |].
    rewrite (Hl a) by now left. simpl. rewrite Qcplus_0_l. apply IH.
    intros k Hk. apply Hl. now right. }
  apply G. intros k Hk. apply in_seq in Hk. apply H. lia.
Qed.

Lemma nansum_single : forall f n k,
  k < n -> (forall j, j < n -> j <> k -> f j = NaN) ->
  nansum f n = nan_to_zero (f k).
Proof.
  intros f n k Hk H. unfold nansum.
  assert (G : forall l, NoDup l -> (forall j, In j l -> j <> k -> f j = NaN) ->
              fold_right Qcplus 0%Qc (map (fun j => nan_to_zero (f j)) l)
              = if in_dec Nat.eq_dec k l then nan_to_zero (f k) else 0%Qc).
  { induction l as [| a t IH]; simpl; intros Hnd Hl; [reflexivity |].
    inversion Hnd as [| ? ? Ha Ht]; subst.
    rewrite IH by (auto; intros; apply Hl; auto).
    destruct (Nat.eq_dec a k) as [-> | Hne].
    - destruct (in_dec Nat.eq_dec k t); [contradiction |]. apply Qcplus_0_r.
    - rewrite (Hl a) by auto. simpl. rewrite Qcplus_0_l.
      destruct (in_dec Nat.eq_dec k t); reflexivity. }
  rewrite G.
  - destruct (in_dec Nat.eq_dec k (seq 0 n)) as [| Hn]; [reflexivity |].
    exfalso. apply Hn, in_seq. lia.
  - apply seq_NoDup.
  - intros j Hj. apply in_seq in Hj. apply H. lia.
Qed.

Lemma kept_count : forall (first : nat -> f64) j,
  (if negb (isnan (first j))
   then Num (nansum (fun j' => if negb (isnan (first j')) then Num 1%Qc else NaN) (S j))
   else NaN)
  = if negb (isnan (first j))
    then Num (Z2Qc (Z.of_nat (count_valid (fun j' => negb (isnan (first j'))) (S j))))
    else NaN.
Proof.
  intros first j. destruct (negb (isnan (first j))); [| reflexivity].
  now rewrite (nansum_ones (fun j' => negb (isnan (first j')))).
Qed.

(** Along a column, the mask is 1 at the deepest cell with data and
    missing everywhere else. *)
Lemma column_mask_deepest : forall first n kb,
  deepest_valid first n kb ->
  column_mask first n kb = Num 1%Qc /\
  forall k, k < n -> k <> kb -> column_mask first n k = NaN.
Proof.
  intros first n kb (Hkb & Hv & Hbelow).
  set (v := fun j => negb (isnan (first j))).
  set (C := fun j => Z2Qc (Z.of_nat (count_valid v (S j)))).
  assert (Hvkb : v kb = true) by (unfold v; now rewrite Hv).
  assert (Hle : forall j, j < n -> v j = true -> j <= kb).
  { intros j Hj Hvj. destruct (Nat.le_gt_cases j kb) as [| Hgt]; [assumption |].
    unfold v in Hvj. rewrite (Hbelow j Hgt Hj) in Hvj. discriminate. }
  assert (Hmax : nanmax (fun j => if v j then Num (C j) else NaN) n = Num (C kb)).
  { apply (nanmax_max _ n kb); [assumption | now rewrite Hvkb |].
    intros j q Hj Hq. destruct (v j) eqn:Hvj; [| discriminate].
    injection Hq as <-. apply Z2Qc_le, inj_le, count_valid_mono.
    specialize (Hle j Hj Hvj). lia. }
  assert (Hmask : forall k, column_mask first n k
                  = if feq (if v k then Num (C k) else NaN) (Num (C kb))
                    then Num 1%Qc else NaN).
  { intro k. rewrite <- Hmax. unfold column_mask, nanmax.
    rewrite (kept_count first k).
    rewrite (map_ext _ _ (kept_count first)). reflexivity. }
  split.
  - rewrite Hmask, Hvkb. simpl. now rewrite Qc_eq_bool_refl.
  - intros k Hk Hne. rewrite Hmask. destruct (v k) eqn:Hvk; [| reflexivity].
    simpl. destruct (Qc_eq_bool (C k) (C kb)) eqn:E; [| reflexivity].
    exfalso. apply Qc_eq_bool_correct, Z2Qc_inj, Nat2Z.inj in E.
    specialize (Hle k Hk Hvk).
    assert (Hlt : k < kb) by lia.
    pose proof (count_valid_mono v (S k) kb Hlt) as M.
    rewrite (count_valid_S v kb), Hvkb in E. lia.
Qed.

Lemma column_mask_none : forall first n,
  (forall k, k < n -> isnan (first k) = true) ->
  forall k, column_mask first n k = NaN.
Proof.
  intros first n H k. unfold column_mask.
  rewrite (nanmax_none _ n).
  - now destruct (if negb (isnan (first k)) then _ else _).
  - intros j Hj. now rewrite (H j Hj).
Qed.

Lemma fmul_one : forall v, fmul (Num 1%Qc) v = v.
Proof. intros [| q]; simpl; [reflexivity |]. now rewrite Qcmult_1_l. Qed.

(** The masked sum of a column picks the cell under the mask. *)
Lemma column_sum_deepest : forall first col n kb,
  deepest_valid first n kb ->
  nansum (fun k => fmul (column_mask first n k) (col k)) n = nan_to_zero (col kb).
Proof.
  intros first col n kb H. destruct (column_mask_deepest first n kb H) as [H1 H2].
  rewrite (nansum_single _ n kb).
  - now rewrite H1, fmul_one.
  - apply H.
  - intros j Hj Hne. now rewrite (H2 j Hj Hne).
Qed.

Lemma column_sum_none : forall first col n,
  (forall k, k < n -> isnan (first k) = true) ->
  nansum (fun k => fmul (column_mask first n k) (col k)) n = 0%Qc.
Proof.
  intros first col n H. apply nansum_none. intros k _.
  now rewrite (column_mask_none first n H).
Qed.

(** ** Array operations *)

Lemma lookup_app : forall (A : Type) k (a b : list (string * A)),
  lookup k (a ++ b) = match lookup k a with Some v => Some v | None => lookup k b end.
Proof.
  induction a as [| [k0 v0] t IH]; simpl; intro b; [reflexivity |].
  destruct (String.eqb k k0); auto.
Qed.

Lemma Permutation_remove_key : forall (A : Type) d (a b : list (string * A)),
  Permutation a b -> Permutation (remove_key d a) (remove_key d b).
Proof.
  intros A d a b H. unfold remove_key.
  induction H; simpl.
  - constructor.
  - destruct (negb (String.eqb (fst x) d)); [now constructor | assumption].
  - destruct (negb (String.eqb (fst x) d)), (negb (String.eqb (fst y) d));
      try reflexivity. apply perm_swap.
  - etransitivity; eassumption.
Qed.

Lemma isel_spec : forall (V : Type) d k (da : DataArray V) n,
  size da d = Some n -> k < n ->
  isel d k da =
  Some (mkDA (name da) (remove_key d (dims da))
          (fun i => values da (upd i d k))
          (map (fun e => (fst e,
                          if mem d (cdims (snd e))
                          then mkCoord (without d (cdims (snd e)))
                                       (cdata_at (fun i => upd i d k) (cvals (snd e)))
                          else snd e))
               (coords da))
          (attrs da)).
Proof.
  intros V d k da n Hn Hk. unfold isel. rewrite Hn. simpl.
  apply Nat.ltb_lt in Hk. now rewrite Hk.
Qed.

Lemma da_cumsum_spec : forall d (da : DataArray f64) n,
  size da d = Some n ->
  da_cumsum d da =
  Some (mkDA (name da) (dims da)
          (fun i => Num (nansum (fun k => values da (upd i d k)) (S (i d))))
          (coords da) []).
Proof. intros d da n Hn. unfold da_cumsum. now rewrite Hn. Qed.

Lemma reduce_spec : forall (A B : Type) d (r : (nat -> A) -> nat -> B) keep
    (da : DataArray A) n,
  size da d = Some n ->
  reduce d r keep da =
  Some (mkDA (name da) (remove_key d (dims da))
          (fun i => r (fun k => values da (upd i d k)) n)
          (filter (fun e => negb (mem d (cdims (snd e)))) (coords da))
          (keep (attrs da))).
Proof. intros A B d r keep da n Hn. unfold reduce. now rewrite Hn. Qed.

Lemma da_max_spec : forall d (da : DataArray f64) n,
  size da d = Some n -> 0 < n ->
  da_max d da =
  Some (mkDA (name da) (remove_key d (dims da))
          (fun i => nanmax (fun k => values da (upd i d k)) n)
          (filter (fun e => negb (mem d (cdims (snd e)))) (coords da))
          []).
Proof.
  intros d da n Hn Hpos. unfold da_max. rewrite Hn. simpl.
  apply Nat.ltb_lt in Hpos. rewrite Hpos. simpl.
  now rewrite (reduce_spec _ _ d nanmax _ da n Hn).
Qed.

Lemma da_sum_spec : forall d (da : DataArray f64) n,
  size da d = Some n ->
  da_sum d da =
  Some (mkDA (name da) (remove_key d (dims da))
          (fun i => Num (nansum (fun k => values da (upd i d k)) n))
          (filter (fun e => negb (mem d (cdims (snd e)))) (coords da))
          []).
Proof.
  intros d da n Hn. unfold da_sum.
  now rewrite (reduce_spec _ _ d _ _ da n Hn).
Qed.

Lemma binop_spec : forall (A B C : Type) (f : A -> B -> C)
    (a : DataArray A) (b : DataArray B) ds,
  merge_dims (dims a) (dims b) = Some ds ->
  binop f a b =
  Some (mkDA (if eq_name (name a) (name b) then name a else None)
          ds
          (fun i => f (values a i) (values b i))
          (merge_coords (coords a) (coords b))
          []).
Proof. intros A B C f a b ds H. unfold binop. now rewrite H. Qed.

Lemma nansum_ext : forall f g n,
  (forall k, k < n -> f k = g k) -> nansum f n = nansum g n.
Proof.
  intros f g n H. unfold nansum. f_equal. apply map_ext_in.
  intros k Hk. apply in_seq in Hk. rewrite H by lia. reflexivity.
Qed.

Lemma eq_name_refl : forall a, eq_name a a = true.
Proof. intros [s |]; simpl; [apply String.eqb_refl | reflexivity]. Qed.

(** ** extract_bottom_layer *)

(** What [extract_bottom_layer] computes on a (time, depth, y, x) field,
    whatever the order of its axes: per cell, the sum of the column under
    the mask built from the first time step. *)
Lemma extract_bottom_layer_cells : forall (da : DataArray f64) nt nd ny nx,
  Permutation (dims da)
    [("time", nt); ("st_ocean", nd); ("yt_ocean", ny); ("xt_ocean", nx)] ->
  0 < nt -> 0 < nd ->
  exists out,
    extract_bottom_layer da = Some out /\
    dims out = [("time", nt); ("yt_ocean", ny); ("xt_ocean", nx)] /\
    forall i,
      values out i
      = Num (nansum (fun k => fmul (column_mask (column da (upd i "time" 0)) nd k)
                                   (column da i k)) nd).
Proof.
  intros da nt nd ny nx Hperm Hnt Hnd.
  set (ds := dims da) in *.
  assert (Hnodup : NoDup (map fst ds)).
  { eapply Permutation_NoDup; [apply Permutation_map, Permutation_sym, Hperm |].
    simpl. repeat constructor; simpl; intuition discriminate. }
  assert (Hin : forall e, In e ds <->
                  In e [("time", nt); ("st_ocean", nd); ("yt_ocean", ny); ("xt_ocean", nx)]).
  { intro e. split; apply Permutation_in; [assumption | now apply Permutation_sym]. }
  assert (St : size da "time" = Some nt).
  { apply lookup_NoDup; [assumption |]. apply Hin. simpl. auto. }
  assert (Sd : lookup "st_ocean" ds = Some nd).
  { apply lookup_NoDup; [assumption |]. apply Hin. simpl. auto. }
  set (ds1 := remove_key "time" ds).
  assert (Hnodup1 : NoDup (map fst ds1)) by now apply remove_key_NoDup.
  assert (Sd1 : lookup "st_ocean" ds1 = Some nd).
  { unfold ds1. rewrite lookup_remove_key by discriminate. exact Sd. }
  unfold extract_bottom_layer.
  rewrite (isel_spec _ "time" 0 da nt St Hnt). cbn [bind].
  set (first := mkDA _ _ _ _ _).
  set (valid := map_values _ first).
  set (mask := xr_where valid _ _).
  rewrite (da_cumsum_spec "st_ocean" mask nd Sd1). cbn [bind].
  set (running := mkDA _ _ _ _ _).
  rewrite (binop_spec _ _ _ _ running valid ds1)
    by (apply merge_dims_sub; auto).
  cbn [bind]. set (mask2 := mkDA _ _ _ _ _).
  rewrite (da_max_spec "st_ocean" mask2 nd Sd1 Hnd). cbn [bind].
  set (deepest := mkDA _ _ _ _ _).
  rewrite (binop_spec _ _ _ _ mask2 deepest ds1)
    by (apply merge_dims_sub; [assumption |];
        intros e He; apply remove_key_In in He; tauto).
  cbn [bind]. set (hit := mkDA _ _ _ _ _).
  set (mask3 := xr_where hit _ _).
  rewrite (binop_spec _ _ _ _ mask3 da (ds1 ++ [("time", nt)])%list)
    by (apply merge_dims_restore; assumption).
  cbn [bind]. set (masked := mkDA _ _ _ _ _).
  assert (Sm : size masked "st_ocean" = Some nd).
  { unfold size, masked. cbn [dims]. rewrite lookup_app, Sd1. reflexivity. }
  rewrite (da_sum_spec "st_ocean" masked nd Sm). cbn [bind].
  set (summed := mkDA _ _ _ _ _).
  assert (Hds : dims summed = (remove_key "st_ocean" ds1 ++ [("time", nt)])%list).
  { unfold summed, masked. cbn [dims]. now rewrite remove_key_app. }
  assert (Hp2 : Permutation (remove_key "st_ocean" ds1) [("yt_ocean", ny); ("xt_ocean", nx)]).
  { unfold ds1.
    apply (Permutation_remove_key _ "st_ocean" _ _
             (Permutation_remove_key _ "time" _ _ Hperm)). }
  assert (Hval : forall i,
            values summed i
            = Num (nansum (fun k => fmul (column_mask (column da (upd i "time" 0)) nd k)
                                         (column da i k)) nd)).
  { intro i. unfold summed. cbn [values]. f_equal. apply nansum_ext. intros k Hk.
    unfold masked, mask3, xr_where, hit, deepest, mask2, running, mask, xr_where,
      valid, map_values, first. cbn [values].
    unfold column_mask, column.
    pose (G := fun j : pos =>
                 if negb (isnan (values da (upd j "time" 0)))
                 then Num (nansum (fun k' => if negb (isnan (values da
                                                 (upd (upd j "st_ocean" k') "time" 0)))
                                             then Num 1%Qc else NaN)
                                  (S (j "st_ocean")))
                 else NaN).
    pose (K := fun k' =>
                 if negb (isnan (values da (upd (upd i "time" 0) "st_ocean" k')))
                 then Num (nansum (fun j' => if negb (isnan (values da
                                                 (upd (upd i "time" 0) "st_ocean" j')))
                                             then Num 1%Qc else NaN)
                                  (S k'))
                 else NaN).
    assert (HG : forall k', G (upd i "st_ocean" k') = K k').
    { intro k'. unfold G, K. rewrite upd_same.
      rewrite (upd_comm i "st_ocean" "time") by discriminate.
      destruct (negb (isnan (values da (upd (upd i "time" 0) "st_ocean" k'))));
        [| reflexivity].
      f_equal. apply nansum_ext. intros j' _.
      rewrite upd_upd, (upd_comm i "st_ocean" "time") by discriminate. reflexivity. }
    change (fmul (if feq (G (upd i "st_ocean" k))
                         (nanmax (fun k0 => G (upd (upd i "st_ocean" k) "st_ocean" k0)) nd)
                  then Num 1%Qc else NaN)
                 (values da (upd i "st_ocean" k))
            = fmul (if feq (K k) (nanmax K nd) then Num 1%Qc else NaN)
                   (values da (upd i "st_ocean" k))).
    assert (HM : nanmax (fun k0 => G (upd (upd i "st_ocean" k) "st_ocean" k0)) nd
                 = nanmax K nd).
    { unfold nanmax. f_equal. apply map_ext. intro k0. now rewrite upd_upd, HG. }
    now rewrite HG, HM. }
  apply Permutation_sym, Permutation_length_2_inv in Hp2.
  clearbody summed. clear - Hds Hp2 Hval.
  unfold transpose, dim_names, size.
  destruct Hp2 as [Hp2 | Hp2]; rewrite Hds, Hp2; simpl;
    eexists; (split; [reflexivity |]); (split; [reflexivity | exact Hval]).
Qed.

Lemma inside_column : forall ds nt nd ny nx i k,
  Permutation ds [("time", nt); ("st_ocean", nd); ("yt_ocean", ny); ("xt_ocean", nx)] ->
  inside [("time", nt); ("yt_ocean", ny); ("xt_ocean", nx)] i -> k < nd ->
  inside ds (upd i "st_ocean" k).
Proof.
  intros ds nt nd ny nx i k Hp Hi Hk d n Hin.
  apply (Permutation_in _ Hp) in Hin. simpl in Hin.
  destruct Hin as [E | [E | [E | [E | []]]]]; injection E as <- <-.
  - rewrite upd_other by discriminate. apply (Hi "time"). simpl. auto.
  - now rewrite upd_same.
  - rewrite upd_other by discriminate. apply (Hi "yt_ocean"). simpl. auto.
  - rewrite upd_other by discriminate. apply (Hi "xt_ocean"). simpl. auto.
Qed.


(** A cell whose column holds no data in the first time step comes out
    as the number 0, at every time. *)
Lemma extract_bottom_layer_all_missing : forall (da : DataArray f64) nt nd ny nx,
  Permutation (dims da)
    [("time", nt); ("st_ocean", nd); ("yt_ocean", ny); ("xt_ocean", nx)] ->
  0 < nt -> 0 < nd ->
  exists out,
    extract_bottom_layer da = Some out /\
    forall i,
      (forall k, k < nd -> isnan (column da (upd i "time" 0) k) = true) ->
      values out i = Num 0%Qc.
Proof.
  intros da nt nd ny nx Hp Hnt Hnd.
  destruct (extract_bottom_layer_cells da nt nd ny nx Hp Hnt Hnd)
    as (out & Hout & _ & Hval).
  exists out. split; [exact Hout |]. intros i Hi.
  now rewrite Hval, (column_sum_none _ _ nd Hi).
Qed.


(** C2: the code departs from the specification.  On the land column of the
    sample field, where every depth level is missing at every time step,
    [extract_bottom_layer] raises nothing and returns 0, not a missing
    value. *)
Theorem extract_bottom_layer_all_missing_gives_zero :
  exists out,
    extract_bottom_layer sample_depths = Some out /\
    (forall t k, isnan (column sample_depths (cell t 1) k) = true) /\
    values out (cell 0 1) = Num 0%Qc /\
    values out (cell 1 1) = Num 0%Qc /\
    values out (cell 0 1) <> NaN.
Proof.
  destruct (extract_bottom_layer_all_missing
              sample_depths 2 4 1 2 (Permutation_refl _)) as (out & H1 & H2); try lia.
  exists out. split; [exact H1 |].
  split; [intros t k; reflexivity |].
  assert (Z : forall t, values out (cell t 1) = Num 0%Qc).
  { intro t. apply H2. intros k _. reflexivity. }
  split; [apply Z |]. split; [apply Z |]. rewrite Z. discriminate.
Qed.

(** ** nn_dist: the edge curve *)

Lemma argmax_step_scanned : forall f a best,
  scanned f a best -> scanned f (S a) (argmax_step f best a).
Proof.
  intros f a best H. unfold argmax_step.
  destruct (f a) as [| q] eqn:Ea.
  - destruct best as [[kb m] |]; simpl in *.
    + destruct H as (H1 & H2 & H3 & H4). repeat split; auto.
      intros k' q Hk Hq. destruct (Nat.eq_dec k' a) as [-> | Hne]; [congruence |].
      apply (H3 k'); [lia | assumption].
    + intros k Hk. destruct (Nat.eq_dec k a) as [-> | Hne]; [assumption |].
      apply H. lia.
  - destruct best as [[kb m] |]; simpl in *.
    + destruct H as (H1 & H2 & H3 & H4).
      destruct (Qcltb m q) eqn:E; simpl.
      * apply Qcltb_spec in E. repeat split; auto.
        -- intros k' q' Hk Hq. destruct (Nat.eq_dec k' a) as [-> | Hne].
           ++ assert (q' = q) as -> by congruence. apply Qcle_refl.
           ++ apply Qclt_le_weak. eapply Qcle_lt_trans; [| exact E].
              apply (H3 k'); [lia | assumption].
        -- intros k' q' Hk Hq. eapply Qcle_lt_trans; [| exact E].
           apply (H3 k'); assumption.
      * apply Qcltb_false in E. repeat split; auto.
        intros k' q' Hk Hq. destruct (Nat.eq_dec k' a) as [-> | Hne].
        -- assert (q' = q) as -> by congruence. exact E.
        -- apply (H3 k'); [lia | assumption].
    + repeat split; auto.
      * intros k' q' Hk Hq. destruct (Nat.eq_dec k' a) as [-> | Hne].
        -- assert (q' = q) as -> by congruence. apply Qcle_refl.
        -- rewrite H in Hq by lia. discriminate.
      * intros k' q' Hk Hq. rewrite H in Hq by lia. discriminate.
Qed.

Lemma argmax_scan_scanned : forall f len a best,
  scanned f a best ->
  scanned f (a + len) (fold_left (argmax_step f) (seq a len) best).
Proof.
  intros f len. induction len as [| len IH]; intros a best H; simpl.
  - now rewrite Nat.add_0_r.
  - rewrite <- Nat.add_succ_comm. apply IH. now apply argmax_step_scanned.
Qed.

Lemma nanargmax_scanned : forall f n,
  scanned f n (fold_left (argmax_step f) (seq 0 n) None).
Proof.
  intros f n. apply (argmax_scan_scanned f n 0 None). simpl. intros k Hk. lia.
Qed.

(** [nanargmax] finds the first largest valid cell of a run with data. *)
Lemma nanargmax_first_maximum : forall f n,
  has_data f n -> exists k m, nanargmax f n = Some k /\ first_maximum f n k m.
Proof.
  intros f n [k0 [Hk0 Hv]]. pose proof (nanargmax_scanned f n) as H.
  unfold nanargmax. destruct (fold_left (argmax_step f) (seq 0 n) None) as [[k m] |].
  - exists k, m. split; [reflexivity | exact H].
  - simpl in H. rewrite (H k0 Hk0) in Hv. discriminate.
Qed.

Lemma da_argmax_spec : forall b d (da : DataArray f64) n,
  size da d = Some n -> 0 < n ->
  (forall i, In i (positions (remove_key d (dims da))) ->
             has_data (fun k => values da (upd i d k)) n) ->
  da_argmax b d da =
  Some (mkDA (name da) (remove_key d (dims da))
          (fun i => default 0 (nanargmax (fun k => values da (upd i d k)) n))
          (filter (fun e => negb (mem d (cdims (snd e)))) (coords da))
          []).
Proof.
  intros b d da n Hn Hpos Hb. unfold da_argmax. rewrite Hn. cbn [bind].
  apply Nat.ltb_lt in Hpos. rewrite Hpos. cbn [guard bind].
  assert (G : forallb (fun i => is_some (nanargmax (fun k => values da (upd i d k)) n))
                      (positions (remove_key d (dims da))) = true).
  { apply forallb_forall. intros i Hi.
    destruct (nanargmax_first_maximum _ n (Hb i Hi)) as (k & m & E & _).
    now rewrite E. }
  rewrite G. cbn [guard bind].
  now rewrite (reduce_spec _ _ d (fun f n => default 0 (nanargmax f n))
                 (fun _ => []) da n Hn).
Qed.

Lemma positions_x : forall nx i,
  In i (positions [("xt_ocean", nx)]) -> exists j, j < nx /\ i = upd origin "xt_ocean" j.
Proof.
  intros nx i H. simpl in H. rewrite app_nil_r in H.
  apply in_map_iff in H. destruct H as [j [<- Hj]]. apply in_seq in Hj.
  exists j. split; [lia | reflexivity].
Qed.

(** The edge curve of a (y, x) reference field, axes in either order. *)
Lemma ice_coords_spec : forall b (target_da : DataArray f64) ny nx ys xs,
  Permutation (dims target_da) [("yt_ocean", ny); ("xt_ocean", nx)] ->
  index_of target_da "yt_ocean" = Some ys ->
  index_of target_da "xt_ocean" = Some xs ->
  0 < ny ->
  (forall j, j < nx -> has_data (ycolumn target_da j) ny) ->
  ice_coords b target_da
  = Some (combine (map (fun j => nth (default 0 (nanargmax (ycolumn target_da j) ny))
                                     ys 0%Qc)
                       (seq 0 nx))
                  xs).
Proof.
  intros b da ny nx ys xs Hp Hys Hxs Hny Hb.
  destruct (index_of_inv _ _ _ _ Hys) as (ny' & yc & fy & Sy & Ly & Dy & Vy & Ey).
  destruct (index_of_inv _ _ _ _ Hxs) as (nx' & xc & fx & Sx & Lx & Dx & Vx & Ex).
  assert (Hrem : remove_key "yt_ocean" (dims da) = [("xt_ocean", nx)]).
  { apply Permutation_sym, Permutation_length_2_inv in Hp.
    destruct Hp as [-> | ->]; reflexivity. }
  assert (Sy' : size da "yt_ocean" = Some ny /\ size da "xt_ocean" = Some nx).
  { unfold size. apply Permutation_sym, Permutation_length_2_inv in Hp.
    destruct Hp as [-> | ->]; split; reflexivity. }
  destruct Sy' as [Sy' Sx'].
  assert (ny' = ny) by congruence. assert (nx' = nx) by congruence. subst ny' nx'.
  unfold ice_coords.
  assert (Hd : exists d0 n0 d1 n1, dims da = [(d0, n0); (d1, n1)]).
  { apply Permutation_sym, Permutation_length_2_inv in Hp.
    destruct Hp as [-> | ->]; eauto. }
  destruct Hd as (d0 & n0 & d1 & n1 & Hd). rewrite Hd.
  rewrite (da_argmax_spec b "yt_ocean" da ny Sy' Hny).
  2:{ intros i Hi. rewrite Hrem in Hi. apply positions_x in Hi.
      destruct Hi as [j [Hj ->]]. apply (Hb j Hj). }
  cbn [bind]. rewrite Sy'. cbn [bind]. unfold getitem. rewrite Ly, Lx. cbn [bind].
  rewrite Vy. cbn [num_vector bind]. cbn [dims]. rewrite Hrem, Dx, Sx'.
  cbn [bind]. rewrite Vx. cbn [num_vector bind]. rewrite Nat.eqb_refl.
  cbn [guard bind values]. rewrite <- Ey, <- Ex. reflexivity.
Qed.


(** ** nn_dist: the distance field *)

Lemma fold_min_spec : forall (h : R * R -> R) ps init,
  (fold_left (fun m q => Rmin m (h q)) ps init = init \/
   exists p, In p ps /\ fold_left (fun m q => Rmin m (h q)) ps init = h p) /\
  (fold_left (fun m q => Rmin m (h q)) ps init <= init)%R /\
  forall p, In p ps -> (fold_left (fun m q => Rmin m (h q)) ps init <= h p)%R.
Proof.
  intros h ps. induction ps as [| a t IH]; intro init; simpl.
  - split; [now left |]. split; [apply Rle_refl | intros p []].
  - destruct (IH (Rmin init (h a))) as (H1 & H2 & H3).
    split; [| split].
    + destruct H1 as [H1 | [p [Hp H1]]].
      * rewrite H1. unfold Rmin. destruct (Rle_dec init (h a)).
        -- now left.
        -- right. exists a. auto.
      * right. exists p. auto.
    + eapply Rle_trans; [exact H2 | apply Rmin_l].
    + intros p [<- | Hp].
      * eapply Rle_trans; [exact H2 | apply Rmin_r].
      * now apply H3.
Qed.

(** The answer of the tree is the distance to a nearest point. *)
Lemma nearest_spec : forall points x,
  points <> [] ->
  exists p r,
    nearest points x = Some r /\ In p points /\ r = haversine x p /\
    forall p', In p' points -> (r <= haversine x p')%R.
Proof.
  intros [| p0 ps] x Hne; [contradiction |]. simpl.
  destruct (fold_min_spec (haversine x) ps (haversine x p0)) as (H1 & H2 & H3).
  set (r := fold_left _ ps _) in *.
  destruct H1 as [H1 | [p [Hp H1]]].
  - exists p0, r. repeat split; auto. intros p' [<- | Hp']; auto.
  - exists p, r. repeat split; auto. intros p' [<- | Hp']; auto.
Qed.

Lemma query_spec : forall points X,
  points <> [] -> X <> [] ->
  query points X = Some (map (fun x => default 0%R (nearest points x)) X).
Proof.
  intros points X Hp HX. unfold query. destruct X as [| x0 X0]; [contradiction |].
  generalize (x0 :: X0). clear x0 X0 HX. intro X.
  induction X as [| x t IH]; simpl; [reflexivity |].
  rewrite IH. destruct (nearest_spec points x Hp) as (p & r & E & _).
  now rewrite E.
Qed.

Lemma edge_points_length : forall (da : DataArray f64) ny nx ys xs,
  List.length xs = nx -> List.length (edge_points da ny nx ys xs) = nx.
Proof.
  intros da ny nx ys xs L. unfold edge_points.
  rewrite length_combine, length_map, length_seq, L. apply Nat.min_id.
Qed.

Lemma index_of_length : forall (V : Type) (da : DataArray V) d n l,
  size da d = Some n -> index_of da d = Some l -> List.length l = n.
Proof.
  intros V da d n l Hn Hl.
  destruct (index_of_inv _ _ _ _ Hl) as (n' & c & f & Sn & _ & _ & _ & E).
  subst l. rewrite length_map, length_seq. congruence.
Qed.

Lemma distance_field_spec :
  forall b (target_da : DataArray f64) grid ny nx ys xs tc,
    dims target_da = [("yt_ocean", ny); ("xt_ocean", nx)] ->
    index_of target_da "yt_ocean" = Some ys ->
    index_of target_da "xt_ocean" = Some xs ->
    (forall j, j < nx -> has_data (ycolumn target_da j) ny) ->
    lookup "time" (coords target_da) = Some tc -> cdims tc = [] ->
    List.length grid = ny * nx -> 0 < ny * nx ->
    exists out,
      distance_field b target_da grid = Some out /\
      name out = Some "dist_km" /\
      dims out = [("time", 1); ("yt_ocean", ny); ("xt_ocean", nx)] /\
      attrs out = [("units", "km"); ("long_name", "distance to nearest neighbour")] /\
      lookup "time" (coords out)
        = Some (mkCoord ["time"] (cdata_at (fun _ => origin) (cvals tc))) /\
      index_of out "yt_ocean" = Some ys /\
      index_of out "xt_ocean" = Some xs /\
      forall i,
        values out i
        = nth (i "yt_ocean" * nx + i "xt_ocean")
              (map (fun x => (default 0 (nearest (map radians (edge_points target_da ny nx ys xs)) x)
                              * earth_radius_km)%R) grid) 0%R.
Proof.
  intros b da grid ny nx ys xs tc Hd Hys Hxs Hb Ht Htd Hlen Hpos.
  assert (Hp : Permutation (dims da) [("yt_ocean", ny); ("xt_ocean", nx)])
    by (rewrite Hd; apply Permutation_refl).
  assert (Hny : 0 < ny) by lia. assert (Hnx : 0 < nx) by lia.
  pose proof (ice_coords_spec b da ny nx ys xs Hp Hys Hxs Hny Hb) as Hice.
  fold (edge_points da ny nx ys xs) in Hice.
  destruct (index_of_inv _ _ _ _ Hys) as (ny' & yc & fy & Sy & Ly & Dy & Vy & Ey).
  destruct (index_of_inv _ _ _ _ Hxs) as (nx' & xc & fx & Sx & Lx & Dx & Vx & Ex).
  assert (ny' = ny) by (unfold size in Sy; rewrite Hd in Sy; simpl in Sy; congruence).
  assert (nx' = nx) by (unfold size in Sx; rewrite Hd in Sx; simpl in Sx; congruence).
  subst ny' nx'.
  assert (Lxs : List.length xs = nx) by (subst xs; now rewrite length_map, length_seq).
  assert (Hpts : map radians (edge_points da ny nx ys xs) <> []).
  { intro E. apply (f_equal (@List.length _)) in E.
    rewrite length_map, (edge_points_length da ny nx ys xs Lxs) in E.
    simpl in E. lia. }
  assert (Hgrid : grid <> []).
  { intro E. rewrite E in Hlen. simpl in Hlen. lia. }
  unfold distance_field. rewrite Hice. cbn [bind].
  change (map (fun p => (deg2rad (fst p), deg2rad (snd p))) (edge_points da ny nx ys xs))
    with (map radians (edge_points da ny nx ys xs)).
  rewrite (query_spec _ grid Hpts Hgrid). cbn [bind]. rewrite Hd.
  rewrite length_map, Hlen, Nat.eqb_refl. cbn [guard bind].
  unfold getitem. rewrite Ht, Ly, Lx. cbn [bind]. rewrite Htd. cbn [guard bind].
  rewrite Sy. cbn [bind]. rewrite Nat.eqb_refl. cbn [guard bind].
  rewrite Dx, Sx. cbn [bind]. rewrite Nat.eqb_refl. cbn [guard bind].
  eexists. split; [reflexivity |].
  split; [reflexivity |]. split; [reflexivity |]. split; [reflexivity |].
  split; [reflexivity |].
  split.
  { unfold index_of, size. cbn. rewrite Vy. cbn. f_equal. subst ys.
    apply map_ext. intro k. reflexivity. }
  split.
  { unfold index_of, size. cbn. rewrite Vx. cbn. f_equal. subst xs.
    apply map_ext. intro k. reflexivity. }
  intro i. cbn [values]. now rewrite map_map.
Qed.


(** ** The haversine metric *)

Lemma Q2R_Z2Qc : forall z, Q2R (Z2Qc z) = IZR z.
Proof.
  intro z. rewrite (Qeq_eqR _ _ (this_Z2Qc z)). unfold Q2R, inject_Z. simpl.
  rewrite Rinv_1. apply Rmult_1_r.
Qed.

Lemma asin_nonneg : forall x, (0 <= x)%R -> (0 <= asin x)%R.
Proof.
  intros x Hx. unfold asin.
  destruct (Rle_dec x (-1)) as [H | H]; [Lra.lra |].
  destruct (Rle_dec 1 x) as [H1 | H1].
  - pose proof PI_RGT_0. Lra.lra.
  - destruct (Req_dec x 0) as [-> | Hne].
    + unfold Rdiv. rewrite Rmult_0_l, atan_0. apply Rle_refl.
    + rewrite <- atan_0. left. apply atan_increasing.
      apply Rdiv_lt_0_compat; [Lra.lra |]. apply sqrt_lt_R0.
      unfold Rsqr. Lra.nra.
Qed.

Lemma haversine_nonneg : forall p q, (0 <= haversine p q)%R.
Proof.
  intros p q. unfold haversine.
  pose proof (asin_nonneg _ (sqrt_pos
    ((sin ((fst p - fst q) / 2))² + cos (fst p) * cos (fst q) * (sin ((snd p - snd q) / 2))²))).
  Lra.lra.
Qed.

Lemma haversine_same : forall p, haversine p p = 0%R.
Proof.
  intro p. unfold haversine.
  replace ((fst p - fst p) / 2)%R with 0%R by Lra.lra.
  replace ((snd p - snd p) / 2)%R with 0%R by Lra.lra.
  rewrite sin_0. unfold Rsqr. rewrite !Rmult_0_r, Rplus_0_r, sqrt_0, asin_0.
  apply Rmult_0_r.
Qed.

(** The great-circle angle between (0, 1) read as radians and the point
    at latitude 0, longitude 1 degree. *)
Lemma haversine_degrees_against_radians :
  haversine (0%R, 1%R) (radians (Z2Qc 0, Z2Qc 1)) = (1 - PI / 180)%R.
Proof.
  unfold haversine, radians, deg2rad. cbn [fst snd]. rewrite !Q2R_Z2Qc.
  replace ((0 - 0 * PI / 180) / 2)%R with 0%R by Lra.lra.
  replace (0 * PI / 180)%R with 0%R by Lra.lra.
  rewrite sin_0, cos_0. unfold Rsqr at 1. rewrite Rmult_0_r, Rplus_0_l, !Rmult_1_l.
  pose proof PI_RGT_0 as P0. pose proof PI_4 as P4. pose proof PI2_1 as P1.
  set (a := ((1 - PI / 180) / 2)%R).
  assert (Ha : (0 < a < 1 / 2)%R) by (unfold a; split; Lra.lra).
  assert (Hs : (0 < sin a)%R) by (apply sin_gt_0; Lra.lra).
  rewrite sqrt_Rsqr by Lra.lra.
  rewrite asin_sin by Lra.lra. unfold a. Lra.lra.
Qed.

(** ** nn_dist: degrees and radians *)

(** C10: [nn_dist] hands the edge curve to the index in radians and the
    target grid as it is given: on a reference field whose columns all
    hold data, each cell holds 6371 times the haversine
    distance between the given pair, unconverted, and a point of the
    curve in radians, which is 0 where the given pair is a point of the
    curve in radians.  A pair given in degrees does not get 0 in general:
    for one reference point at latitude 0, longitude 1 and the target
    pair (0, 1) the result is (1 - PI / 180) * 6371, not 0. *)
Theorem nn_dist_reads_target_grid_as_radians :
  (forall (b : backend) (target_da : DataArray f64) (grid_coords_numpy : list (R * R))
          (ny nx : nat) (ys xs : list Qc) (tc : Coord),
      dims target_da = [("yt_ocean", ny); ("xt_ocean", nx)] ->
      index_of target_da "yt_ocean" = Some ys ->
      index_of target_da "xt_ocean" = Some xs ->
      (forall j, j < nx -> has_data (ycolumn target_da j) ny) ->
      lookup "time" (coords target_da) = Some tc -> cdims tc = [] ->
      List.length grid_coords_numpy = ny * nx -> 0 < ny * nx ->
      exists out pts,
        nn_dist b target_da grid_coords_numpy [] = ([], Some out) /\
        ice_coords b target_da = Some pts /\
        forall i,
          i "yt_ocean" < ny -> i "xt_ocean" < nx ->
          let cell := nth (i "yt_ocean" * nx + i "xt_ocean") grid_coords_numpy (0%R, 0%R) in
          (exists p, In p pts /\ values out i = (haversine cell (radians p) * 6371)%R) /\
          ((exists p, In p pts /\ cell = radians p) -> values out i = 0%R)) /\
  (exists out,
      nn_dist Numpy sample_point [(0%R, 1%R)] [] = ([], Some out) /\
      ice_coords Numpy sample_point = Some [(Z2Qc 0, Z2Qc 1)] /\
      values out origin = ((1 - PI / 180) * 6371)%R /\
      values out origin <> 0%R).
Proof.
  assert (A : forall (b : backend) (target_da : DataArray f64) (grid : list (R * R))
          (ny nx : nat) (ys xs : list Qc) (tc : Coord),
      dims target_da = [("yt_ocean", ny); ("xt_ocean", nx)] ->
      index_of target_da "yt_ocean" = Some ys ->
      index_of target_da "xt_ocean" = Some xs ->
      (forall j, j < nx -> has_data (ycolumn target_da j) ny) ->
      lookup "time" (coords target_da) = Some tc -> cdims tc = [] ->
      List.length grid = ny * nx -> 0 < ny * nx ->
      exists out,
        nn_dist b target_da grid [] = ([], Some out) /\
        ice_coords b target_da = Some (edge_points target_da ny nx ys xs) /\
        forall i,
          i "yt_ocean" < ny -> i "xt_ocean" < nx ->
          exists p r,
            In p (edge_points target_da ny nx ys xs) /\
            r = haversine (nth (i "yt_ocean" * nx + i "xt_ocean") grid (0%R, 0%R)) (radians p) /\
            values out i = (r * 6371)%R /\
            forall p', In p' (edge_points target_da ny nx ys xs) ->
              (r <= haversine (nth (i "yt_ocean" * nx + i "xt_ocean") grid (0%R, 0%R))
                              (radians p'))%R).
  { intros b da grid ny nx ys xs tc Hd Hys Hxs Hb Ht Htd Hlen Hpos.
    destruct (distance_field_spec b da grid ny nx ys xs tc Hd Hys Hxs Hb Ht Htd Hlen Hpos)
      as (out & Hout & _ & _ & _ & _ & _ & _ & Hval).
    assert (Hp : Permutation (dims da) [("yt_ocean", ny); ("xt_ocean", nx)])
      by (rewrite Hd; apply Permutation_refl).
    assert (Hny : 0 < ny) by lia.
    exists out. split; [unfold nn_dist; now rewrite Hout |].
    split; [apply (ice_coords_spec b da ny nx ys xs Hp Hys Hxs Hny Hb) |].
    intros i Hi Hj.
    set (cell := nth (i "yt_ocean" * nx + i "xt_ocean") grid (0%R, 0%R)).
    assert (Hidx : i "yt_ocean" * nx + i "xt_ocean" < List.length grid) by nia.
    assert (Hpts : map radians (edge_points da ny nx ys xs) <> []).
    { intro E. apply (f_equal (@List.length _)) in E. rewrite length_map in E.
      rewrite (edge_points_length da ny nx ys xs) in E.
      - simpl in E. lia.
      - apply (index_of_length _ da "xt_ocean"); [| exact Hxs].
        unfold size. now rewrite Hd. }
    destruct (nearest_spec _ cell Hpts) as (q & r & Er & Hq & Hr & Hmin).
    apply in_map_iff in Hq. destruct Hq as [p [<- Hp']].
    exists p, r. split; [exact Hp' |]. split; [exact Hr |]. split.
    - rewrite Hval.
      rewrite (nth_indep _ 0%R
                 ((fun x => (default 0 (nearest (map radians (edge_points da ny nx ys xs)) x)
                             * earth_radius_km)%R) (0%R, 0%R)))
        by (now rewrite length_map).
      rewrite (map_nth (fun x => (default 0 (nearest (map radians (edge_points da ny nx ys xs)) x)
                                  * earth_radius_km)%R)).
      fold cell. rewrite Er. reflexivity.
    - intros p' Hin. apply Hmin. now apply in_map. }
  split.
  - intros b da grid ny nx ys xs tc Hd Hys Hxs Hb Ht Htd Hlen Hpos.
    destruct (A b da grid ny nx ys xs tc Hd Hys Hxs Hb Ht Htd Hlen Hpos)
      as (out & Hout & Hice & Hval).
    exists out, (edge_points da ny nx ys xs).
    split; [exact Hout |]. split; [exact Hice |].
    intros i Hi Hj cell.
    destruct (Hval i Hi Hj) as (p & r & Hp & Hr & Hv & Hmin). fold cell in Hr, Hmin.
    split.
    + exists p. split; [exact Hp |]. now rewrite Hv, Hr.
    + intros [p0 [Hp0 Hcell]]. rewrite Hv.
      assert (r = 0%R); [| subst r; Lra.lra].
      apply Rle_antisym.
      * rewrite <- (haversine_same cell). rewrite Hcell at 2. now apply Hmin.
      * rewrite Hr. apply haversine_nonneg.
  - destruct (A Numpy sample_point [(0%R, 1%R)] 1 1 [Z2Qc 0] [Z2Qc 1]
                (mkCoord [] (CTime (fun _ => new_year_2010)))
                eq_refl eq_refl eq_refl) as (out & Hout & Hice & Hval).
    + intros j Hj. exists 0. split; [lia | reflexivity].
    + reflexivity.
    + reflexivity.
    + reflexivity.
    + lia.
    + exists out. split; [exact Hout |]. split; [exact Hice |].
      destruct (Hval origin) as (p & r & Hp & Hr & Hv & _); [unfold origin; lia ..|].
      assert (p = (Z2Qc 0, Z2Qc 1)) as ->.
      { destruct Hp as [<- | []]. reflexivity. }
      change (nth (origin "yt_ocean" * 1 + origin "xt_ocean") [(0%R, 1%R)] (0%R, 0%R))
        with (0%R, 1%R) in Hr.
      rewrite haversine_degrees_against_radians in Hr. subst r.
      split; [exact Hv |]. rewrite Hv.
      pose proof PI_4. Lra.lra.
Qed.

(** ** nn_dist: worked cases *)

Lemma sample_ref_has_data : forall j, j < 2 -> has_data (ycolumn sample_ref j) 3.
Proof.
  intros j Hj. destruct j as [| [| j]]; [| | lia].
  - exists 0. split; [lia | reflexivity].
  - exists 1. split; [lia | reflexivity].
Qed.

(** C7: the code departs from the specification in its second half.  With a
    folder and a stem, [nn_dist] on the sample creates the folder and
    writes the field to out/dist_2010-01.nc; with a folder only it
    creates the folder, writes no file, raises nothing and returns the
    field, but it issues no warning. *)
Theorem nn_dist_without_file_base_writes_and_warns_nothing :
  exists out,
    distance_field Numpy sample_ref sample_grid = Some out /\
    nn_dist Numpy sample_ref sample_grid [("folder_out", "out"); ("file_base", "dist")]
    = ([MakeDirs "out"; ToNetcdf "out/dist_2010-01.nc" out], Some out) /\
    nn_dist Numpy sample_ref sample_grid [("folder_out", "out")]
    = ([MakeDirs "out"], Some out) /\
    nn_dist Numpy sample_ref sample_grid [] = ([], Some out).
Proof.
  destruct (distance_field_spec Numpy sample_ref sample_grid 3 2
              (map Z2Qc [-70; -60; -50]%Z) (map Z2Qc [10; 20]%Z)
              (mkCoord [] (CTime (fun _ => new_year_2010)))
              eq_refl eq_refl eq_refl sample_ref_has_data
              eq_refl eq_refl eq_refl)
    as (out & Hout & _ & _ & _ & Htime & _); [lia |].
  exists out. split; [exact Hout |].
  unfold nn_dist. rewrite Hout. cbn [lookup String.eqb Ascii.eqb Bool.eqb].
  rewrite Htime. cbn [option_map cvals cdata_at].
  repeat split.
Qed.



(** On the sample, the tie of the first column resolves to its first
    maximum, latitude -60. *)
Lemma ice_coords_on_sample :
  ice_coords Numpy sample_ref
  = Some [(Z2Qc (-60), Z2Qc 10); (Z2Qc (-60), Z2Qc 20)].
Proof. vm_compute. reflexivity. Qed.

Lemma nn_dist_on_radians_grid :
  exists out pts,
    nn_dist Numpy sample_point [radians (Z2Qc 0, Z2Qc 1)] [] = ([], Some out) /\
    ice_coords Numpy sample_point = Some pts /\
    values out origin = 0%R.
Proof.
  destruct (proj1 nn_dist_reads_target_grid_as_radians
              Numpy sample_point [radians (Z2Qc 0, Z2Qc 1)] 1 1 [Z2Qc 0] [Z2Qc 1]
              (mkCoord [] (CTime (fun _ => new_year_2010)))
              eq_refl eq_refl eq_refl)
    as (out & pts & H1 & H2 & H3).
  - intros j Hj. exists 0. split; [lia | reflexivity].
  - reflexivity.
  - reflexivity.
  - reflexivity.
  - lia.
  - exists out, pts. split; [exact H1 |]. split; [exact H2 |].
    destruct (H3 origin) as [_ H4]; [unfold origin; lia ..|].
    apply H4. exists (Z2Qc 0, Z2Qc 1). split; [| reflexivity].
    assert (E : Some pts = Some [(Z2Qc 0, Z2Qc 1)]) by (rewrite <- H2; reflexivity).
    injection E as ->. now left.
Defined.

(** ** ds_sdm *)

Lemma Qc_eq_bool_false : forall x y, Qc_eq_bool x y = false <-> x <> y.
Proof.
  intros x y. rewrite <- Qc_eq_bool_spec. destruct (Qc_eq_bool x y); split; congruence.
Qed.

Lemma key_ltb_spec : forall a b, key_ltb a b = true <-> key_lt a b.
Proof.
  intros a b. unfold key_ltb, key_lt.
  rewrite orb_true_iff, andb_true_iff, !Qcltb_spec, Qc_eq_bool_spec. reflexivity.
Qed.

Lemma key_lt_irrefl : forall a, ~ key_lt a a.
Proof.
  intros a [H | [_ H]]; apply (Qclt_not_eq _ _ H); reflexivity.
Qed.

Lemma key_lt_trans : forall a b c, key_lt a b -> key_lt b c -> key_lt a c.
Proof.
  intros a b c [H1 | [E1 H1]] [H2 | [E2 H2]]; unfold key_lt.
  - left. eapply Qclt_trans; eauto.
  - left. now rewrite <- E2.
  - left. now rewrite E1.
  - right. split; [congruence | eapply Qclt_trans; eauto].
Qed.

Lemma key_lt_total : forall a b, key_ltb a b = false -> key_ltb b a = false -> a = b.
Proof.
  intros [a1 a2] [b1 b2] H1 H2. unfold key_ltb in *. simpl in *.
  apply orb_false_iff in H1, H2. destruct H1 as [H1 H1'], H2 as [H2 H2'].
  apply Qcltb_false in H1, H2.
  assert (a1 = b1) as -> by (now apply Qcle_antisym).
  rewrite Qc_eq_bool_refl in H1', H2'. simpl in H1', H2'.
  apply Qcltb_false in H1', H2'.
  f_equal. now apply Qcle_antisym.
Qed.

Lemma insert_group_In : forall k l x,
  In x (insert_group k l) <-> x = k \/ In x l.
Proof.
  intros k l x. induction l as [| h t IH]; simpl.
  - intuition.
  - destruct (key_ltb k h) eqn:E1; [simpl; intuition |].
    destruct (key_ltb h k) eqn:E2; simpl.
    + rewrite IH. intuition.
    + rewrite (key_lt_total k h E1 E2). intuition.
Qed.

Lemma insert_group_sorted : forall k l,
  StronglySorted key_lt l -> StronglySorted key_lt (insert_group k l).
Proof.
  intros k l H. induction H as [| h t Ht IH Hh]; simpl.
  - repeat constructor.
  - destruct (key_ltb k h) eqn:E1.
    + apply key_ltb_spec in E1. constructor; [now constructor |].
      constructor; [assumption |].
      eapply Forall_impl; [| exact Hh]. intros y Hy. eapply key_lt_trans; eauto.
    + destruct (key_ltb h k) eqn:E2.
      * apply key_ltb_spec in E2. constructor; [assumption |].
        apply Forall_forall. intros y Hy. apply insert_group_In in Hy.
        destruct Hy as [-> | Hy]; [assumption |].
        rewrite Forall_forall in Hh. now apply Hh.
      * now constructor.
Qed.

Lemma group_keys_sorted : forall df, StronglySorted key_lt (group_keys df).
Proof.
  induction df as [| r t IH]; simpl; [constructor |].
  destruct (key_of r); [now apply insert_group_sorted | assumption].
Qed.

Lemma group_keys_In : forall df k,
  In k (group_keys df) <-> exists r, In r df /\ key_of r = Some k.
Proof.
  induction df as [| r t IH]; intro k; simpl.
  - split; [contradiction | intros [r [[] _]]].
  - destruct (key_of r) as [k0 |] eqn:E.
    + rewrite insert_group_In, IH. split.
      * intros [-> | [r' [Hr' Hk]]]; [exists r; auto | exists r'; auto].
      * intros [r' [[<- | Hr'] Hk]]; [left; congruence | right; eauto].
    + rewrite IH. split.
      * intros [r' [Hr' Hk]]. eauto.
      * intros [r' [[<- | Hr'] Hk]]; [congruence | eauto].
Qed.

(** Two strictly sorted lists with the same members are the same list. *)
Lemma sorted_unique : forall (A : Type) (lt : A -> A -> Prop),
  (forall a, ~ lt a a) -> (forall a b c, lt a b -> lt b c -> lt a c) ->
  forall l1 l2,
    StronglySorted lt l1 -> StronglySorted lt l2 ->
    (forall x, In x l1 <-> In x l2) -> l1 = l2.
Proof.
  intros A lt Hirr Htr l1. induction l1 as [| a1 t1 IH]; intros l2 H1 H2 Hin.
  - destruct l2 as [| a2 t2]; [reflexivity |].
    exfalso. apply (Hin a2). now left.
  - destruct l2 as [| a2 t2]; [exfalso; apply (Hin a1); now left |].
    inversion H1 as [| ? ? Ht1 Ha1]; subst. inversion H2 as [| ? ? Ht2 Ha2]; subst.
    rewrite Forall_forall in Ha1, Ha2.
    assert (E : a1 = a2).
    { destruct (proj1 (Hin a1) (or_introl eq_refl)) as [E | I1]; [auto |].
      destruct (proj2 (Hin a2) (or_introl eq_refl)) as [E | I2]; [auto |].
      exfalso. apply (Hirr a1). eapply Htr; [apply Ha1 | apply Ha2]; eassumption. }
    subst a2. f_equal. apply IH; try assumption.
    intro x. split; intro Hx.
    + destruct (proj1 (Hin x) (or_intror Hx)) as [<- | I]; [| exact I].
      exfalso. apply (Hirr a1). now apply Ha1.
    + destruct (proj2 (Hin x) (or_intror Hx)) as [<- | I]; [| exact I].
      exfalso. apply (Hirr a1). now apply Ha2.
Qed.

Lemma strictly_ascending_sorted : forall l,
  strictly_ascending l = true -> StronglySorted Qclt l.
Proof.
  induction l as [| a t IH]; intro H; [constructor |].
  assert (Ht : strictly_ascending t = true).
  { destruct t as [| b t']; [reflexivity |]. simpl in H.
    apply andb_true_iff in H. tauto. }
  specialize (IH Ht). constructor; [assumption |].
  destruct t as [| b t']; [constructor |].
  simpl in H. apply andb_true_iff in H. destruct H as [Hab _].
  apply Qcltb_spec in Hab. constructor; [assumption |].
  inversion IH as [| ? ? _ Hb]; subst.
  eapply Forall_impl; [| exact Hb]. intros y Hy. eapply Qclt_trans; eauto.
Qed.

Lemma sorted_app : forall (A : Type) (lt : A -> A -> Prop) l1 l2,
  StronglySorted lt l1 -> StronglySorted lt l2 ->
  (forall a b, In a l1 -> In b l2 -> lt a b) ->
  StronglySorted lt (l1 ++ l2).
Proof.
  intros A lt l1 l2 H1 H2 H. induction H1 as [| a t Ht IH Ha]; simpl; [assumption |].
  constructor.
  - apply IH. intros x y Hx Hy. apply H; [now right | assumption].
  - apply Forall_app. split; [assumption |].
    apply Forall_forall. intros y Hy. apply H; [now left | assumption].
Qed.

Lemma list_prod_sorted : forall ys xs,
  StronglySorted Qclt ys -> StronglySorted Qclt xs ->
  StronglySorted key_lt (list_prod ys xs).
Proof.
  intros ys xs Hy Hx. induction Hy as [| y t Ht IH Hyt]; simpl; [constructor |].
  apply sorted_app.
  - clear - Hx. induction Hx as [| x t Ht IH Hxt]; simpl; constructor; [assumption |].
    apply Forall_forall. intros k Hk. apply in_map_iff in Hk.
    destruct Hk as [x' [<- Hx']]. right. simpl. split; [reflexivity |].
    rewrite Forall_forall in Hxt. now apply Hxt.
  - assumption.
  - intros a b Ha Hb. apply in_map_iff in Ha. destruct Ha as [x [<- _]].
    destruct b as [y' x']. apply in_prod_iff in Hb. destruct Hb as [Hy' _].
    left. simpl. rewrite Forall_forall in Hyt. now apply Hyt.
Qed.

(** The groups of a table that fills a strictly ascending grid are the
    cells of the grid, row by row. *)
Lemma group_keys_grid : forall rows ys xs,
  strictly_ascending ys = true -> strictly_ascending xs = true ->
  on_grid ys xs rows -> covers ys xs rows ->
  group_keys rows = list_prod ys xs.
Proof.
  intros rows ys xs Hys Hxs Hon Hcov.
  apply (sorted_unique _ key_lt key_lt_irrefl key_lt_trans).
  - apply group_keys_sorted.
  - apply list_prod_sorted; now apply strictly_ascending_sorted.
  - intros [y x]. rewrite group_keys_In, in_prod_iff. split.
    + intros [r [Hr Hk]]. destruct (Hon r Hr) as (y' & x' & Hk' & Hy' & Hx').
      assert (E : (y, x) = (y', x')) by congruence. injection E as -> ->. auto.
    + intros [Hy Hx]. destruct (Hcov y x Hy Hx) as [r [Hr Hk]]. eauto.
Qed.

Section Unique.
Variable A : Type.
Variable eqb : A -> A -> bool.
Hypothesis eqb_spec : forall x y, eqb x y = true <-> x = y.

Lemma unique_In : forall l x, In x (unique eqb l) <-> In x l.
Proof.
  induction l as [| a t IH]; intro x; simpl; [reflexivity |].
  rewrite filter_In, IH, negb_true_iff. split.
  - intros [-> | [H _]]; auto.
  - intros [-> | H]; [now left |].
    destruct (eqb a x) eqn:E.
    + left. now apply eqb_spec.
    + right. auto.
Qed.

Lemma unique_NoDup : forall l, NoDup (unique eqb l).
Proof.
  induction l as [| a t IH]; simpl; constructor.
  - rewrite filter_In, negb_true_iff. intros [_ H].
    rewrite (proj2 (eqb_spec a a) eq_refl) in H. discriminate.
  - now apply NoDup_filter.
Qed.

Lemma filter_filter : forall (p q : A -> bool) l,
  filter p (filter q l) = filter (fun x => p x && q x) l.
Proof.
  induction l as [| a t IH]; simpl; [reflexivity |].
  destruct (q a); simpl; [destruct (p a); simpl; now rewrite IH |].
  now rewrite andb_false_r.
Qed.

Lemma unique_app : forall l1 l2,
  unique eqb (l1 ++ l2)
  = (unique eqb l1 ++ filter (fun y => negb (existsb (fun x => eqb x y) l1)) (unique eqb l2))%list.
Proof.
  induction l1 as [| a t IH]; intro l2; simpl.
  - symmetry. apply filter_all. apply Forall_forall. reflexivity.
  - f_equal. rewrite IH, filter_app, filter_filter. f_equal.
    apply filter_ext. intro y. now rewrite negb_orb.
Qed.
End Unique.

Lemma string_eqb_spec : forall x y : string, String.eqb x y = true <-> x = y.
Proof. apply String.eqb_eq. Qed.

Lemma Z_eqb_spec : forall x y : Z, Z.eqb x y = true <-> x = y.
Proof. apply Z.eqb_eq. Qed.

Lemma names_of_In : forall df s,
  In s (names_of df) <-> exists r, In r df /\ model r = Some s.
Proof.
  intros df s. unfold names_of. rewrite in_flat_map. split.
  - intros [r [Hr Hs]]. exists r. split; [assumption |].
    destruct (model r); [destruct Hs as [-> | []]; reflexivity | contradiction].
  - intros [r [Hr Hs]]. exists r. split; [assumption |]. rewrite Hs. now left.
Qed.

Lemma model_names_In : forall df s,
  In s (model_names df) <-> exists r, In r df /\ model r = Some s.
Proof.
  intros df s. unfold model_names.
  rewrite (unique_In _ _ string_eqb_spec). apply names_of_In.
Qed.

Lemma model_names_ensemble : forall rows means,
  means <> [] ->
  (forall r, In r rows -> model r <> Some "Ensemble") ->
  model_names (rows ++ set_model "Ensemble" means)%list
  = (model_names rows ++ ["Ensemble"])%list.
Proof.
  intros rows means Hne Hno. unfold model_names.
  rewrite flat_map_app, (unique_app _ String.eqb). f_equal.
  assert (E : unique String.eqb
                (flat_map (fun r => match model r with Some s => [s] | None => [] end)
                          (set_model "Ensemble" means)) = ["Ensemble"]).
  { destruct means as [| r0 t]; [contradiction |]. simpl. f_equal.
    apply filter_none. intros s Hs.
    apply (proj1 (unique_In _ _ string_eqb_spec _ _)) in Hs.
    apply in_flat_map in Hs. destruct Hs as [r [Hr Hs]].
    unfold set_model in Hr. apply in_map_iff in Hr. destruct Hr as [r' [<- _]].
    simpl in Hs. destruct Hs as [<- | []]. reflexivity. }
  rewrite E. simpl.
  assert (F : existsb (fun x => String.eqb x "Ensemble")
                      (flat_map (fun r => match model r with Some s => [s] | None => [] end) rows)
              = false).
  { apply not_true_iff_false. intro H. apply existsb_exists in H.
    destruct H as [s [Hs E']]. apply String.eqb_eq in E'. subst s.
    apply (names_of_In rows) in Hs. destruct Hs as [r [Hr Hm]]. now apply (Hno r). }
  now rewrite F.
Qed.

Lemma nth_list_prod : forall (ys xs : list Qc) a b,
  a < List.length ys -> b < List.length xs ->
  nth (a * List.length xs + b) (list_prod ys xs) (0%Qc, 0%Qc)
  = (nth a ys 0%Qc, nth b xs 0%Qc).
Proof.
  induction ys as [| y t IH]; intros xs a b Ha Hb; simpl in Ha; [lia |].
  simpl list_prod. destruct a as [| a].
  - simpl. rewrite app_nth1 by now rewrite length_map.
    rewrite (nth_indep _ _ ((fun x => (y, x)) 0%Qc)) by now rewrite length_map.
    now rewrite (map_nth (fun x => (y, x))).
  - rewrite app_nth2 by (rewrite length_map; simpl; lia).
    rewrite length_map.
    replace (S a * List.length xs + b - List.length xs) with (a * List.length xs + b)
      by (simpl; lia).
    simpl nth. apply IH; [lia | assumption].
Qed.

Lemma map_nth_self : forall (A : Type) (l : list A) d,
  map (fun k => nth k l d) (seq 0 (List.length l)) = l.
Proof.
  intros A l d. apply (nth_ext _ _ d d).
  - now rewrite length_map, length_seq.
  - intros j Hj. rewrite length_map, length_seq in Hj.
    rewrite (nth_indep _ d ((fun k => nth k l d) 0)) by now rewrite length_map, length_seq.
    rewrite (map_nth (fun k => nth k l d)). now rewrite seq_nth.
Qed.

Lemma values_for_index : forall (V : Type) (grid : DataArray V) d n l,
  size grid d = Some n -> index_of grid d = Some l ->
  exists c f, values_for grid d d n = Some c /\
              cdims c = [d] /\ cvals c = CNum f /\
              l = map (fun k => f (upd origin d k)) (seq 0 n).
Proof.
  intros V grid d n l Hn Hl.
  destruct (index_of_inv _ _ _ _ Hl) as (n' & c & f & Sn & Lc & Dc & Vc & E).
  assert (n' = n) by congruence. subst n'.
  unfold values_for, getitem. rewrite Lc. cbn [bind]. rewrite Dc, Sn. cbn [bind].
  rewrite Nat.eqb_refl. cbn [guard bind].
  eexists. exists (fun i => f (upd origin d (i d))). split; [reflexivity |].
  split; [reflexivity |]. rewrite Vc. split; [reflexivity |].
  subst l. apply map_ext. intro k. now rewrite upd_same.
Qed.

Lemma groupby_mean_length : forall df,
  List.length (groupby_mean df) = List.length (group_keys df).
Proof. intro df. unfold groupby_mean. apply length_map. Qed.

Lemma pred_set_model : forall s df, map pred (set_model s df) = map pred df.
Proof. intros s df. unfold set_model. rewrite map_map. reflexivity. Qed.

(** The loop body of [ds_sdm] on a full month: the Ensemble layer comes
    last and holds the per-cell means. *)
Lemma month_array_spec :
  forall (V : Type) (df : DataFrame) (grid_sample : DataArray V) m n0 n1 ys xs,
    dims grid_sample = [("yt_ocean", n0); ("xt_ocean", n1)] ->
    index_of grid_sample "yt_ocean" = Some ys ->
    index_of grid_sample "xt_ocean" = Some xs ->
    strictly_ascending ys = true -> strictly_ascending xs = true ->
    0 < n0 * n1 ->
    full_month df ys xs m ->
    (forall r, In r df -> model r <> Some "Ensemble") ->
    exists da,
      month_array df grid_sample m = Some da /\
      labels da = (model_names (rows_of df m) ++ ["Ensemble"])%list /\
      dims da = [("model", List.length (model_names (rows_of df m)) + 1);
                 ("yt_ocean", n0); ("xt_ocean", n1)] /\
      forall i,
        i "model" = List.length (model_names (rows_of df m)) ->
        i "yt_ocean" < n0 -> i "xt_ocean" < n1 ->
        values da i
        = mean (cell_preds df m (nth (i "yt_ocean") ys 0%Qc) (nth (i "xt_ocean") xs 0%Qc)).
Proof.
  intros V df grid m n0 n1 ys xs Hd Hys Hxs Ays Axs Hpos (Hon & Hcov & Hcount) Hno.
  assert (Sy : size grid "yt_ocean" = Some n0) by (unfold size; now rewrite Hd).
  assert (Sx : size grid "xt_ocean" = Some n1) by (unfold size; now rewrite Hd).
  assert (Ly : List.length ys = n0) by (eapply index_of_length; eauto).
  assert (Lx : List.length xs = n1) by (eapply index_of_length; eauto).
  destruct (values_for_index _ grid "yt_ocean" n0 ys Sy Hys) as (yc & fy & Vy & _).
  destruct (values_for_index _ grid "xt_ocean" n1 xs Sx Hxs) as (xc & fx & Vx & _).
  set (rows := rows_of df m) in *.
  set (K := List.length (model_names rows)) in *.
  assert (Hkeys : group_keys rows = list_prod ys xs) by now apply group_keys_grid.
  assert (HG : List.length (groupby_mean rows) = n0 * n1).
  { rewrite groupby_mean_length, Hkeys, length_prod. congruence. }
  assert (Hmods : model_names (rows ++ set_model "Ensemble" (groupby_mean rows))%list
                  = (model_names rows ++ ["Ensemble"])%list).
  { apply model_names_ensemble.
    - intro E. rewrite E in HG. simpl in HG. lia.
    - intros r Hr. apply Hno. unfold rows, rows_of in Hr. apply filter_In in Hr. tauto. }
  unfold month_array. fold (rows_of df m). fold rows.
  rewrite Hmods. unfold shape. rewrite Hd. cbn [map snd].
  assert (Hlen : List.length (rows ++ set_model "Ensemble" (groupby_mean rows))%list
                 = List.length (model_names rows ++ ["Ensemble"])%list * n0 * n1).
  { rewrite !length_app. unfold set_model at 1. rewrite length_map, HG, Hcount.
    fold K. rewrite Ly, Lx. simpl. nia. }
  rewrite Hlen, Nat.eqb_refl. cbn [guard bind]. rewrite Vx, Vy. cbn [bind].
  eexists. split; [reflexivity |].
  split.
  { unfold labels, size. cbn.
    rewrite <- (map_nth_self _ (model_names rows ++ ["Ensemble"])%list "") at 2.
    apply map_ext. intro k. unfold from_list. now rewrite upd_same. }
  split.
  { cbn [dims]. rewrite length_app. reflexivity. }
  intros i Hi Ha Hb. cbn [values]. rewrite Hi. fold K.
  rewrite map_app, app_nth2 by (rewrite length_map, Hcount; fold K; rewrite Ly, Lx; nia).
  rewrite length_map, Hcount. fold K. rewrite Ly, Lx.
  replace ((K * n0 + i "yt_ocean") * n1 + i "xt_ocean" - K * (n0 * n1))
    with (i "yt_ocean" * n1 + i "xt_ocean") by nia.
  rewrite pred_set_model. unfold groupby_mean. rewrite map_map. cbn [pred].
  rewrite Hkeys.
  rewrite (nth_indep _ NaN
             ((fun k => mean (map pred (filter (in_group k) rows))) (0%Qc, 0%Qc)))
    by (rewrite length_map, length_prod, Ly, Lx; nia).
  rewrite (map_nth (fun k => mean (map pred (filter (in_group k) rows)))).
  rewrite <- Lx at 1. rewrite nth_list_prod by congruence.
  reflexivity.
Qed.

Lemma assign_In : forall (A : Type) k (v : A) l e,
  In e (assign k v l) -> e = (k, v) \/ In e l.
Proof.
  induction l as [| [k0 v0] t IH]; simpl; intros e H.
  - destruct H as [<- | []]. now left.
  - destruct (String.eqb k k0); simpl in H.
    + destruct H as [<- | H]; auto.
    + destruct H as [<- | H]; auto. destruct (IH e H); auto.
Qed.

Section Fold.
Variable A : Type.
Variable nm : Z -> string.
Variable arr : Z -> A.

Lemma fold_assign_In : forall months acc e,
  In e (fold_left (fun acc m => assign (nm m) (arr m) acc) months acc) ->
  In e acc \/ exists m, In m months /\ e = (nm m, arr m).
Proof.
  induction months as [| m0 t IH]; simpl; intros acc e H; [now left |].
  destruct (IH _ _ H) as [H1 | [m [Hm E]]].
  - apply assign_In in H1. destruct H1 as [-> | H1]; [right; exists m0 | left]; auto.
  - right. exists m. auto.
Qed.

Lemma fold_assign_other : forall months acc k,
  (forall m, In m months -> nm m <> k) ->
  lookup k (fold_left (fun acc m => assign (nm m) (arr m) acc) months acc) = lookup k acc.
Proof.
  induction months as [| m0 t IH]; simpl; intros acc k H; [reflexivity |].
  rewrite IH by (intros m Hm; apply H; now right).
  apply lookup_assign_other. intro E. apply (H m0); auto.
Qed.

Lemma fold_assign_lookup : forall months acc m,
  NoDup months ->
  (forall a b, In a months -> In b months -> nm a = nm b -> a = b) ->
  In m months ->
  lookup (nm m) (fold_left (fun acc m => assign (nm m) (arr m) acc) months acc) = Some (arr m).
Proof.
  induction months as [| m0 t IH]; simpl; intros acc m Hnd Hinj Hin; [contradiction |].
  inversion Hnd as [| ? ? Hm0 Ht]; subst.
  destruct Hin as [-> | Hin].
  - rewrite fold_assign_other.
    + apply lookup_assign_same.
    + intros m' Hm' E. apply Hm0. rewrite <- (Hinj m' m); auto.
  - apply IH; auto.
Qed.
End Fold.

Lemma month_name_some : forall m, (1 <= m <= 12)%Z -> exists s, month_name m = Some s.
Proof.
  intros m Hm. unfold month_name.
  assert (E : ((0 <=? m) && (m <? 13))%Z = true) by (apply andb_true_iff; lia).
  rewrite E. destruct (nth_error month_names (Z.to_nat m)) eqn:N; [eauto |].
  apply nth_error_None in N. simpl in N. lia.
Qed.

Lemma month_name_inj : forall a b,
  (1 <= a <= 12)%Z -> (1 <= b <= 12)%Z -> month_name a = month_name b -> a = b.
Proof.
  intros a b Ha Hb.
  assert (Ea : In a [1; 2; 3; 4; 5; 6; 7; 8; 9; 10; 11; 12]%Z) by (simpl; lia).
  assert (Eb : In b [1; 2; 3; 4; 5; 6; 7; 8; 9; 10; 11; 12]%Z) by (simpl; lia).
  simpl in Ea, Eb.
  repeat (destruct Ea as [<- | Ea]; [
    repeat (destruct Eb as [<- | Eb]; [first [reflexivity | discriminate] |]);
    contradiction |]).
  contradiction.
Qed.

Lemma insert_label_perm : forall s l, Permutation (s :: l) (insert_label s l).
Proof.
  induction l as [| h t IH]; simpl; [reflexivity |].
  destruct (String.leb s h); [reflexivity |].
  rewrite perm_swap. now constructor.
Qed.

Lemma union_sorted_perm : forall ls,
  Permutation (unique String.eqb (List.concat ls)) (union_sorted ls).
Proof.
  intro ls. unfold union_sorted. generalize (unique String.eqb (List.concat ls)).
  induction l as [| s t IH]; simpl; [constructor |].
  rewrite <- insert_label_perm. now constructor.
Qed.

Lemma union_sorted_NoDup : forall ls, NoDup (union_sorted ls).
Proof.
  intro ls. eapply Permutation_NoDup; [apply union_sorted_perm |].
  apply (unique_NoDup _ _ string_eqb_spec).
Qed.

Lemma union_sorted_In : forall ls s,
  In s (union_sorted ls) <-> exists l, In l ls /\ In s l.
Proof.
  intros ls s. split.
  - intro H. eapply Permutation_in in H; [| symmetry; apply union_sorted_perm].
    apply (proj1 (unique_In _ _ string_eqb_spec _ _)) in H. apply in_concat in H.
    destruct H as [l [Hl Hs]]. eauto.
  - intros [l [Hl Hs]]. eapply Permutation_in; [apply union_sorted_perm |].
    apply (proj2 (unique_In _ _ string_eqb_spec _ _)). apply in_concat. eauto.
Qed.

Lemma list_eqb_spec : forall a b, list_eqb a b = true -> a = b.
Proof.
  induction a as [| x a IH]; destruct b as [| y b]; unfold list_eqb; simpl;
    intro H; try reflexivity; try discriminate.
  apply andb_true_iff in H. destruct H as [Hl H].
  apply andb_true_iff in H. destruct H as [Hxy H].
  apply String.eqb_eq in Hxy. subst y. f_equal. apply IH.
  unfold list_eqb. now rewrite Hl, H.
Qed.

Lemma find_label_last : forall s l,
  ~ In s l -> find_label s (l ++ [s]) = Some (List.length l).
Proof.
  induction l as [| h t IH]; simpl; intro H.
  - now rewrite String.eqb_refl.
  - destruct (String.eqb_spec s h); [exfalso; apply H; auto |].
    rewrite IH by tauto. reflexivity.
Qed.

Lemma nth_error_last : forall (A : Type) (l : list A) x,
  nth_error (l ++ [x]) (List.length l) = Some x.
Proof.
  intros A l x. rewrite nth_error_app2 by lia. now rewrite Nat.sub_diag.
Qed.

Lemma mean_pair : forall a b,
  mean [Num a; Num b] = Num ((a + b) / Z2Qc 2)%Qc.
Proof.
  intros a b. unfold mean. simpl. now rewrite Qcplus_0_r.
Qed.

Lemma lookup_replaced : forall (A : Type) d (c : A) (l : list (string * A)) v,
  lookup d l = Some v ->
  lookup d (map (fun e => if String.eqb (fst e) d then (d, c) else e) l) = Some c.
Proof.
  induction l as [| [k v'] t IH]; simpl; intros v H; [discriminate |].
  destruct (String.eqb_spec d k).
  - subst k. rewrite String.eqb_refl. simpl. now rewrite String.eqb_refl.
  - destruct (String.eqb_spec k d); [congruence |]. simpl.
    destruct (String.eqb_spec d k); [congruence |]. eauto.
Qed.

Lemma labels_reindex_model : forall joined da,
  labels da <> [] -> labels (reindex_model joined da) = joined.
Proof.
  intros joined da H. unfold labels in H.
  destruct (lookup "model" (coords da)) as [c |] eqn:C; [| contradiction].
  destruct (size da "model") as [n |] eqn:S; [| contradiction].
  unfold labels, reindex_model, size. cbn [coords dims].
  rewrite (lookup_replaced _ _ _ _ _ C), (lookup_replaced _ _ _ _ _ S).
  cbn [cvals str_vector default].
  rewrite <- (map_nth_self _ joined "") at 2. apply map_ext. intro k.
  unfold from_list. now rewrite upd_same.
Qed.

Lemma size_reindex_model : forall joined da n,
  size da "model" = Some n ->
  size (reindex_model joined da) "model" = Some (List.length joined).
Proof.
  intros joined da n H. unfold size, reindex_model. cbn [dims].
  exact (lookup_replaced _ _ _ _ _ H).
Qed.

Lemma values_reindex_model : forall joined da i s k,
  nth_error joined (i "model") = Some s ->
  find_label s (labels da) = Some k ->
  values (reindex_model joined da) i = values da (upd i "model" k).
Proof.
  intros joined da i s k Hs Hk. unfold reindex_model. cbn [values].
  rewrite (nth_error_nth _ _ "" Hs). now rewrite Hk.
Qed.

(** [xr.Dataset] either keeps an array as it is, all arrays then carrying
    the same labels, or reindexes it on the sorted union of the labels. *)
Lemma Dataset_lookup : forall ds nm da,
  lookup nm ds = Some da ->
  (Dataset ds = ds /\ forall e, In e ds -> labels (snd e) = labels da) \/
  lookup nm (Dataset ds)
  = Some (reindex_model (union_sorted (map (fun e => labels (snd e)) ds)) da).
Proof.
  intros ds nm da H. unfold Dataset.
  destruct (map (fun e => labels (snd e)) ds) as [| first rest] eqn:E.
  - destruct ds; [discriminate H | discriminate E].
  - destruct (forallb (list_eqb first) rest) eqn:F.
    + left. split; [reflexivity |].
      assert (A : forall e, In e ds -> labels (snd e) = first).
      { intros e He.
        assert (I : In (labels (snd e)) (first :: rest))
          by (rewrite <- E; now apply (in_map (fun e => labels (snd e)))).
        destruct I as [I | I]; [now symmetry |].
        rewrite forallb_forall in F. symmetry. apply list_eqb_spec. now apply F. }
      intros e He. rewrite (A e He).
      symmetry. apply (A (nm, da)). now apply lookup_In.
    + right. rewrite lookup_map_snd, H. reflexivity.
Qed.

(** Aligning the months keeps the Ensemble layer: when every array carries
    some of the labels [all] followed by Ensemble, and every label of
    [all] is carried by some array, each aligned array has [all] and
    Ensemble as its labels and holds the old Ensemble layer under the
    Ensemble label. *)
Lemma Dataset_ensemble : forall ds all,
  NoDup all -> ~ In "Ensemble" all ->
  (forall e, In e ds ->
     exists l, labels (snd e) = (l ++ ["Ensemble"])%list /\ NoDup l /\ incl l all /\
               size (snd e) "model" = Some (List.length l + 1)) ->
  (forall s, In s all -> exists e, In e ds /\ In s (labels (snd e))) ->
  forall nm da, lookup nm ds = Some da ->
  exists da' p,
    lookup nm (Dataset ds) = Some da' /\
    nth_error (labels da') p = Some "Ensemble" /\
    List.length (labels da') = List.length all + 1 /\
    size da' "model" = Some (List.length all + 1) /\
    forall i, i "model" = p ->
      values da' i = values da (upd i "model" (List.length (labels da) - 1)).
Proof.
  intros ds all Hnd Hens Hds Hall nm da H.
  pose proof (lookup_In _ _ _ _ H) as Hin.
  destruct (Hds _ Hin) as (l & Hl & Hndl & Hincl & Hsz). cbn [snd] in Hl, Hsz.
  assert (Hensl : ~ In "Ensemble" l) by (intro I; apply Hens; now apply Hincl).
  assert (Hlast : List.length (labels da) - 1 = List.length l)
    by (rewrite Hl, length_app; simpl; lia).
  destruct (Dataset_lookup ds nm da H) as [[E Hsame] | E].
  - assert (Hperm : Permutation l all).
    { apply NoDup_Permutation; auto. intro s. split; [apply Hincl |].
      intro Hs. destruct (Hall s Hs) as (e & He & Hse).
      rewrite (Hsame e He), Hl in Hse. apply in_app_or in Hse.
      destruct Hse as [Hse | [<- | []]]; [assumption | contradiction]. }
    exists da, (List.length l). rewrite E.
    repeat split.
    + assumption.
    + rewrite Hl. apply nth_error_last.
    + rewrite Hl, length_app, (Permutation_length Hperm). reflexivity.
    + now rewrite Hsz, (Permutation_length Hperm).
    + intros i Hi. rewrite Hlast, <- Hi. now rewrite upd_id.
  - set (U := union_sorted (map (fun e => labels (snd e)) ds)) in *.
    assert (HU : forall s, In s U <-> In s ("Ensemble" :: all)).
    { intro s. unfold U. rewrite union_sorted_In. split.
      - intros (l' & Hl' & Hs). apply in_map_iff in Hl'.
        destruct Hl' as (e & <- & He).
        destruct (Hds e He) as (l0 & Hl0 & _ & Hincl0 & _).
        rewrite Hl0 in Hs. apply in_app_or in Hs.
        destruct Hs as [Hs | [<- | []]]; [right; now apply Hincl0 | now left].
      - intros [<- | Hs].
        + exists (labels da). split.
          * apply in_map_iff. exists (nm, da). auto.
          * rewrite Hl. apply in_or_app. right. now left.
        + destruct (Hall s Hs) as (e & He & Hse).
          exists (labels (snd e)). split; [| assumption].
          apply in_map_iff. eauto. }
    assert (Hperm : Permutation U ("Ensemble" :: all)).
    { apply NoDup_Permutation; [apply union_sorted_NoDup | now constructor | exact HU]. }
    assert (HL : List.length U = List.length all + 1).
    { rewrite (Permutation_length Hperm). simpl. lia. }
    destruct (In_nth_error U "Ensemble") as [p Hp]; [apply HU; now left |].
    exists (reindex_model U da), p.
    assert (Hlab : labels (reindex_model U da) = U).
    { apply labels_reindex_model. rewrite Hl. now destruct l. }
    repeat split.
    + assumption.
    + now rewrite Hlab.
    + now rewrite Hlab.
    + rewrite (size_reindex_model _ _ _ Hsz). now rewrite HL.
    + intros i Hi. rewrite Hlast. apply (values_reindex_model _ _ _ "Ensemble").
      * now rewrite Hi.
      * rewrite Hl. now apply find_label_last.
Qed.

Lemma ds_sdm_loop :
  forall (V : Type) (df : DataFrame) (grid_sample : DataArray V)
         (nm : Z -> string) (arr : Z -> DataArray f64) months acc,
    (forall m, In m months ->
       month_array df grid_sample m = Some (arr m) /\ month_name m = Some (nm m)) ->
    fold_left (fun acc m =>
                 do ds <- acc;
                 do mth_da <- month_array df grid_sample m;
                 do mth_name <- month_name m;
                 Some (assign mth_name mth_da ds))
              months (Some acc)
    = Some (fold_left (fun acc m => assign (nm m) (arr m) acc) months acc).
Proof.
  intros V df grid nm arr months.
  induction months as [| m t IH]; intros acc H; [reflexivity |].
  cbn [fold_left]. destruct (H m (or_introl eq_refl)) as [-> ->]. cbn [bind].
  apply IH. intros m' Hm'. apply H. now right.
Qed.

Lemma model_names_rows_of : forall df m s,
  In s (model_names (rows_of df m)) -> In s (model_names df).
Proof.
  intros df m s H. apply model_names_In in H. destruct H as (r & Hr & Hs).
  apply model_names_In. exists r. split; [| assumption].
  unfold rows_of in Hr. apply filter_In in Hr. tauto.
Qed.

Lemma model_names_month : forall df s,
  In s (model_names df) ->
  exists m, In m (map month df) /\ In s (model_names (rows_of df m)).
Proof.
  intros df s H. apply model_names_In in H. destruct H as (r & Hr & Hs).
  exists (month r). split; [now apply in_map |].
  apply model_names_In. exists r. split; [| assumption].
  unfold rows_of. apply filter_In. split; [assumption | apply Z.eqb_refl].
Qed.

(** X24: on a sample grid whose latitudes and longitudes ascend
    strictly, for tables whose months lie between 1 and 12 and fill the
    grid once per model, none of the models being named Ensemble,
    [ds_sdm] returns under each month's name an array whose model axis
    has one label more than there are distinct input models and carries
    the label Ensemble; the layer under that label holds at each (y, x)
    cell the mean of the valid predictions made for the cell in that
    month, (v1 + v2) / 2 when two models predicted v1 and v2. *)
Theorem ds_sdm_adds_ensemble_mean :
  forall (V : Type) (list_df : list DataFrame) (grid_sample : DataArray V) n0 n1 ys xs,
    list_df <> [] ->
    dims grid_sample = [("yt_ocean", n0); ("xt_ocean", n1)] ->
    index_of grid_sample "yt_ocean" = Some ys ->
    index_of grid_sample "xt_ocean" = Some xs ->
    strictly_ascending ys = true -> strictly_ascending xs = true ->
    0 < n0 * n1 ->
    (forall m, In m (map month (List.concat list_df)) ->
       (1 <= m <= 12)%Z /\ full_month (List.concat list_df) ys xs m) ->
    (forall r, In r (List.concat list_df) -> model r <> Some "Ensemble") ->
    exists out,
      ds_sdm list_df grid_sample = Some out /\
      forall m, In m (map month (List.concat list_df)) ->
        exists mth_name da p,
          month_name m = Some mth_name /\
          lookup mth_name out = Some da /\
          nth_error (labels da) p = Some "Ensemble" /\
          List.length (labels da) = List.length (model_names (List.concat list_df)) + 1 /\
          size da "model" = Some (List.length (model_names (List.concat list_df)) + 1) /\
          forall i, i "model" = p -> i "yt_ocean" < n0 -> i "xt_ocean" < n1 ->
            let cell := cell_preds (List.concat list_df) m
                                   (nth (i "yt_ocean") ys 0%Qc) (nth (i "xt_ocean") xs 0%Qc) in
            values da i = mean cell /\
            forall v1 v2, cell = [Num v1; Num v2] ->
                          values da i = Num ((v1 + v2) / Z2Qc 2)%Qc.
Proof.
  intros V list_df grid n0 n1 ys xs Hne Hd Hys Hxs Ays Axs Hpos Hfull Hno.
  set (df := List.concat list_df) in *.
  assert (Hc : concat list_df = Some df) by (destruct list_df; [contradiction | reflexivity]).
  unfold ds_sdm. rewrite Hc. cbn [bind].
  set (months := unique Z.eqb (map month df)).
  assert (Hmonths : forall m, In m months <-> In m (map month df))
    by (intro m; apply (unique_In _ _ Z_eqb_spec)).
  set (nm := fun m => default "" (month_name m)).
  set (arr := fun m => default (mkDA None [] (fun _ => NaN) [] []) (month_array df grid m)).
  assert (Hspec : forall m, In m months ->
            month_array df grid m = Some (arr m) /\ month_name m = Some (nm m) /\
            labels (arr m) = (model_names (rows_of df m) ++ ["Ensemble"])%list /\
            size (arr m) "model" = Some (List.length (model_names (rows_of df m)) + 1) /\
            forall i, i "model" = List.length (model_names (rows_of df m)) ->
                      i "yt_ocean" < n0 -> i "xt_ocean" < n1 ->
                      values (arr m) i
                      = mean (cell_preds df m (nth (i "yt_ocean") ys 0%Qc)
                                         (nth (i "xt_ocean") xs 0%Qc))).
  { intros m Hm. apply Hmonths in Hm. destruct (Hfull m Hm) as [Hr Hf].
    destruct (month_array_spec V df grid m n0 n1 ys xs Hd Hys Hxs Ays Axs Hpos Hf Hno)
      as (da & E & Hl & Hdims & Hv).
    destruct (month_name_some m Hr) as [s Es].
    unfold arr, nm. rewrite E, Es. cbn [default].
    repeat split; auto. unfold size. now rewrite Hdims. }
  rewrite (ds_sdm_loop V df grid nm arr months []) by (intros m Hm; destruct (Hspec m Hm); tauto).
  cbn [bind].
  set (ds := fold_left (fun acc m => assign (nm m) (arr m) acc) months []).
  assert (Hlook : forall m, In m months -> lookup (nm m) ds = Some (arr m)).
  { intros m Hm. apply fold_assign_lookup; auto.
    - apply (unique_NoDup _ _ Z_eqb_spec).
    - intros a b Ha Hb E.
      destruct (Hspec a Ha) as (_ & Na & _), (Hspec b Hb) as (_ & Nb & _).
      apply Hmonths in Ha, Hb.
      apply month_name_inj; [apply (Hfull a Ha) | apply (Hfull b Hb) | congruence]. }
  eexists. split; [reflexivity |].
  intros m Hm. apply Hmonths in Hm.
  destruct (Hspec m Hm) as (_ & Hname & Hl & _ & Hv).
  destruct (Dataset_ensemble ds (model_names df)) with (nm := nm m) (da := arr m)
    as (da' & p & L & Hp & Hlen & Hsz & Hval).
  - apply (unique_NoDup _ _ string_eqb_spec).
  - intro I. apply model_names_In in I. destruct I as (r & Hr & Hs). now apply (Hno r).
  - intros e He. apply fold_assign_In in He.
    destruct He as [[] | (m0 & Hm0 & ->)]. cbn [snd].
    destruct (Hspec m0 Hm0) as (_ & _ & Hl0 & Hs0 & _).
    exists (model_names (rows_of df m0)). repeat split; auto.
    + apply (unique_NoDup _ _ string_eqb_spec).
    + intros s Hs. now apply (model_names_rows_of df m0).
  - intros s Hs. destruct (model_names_month df s Hs) as (m0 & Hm0 & Hs0).
    apply Hmonths in Hm0. exists (nm m0, arr m0). split.
    + apply lookup_In. now apply Hlook.
    + cbn [snd]. destruct (Hspec m0 Hm0) as (_ & _ & -> & _).
      apply in_or_app. now left.
  - now apply Hlook.
  - exists (nm m), da', p. repeat split; auto.
    + rewrite (Hval i H). rewrite Hl, length_app. cbn [List.length].
      replace (List.length (model_names (rows_of df m)) + 1 - 1)
        with (List.length (model_names (rows_of df m))) by lia.
      rewrite Hv; [| apply upd_same | rewrite upd_other by discriminate; assumption
                    | rewrite upd_other by discriminate; assumption].
      now rewrite !upd_other by discriminate.
    + intros v1 v2 Hc2. rewrite <- mean_pair, <- Hc2.
      rewrite (Hval i H). rewrite Hl, length_app. cbn [List.length].
      replace (List.length (model_names (rows_of df m)) + 1 - 1)
        with (List.length (model_names (rows_of df m))) by lia.
      rewrite Hv; [| apply upd_same | rewrite upd_other by discriminate; assumption
                    | rewrite upd_other by discriminate; assumption].
      now rewrite !upd_other by discriminate.
Qed.

Lemma ds_sdm_on_sample :
  exists out mth_name da p,
    ds_sdm [sample_gam; sample_rf] sample_sdm_grid = Some out /\
    month_name 1 = Some mth_name /\
    lookup mth_name out = Some da /\
    nth_error (labels da) p = Some "Ensemble" /\
    List.length (labels da) = 3 /\
    size da "model" = Some 3 /\
    values da (upd (upd origin "model" p) "xt_ocean" 0)
    = Num ((Z2Qc 1 + Z2Qc 4) / Z2Qc 2)%Qc /\
    values da (upd (upd origin "model" p) "xt_ocean" 1)
    = Num ((Z2Qc 2 + Z2Qc 4) / Z2Qc 2)%Qc.
Proof.
  destruct (ds_sdm_adds_ensemble_mean
              (f64) [sample_gam; sample_rf] sample_sdm_grid 1 2
              [Z2Qc (-60)] [Z2Qc 10; Z2Qc 20])
    as (out & Hout & Hm).
  - discriminate.
  - reflexivity.
  - reflexivity.
  - reflexivity.
  - reflexivity.
  - reflexivity.
  - lia.
  - intros m Hm.
    assert (E : m = 1%Z).
    { cbn in Hm. destruct Hm as [E | [E | [E | [E | []]]]]; now symmetry. }
    subst m. split; [lia |].
    assert (R : rows_of (List.concat [sample_gam; sample_rf]) 1
                = [sdm_row (-60) 10 (Z2Qc 1) 1 "GAM"; sdm_row (-60) 20 (Z2Qc 2) 1 "GAM";
                   sdm_row (-60) 20 (Z2Qc 4) 1 "RF"; sdm_row (-60) 10 (Z2Qc 4) 1 "RF"])
      by reflexivity.
    unfold full_month. rewrite R. split; [| split].
    + intros r Hr.
      destruct Hr as [<- | [<- | [<- | [<- | []]]]];
        eexists; eexists; (split; [reflexivity | split; cbn [In]; auto]).
    + intros y x Hy Hx. destruct Hy as [<- | []].
      destruct Hx as [<- | [<- | []]];
        [exists (sdm_row (-60) 10 (Z2Qc 1) 1 "GAM") | exists (sdm_row (-60) 20 (Z2Qc 2) 1 "GAM")];
        (split; [cbn [In]; auto | reflexivity]).
    + reflexivity.
  - intros r Hr.
    destruct Hr as [<- | [<- | [<- | [<- | []]]]]; discriminate.
  - destruct (Hm 1%Z) as (mth_name & da & p & H1 & H2 & H3 & H4 & H5 & H6).
    + now left.
    + exists out, mth_name, da, p.
      split; [exact Hout |]. split; [exact H1 |]. split; [exact H2 |].
      split; [exact H3 |]. split; [exact H4 |]. split; [exact H5 |].
      split.
      * apply (H6 (upd (upd origin "model" p) "xt_ocean" 0)); reflexivity || (cbv; lia).
      * apply (H6 (upd (upd origin "model" p) "xt_ocean" 1)); reflexivity || (cbv; lia).
Defined.

Lemma feq_eq : forall v q, feq v (Num q) = true -> v = Num q.
Proof.
  intros [| x] q H; simpl in H; [discriminate |].
  apply Qc_eq_bool_correct in H. now subst.
Qed.

(** C8: on a sample grid whose latitudes run from north to south the
    Ensemble layer is attached to the wrong cells.  Two models predict 1
    and 3 at latitude -50, and 100 and 300 at latitude -60; their tables
    list the cells in the order of the grid.  [ds_sdm] returns an array
    for January whose latitudes are -50, -60 and whose layers GAM and RF
    hold 1 and 3 at latitude -50, yet its Ensemble layer holds 200 at
    latitude -50, where the mean of the predictions is 2, and 2 at
    latitude -60, where the mean is 200. *)
Theorem ds_sdm_mislabels_ensemble_on_descending_grid :
  exists out da,
    ds_sdm [sample_gam_north_first; sample_rf_north_first] sample_grid_north_first
    = Some out /\
    lookup "January" out = Some da /\
    labels da = ["GAM"; "RF"; "Ensemble"] /\
    index_of da "yt_ocean" = Some [Z2Qc (-50); Z2Qc (-60)] /\
    values da (at_cell 0 0) = Num (Z2Qc 1) /\
    values da (at_cell 1 0) = Num (Z2Qc 3) /\
    mean (cell_preds (List.concat [sample_gam_north_first; sample_rf_north_first]) 1
                     (Z2Qc (-50)) (Z2Qc 10)) = Num (Z2Qc 2) /\
    values da (at_cell 2 0) = Num (Z2Qc 200) /\
    mean (cell_preds (List.concat [sample_gam_north_first; sample_rf_north_first]) 1
                     (Z2Qc (-60)) (Z2Qc 10)) = Num (Z2Qc 200) /\
    values da (at_cell 2 1) = Num (Z2Qc 2) /\
    Num (Z2Qc 200) <> Num (Z2Qc 2).
Proof.
  eexists. eexists. split; [reflexivity |]. split; [reflexivity |].
  split; [reflexivity |]. split; [reflexivity |].
  repeat (split; [apply feq_eq; vm_compute; reflexivity |]).
  intro H. injection H as H. discriminate H.
Qed.

(* ================================================================== *)
(** * Further properties *)

(** ** Failing computations *)

Lemma bind_Some : forall (A B : Type) (m : option A) (k : A -> option B) b,
  bind m k = Some b -> exists a, m = Some a /\ k a = Some b.
Proof. intros A B [a |] k b H; [eauto | discriminate]. Qed.

Lemma guard_Some : forall b u, guard b = Some u -> b = true.
Proof. intros [|] u H; [reflexivity | discriminate]. Qed.

(** The axes of the field once the depth axis has been collapsed. *)

(** ** getACCESSdata_SO: what the cut leaves alone, and its edges *)

Lemma y_name_not_time : forall (V : Type) (da : DataArray V), y_name da <> "time".
Proof. intros V da. unfold y_name. destruct (name_in da ["u"; "v"]); discriminate. Qed.

Lemma isel_slice_names : forall (V : Type) d s e (da : DataArray V),
  map fst (coords (isel_slice d s e da)) = map fst (coords da).
Proof. intros. unfold isel_slice. cbn [coords]. now rewrite map_map. Qed.

Lemma size_slice_other : forall (V : Type) (da : DataArray V) d s e k,
  k <> d -> size (isel_slice d s e da) k = size da k.
Proof. intros. unfold size, isel_slice. cbn [dims]. now apply lookup_resize_other. Qed.

Lemma size_slice_same : forall (V : Type) (da : DataArray V) d s e n,
  size da d = Some n -> size (isel_slice d s e da) d = Some (e - s).
Proof.
  intros V da d s e n H. unfold size, isel_slice. cbn [dims].
  exact (size_resized d (e - s) (dims da) n H).
Qed.

(** X1: for ocean data (ice_data false, the default) the field is changed
    by the latitude cut alone: the times, with no twelve-hour shift, the
    attributes, the coordinate names and every other axis are those of
    the catalogue's field. *)
Theorem getACCESSdata_SO_ocean_fields_keep_time :
  forall (var start end_ freq : string) (ses : Session)
         (minlat maxlat : option Qc) (exp : option string) (ice_data : option bool)
         (raw : DataArray f64) (ys : list Qc),
    default false ice_data = false ->
    getvar (default "01deg_jra55v140_iaf_cycle4" exp) var ses
           (mkQuery (Some freq) (Some start) (Some end_) true None) = Some raw ->
    index_of raw (y_name raw) = Some ys ->
    ascending ys = true ->
    exists r,
      getACCESSdata_SO var start end_ freq ses minlat maxlat exp ice_data = Some r /\
      time_of r = time_of raw /\
      attrs r = attrs raw /\
      map fst (coords r) = map fst (coords raw) /\
      forall d, d <> y_name raw ->
                size r d = size raw d /\ index_of r d = index_of raw d.
Proof.
  intros var start end_ freq ses minlat maxlat exp ice_data raw ys Hice Hraw Hidx Hasc.
  set (lo := default (Z2Qc (-90)) minlat).
  set (hi := default (Z2Qc (-45)) maxlat).
  pose proof (sel_slice_ascending_eq _ raw (y_name raw) lo hi ys Hidx Hasc) as Hsel.
  exists (isel_slice (y_name raw) (count (fun y => Qcltb y lo) ys)
                     (count (fun y => Qcleb y hi) ys) raw).
  split.
  { unfold getACCESSdata_SO, load. rewrite Hice, Hraw. cbn [bind]. fold lo. fold hi.
    unfold y_name in *. destruct (name_in raw ["u"; "v"]); exact Hsel. }
  split; [apply time_of_slice_other, y_name_not_time |].
  split; [reflexivity |].
  split; [apply isel_slice_names |].
  intros d Hd. split; [now apply size_slice_other | now apply index_of_slice_other].
Qed.

Lemma getACCESSdata_SO_ocean_sample_keeps_time :
  exists r,
    getACCESSdata_SO "u" "2010-01" "2010-01" "1 daily" (sample_session [-80; -79]%Z)
                     None None None None = Some r /\
    time_of r = Some [new_year_2010] /\
    index_of r "xu_ocean" = Some (map Z2Qc [0; 1]%Z).
Proof.
  destruct (getACCESSdata_SO_ocean_fields_keep_time
              "u" "2010-01" "2010-01" "1 daily" (sample_session [-80; -79]%Z)
              None None None None sample_u (map Z2Qc [-80; -60; -45; -40]%Z)
              eq_refl eq_refl eq_refl eq_refl)
    as (r & H1 & H2 & _ & _ & H3).
  exists r. split; [exact H1 |]. split; [rewrite H2; reflexivity |].
  destruct (H3 "xu_ocean") as [_ E]; [discriminate |]. rewrite E. reflexivity.
Defined.

Lemma sel_slice_inv : forall (V : Type) d lo hi (da r : DataArray V),
  sel_slice d lo hi da = Some r ->
  exists start stop, r = isel_slice d start stop da.
Proof.
  intros V d lo hi da r H. unfold sel_slice in H.
  apply bind_Some in H. destruct H as (idx & _ & H).
  apply bind_Some in H. destruct H as (start & _ & H).
  apply bind_Some in H. destruct H as (stop & _ & H).
  injection H as <-. eauto.
Qed.

Lemma shift_time_names : forall (V : Type) (da a : DataArray V),
  shift_time da = Some a -> In "time" (map fst (coords a)).
Proof.
  intros V da a H. unfold shift_time in H.
  apply bind_Some in H. destruct H as (c & _ & H).
  assert (E : exists c', a = set_coord "time" c' da).
  { destruct (cvals c); try discriminate H.
    destruct (cdims c) as [| ? [| ? ?]]; try discriminate H;
      injection H as <-; eauto. }
  destruct E as [c' ->]. cbn [coords set_coord]. apply assign_names. now left.
Qed.

Lemma set_index_names : forall (V : Type) key src sz (da a : DataArray V) k,
  set_index key src sz da = Some a ->
  In k (map fst (coords a)) <-> k = key \/ In k (map fst (coords da)).
Proof.
  intros V key src sz da a k H. unfold set_index in H.
  destruct (cdims src) as [| d [| ? ?]]; try discriminate H.
  apply bind_Some in H. destruct H as (n & _ & H).
  apply bind_Some in H. destruct H as (m & _ & H).
  apply bind_Some in H. destruct H as (u & _ & H).
  injection H as <-. cbn [coords set_coord]. apply assign_names.
Qed.

Lemma rename_names : forall (V : Type) old new (da a : DataArray V),
  rename old new da = Some a ->
  map fst (coords a) = map (rename_name old new) (map fst (coords da)).
Proof.
  intros V old new da a H. unfold rename in H.
  apply bind_Some in H. destruct H as (u & _ & H).
  injection H as <-. cbn [coords]. now rewrite !map_map.
Qed.

(** The coordinates of a sea-ice field once loaded. *)
Lemma load_ice_names : forall var start end_ freq ses exp a k,
  load var start end_ freq ses exp true = Some a ->
  In k (map fst (coords a)) <-> In k ["time"; "xt_ocean"; "yt_ocean"].
Proof.
  intros var start end_ freq ses exp a k H. unfold load in H.
  apply bind_Some in H. destruct H as (v0 & _ & H).
  apply bind_Some in H. destruct H as (area & _ & H).
  apply bind_Some in H. destruct H as (v1 & H1 & H).
  apply bind_Some in H. destruct H as (xt & _ & H).
  apply bind_Some in H. destruct H as (v2 & H2 & H).
  apply bind_Some in H. destruct H as (yt & _ & H).
  apply bind_Some in H. destruct H as (v3 & H3 & H).
  apply bind_Some in H. destruct H as (v4 & H4 & H).
  apply bind_Some in H. destruct H as (v5 & H5 & H).
  assert (N3 : forall d, In d ["time"; "ni"; "nj"] -> In d (map fst (coords v3))).
  { intros d Hd. apply (set_index_names _ _ _ _ _ _ d H3).
    simpl in Hd. destruct Hd as [<- | [<- | [<- | []]]]; [right | right | now left].
    - apply (set_index_names _ _ _ _ _ _ "time" H2). right.
      now apply (shift_time_names _ v0).
    - apply (set_index_names _ _ _ _ _ _ "ni" H2). now left. }
  assert (N5 : forall d, In d ["time"; "xt_ocean"; "yt_ocean"] ->
                         In d (map fst (coords v5))).
  { intros d Hd. rewrite (rename_names _ _ _ _ _ H5), (rename_names _ _ _ _ _ H4).
    rewrite map_map. apply in_map_iff. simpl in Hd.
    destruct Hd as [<- | [<- | [<- | []]]];
      [exists "time" | exists "ni" | exists "nj"];
      (split; [reflexivity | apply N3; simpl; tauto]). }
  destruct (3 <? List.length (coords v5)) eqn:L; injection H as <-.
  - unfold drop. cbn [coords]. split.
    + intro Hk. apply in_map_iff in Hk. destruct Hk as ([k' c] & <- & Hin).
      apply filter_In in Hin. destruct Hin as [Hin Hkeep]. cbn [fst] in *.
      apply negb_true_iff, mem_false in Hkeep.
      destruct (mem k' ["time"; "xt_ocean"; "yt_ocean"]) eqn:M;
        [now apply mem_In in M |].
      exfalso. apply Hkeep. apply filter_In. split.
      * apply in_map_iff. exists (k', c). auto.
      * unfold mem in M. simpl in M. simpl. now rewrite M.
    + intro Hk. destruct (proj1 (in_map_iff _ _ _) (N5 k Hk)) as ([k' c] & E & Hin).
      cbn [fst] in E. subst k'.
      apply in_map_iff. exists (k, c). split; [reflexivity |].
      apply filter_In. split; [assumption |]. cbn [fst].
      apply negb_true_iff, mem_false. intro Hd. apply filter_In in Hd.
      destruct Hd as [_ Hd]. apply mem_In in Hk. unfold mem in Hk.
      simpl in Hk, Hd. rewrite Hk in Hd. discriminate.
  - apply Nat.ltb_ge in L. rewrite <- (length_map fst) in L.
    assert (P : Permutation ["time"; "xt_ocean"; "yt_ocean"] (map fst (coords v5))).
    { apply NoDup_Permutation_bis.
      - repeat constructor; simpl; intuition discriminate.
      - exact L.
      - exact N5. }
    split; intro Hk.
    + eapply Permutation_in; [apply Permutation_sym, P | exact Hk].
    + eapply Permutation_in; [exact P | exact Hk].
Qed.

(** X2: a sea-ice field that [getACCESSdata_SO] returns carries the
    coordinates time, xt_ocean and yt_ocean and no other: whatever else
    the catalogue attached to it has been dropped. *)
Theorem getACCESSdata_SO_ice_fields_carry_three_coordinates :
  forall (var start end_ freq : string) (ses : Session)
         (minlat maxlat : option Qc) (exp : option string) (r : DataArray f64),
    getACCESSdata_SO var start end_ freq ses minlat maxlat exp (Some true) = Some r ->
    forall k, In k (map fst (coords r)) <-> In k ["time"; "xt_ocean"; "yt_ocean"].
Proof.
  intros var start end_ freq ses minlat maxlat exp r H k.
  unfold getACCESSdata_SO in H. cbn [default] in H.
  apply bind_Some in H. destruct H as (a & Hload & H).
  assert (E : exists d start stop, r = isel_slice d start stop a).
  { destruct (name_in a ["u"; "v"]);
      apply sel_slice_inv in H; destruct H as (s & e & ->); eauto. }
  destruct E as (d & s & e & ->). rewrite isel_slice_names.
  exact (load_ice_names _ _ _ _ _ _ a k Hload).
Qed.

Lemma getACCESSdata_SO_drops_ice_grid_coordinates :
  exists r,
    getACCESSdata_SO "hi" "2010-01" "2010-01" "1 daily" sample_geo_session
                     None None None (Some true) = Some r /\
    In "TLON" (map fst (coords sample_ice_geo)) /\
    ~ In "TLON" (map fst (coords r)) /\
    In "xt_ocean" (map fst (coords r)).
Proof.
  eexists. split; [reflexivity |]. split; [simpl; tauto |].
  split.
  - intro H.
    apply (getACCESSdata_SO_ice_fields_carry_three_coordinates
             "hi" "2010-01" "2010-01" "1 daily" sample_geo_session
             None None None _ eq_refl "TLON") in H.
    simpl in H. intuition discriminate.
  - apply (getACCESSdata_SO_ice_fields_carry_three_coordinates
             "hi" "2010-01" "2010-01" "1 daily" sample_geo_session
             None None None _ eq_refl "xt_ocean").
    simpl. tauto.
Defined.

(** X3: the latitude axis is picked by the name of the field alone.  A
    field that is not named u or v and has no yt_ocean axis (one that
    lies on the u-grid, say), and a field named u or v without a yu_ocean
    axis, make [getACCESSdata_SO] fail. *)
Theorem getACCESSdata_SO_fails_without_the_named_axis :
  forall (var start end_ freq : string) (ses : Session)
         (minlat maxlat : option Qc) (exp : option string) (ice_data : option bool)
         (raw : DataArray f64),
    load var start end_ freq ses
         (default "01deg_jra55v140_iaf_cycle4" exp) (default false ice_data) = Some raw ->
    size raw (if name_in raw ["u"; "v"] then "yu_ocean" else "yt_ocean") = None ->
    getACCESSdata_SO var start end_ freq ses minlat maxlat exp ice_data = None.
Proof.
  intros var start end_ freq ses minlat maxlat exp ice_data raw Hload Hsize.
  unfold getACCESSdata_SO. rewrite Hload. cbn [bind].
  destruct (name_in raw ["u"; "v"]); unfold sel_slice, index_of; now rewrite Hsize.
Qed.

Lemma getACCESSdata_SO_fails_on_wind_stress :
  size sample_tau_x "yu_ocean" = Some 4 /\
  getACCESSdata_SO "tau_x" "2010-01" "2010-01" "1 daily" sample_stress_session
                   None None None None = None.
Proof.
  split; [reflexivity |].
  apply (getACCESSdata_SO_fails_without_the_named_axis
           "tau_x" "2010-01" "2010-01" "1 daily" sample_stress_session
           None None None None sample_tau_x eq_refl eq_refl).
Defined.

Lemma index_of_size : forall (V : Type) (da : DataArray V) d l,
  index_of da d = Some l -> size da d = Some (List.length l).
Proof.
  intros V da d l H. destruct (index_of_inv _ _ _ _ H) as (n & c & f & Hn & _ & _ & _ & ->).
  now rewrite length_map, length_seq.
Qed.

(** X4: a band that holds none of the latitudes of the field (minlat
    above maxlat, or a band off the grid) is no error: the field comes
    back with an empty latitude axis. *)
Theorem getACCESSdata_SO_returns_empty_field_off_the_band :
  forall (var start end_ freq : string) (ses : Session)
         (minlat maxlat : option Qc) (exp : option string)
         (ice_data : option bool) (raw : DataArray f64) (ys : list Qc),
    let lo := default (Z2Qc (-90)) minlat in
    let hi := default (Z2Qc (-45)) maxlat in
    load var start end_ freq ses
         (default "01deg_jra55v140_iaf_cycle4" exp) (default false ice_data) = Some raw ->
    index_of raw (y_name raw) = Some ys ->
    ascending ys = true ->
    Forall (fun y => in_band lo hi y = false) ys ->
    exists r,
      getACCESSdata_SO var start end_ freq ses minlat maxlat exp ice_data = Some r /\
      index_of r (y_name raw) = Some [] /\
      size r (y_name raw) = Some 0 /\
      dim_names r = dim_names raw.
Proof.
  intros var start end_ freq ses minlat maxlat exp ice_data raw ys lo hi
         Hload Hidx Hasc Hout.
  destruct (sel_slice_ascending _ raw (y_name raw) lo hi ys Hidx Hasc)
    as (r & Hsel & _ & Hdims & Hr & _).
  rewrite (proj2 (count_none _ _ Hout)) in Hr.
  exists r. split.
  { unfold getACCESSdata_SO. rewrite Hload. cbn [bind]. fold lo. fold hi.
    unfold y_name in Hsel. destruct (name_in raw ["u"; "v"]); exact Hsel. }
  split; [exact Hr |]. split; [| exact Hdims].
  exact (index_of_size _ _ _ _ Hr).
Qed.

Lemma getACCESSdata_SO_returns_empty_field_for_reversed_band :
  exists r,
    getACCESSdata_SO "u" "2010-01" "2010-01" "1 daily" (sample_session [-80; -79]%Z)
                     (Some (Z2Qc (-45))) (Some (Z2Qc (-90))) None None = Some r /\
    size r "yu_ocean" = Some 0 /\
    dim_names r = ["time"; "st_ocean"; "yu_ocean"; "xu_ocean"].
Proof.
  destruct (getACCESSdata_SO_returns_empty_field_off_the_band
              "u" "2010-01" "2010-01" "1 daily" (sample_session [-80; -79]%Z)
              (Some (Z2Qc (-45))) (Some (Z2Qc (-90))) None None
              sample_u (map Z2Qc [-80; -60; -45; -40]%Z) eq_refl eq_refl eq_refl)
    as (r & H1 & _ & H3 & H4).
  - repeat constructor.
  - exists r. split; [exact H1 |]. split; [exact H3 | exact H4].
Defined.

Lemma descending_cons : forall a t,
  descending (a :: t) = true -> Forall (fun y => (y <= a)%Qc) t /\ descending t = true.
Proof.
  intros a t. revert a. induction t as [| b t IH]; intros a H.
  - split; [constructor | reflexivity].
  - simpl in H. apply andb_true_iff in H. destruct H as [Hab Ht].
    apply Qcleb_spec in Hab. destruct (IH b Ht) as [Hb Hs].
    split; [| exact Ht]. constructor; [exact Hab |].
    eapply Forall_impl; [| exact Hb]. intros y Hy. simpl in Hy.
    eapply Qcle_trans; eauto.
Qed.

Lemma count_le : forall (p q : Qc -> bool) l,
  (forall y, p y = true -> q y = true) -> count p l <= count q l.
Proof.
  intros p q l H. induction l as [| a t IH]; [apply Nat.le_refl |].
  rewrite !count_cons. destruct (p a) eqn:E; [rewrite (H a E); lia |].
  destruct (q a); lia.
Qed.

(** X5: on a field whose latitudes run from north to south the cut
    finds nothing: for every band with minlat below maxlat, the default
    one included, the field comes back with an empty latitude axis. *)
Theorem getACCESSdata_SO_returns_nothing_on_descending_latitudes :
  forall (var start end_ freq : string) (ses : Session)
         (minlat maxlat : option Qc) (exp : option string)
         (ice_data : option bool) (raw : DataArray f64) (ys : list Qc),
    let lo := default (Z2Qc (-90)) minlat in
    let hi := default (Z2Qc (-45)) maxlat in
    load var start end_ freq ses
         (default "01deg_jra55v140_iaf_cycle4" exp) (default false ice_data) = Some raw ->
    index_of raw (y_name raw) = Some ys ->
    ascending ys = false -> descending ys = true ->
    (lo < hi)%Qc ->
    exists r,
      getACCESSdata_SO var start end_ freq ses minlat maxlat exp ice_data = Some r /\
      size r (y_name raw) = Some 0 /\
      index_of r (y_name raw) = Some [].
Proof.
  intros var start end_ freq ses minlat maxlat exp ice_data raw ys lo hi
         Hload Hidx Hasc Hdesc Hband.
  set (start_ := count (fun y => Qcltb lo y) ys).
  set (stop_ := count (fun y => Qcleb hi y) ys).
  assert (Hle : stop_ <= start_).
  { apply count_le. intros y Hy. apply Qcleb_spec in Hy. apply Qcltb_spec.
    eapply Qclt_le_trans; eauto. }
  assert (Hsel : sel_slice (y_name raw) lo hi raw
                 = Some (isel_slice (y_name raw) start_ stop_ raw)).
  { unfold sel_slice. rewrite Hidx. cbn [bind].
    unfold get_slice_bound. rewrite Hasc, Hdesc. reflexivity. }
  destruct (index_of_inv _ _ _ _ Hidx) as (n & c & f & Hn & Hc & Hcd & Hcv & _).
  exists (isel_slice (y_name raw) start_ stop_ raw).
  assert (Hs : size (isel_slice (y_name raw) start_ stop_ raw) (y_name raw) = Some 0).
  { rewrite (size_slice_same _ raw _ start_ stop_ n Hn). f_equal. lia. }
  split; [| split; [exact Hs |]].
  - unfold getACCESSdata_SO. rewrite Hload. cbn [bind]. fold lo. fold hi.
    clear Hs Hn Hc Hcd. unfold y_name in *. destruct (name_in raw ["u"; "v"]); exact Hsel.
  - unfold index_of. rewrite Hs. cbn [bind].
    unfold isel_slice. cbn [coords]. rewrite lookup_map_snd, Hc. cbn [option_map bind].
    unfold slice_coord. rewrite Hcd. cbn [mem existsb]. rewrite String.eqb_refl.
    cbn [orb cdims]. rewrite String.eqb_refl, Hcv. reflexivity.
Qed.

Lemma getACCESSdata_SO_returns_nothing_north_to_south :
  exists r,
    getACCESSdata_SO "area_t" "2010-01" "2010-01" "1 daily" (sample_session [-40; -80]%Z)
                     None None None None = Some r /\
    index_of (sample_area_t [-40; -80]%Z) "yt_ocean" = Some (map Z2Qc [-40; -80]%Z) /\
    size r "yt_ocean" = Some 0.
Proof.
  destruct (getACCESSdata_SO_returns_nothing_on_descending_latitudes
              "area_t" "2010-01" "2010-01" "1 daily" (sample_session [-40; -80]%Z)
              None None None None
              (sample_area_t [-40; -80]%Z) (map Z2Qc [-40; -80]%Z)
              eq_refl eq_refl eq_refl eq_refl eq_refl)
    as (r & H1 & H2 & _).
  exists r. split; [exact H1 |]. split; [reflexivity | exact H2].
Defined.

(** ** corrlong: whole turns, and when it fails *)

Lemma wrap_longitude_near : forall x,
  exists turns : Z,
    near (rounding_slack x) (wrap_longitude x) (x - Z2Qc 360 * Z2Qc turns)%Qc.
Proof.
  intro x. destruct (wrap_longitude_turns x) as [turns H]. exists turns.
  apply Qabs_Qle_condition in H. destruct H as [H1 H2].
  assert (Es : (this (rounding_slack x)
                == Qabs (this x + 180) * pow2 (-53) + pow2 (-44))%Q).
  { unfold rounding_slack, Q2Qc; cbn [this]. rewrite Qred_correct.
    assert (E : (this (x + Z2Qc 180)%Qc == this x + 180)%Q).
    { rewrite this_plus, this_Z2Qc. reflexivity. }
    now rewrite (Qabs_wd _ _ E). }
  assert (Et : (this (x - Z2Qc 360 * Z2Qc turns)%Qc == this x - 360 * inject_Z turns)%Q).
  { rewrite this_minus, this_mult, !this_Z2Qc. reflexivity. }
  unfold near, Qcle. rewrite this_minus, this_plus, Et, Es. split; Lqa.lra.
Qed.

(** What [corrlong] returns on a field with a longitude axis. *)
Lemma corrlong_axis : forall (V : Type) (array : DataArray V) d xs,
  x_axis array = Some (d, xs) ->
  let order := lexsort (map wrap_longitude xs) in
  exists r,
    corrlong array = Some r /\
    x_axis r = Some (d, map (fun p => wrap_longitude (nth p xs 0%Qc)) order) /\
    Permutation order (seq 0 (List.length xs)) /\
    forall i, values r i = values array (upd i d (nth (i d) order (i d))).
Proof.
  intros V array d xs Hx order.
  destruct (x_axis_inv _ _ _ _ Hx) as (c & f & n & Hg & Hcd & Hcv & Hn & Hxs).
  set (ln := long_name_of array) in *.
  set (c' := mkCoord (cdims c) (CNum (fun i => wrap_longitude (f i)))).
  set (a1 := set_coord ln c' array).
  set (r := isel_order d order a1).
  assert (Hlen : List.length xs = n) by (subst xs; now rewrite length_map, length_seq).
  assert (Hks : map (fun k => wrap_longitude (f (upd origin d k))) (seq 0 n)
                = map wrap_longitude xs) by (subst xs; now rewrite map_map).
  assert (Hcorr : corrlong array = Some r).
  { unfold corrlong. fold (long_name_of array). fold ln. rewrite Hg. unfold map_num.
    rewrite Hcv. simpl. fold c'. fold a1. unfold sortby, getitem. simpl.
    rewrite lookup_assign_same. simpl. rewrite Hcd.
    unfold size in *. simpl. rewrite Hn. simpl. rewrite Hks. reflexivity. }
  assert (Hord : List.length order = n).
  { unfold order. now rewrite lexsort_length, length_map. }
  exists r. split; [exact Hcorr |].
  split.
  { unfold x_axis, coordinate. unfold name_in. simpl. fold (name_in array ["u"; "v"]).
    fold (long_name_of array). fold ln. unfold getitem. simpl.
    rewrite (lookup_map_snd _ _ (take_coord d order)), lookup_assign_same. simpl.
    unfold take_coord. simpl. rewrite Hcd. simpl. rewrite String.eqb_refl. simpl.
    unfold size. simpl. rewrite (size_resized d _ _ n) by exact Hn. simpl.
    do 2 f_equal. rewrite Hord.
    transitivity (map (fun p => wrap_longitude (nth p xs 0%Qc))
                      (map (fun k => nth k order k) (seq 0 (List.length order))));
      [| now rewrite map_nth_order].
    rewrite Hord, map_map.
    apply map_ext_in. intros k Hk. unfold along. rewrite upd_same, upd_upd.
    f_equal. subst xs.
    apply in_seq in Hk.
    assert (Hp : nth k order k < n).
    { assert (Hin : In (nth k order k) order) by (apply nth_In; lia).
      eapply Permutation_in in Hin; [| apply lexsort_perm].
      rewrite length_map, length_map, length_seq in Hin. apply in_seq in Hin. lia. }
    rewrite (nth_indep _ 0%Qc (f (upd origin d 0))) by now rewrite length_map, length_seq.
    rewrite (map_nth (fun k => f (upd origin d k))). now rewrite seq_nth. }
  split.
  { unfold order. rewrite <- (length_map wrap_longitude xs). apply lexsort_perm. }
  intro i. reflexivity.
Qed.

(** X6: [corrlong] moves no data: column j of the result is a column of
    the input, taken once, and its longitude is the longitude x it had
    shifted by a whole number of turns of 360 degrees, up to the rounding
    of float64: at most |x + 180| 2^-53 + 2^-44 degrees away from it. *)
Theorem corrlong_shifts_longitudes_by_whole_turns :
  forall (V : Type) (array : DataArray V) (d : string) (xs : list Qc),
    x_axis array = Some (d, xs) ->
    exists r xs' order,
      corrlong array = Some r /\
      x_axis r = Some (d, xs') /\
      Permutation order (seq 0 (List.length xs)) /\
      List.length xs' = List.length xs /\
      forall j, j < List.length xs ->
        let p := nth j order j in
        p < List.length xs /\
        (exists turns : Z,
           near (rounding_slack (nth p xs 0%Qc)) (nth j xs' 0%Qc)
                (nth p xs 0%Qc - Z2Qc 360 * Z2Qc turns)%Qc) /\
        forall i, i d = j -> values r i = values array (upd i d p).
Proof.
  intros V array d xs Hx.
  destruct (corrlong_axis V array d xs Hx) as (r & Hr & Hax & Hperm & Hval).
  set (order := lexsort (map wrap_longitude xs)) in *.
  assert (Hord : List.length order = List.length xs).
  { rewrite (Permutation_length Hperm). apply length_seq. }
  exists r, (map (fun p => wrap_longitude (nth p xs 0%Qc)) order), order.
  split; [exact Hr |]. split; [exact Hax |]. split; [exact Hperm |].
  split; [now rewrite length_map |].
  intros j Hj p.
  assert (Hp : p < List.length xs).
  { assert (Hin : In p order) by (apply nth_In; lia).
    eapply Permutation_in in Hin; [| exact Hperm]. apply in_seq in Hin. lia. }
  split; [exact Hp |]. split.
  - destruct (wrap_longitude_near (nth p xs 0%Qc)) as [turns Ht].
    exists turns.
    assert (E : nth j (map (fun p => wrap_longitude (nth p xs 0%Qc)) order) 0%Qc
                = wrap_longitude (nth p xs 0%Qc)).
    { rewrite (nth_indep _ 0%Qc ((fun p => wrap_longitude (nth p xs 0%Qc)) j))
        by (rewrite length_map; lia).
      now rewrite (map_nth (fun p => wrap_longitude (nth p xs 0%Qc))). }
    rewrite E. exact Ht.
  - intros i Hi. rewrite Hval, Hi. reflexivity.
Qed.

Lemma corrlong_shifts_sample_by_whole_turns :
  exists r xs',
    corrlong sample_lon = Some r /\
    x_axis r = Some ("xt_ocean", xs') /\
    List.length xs' = 4 /\
    exists p turns,
      p < 4 /\
      near (rounding_slack (nth p (map Z2Qc [0; 90; 180; 270]%Z) 0%Qc))
           (nth 0 xs' 0%Qc)
           (nth p (map Z2Qc [0; 90; 180; 270]%Z) 0%Qc - Z2Qc 360 * Z2Qc turns)%Qc.
Proof.
  destruct (corrlong_shifts_longitudes_by_whole_turns
              f64 sample_lon "xt_ocean" (map Z2Qc [0; 90; 180; 270]%Z) eq_refl)
    as (r & xs' & order & H1 & H2 & _ & H4 & H5).
  exists r, xs'. split; [exact H1 |]. split; [exact H2 |]. split; [exact H4 |].
  destruct (H5 0) as (Hp & [turns Ht] & _); [simpl; lia |].
  exists (nth 0 order 0), turns. split; [exact Hp | exact Ht].
Defined.

(** X7: [corrlong] returns only on a field that has a one-dimensional
    numeric longitude coordinate (xu_ocean when the field is named u or
    v, xt_ocean otherwise), or at least an axis of that name; the
    result has the name, the axes names and the attributes of the
    input. *)
Theorem corrlong_needs_a_longitude_axis :
  forall (V : Type) (array r : DataArray V),
    corrlong array = Some r ->
    (exists d xs, x_axis array = Some (d, xs) /\ size r d = Some (List.length xs)) /\
    name r = name array /\
    dim_names r = dim_names array /\
    attrs r = attrs array.
Proof.
  intros V array r H. unfold corrlong in H. fold (long_name_of array) in H.
  set (ln := long_name_of array) in *.
  destruct (getitem array ln) as [c |] eqn:Hg; [| discriminate H].
  unfold map_num in H. destruct (cvals c) as [g | g | g] eqn:Hcv; try discriminate H.
  unfold sortby, getitem in H. cbn [coords set_coord] in H.
  rewrite lookup_assign_same in H. cbn [cdims] in H.
  destruct (cdims c) as [| d [| ? ?]] eqn:Hcd; try discriminate H.
  unfold size in H. cbn [dims set_coord] in H.
  destruct (lookup d (dims array)) as [n |] eqn:Hn; [| discriminate H].
  cbn [cvals num_vector] in H. injection H as <-.
  split.
  - exists d, (map (fun k => g (upd origin d k)) (seq 0 n)). split.
    + unfold x_axis, coordinate. fold (long_name_of array). fold ln.
      rewrite Hg. cbn [bind]. rewrite Hcd. unfold size. rewrite Hn. cbn [bind].
      rewrite Hcv. reflexivity.
    + unfold size, isel_order. cbn [dims].
      rewrite (size_resized d _ _ n Hn). f_equal.
      now rewrite lexsort_length, !length_map, length_seq.
  - split; [reflexivity |]. split; [| reflexivity].
    unfold dim_names, isel_order. cbn [dims]. rewrite map_map.
    apply map_ext_in. intros [k v] _. cbn [fst].
    destruct (String.eqb_spec k d); [now subst | reflexivity].
Qed.

Lemma corrlong_needs_a_longitude_axis_on_sample :
  exists r d xs,
    corrlong sample_lon = Some r /\
    x_axis sample_lon = Some (d, xs) /\
    dim_names r = ["xt_ocean"].
Proof.
  destruct (corrlong_axis f64 sample_lon "xt_ocean" (map Z2Qc [0; 90; 180; 270]%Z) eq_refl)
    as (r & Hr & _).
  destruct (corrlong_needs_a_longitude_axis f64 sample_lon r Hr)
    as ((d & xs & Hx & _) & _ & Hd & _).
  exists r, d, xs. split; [exact Hr |]. split; [exact Hx | exact Hd].
Defined.

(** [corrlong] keeps the name, the axes and the attributes of a field. *)
Lemma corrlong_shape : forall (V : Type) (array r : DataArray V),
  corrlong array = Some r ->
  name r = name array /\ dim_names r = dim_names array /\ attrs r = attrs array.
Proof.
  intros V array r H. unfold corrlong in H. fold (long_name_of array) in H.
  set (ln := long_name_of array) in *.
  destruct (getitem array ln) as [c |] eqn:Hg; [| discriminate H].
  unfold map_num in H. destruct (cvals c) as [g | g | g] eqn:Hcv; try discriminate H.
  unfold sortby, getitem in H. cbn [coords set_coord] in H.
  rewrite lookup_assign_same in H. cbn [cdims] in H.
  destruct (cdims c) as [| d [| ? ?]] eqn:Hcd; try discriminate H.
  unfold size in H. cbn [dims set_coord] in H.
  destruct (lookup d (dims array)) as [n |] eqn:Hn; [| discriminate H].
  cbn [cvals num_vector] in H. injection H as <-.
  split; [reflexivity |]. split; [| reflexivity].
  unfold dim_names, isel_order. cbn [dims]. rewrite map_map.
  apply map_ext_in. intros [k v] _. cbn [fst].
  destruct (String.eqb_spec k d); [now subst | reflexivity].
Qed.

(** X25: [corrlong] applied to a field it returned changes nothing, as
    long as none of the returned longitudes is 180: the second call
    returns the same longitudes in the same order over the same data,
    under the same name, axes and attributes. *)
Theorem corrlong_twice_is_corrlong_once :
  forall (V : Type) (array : DataArray V) (d : string) (xs : list Qc),
    x_axis array = Some (d, xs) ->
    (forall x, In x xs -> wrap_longitude x <> Z2Qc 180) ->
    exists r r' xs',
      corrlong array = Some r /\
      x_axis r = Some (d, xs') /\
      corrlong r = Some r' /\
      x_axis r' = Some (d, xs') /\
      (forall i, values r' i = values r i) /\
      name r' = name r /\
      dim_names r' = dim_names r /\
      attrs r' = attrs r.
Proof.
  intros V array d xs Hx Hne.
  destruct (corrlong_axis V array d xs Hx) as (r & Hr & Hax & Hperm & _).
  set (order := lexsort (map wrap_longitude xs)) in *.
  set (xs' := map (fun p => wrap_longitude (nth p xs 0%Qc)) order) in *.
  assert (Hfix : map wrap_longitude xs' = xs').
  { unfold xs'. rewrite map_map. apply map_ext_in. intros p Hp.
    apply wrap_longitude_idempotent. apply Hne. apply nth_In.
    eapply Permutation_in in Hp; [| exact Hperm]. apply in_seq in Hp. lia. }
  assert (Hsorted : Sorted Qcle xs').
  { assert (E : xs' = map (fun p => nth p (map wrap_longitude xs) 0%Qc) order).
    { apply map_ext. intro p. rewrite <- wrap_longitude_zero at 2. symmetry. apply map_nth. }
    rewrite E. apply lexsort_sorted. }
  destruct (corrlong_axis V r d xs' Hax) as (r' & Hr' & Hax' & _ & Hval').
  rewrite Hfix, (lexsort_fixed _ Hsorted) in Hax', Hval'.
  destruct (corrlong_shape V r r' Hr') as (Hn & Hd & Ha).
  exists r, r', xs'. split; [exact Hr |]. split; [exact Hax |]. split; [exact Hr' |].
  split.
  { rewrite Hax'. do 2 f_equal.
    rewrite <- Hfix at 2. rewrite <- (map_nth_self _ xs' 0%Qc) at 2.
    now rewrite map_map. }
  split.
  { intro i. rewrite Hval', nth_seq_id. now rewrite upd_id. }
  split; [exact Hn |]. split; [exact Hd | exact Ha].
Qed.

Lemma corrlong_twice_on_sample :
  exists r r' xs',
    corrlong (sample_meridian tenth) = Some r /\
    x_axis r = Some ("xt_ocean", xs') /\
    corrlong r = Some r' /\
    x_axis r' = Some ("xt_ocean", xs') /\
    forall i, values r' i = values r i.
Proof.
  destruct (corrlong_twice_is_corrlong_once
              f64 (sample_meridian tenth) "xt_ocean" [tenth] eq_refl)
    as (r & r' & xs' & H1 & H2 & H3 & H4 & H5 & _).
  - intros x [<- | []] H. apply (f_equal this) in H. vm_compute in H. discriminate H.
  - exists r, r', xs'. repeat split; assumption.
Defined.

(** ** extract_bottom_layer: the mask of the first record *)

(** X8: the bottom level is chosen on the first record alone.  At every
    record the output holds the input at the level that is the deepest
    valid one of the first record, and 0 where the input is missing at
    that level. *)
Theorem extract_bottom_layer_masks_by_first_record :
  forall (da : DataArray f64) (nt nd ny nx : nat),
    Permutation (dims da)
      [("time", nt); ("st_ocean", nd); ("yt_ocean", ny); ("xt_ocean", nx)] ->
    0 < nt -> 0 < nd ->
    exists out,
      extract_bottom_layer da = Some out /\
      forall i k,
        deepest_valid (column da (upd i "time" 0)) nd k ->
        (forall q, column da i k = Num q -> values out i = Num q) /\
        (column da i k = NaN -> values out i = Num 0%Qc).
Proof.
  intros da nt nd ny nx Hp Hnt Hnd.
  destruct (extract_bottom_layer_cells da nt nd ny nx Hp Hnt Hnd)
    as (out & Hout & _ & Hval).
  exists out. split; [exact Hout |].
  intros i k Hk.
  assert (E : values out i = Num (nan_to_zero (column da i k))).
  { rewrite Hval. f_equal. now apply column_sum_deepest. }
  split; [intros q Hq | intro Hq]; rewrite E, Hq; reflexivity.
Qed.

Lemma extract_bottom_layer_on_changing_sample :
  exists out,
    extract_bottom_layer sample_changing = Some out /\
    column sample_changing (upd origin "time" 1) 0 = Num (Z2Qc 11) /\
    values out origin = Num (Z2Qc 2) /\
    values out (upd origin "time" 1) = Num 0%Qc.
Proof.
  destruct (extract_bottom_layer_masks_by_first_record
              sample_changing 2 2 1 1 (Permutation_refl _)) as (out & H1 & H2); try lia.
  exists out. split; [exact H1 |]. split; [reflexivity |].
  assert (D : forall i, deepest_valid (column sample_changing (upd i "time" 0)) 2 1).
  { intro i. split; [lia |]. split; [reflexivity |]. intros k' Hlo Hhi. lia. }
  split.
  - destruct (H2 origin 1 (D origin)) as [E _]. apply E. reflexivity.
  - destruct (H2 (upd origin "time" 1) 1 (D _)) as [_ E]. apply E. reflexivity.
Defined.

Lemma extract_bottom_layer_inv : forall (da out : DataArray f64),
  NoDup (dim_names da) ->
  extract_bottom_layer da = Some out ->
  exists nt nd summed,
    size da "time" = Some nt /\ 0 < nt /\
    size da "st_ocean" = Some nd /\ 0 < nd /\
    dims summed
    = (remove_key "st_ocean" (remove_key "time" (dims da)) ++ [("time", nt)])%list /\
    transpose ["time"; "yt_ocean"; "xt_ocean"] summed = Some out.
Proof.
  intros da out Hnodup H. unfold dim_names in Hnodup.
  set (ds := dims da) in *.
  unfold extract_bottom_layer in H.
  destruct (size da "time") as [nt |] eqn:St;
    [| unfold isel in H; rewrite St in H; discriminate H].
  destruct (Nat.eq_dec nt 0) as [-> | Hnt0];
    [unfold isel in H; rewrite St in H; discriminate H |].
  assert (Hnt : 0 < nt) by lia.
  rewrite (isel_spec _ "time" 0 da nt St Hnt) in H. cbn [bind] in H.
  set (ds1 := remove_key "time" ds) in *.
  assert (Hnodup1 : NoDup (map fst ds1)) by now apply remove_key_NoDup.
  set (first := mkDA _ _ _ _ _) in H.
  set (valid := map_values _ first) in H.
  set (mask := xr_where valid _ _) in H.
  destruct (lookup "st_ocean" ds1) as [nd |] eqn:Sd1;
    [| unfold da_cumsum, size in H; cbn [dims mask xr_where valid map_values first] in H;
       fold ds ds1 in H; rewrite Sd1 in H; discriminate H].
  assert (Sm0 : size mask "st_ocean" = Some nd) by exact Sd1.
  rewrite (da_cumsum_spec "st_ocean" mask nd Sm0) in H. cbn [bind] in H.
  set (running := mkDA _ _ _ _ _) in H.
  rewrite (binop_spec _ _ _ _ running valid ds1) in H
    by (apply merge_dims_sub; auto).
  cbn [bind] in H. set (mask2 := mkDA _ _ _ _ _) in H.
  destruct (Nat.eq_dec nd 0) as [-> | Hnd0];
    [unfold da_max in H; replace (size mask2 "st_ocean") with (Some 0) in H;
     discriminate H |].
  assert (Hnd : 0 < nd) by lia.
  rewrite (da_max_spec "st_ocean" mask2 nd Sd1 Hnd) in H. cbn [bind] in H.
  set (deepest := mkDA _ _ _ _ _) in H.
  rewrite (binop_spec _ _ _ _ mask2 deepest ds1) in H
    by (apply merge_dims_sub; [assumption |];
        intros e He; apply remove_key_In in He; tauto).
  cbn [bind] in H. set (hit := mkDA _ _ _ _ _) in H.
  set (mask3 := xr_where hit _ _) in H.
  rewrite (binop_spec _ _ _ _ mask3 da (ds1 ++ [("time", nt)])%list) in H
    by (apply merge_dims_restore; assumption).
  cbn [bind] in H. set (masked := mkDA _ _ _ _ _) in H.
  assert (Sm : size masked "st_ocean" = Some nd).
  { unfold size, masked. cbn [dims]. rewrite lookup_app, Sd1. reflexivity. }
  rewrite (da_sum_spec "st_ocean" masked nd Sm) in H. cbn [bind] in H.
  set (summed := mkDA _ _ _ _ _) in H.
  exists nt, nd, summed. repeat split; auto.
  - unfold size. fold ds. unfold ds1 in Sd1.
    now rewrite lookup_remove_key in Sd1 by discriminate.
  - unfold summed, masked. cbn [dims]. now rewrite remove_key_app.
Qed.

(** X9: [extract_bottom_layer] returns only on a field whose axes are
    time, st_ocean, yt_ocean and xt_ocean, the first two not empty; the
    output then has the axes time, yt_ocean, xt_ocean, in that order. *)
Theorem extract_bottom_layer_needs_the_four_axes :
  forall (da out : DataArray f64),
    NoDup (dim_names da) ->
    extract_bottom_layer da = Some out ->
    Permutation (dim_names da) ["time"; "st_ocean"; "yt_ocean"; "xt_ocean"] /\
    (exists nt, size da "time" = Some nt /\ 0 < nt) /\
    (exists nd, size da "st_ocean" = Some nd /\ 0 < nd) /\
    dim_names out = ["time"; "yt_ocean"; "xt_ocean"].
Proof.
  intros da out Hnodup H.
  destruct (extract_bottom_layer_inv da out Hnodup H)
    as (nt & nd & summed & St & Hnt & Sd & Hnd & Hds & Ht).
  unfold transpose in Ht. apply bind_Some in Ht. destruct Ht as (u & Hg & Ho).
  apply guard_Some in Hg. injection Ho as <-.
  apply andb_true_iff in Hg. destruct Hg as [Hg H3].
  apply andb_true_iff in Hg. destruct Hg as [H1 H2].
  apply Nat.eqb_eq in H1. rewrite Hds in H1.
  unfold dim_names in *.
  assert (It : In "time" (map fst (dims da))) by (eapply lookup_names; exact St).
  assert (Is : In "st_ocean" (map fst (dims da))) by (eapply lookup_names; exact Sd).
  assert (Is1 : In "st_ocean" (map fst (remove_key "time" (dims da)))).
  { apply remove_key_names. split; [assumption | discriminate]. }
  assert (L : List.length (dims da) = 4).
  { rewrite length_app in H1. simpl in H1.
    pose proof (remove_key_length _ "time" (dims da) Hnodup It) as L1.
    pose proof (remove_key_length _ "st_ocean" (remove_key "time" (dims da))
                  (remove_key_NoDup _ "time" _ Hnodup) Is1) as L2.
    lia. }
  assert (Hin : forall d, In d ["yt_ocean"; "xt_ocean"] -> In d (map fst (dims da))).
  { intros d Hd. rewrite forallb_forall in H3.
    assert (M : mem d (map fst (dims summed)) = true)
      by (apply H3; simpl in Hd; simpl; tauto).
    apply mem_In in M. rewrite Hds, map_app in M. apply in_app_or in M.
    destruct M as [M | M].
    - apply remove_key_names in M. destruct M as [M _].
      apply remove_key_names in M. tauto.
    - simpl in M. destruct M as [<- | []]. assumption. }
  repeat split.
  - apply Permutation_sym. apply NoDup_Permutation_bis.
    + repeat constructor; simpl; intuition discriminate.
    + rewrite length_map, L. simpl. lia.
    + intros d Hd. simpl in Hd.
      destruct Hd as [<- | [<- | Hd]]; [assumption | assumption | apply Hin; exact Hd].
  - eauto.
  - eauto.
Qed.

Lemma extract_bottom_layer_needs_the_four_axes_on_sample :
  exists out,
    extract_bottom_layer sample_depths = Some out /\
    Permutation (dim_names sample_depths) ["time"; "st_ocean"; "yt_ocean"; "xt_ocean"] /\
    dim_names out = ["time"; "yt_ocean"; "xt_ocean"].
Proof.
  destruct (extract_bottom_layer_cells sample_depths 2 4 1 2 (Permutation_refl _))
    as (out & Hout & _); try lia.
  exists out. split; [exact Hout |].
  destruct (extract_bottom_layer_needs_the_four_axes sample_depths out) as (P & _ & _ & D).
  - repeat constructor; simpl; intuition discriminate.
  - exact Hout.
  - split; [exact P | exact D].
Defined.

(** ** nn_dist: bounds, failures and effects *)

Lemma haversine_le_PI : forall p q, (haversine p q <= PI)%R.
Proof.
  intros p q. unfold haversine.
  pose proof (asin_bound (sqrt ((sin ((fst p - fst q) / 2))² +
                  cos (fst p) * cos (fst q) * (sin ((snd p - snd q) / 2))²))) as [_ H].
  Lra.lra.
Qed.

(** Each cell of the distance field holds the distance to some point of
    the edge curve. *)
Lemma distance_field_cells :
  forall b (target_da : DataArray f64) grid ny nx ys xs tc,
    dims target_da = [("yt_ocean", ny); ("xt_ocean", nx)] ->
    index_of target_da "yt_ocean" = Some ys ->
    index_of target_da "xt_ocean" = Some xs ->
    (forall j, j < nx -> has_data (ycolumn target_da j) ny) ->
    lookup "time" (coords target_da) = Some tc -> cdims tc = [] ->
    List.length grid = ny * nx -> 0 < ny * nx ->
    exists out,
      distance_field b target_da grid = Some out /\
      lookup "time" (coords out)
        = Some (mkCoord ["time"] (cdata_at (fun _ => origin) (cvals tc))) /\
      forall i,
        i "yt_ocean" < ny -> i "xt_ocean" < nx ->
        exists p,
          values out i
          = (haversine (nth (i "yt_ocean" * nx + i "xt_ocean") grid (0%R, 0%R)) p
             * 6371)%R.
Proof.
  intros b da grid ny nx ys xs tc Hd Hys Hxs Hb Ht Htd Hlen Hpos.
  destruct (distance_field_spec b da grid ny nx ys xs tc Hd Hys Hxs Hb Ht Htd Hlen Hpos)
    as (out & Hout & _ & _ & _ & Htime & _ & _ & Hval).
  exists out. split; [exact Hout |]. split; [exact Htime |].
  intros i Hi Hj.
  set (cell := nth (i "yt_ocean" * nx + i "xt_ocean") grid (0%R, 0%R)).
  assert (Hidx : i "yt_ocean" * nx + i "xt_ocean" < List.length grid) by nia.
  assert (Hpts : map radians (edge_points da ny nx ys xs) <> []).
  { intro E. apply (f_equal (@List.length _)) in E.
    rewrite length_map in E.
    rewrite (edge_points_length da ny nx ys xs) in E.
    - simpl in E. lia.
    - apply (index_of_length _ da "xt_ocean"); [| exact Hxs].
      unfold size. now rewrite Hd. }
  destruct (nearest_spec _ cell Hpts) as (q & r & Er & _ & Hr & _).
  exists q. rewrite Hval.
  rewrite (nth_indep _ 0%R
             ((fun x => (default 0 (nearest (map radians (edge_points da ny nx ys xs)) x)
                         * earth_radius_km)%R) (0%R, 0%R)))
    by (now rewrite length_map).
  rewrite (map_nth (fun x => (default 0 (nearest (map radians (edge_points da ny nx ys xs)) x)
                              * earth_radius_km)%R)).
  fold cell. rewrite Er. simpl. rewrite Hr. reflexivity.
Qed.

(** X10: for a reference field over (yt_ocean, xt_ocean) whose columns
    all hold data, with a scalar time, and a target grid of one pair per
    cell, every distance of the field [nn_dist] returns lies between 0
    and half the circumference of a sphere of radius 6371 km, whatever
    the target coordinates are. *)
Theorem nn_dist_distances_within_half_circumference :
  forall (b : backend) (target_da : DataArray f64) (grid_coords_numpy : list (R * R))
         (ny nx : nat) (ys xs : list Qc) (tc : Coord),
    dims target_da = [("yt_ocean", ny); ("xt_ocean", nx)] ->
    index_of target_da "yt_ocean" = Some ys ->
    index_of target_da "xt_ocean" = Some xs ->
    (forall j, j < nx -> has_data (ycolumn target_da j) ny) ->
    lookup "time" (coords target_da) = Some tc -> cdims tc = [] ->
    List.length grid_coords_numpy = ny * nx -> 0 < ny * nx ->
    exists out,
      nn_dist b target_da grid_coords_numpy [] = ([], Some out) /\
      forall i,
        i "yt_ocean" < ny -> i "xt_ocean" < nx ->
        (0 <= values out i <= PI * 6371)%R.
Proof.
  intros b da grid ny nx ys xs tc Hd Hys Hxs Hb Ht Htd Hlen Hpos.
  destruct (distance_field_cells b da grid ny nx ys xs tc Hd Hys Hxs Hb Ht Htd Hlen Hpos)
    as (out & Hout & _ & Hval).
  exists out. split; [unfold nn_dist; now rewrite Hout |].
  intros i Hi Hj. destruct (Hval i Hi Hj) as [p ->].
  pose proof (haversine_nonneg
                (nth (i "yt_ocean" * nx + i "xt_ocean") grid (0%R, 0%R)) p).
  pose proof (haversine_le_PI
                (nth (i "yt_ocean" * nx + i "xt_ocean") grid (0%R, 0%R)) p).
  split; Lra.nra.
Qed.

Lemma nn_dist_distances_on_sample :
  exists out,
    nn_dist Numpy sample_ref sample_grid [] = ([], Some out) /\
    (0 <= values out origin <= PI * 6371)%R.
Proof.
  destruct (nn_dist_distances_within_half_circumference
              Numpy sample_ref sample_grid 3 2
              (map Z2Qc [-70; -60; -50]%Z) (map Z2Qc [10; 20]%Z)
              (mkCoord [] (CTime (fun _ => new_year_2010)))
              eq_refl eq_refl eq_refl sample_ref_has_data
              eq_refl eq_refl eq_refl)
    as (out & H1 & H2); [lia |].
  exists out. split; [exact H1 |]. apply H2; unfold origin; lia.
Defined.

Lemma query_length : forall points X l,
  query points X = Some l -> List.length l = List.length X.
Proof.
  intros points X l H.
  assert (G : forall X l,
            fold_right (fun x acc =>
                          match nearest points x, acc with
                          | Some r, Some l => Some (r :: l)
                          | _, _ => None
                          end) (Some []) X = Some l ->
            List.length l = List.length X).
  { clear. induction X as [| x t IH]; simpl; intros l H.
    - injection H as <-. reflexivity.
    - destruct (nearest points x); [| discriminate].
      destruct (fold_right _ _ t) as [l' |]; [| discriminate].
      injection H as <-. simpl. f_equal. now apply IH. }
  destruct X as [| x t]; [discriminate H |]. now apply G.
Qed.

(** X11: a target grid that does not hold one coordinate pair per cell of
    the reference field makes [nn_dist] fail, whatever the keyword
    arguments; no folder is created and nothing is written. *)
Theorem nn_dist_rejects_grid_of_other_size :
  forall (b : backend) (target_da : DataArray f64) (grid_coords_numpy : list (R * R))
         (kwargs : list (string * string)) (d0 d1 : string) (n0 n1 : nat),
    dims target_da = [(d0, n0); (d1, n1)] ->
    List.length grid_coords_numpy <> n0 * n1 ->
    nn_dist b target_da grid_coords_numpy kwargs = ([], None).
Proof.
  intros b da grid kwargs d0 d1 n0 n1 Hd Hlen.
  assert (E : distance_field b da grid = None).
  { unfold distance_field.
    destruct (ice_coords b da) as [pts |]; [| reflexivity]. cbn [bind].
    destruct (query _ grid) as [dist |] eqn:Q; [| reflexivity]. cbn [bind].
    rewrite Hd. apply query_length in Q.
    destruct (Nat.eqb_spec (List.length dist) (n0 * n1)); [congruence | reflexivity]. }
  unfold nn_dist. now rewrite E.
Qed.

Lemma nn_dist_rejects_short_grid :
  nn_dist Numpy sample_ref [(0%R, 0%R)] [("folder_out", "out"); ("file_base", "dist")]
  = ([], None).
Proof.
  apply (nn_dist_rejects_grid_of_other_size
           Numpy sample_ref [(0%R, 0%R)] _ "yt_ocean" "xt_ocean" 3 2 eq_refl).
  simpl. lia.
Defined.

Lemma nanargmax_none : forall f n,
  (forall k, k < n -> f k = NaN) -> nanargmax f n = None.
Proof.
  intros f n H. unfold nanargmax.
  pose proof (nanargmax_scanned f n) as S.
  destruct (fold_left (argmax_step f) (seq 0 n) None) as [[kb m] |]; [| reflexivity].
  destruct S as (Hk & Hv & _). rewrite (H kb Hk) in Hv. discriminate.
Qed.

(** X12: with data held by numpy, a reference field with a column that
    holds no data at all makes [nn_dist] fail (the search for the
    maximum raises on it); nothing is written. *)
Theorem nn_dist_numpy_rejects_column_without_data :
  forall (target_da : DataArray f64) (grid_coords_numpy : list (R * R))
         (kwargs : list (string * string)) (ny nx j : nat),
    dims target_da = [("yt_ocean", ny); ("xt_ocean", nx)] ->
    j < nx ->
    (forall k, k < ny -> isnan (ycolumn target_da j k) = true) ->
    nn_dist Numpy target_da grid_coords_numpy kwargs = ([], None).
Proof.
  intros da grid kwargs ny nx j Hd Hj Hnan.
  assert (A : da_argmax Numpy "yt_ocean" da = None).
  { unfold da_argmax, size. rewrite Hd. cbn [lookup String.eqb Ascii.eqb Bool.eqb bind].
    destruct (0 <? ny); [| reflexivity]. cbn [guard bind].
    assert (F : forallb (fun i => is_some (nanargmax
                                  (fun k => values da (upd i "yt_ocean" k)) ny))
                        (positions (remove_key "yt_ocean"
                                      [("yt_ocean", ny); ("xt_ocean", nx)])) = false).
    { apply not_true_iff_false. intro F. rewrite forallb_forall in F.
      specialize (F (upd origin "xt_ocean" j)).
      rewrite nanargmax_none in F.
      - discriminate F. cbn. rewrite app_nil_r. apply in_map. apply in_seq. lia.
      - intros k Hk. specialize (Hnan k Hk). unfold ycolumn in Hnan.
        now destruct (values da (upd (upd origin "xt_ocean" j) "yt_ocean" k)). }
    rewrite F. reflexivity. }
  assert (E : distance_field Numpy da grid = None).
  { unfold distance_field, ice_coords. rewrite Hd, A. reflexivity. }
  unfold nn_dist. now rewrite E.
Qed.

Lemma nn_dist_numpy_rejects_land_column :
  nn_dist Numpy sample_ref_land
          (map radians [(Z2Qc (-70), Z2Qc 10); (Z2Qc (-70), Z2Qc 20);
                        (Z2Qc (-60), Z2Qc 10); (Z2Qc (-60), Z2Qc 20)])
          [("folder_out", "out")]
  = ([], None).
Proof.
  apply (nn_dist_numpy_rejects_column_without_data sample_ref_land _ _ 2 2 1 eq_refl).
  - lia.
  - intros k _. reflexivity.
Defined.

(** X13: [nn_dist] never issues a warning.  Without folder_out it touches
    nothing, a file_base given alone being ignored; without file_base it
    writes no file. *)
Theorem nn_dist_never_warns :
  forall (b : backend) (target_da : DataArray f64) (grid_coords_numpy : list (R * R))
         (kwargs : list (string * string)),
    (forall message,
        ~ In (Warning message) (fst (nn_dist b target_da grid_coords_numpy kwargs))) /\
    (lookup "folder_out" kwargs = None ->
     fst (nn_dist b target_da grid_coords_numpy kwargs) = []) /\
    (lookup "file_base" kwargs = None ->
     forall path field,
       ~ In (ToNetcdf path field) (fst (nn_dist b target_da grid_coords_numpy kwargs))).
Proof.
  intros b da grid kwargs. unfold nn_dist.
  destruct (distance_field b da grid) as [out |];
    [| repeat split; [intros ? [] | intros _ ? ? []]].
  destruct (lookup "folder_out" kwargs) as [folder |];
    [| repeat split; [intros ? [] | intros _ ? ? []]].
  destruct (lookup "file_base" kwargs) as [base |].
  - destruct (option_map cvals (lookup "time" (coords out))) as [[t | g | g] |];
      cbn [fst]; (split; [| split]); try discriminate;
      intros message; simpl; intuition discriminate.
  - cbn [fst]. split; [| split]; try discriminate.
    + intros message. simpl. intuition discriminate.
    + intros _ path field. simpl. intuition discriminate.
Qed.

(** ** nn_dist: the name of the file *)

Lemma year_month_month : forall days, (1 <= snd (year_month days) <= 12)%Z.
Proof.
  intro days. unfold year_month. cbn [snd].
  set (z := (days + 719468)%Z).
  set (era := (z / 146097)%Z).
  set (doe := (z - era * 146097)%Z).
  assert (Hdoe : (0 <= doe < 146097)%Z).
  { unfold doe, era. pose proof (Z.mod_pos_bound z 146097 ltac:(lia)) as H.
    rewrite Z.mod_eq in H by lia. lia. }
  clearbody doe. clear z era.
  set (yoe := ((doe - doe / 1460 + doe / 36524 - doe / 146096) / 365)%Z).
  set (doy := (doe - (365 * yoe + yoe / 4 - yoe / 100))%Z).
  assert (Hdoy : (0 <= doy <= 365)%Z).
  { unfold doy, yoe. Z.to_euclidean_division_equations; lia. }
  clearbody doy.
  assert (Hmp : (0 <= (5 * doy + 2) / 153 <= 11)%Z).
  { split; [apply Z.div_pos; lia |]. apply Z.lt_succ_r. apply Z.div_lt_upper_bound; lia. }
  destruct ((5 * doy + 2) / 153 <? 10)%Z eqn:E;
    [apply Z.ltb_lt in E | apply Z.ltb_ge in E]; lia.
Qed.

Lemma zfill_month : forall m,
  (1 <= m <= 12)%Z ->
  In (zfill 2 (str m))
     ["01"; "02"; "03"; "04"; "05"; "06"; "07"; "08"; "09"; "10"; "11"; "12"].
Proof.
  intros m Hm.
  assert (E : In m [1; 2; 3; 4; 5; 6; 7; 8; 9; 10; 11; 12]%Z) by (simpl; lia).
  simpl in E.
  repeat (destruct E as [<- | E]; [cbv; tauto |]). contradiction.
Qed.

Lemma path_join_absolute : forall a b rest,
  String.prefix "/" b = true -> path_join a (b ++ rest) = b ++ rest.
Proof.
  intros a b rest H. unfold path_join.
  destruct b as [| c b']; [discriminate H |].
  assert (E : String.prefix "/" (String c b' ++ rest) = true).
  { cbn [String.prefix append] in *.
    destruct (Ascii.ascii_dec "/" c); [| discriminate H].
    now destruct (b' ++ rest). }
  now rewrite E.
Qed.



(** ** df_ready *)

Lemma filter_set_model : forall c s rows,
  filter (on_cell c) (set_model s rows) = set_model s (filter (on_cell c) rows).
Proof.
  intros c s rows. unfold set_model. induction rows as [| r t IH]; [reflexivity |].
  cbn [map filter].
  change (on_cell c (mkRow (yt_ocean r) (xt_ocean r) (pred r) (month r) (Some s)))
    with (on_cell c r).
  destruct (on_cell c r); cbn [map]; now rewrite IH.
Qed.

Lemma In_set_model : forall s rows r',
  In r' (set_model s rows) <->
  exists r, In r rows /\
            r' = mkRow (yt_ocean r) (xt_ocean r) (pred r) (month r) (Some s).
Proof.
  intros s rows r'. unfold set_model. rewrite in_map_iff.
  split; intros (r & H1 & H2); exists r; auto.
Qed.

(** [df_ready] on a file that can be read. *)
Lemma df_ready_spec : forall fs file_path model df_coords df,
  fs file_path = Some df -> readable df = true ->
  df_ready fs file_path model df_coords
  = Some (merge_left df_coords (set_model model (records df))).
Proof.
  intros fs path model coords df Hf Hr. unfold df_ready, read_csv. rewrite Hf. cbn [bind].
  unfold select_columns.
  assert (G : forallb (fun c => mem c (columns (set_model_column model df)))
                      ["yt_ocean"; "xt_ocean"; "pred"; "month"; "model"] = true).
  { unfold readable in Hr. rewrite forallb_forall in Hr. apply forallb_forall.
    intros c Hc. unfold set_model_column. cbn [columns].
    destruct (mem "model" (columns df)) eqn:M.
    - simpl in Hc. destruct Hc as [<- | [<- | [<- | [<- | [<- | []]]]]];
        try (apply Hr; simpl; tauto). exact M.
    - apply mem_In. apply in_or_app.
      simpl in Hc. destruct Hc as [<- | [<- | [<- | [<- | [<- | []]]]]];
        try (left; apply mem_In, Hr; simpl; tauto). right. now left. }
  rewrite G. reflexivity.
Qed.

Lemma df_ready_inv : forall fs file_path model df_coords out,
  df_ready fs file_path model df_coords = Some out ->
  exists df, fs file_path = Some df /\ readable df = true.
Proof.
  intros fs path model coords out H. unfold df_ready, read_csv in H.
  apply bind_Some in H. destruct H as (df & Hf & H).
  apply bind_Some in H. destruct H as (sel & Hs & _).
  unfold select_columns in Hs. apply bind_Some in Hs. destruct Hs as (u & Hg & _).
  apply guard_Some in Hg. rewrite forallb_forall in Hg.
  exists df. split; [exact Hf |].
  unfold readable. apply forallb_forall. intros c Hc.
  assert (M : mem c (columns (set_model_column model df)) = true)
    by (apply Hg; simpl in Hc; simpl; tauto).
  apply mem_In in M. unfold set_model_column in M. cbn [columns] in M.
  apply mem_In.
  destruct (mem "model" (columns df)); [exact M |].
  apply in_app_or in M. destruct M as [M | [<- | []]]; [exact M |].
  simpl in Hc. intuition discriminate.
Qed.

(** X15: [df_ready] returns exactly when the file can be read and has
    the columns yt_ocean, xt_ocean, pred and month; a model column is
    not needed, and the other columns of the file are ignored. *)
Theorem df_ready_needs_the_four_columns :
  forall (fs : Files) (file_path model : string) (df_coords : list Cell),
    (exists out, df_ready fs file_path model df_coords = Some out) <->
    (exists df, fs file_path = Some df /\
                forall c, In c ["yt_ocean"; "xt_ocean"; "pred"; "month"] ->
                          In c (columns df)).
Proof.
  intros fs path model coords. split.
  - intros [out H]. destruct (df_ready_inv _ _ _ _ _ H) as (df & Hf & Hr).
    exists df. split; [exact Hf |]. intros c Hc. apply mem_In.
    unfold readable in Hr. rewrite forallb_forall in Hr. now apply Hr.
  - intros (df & Hf & Hc). eexists. apply (df_ready_spec _ _ _ _ df Hf).
    unfold readable. apply forallb_forall. intros c Hin. apply mem_In. now apply Hc.
Qed.

(** X16: the table [df_ready] returns is the target grid table joined
    from the left with the file: a row of it is a cell of the grid with
    a prediction the file holds for that cell, under the model name
    given (whatever the file's own model column says), or a cell the
    file holds no prediction for, with pred and model missing. *)
Theorem df_ready_joins_predictions_to_cells :
  forall (fs : Files) (file_path model : string) (df_coords : list Cell) (df : Csv)
         (out : DataFrame),
    fs file_path = Some df ->
    df_ready fs file_path model df_coords = Some out ->
    forall row,
      In row out <->
      exists c, In c df_coords /\
        ((exists r, In r (predictions df c) /\
                    row = mkRow (cell_y c) (cell_x c) (pred r) (cell_month c) (Some model)) \/
         (predictions df c = [] /\
          row = mkRow (cell_y c) (cell_x c) NaN (cell_month c) None)).
Proof.
  intros fs path name coords df out Hf H row.
  assert (Hr : readable df = true).
  { destruct (df_ready_inv _ _ _ _ _ H) as (df' & Hf' & Hr).
    assert (df' = df) by congruence. now subst df'. }
  rewrite (df_ready_spec _ _ _ _ df Hf Hr) in H. injection H as <-.
  unfold merge_left, predictions. rewrite in_flat_map.
  split.
  - intros (c & Hc & Hin). exists c. split; [exact Hc |].
    rewrite filter_set_model in Hin.
    destruct (filter (on_cell c) (records df)) as [| r0 t] eqn:E.
    + right. split; [reflexivity |]. destruct Hin as [<- | []]. reflexivity.
    + left. apply in_map_iff in Hin. destruct Hin as (r' & <- & Hr').
      apply (proj1 (In_set_model name (r0 :: t) r')) in Hr'.
      destruct Hr' as (r & Hin & ->).
      exists r. split; [exact Hin | reflexivity].
  - intros (c & Hc & [(r & Hin & ->) | (E & ->)]); exists c; (split; [exact Hc |]);
      rewrite filter_set_model.
    + destruct (filter (on_cell c) (records df)) as [| r0 t] eqn:E; [contradiction |].
      assert (M : In (mkRow (cell_y c) (cell_x c) (pred r) (cell_month c) (Some name))
                     (map (fun r => mkRow (cell_y c) (cell_x c) (pred r) (cell_month c)
                                          (model r))
                          (set_model name (r0 :: t)))).
      { apply in_map_iff.
        exists (mkRow (yt_ocean r) (xt_ocean r) (pred r) (month r) (Some name)).
        split; [reflexivity |]. apply In_set_model. exists r. auto. }
      exact M.
    + rewrite E. now left.
Qed.

Lemma df_ready_joins_sample :
  exists out,
    df_ready sample_files "gam.csv" "GAM" sample_cells = Some out /\
    In (mkRow (Num (Z2Qc (-60))) (Num (Z2Qc 20)) (Num (Z2Qc 2)) 1 (Some "GAM")) out /\
    In (mkRow (Num (Z2Qc (-60))) (Num (Z2Qc 10)) NaN 1 None) out.
Proof.
  eexists. split; [reflexivity |].
  pose proof (df_ready_joins_predictions_to_cells
                sample_files "gam.csv" "GAM" sample_cells sample_csv _ eq_refl eq_refl) as H.
  split.
  - apply H. exists (mkCell (Num (Z2Qc (-60))) (Num (Z2Qc 20)) 1).
    split; [simpl; tauto |]. left.
    exists (sdm_row (-60) 20 (Z2Qc 2) 1 "old"). split; [now left | reflexivity].
  - apply H. exists (mkCell (Num (Z2Qc (-60))) (Num (Z2Qc 10)) 1).
    split; [simpl; tauto |]. right. split; reflexivity.
Defined.

Lemma merge_left_once : forall (cells : list Cell) rows (row_for : Cell -> Row),
  (forall c, In c cells -> filter (on_cell c) rows = [row_for c]) ->
  merge_left cells rows
  = map (fun c => mkRow (cell_y c) (cell_x c) (pred (row_for c)) (cell_month c)
                        (model (row_for c))) cells.
Proof.
  intros cells rows row_for. induction cells as [| c t IH]; intro H; [reflexivity |].
  unfold merge_left in *. cbn [flat_map map].
  rewrite (H c (or_introl eq_refl)). cbn [map app]. f_equal.
  apply IH. intros c' Hc'. apply H. now right.
Qed.

Lemma merge_left_at_most_once : forall (cells : list Cell) rows,
  (forall c, In c cells -> List.length (filter (on_cell c) rows) <= 1) ->
  map cell_of (merge_left cells rows) = cells.
Proof.
  intros cells rows. induction cells as [| c t IH]; intro H; [reflexivity |].
  unfold merge_left in *. cbn [flat_map]. rewrite map_app.
  rewrite IH by (intros c' Hc'; apply H; now right). f_equal.
  specialize (H c (or_introl eq_refl)).
  destruct (filter (on_cell c) rows) as [| r [| r' t']]; cbn [map app].
  - now destruct c.
  - now destruct c.
  - simpl in H. lia.
Qed.

(** X17: when the file holds at most one prediction per cell of the
    target grid table, the table [df_ready] returns has the rows of the
    grid table, one for one and in the same order: each carries the
    coordinates and the month of its cell, whatever the order of the
    file. *)
Theorem df_ready_keeps_the_order_of_the_grid :
  forall (fs : Files) (file_path model : string) (df_coords : list Cell) (df : Csv),
    fs file_path = Some df ->
    readable df = true ->
    (forall c, In c df_coords -> List.length (predictions df c) <= 1) ->
    exists out,
      df_ready fs file_path model df_coords = Some out /\
      map cell_of out = df_coords /\
      List.length out = List.length df_coords.
Proof.
  intros fs path model coords df Hf Hr Hone.
  rewrite (df_ready_spec _ _ _ _ df Hf Hr). eexists. split; [reflexivity |].
  assert (E : map cell_of (merge_left coords (set_model model (records df))) = coords).
  { apply merge_left_at_most_once. intros c Hc. rewrite filter_set_model.
    unfold set_model. rewrite length_map. now apply Hone. }
  split; [exact E |]. rewrite <- E at 2. now rewrite length_map.
Qed.

Lemma df_ready_keeps_the_order_of_sample_cells :
  exists out,
    df_ready sample_files "gam.csv" "GAM" sample_cells = Some out /\
    map cell_of out = sample_cells.
Proof.
  destruct (df_ready_keeps_the_order_of_the_grid
              sample_files "gam.csv" "GAM" sample_cells sample_csv eq_refl eq_refl)
    as (out & H1 & H2 & _).
  - intros c Hc. destruct Hc as [<- | [<- | []]]; vm_compute; lia.
  - exists out. split; [exact H1 | exact H2].
Defined.

(** ** ds_sdm: when it fails *)

Lemma ds_sdm_loop_none :
  forall (V : Type) (df : DataFrame) (grid_sample : DataArray V) months,
    fold_left (fun acc m =>
                 do ds <- acc;
                 do mth_da <- month_array df grid_sample m;
                 do mth_name <- month_name m;
                 Some (assign mth_name mth_da ds))
              months None
    = None.
Proof. intros V df grid months. induction months as [| m t IH]; [reflexivity | exact IH]. Qed.

Lemma ds_sdm_loop_fails :
  forall (V : Type) (df : DataFrame) (grid_sample : DataArray V) months acc m,
    In m months ->
    month_array df grid_sample m = None \/ month_name m = None ->
    fold_left (fun acc m =>
                 do ds <- acc;
                 do mth_da <- month_array df grid_sample m;
                 do mth_name <- month_name m;
                 Some (assign mth_name mth_da ds))
              months acc
    = None.
Proof.
  intros V df grid months. induction months as [| m0 t IH]; intros acc m Hin Hm;
    [contradiction |].
  cbn [fold_left]. destruct Hin as [-> | Hin]; [| now apply (IH _ m)].
  assert (E : (do ds <- acc;
               do mth_da <- month_array df grid m;
               do mth_name <- month_name m;
               Some (assign mth_name mth_da ds)) = None).
  { destruct acc as [ds |]; [| reflexivity]. cbn [bind].
    destruct Hm as [-> | Hm]; [reflexivity |].
    destruct (month_array df grid m); [| reflexivity]. cbn [bind]. now rewrite Hm. }
  rewrite E. apply ds_sdm_loop_none.
Qed.

Lemma month_of_row : forall (df : DataFrame) r,
  In r df -> In (month r) (unique Z.eqb (map month df)).
Proof.
  intros df r H. apply (unique_In _ _ Z_eqb_spec). now apply in_map.
Qed.

(** X18: a row whose month number is above 12 or below -13 makes
    [ds_sdm] fail: the month has no name. *)
Theorem ds_sdm_fails_on_month_without_name :
  forall (V : Type) (list_df : list DataFrame) (grid_sample : DataArray V) (r : Row),
    In r (List.concat list_df) ->
    (12 < month r \/ month r < -13)%Z ->
    ds_sdm list_df grid_sample = None.
Proof.
  intros V list_df grid r Hr Hm. unfold ds_sdm.
  destruct (concat list_df) as [df |] eqn:Hc; [| reflexivity]. cbn [bind].
  assert (E : df = List.concat list_df)
    by (destruct list_df; [discriminate Hc | now injection Hc as <-]).
  rewrite (ds_sdm_loop_fails V df grid _ (Some []) (month r)); [reflexivity | |].
  - apply month_of_row. now rewrite E.
  - right. unfold month_name.
    assert (A : ((0 <=? month r) && (month r <? 13))%Z = false).
    { apply andb_false_iff. destruct Hm; [right; apply Z.ltb_ge | left; apply Z.leb_gt]; lia. }
    assert (B : ((-13 <=? month r) && (month r <? 0))%Z = false).
    { apply andb_false_iff. destruct Hm; [right; apply Z.ltb_ge | left; apply Z.leb_gt]; lia. }
    now rewrite A, B.
Qed.

Lemma ds_sdm_fails_on_month_13 :
  ds_sdm [sample_gam; sample_month_13] sample_sdm_grid = None.
Proof.
  apply (ds_sdm_fails_on_month_without_name
           f64 [sample_gam; sample_month_13] sample_sdm_grid
           (sdm_row (-60) 10 (Z2Qc 7) 13 "GAM")).
  - simpl. tauto.
  - left. reflexivity.
Defined.

(** The number of rows [month_array] asks of a month on the grid. *)
Lemma month_array_count :
  forall (V : Type) (df : DataFrame) (grid_sample : DataArray V) m n0 n1 ys xs,
    dims grid_sample = [("yt_ocean", n0); ("xt_ocean", n1)] ->
    index_of grid_sample "yt_ocean" = Some ys ->
    index_of grid_sample "xt_ocean" = Some xs ->
    strictly_ascending ys = true -> strictly_ascending xs = true ->
    In m (map month df) ->
    on_grid ys xs (rows_of df m) -> covers ys xs (rows_of df m) ->
    (forall r, In r df -> model r <> Some "Ensemble") ->
    0 < n0 * n1 /\
    List.length (rows_of df m ++ set_model "Ensemble" (groupby_mean (rows_of df m)))%list
    = List.length (rows_of df m) + n0 * n1 /\
    model_names (rows_of df m ++ set_model "Ensemble" (groupby_mean (rows_of df m)))%list
    = (model_names (rows_of df m) ++ ["Ensemble"])%list.
Proof.
  intros V df grid m n0 n1 ys xs Hd Hys Hxs Ays Axs Hm Hon Hcov Hno.
  assert (Sy : size grid "yt_ocean" = Some n0) by (unfold size; now rewrite Hd).
  assert (Sx : size grid "xt_ocean" = Some n1) by (unfold size; now rewrite Hd).
  assert (Ly : List.length ys = n0) by (eapply index_of_length; eauto).
  assert (Lx : List.length xs = n1) by (eapply index_of_length; eauto).
  set (rows := rows_of df m) in *.
  assert (Hpos : 0 < n0 * n1).
  { apply in_map_iff in Hm. destruct Hm as (r & Hr & Hin).
    assert (Hrow : In r rows).
    { unfold rows, rows_of. apply filter_In. split; [assumption |]. now apply Z.eqb_eq. }
    destruct (Hon r Hrow) as (y & x & _ & Hy & Hx).
    destruct ys; [contradiction |]. destruct xs; [contradiction |].
    simpl in Ly, Lx. subst n0 n1. simpl. lia. }
  assert (Hkeys : group_keys rows = list_prod ys xs) by now apply group_keys_grid.
  assert (HG : List.length (groupby_mean rows) = n0 * n1).
  { rewrite groupby_mean_length, Hkeys, length_prod. congruence. }
  split; [exact Hpos |]. split.
  - rewrite length_app. unfold set_model. now rewrite length_map, HG.
  - apply model_names_ensemble.
    + intro E. rewrite E in HG. simpl in HG. lia.
    + intros r Hr. apply Hno. unfold rows, rows_of in Hr. apply filter_In in Hr. tauto.
Qed.

(** X19: a month whose rows lie on the grid and cover it, but do not
    number (models of the month) x (cells of the grid), makes [ds_sdm]
    fail: a model that misses a cell is not padded. *)
Theorem ds_sdm_fails_on_incomplete_month :
  forall (V : Type) (list_df : list DataFrame) (grid_sample : DataArray V)
         (n0 n1 : nat) (ys xs : list Qc) (m : Z),
    dims grid_sample = [("yt_ocean", n0); ("xt_ocean", n1)] ->
    index_of grid_sample "yt_ocean" = Some ys ->
    index_of grid_sample "xt_ocean" = Some xs ->
    strictly_ascending ys = true -> strictly_ascending xs = true ->
    (forall r, In r (List.concat list_df) -> model r <> Some "Ensemble") ->
    In m (map month (List.concat list_df)) ->
    on_grid ys xs (rows_of (List.concat list_df) m) ->
    covers ys xs (rows_of (List.concat list_df) m) ->
    List.length (rows_of (List.concat list_df) m)
    <> List.length (model_names (rows_of (List.concat list_df) m)) * (n0 * n1) ->
    ds_sdm list_df grid_sample = None.
Proof.
  intros V list_df grid n0 n1 ys xs m Hd Hys Hxs Ays Axs Hno Hm Hon Hcov Hcount.
  unfold ds_sdm.
  destruct (concat list_df) as [df |] eqn:Hc; [| reflexivity]. cbn [bind].
  assert (E : df = List.concat list_df)
    by (destruct list_df; [discriminate Hc | now injection Hc as <-]).
  rewrite <- E in *. clear E Hc.
  rewrite (ds_sdm_loop_fails V df grid _ (Some []) m); [reflexivity | |].
  - now apply (unique_In _ _ Z_eqb_spec).
  - left.
    destruct (month_array_count V df grid m n0 n1 ys xs Hd Hys Hxs Ays Axs Hm Hon Hcov Hno)
      as (Hpos & Hlen & Hmods).
    unfold month_array. fold (rows_of df m). unfold shape. rewrite Hd. cbn [map snd].
    rewrite Hlen, Hmods, length_app. cbn [List.length].
    destruct (Nat.eqb_spec (List.length (rows_of df m) + n0 * n1)
                ((List.length (model_names (rows_of df m)) + 1) * n0 * n1)) as [Heq |];
      [exfalso; apply Hcount; nia | reflexivity].
Qed.

Lemma ds_sdm_fails_on_short_model :
  ds_sdm [sample_gam; sample_brt_short] sample_sdm_grid = None.
Proof.
  apply (ds_sdm_fails_on_incomplete_month
           f64 [sample_gam; sample_brt_short] sample_sdm_grid 1 2
           [Z2Qc (-60)] [Z2Qc 10; Z2Qc 20] 1%Z eq_refl eq_refl eq_refl eq_refl eq_refl).
  - intros r Hr. destruct Hr as [<- | [<- | [<- | []]]]; discriminate.
  - simpl. tauto.
  - intros r Hr.
    destruct Hr as [<- | [<- | [<- | []]]];
      eexists; eexists; (split; [reflexivity | split; cbn [In]; auto]).
  - intros y x Hy Hx. destruct Hy as [<- | []].
    destruct Hx as [<- | [<- | []]];
      [exists (sdm_row (-60) 10 (Z2Qc 1) 1 "GAM") | exists (sdm_row (-60) 20 (Z2Qc 2) 1 "GAM")];
      (split; [cbn; auto | reflexivity]).
  - vm_compute. lia.
Defined.

(** ** ds_sdm: the layers of the models *)

Lemma find_label_nth : forall l k s,
  NoDup l -> nth_error l k = Some s -> find_label s l = Some k.
Proof.
  induction l as [| h t IH]; intros k s Hnd H; [destruct k; discriminate H |].
  inversion Hnd as [| ? ? Hh Ht]; subst. destruct k as [| k]; simpl in *.
  - injection H as ->. now rewrite String.eqb_refl.
  - destruct (String.eqb_spec s h) as [-> | _].
    + exfalso. apply Hh. eapply nth_error_In; eauto.
    + now rewrite (IH k s Ht H).
Qed.

Lemma find_label_none : forall l s, ~ In s l -> find_label s l = None.
Proof.
  induction l as [| h t IH]; intros s H; [reflexivity |]. simpl.
  destruct (String.eqb_spec s h) as [-> | _]; [exfalso; apply H; now left |].
  rewrite IH; [reflexivity |]. intro Hin. apply H. now right.
Qed.

Lemma values_reindex_model_none : forall joined da i s,
  nth_error joined (i "model") = Some s ->
  find_label s (labels da) = None ->
  values (reindex_model joined da) i = NaN.
Proof.
  intros joined da i s Hs Hk. unfold reindex_model. cbn [values].
  rewrite (nth_error_nth _ _ "" Hs). now rewrite Hk.
Qed.

(** Aligning the months keeps every layer under its label, and gives a
    month a layer of missing values for each label it lacks. *)
Lemma Dataset_layers : forall ds all,
  NoDup all -> ~ In "Ensemble" all ->
  (forall e, In e ds ->
     exists l, labels (snd e) = (l ++ ["Ensemble"])%list /\ NoDup l /\ incl l all /\
               size (snd e) "model" = Some (List.length l + 1)) ->
  (forall s, In s all -> exists e, In e ds /\ In s (labels (snd e))) ->
  forall nm da, lookup nm ds = Some da ->
  exists da',
    lookup nm (Dataset ds) = Some da' /\
    (forall s k, nth_error (labels da) k = Some s ->
       exists p, nth_error (labels da') p = Some s /\
                 forall i, i "model" = p -> values da' i = values da (upd i "model" k)) /\
    (forall s, In s all -> ~ In s (labels da) ->
       exists p, nth_error (labels da') p = Some s /\
                 forall i, i "model" = p -> values da' i = NaN).
Proof.
  intros ds all Hnd Hens Hds Hall nm da H.
  pose proof (lookup_In _ _ _ _ H) as Hin.
  destruct (Hds _ Hin) as (l & Hl & Hndl & Hincl & Hsz). cbn [snd] in Hl, Hsz.
  assert (Hensl : ~ In "Ensemble" l) by (intro I; apply Hens; now apply Hincl).
  assert (Hndda : NoDup (labels da)).
  { rewrite Hl. apply NoDup_app; [assumption | repeat constructor; intros [] |].
    intros s Hs [<- | []]. contradiction. }
  destruct (Dataset_lookup ds nm da H) as [[E Hsame] | E].
  - exists da. rewrite E. split; [assumption |]. split.
    + intros s k Hk. exists k. split; [exact Hk |].
      intros i Hi. rewrite <- Hi. now rewrite upd_id.
    + intros s Hs Hnot. exfalso. destruct (Hall s Hs) as (e & He & Hse).
      rewrite (Hsame e He) in Hse. contradiction.
  - set (U := union_sorted (map (fun e => labels (snd e)) ds)) in *.
    assert (Hlab : labels (reindex_model U da) = U).
    { apply labels_reindex_model. rewrite Hl. now destruct l. }
    exists (reindex_model U da). split; [assumption |]. rewrite Hlab. split.
    + intros s k Hk.
      destruct (In_nth_error U s) as [p Hp].
      { apply union_sorted_In. exists (labels da). split.
        - apply in_map_iff. exists (nm, da). auto.
        - eapply nth_error_In; eauto. }
      exists p. split; [exact Hp |]. intros i Hi.
      apply (values_reindex_model _ _ _ s); [now rewrite Hi |].
      now apply find_label_nth.
    + intros s Hs Hnot.
      destruct (In_nth_error U s) as [p Hp].
      { apply union_sorted_In. destruct (Hall s Hs) as (e & He & Hse).
        exists (labels (snd e)). split; [| assumption].
        apply in_map_iff. eauto. }
      exists p. split; [exact Hp |]. intros i Hi.
      apply (values_reindex_model_none _ _ _ s); [now rewrite Hi |].
      now apply find_label_none.
Qed.

(** The loop body of [ds_sdm] on a full month: the layers of the models
    hold the rows of the month in the order of the table. *)
Lemma month_array_layers :
  forall (V : Type) (df : DataFrame) (grid_sample : DataArray V) m n0 n1 ys xs,
    dims grid_sample = [("yt_ocean", n0); ("xt_ocean", n1)] ->
    index_of grid_sample "yt_ocean" = Some ys ->
    index_of grid_sample "xt_ocean" = Some xs ->
    strictly_ascending ys = true -> strictly_ascending xs = true ->
    0 < n0 * n1 ->
    full_month df ys xs m ->
    (forall r, In r df -> model r <> Some "Ensemble") ->
    exists da,
      month_array df grid_sample m = Some da /\
      labels da = (model_names (rows_of df m) ++ ["Ensemble"])%list /\
      size da "model" = Some (List.length (model_names (rows_of df m)) + 1) /\
      forall i,
        i "model" < List.length (model_names (rows_of df m)) ->
        i "yt_ocean" < n0 -> i "xt_ocean" < n1 ->
        values da i
        = nth ((i "model" * n0 + i "yt_ocean") * n1 + i "xt_ocean")
              (map pred (rows_of df m)) NaN.
Proof.
  intros V df grid m n0 n1 ys xs Hd Hys Hxs Ays Axs Hpos (Hon & Hcov & Hcount) Hno.
  assert (Sy : size grid "yt_ocean" = Some n0) by (unfold size; now rewrite Hd).
  assert (Sx : size grid "xt_ocean" = Some n1) by (unfold size; now rewrite Hd).
  assert (Ly : List.length ys = n0) by (eapply index_of_length; eauto).
  assert (Lx : List.length xs = n1) by (eapply index_of_length; eauto).
  destruct (values_for_index _ grid "yt_ocean" n0 ys Sy Hys) as (yc & fy & Vy & _).
  destruct (values_for_index _ grid "xt_ocean" n1 xs Sx Hxs) as (xc & fx & Vx & _).
  set (rows := rows_of df m) in *.
  set (K := List.length (model_names rows)) in *.
  assert (Hkeys : group_keys rows = list_prod ys xs) by now apply group_keys_grid.
  assert (HG : List.length (groupby_mean rows) = n0 * n1).
  { rewrite groupby_mean_length, Hkeys, length_prod. congruence. }
  assert (Hmods : model_names (rows ++ set_model "Ensemble" (groupby_mean rows))%list
                  = (model_names rows ++ ["Ensemble"])%list).
  { apply model_names_ensemble.
    - intro E. rewrite E in HG. simpl in HG. lia.
    - intros r Hr. apply Hno. unfold rows, rows_of in Hr. apply filter_In in Hr. tauto. }
  unfold month_array. fold (rows_of df m). fold rows.
  rewrite Hmods. unfold shape. rewrite Hd. cbn [map snd].
  assert (Hlen : List.length (rows ++ set_model "Ensemble" (groupby_mean rows))%list
                 = List.length (model_names rows ++ ["Ensemble"])%list * n0 * n1).
  { rewrite !length_app. unfold set_model at 1. rewrite length_map, HG, Hcount.
    fold K. rewrite Ly, Lx. simpl. nia. }
  rewrite Hlen, Nat.eqb_refl. cbn [guard bind]. rewrite Vx, Vy. cbn [bind].
  eexists. split; [reflexivity |].
  split.
  { unfold labels, size. cbn.
    rewrite <- (map_nth_self _ (model_names rows ++ ["Ensemble"])%list "") at 2.
    apply map_ext. intro k. unfold from_list. now rewrite upd_same. }
  split.
  { unfold size. cbn. rewrite length_app. reflexivity. }
  intros i Hi Ha Hb. cbn [values].
  rewrite map_app, app_nth1; [reflexivity |].
  rewrite length_map, Hcount. fold K. rewrite Ly, Lx. nia.
Qed.

Lemma assign_fresh : forall (A : Type) k (v : A) l,
  ~ In k (map fst l) -> assign k v l = (l ++ [(k, v)])%list.
Proof.
  induction l as [| [k0 v0] t IH]; simpl; intro H; [reflexivity |].
  destruct (String.eqb_spec k k0) as [-> | _]; [exfalso; apply H; now left |].
  rewrite IH; [reflexivity |]. intro Hin. apply H. now right.
Qed.

Lemma fold_assign_fresh : forall (A : Type) (nm : Z -> string) (arr : Z -> A) months acc,
  NoDup (map fst acc ++ map nm months)%list ->
  fold_left (fun acc m => assign (nm m) (arr m) acc) months acc
  = (acc ++ map (fun m => (nm m, arr m)) months)%list.
Proof.
  intros A nm arr months. induction months as [| m t IH]; intros acc H; simpl.
  - now rewrite app_nil_r.
  - rewrite assign_fresh.
    + rewrite IH.
      * now rewrite <- app_assoc.
      * rewrite map_app. simpl. rewrite <- app_assoc. exact H.
    + simpl in H. apply NoDup_remove_2 in H. intro Hin. apply H, in_or_app. now left.
Qed.

Lemma NoDup_map_on : forall (A B : Type) (f : A -> B) l,
  NoDup l -> (forall a b, In a l -> In b l -> f a = f b -> a = b) -> NoDup (map f l).
Proof.
  intros A B f l. induction l as [| a t IH]; intros Hnd Hinj; [constructor |].
  inversion Hnd as [| ? ? Ha Ht]; subst. cbn [map]. constructor.
  - intro Hin. apply in_map_iff in Hin. destruct Hin as (b & E & Hb).
    apply Ha. rewrite (Hinj a b); [assumption | now left | now right | now symmetry].
  - apply IH; [assumption |]. intros x y Hx Hy. apply Hinj; now right.
Qed.

Lemma Dataset_names : forall ds, map fst (Dataset ds) = map fst ds.
Proof.
  intro ds. unfold Dataset.
  destruct (map (fun e => labels (snd e)) ds) as [| first rest]; [reflexivity |].
  destruct (forallb (list_eqb first) rest); [reflexivity |].
  rewrite map_map. reflexivity.
Qed.

(** What [ds_sdm] returns on full months: one array per month, under the
    names of the months in the order in which the months first appear. *)
Lemma ds_sdm_layers :
  forall (V : Type) (list_df : list DataFrame) (grid_sample : DataArray V) n0 n1 ys xs,
    list_df <> [] ->
    dims grid_sample = [("yt_ocean", n0); ("xt_ocean", n1)] ->
    index_of grid_sample "yt_ocean" = Some ys ->
    index_of grid_sample "xt_ocean" = Some xs ->
    strictly_ascending ys = true -> strictly_ascending xs = true ->
    0 < n0 * n1 ->
    (forall m, In m (map month (List.concat list_df)) ->
       (1 <= m <= 12)%Z /\ full_month (List.concat list_df) ys xs m) ->
    (forall r, In r (List.concat list_df) -> model r <> Some "Ensemble") ->
    exists out,
      ds_sdm list_df grid_sample = Some out /\
      map (fun k => Some k) (map fst out)
      = map month_name (unique Z.eqb (map month (List.concat list_df))) /\
      forall m, In m (map month (List.concat list_df)) ->
        exists mth_name da,
          month_name m = Some mth_name /\
          lookup mth_name out = Some da /\
          (forall s k,
             nth_error (model_names (rows_of (List.concat list_df) m)) k = Some s ->
             exists p, nth_error (labels da) p = Some s /\
               forall i, i "model" = p -> i "yt_ocean" < n0 -> i "xt_ocean" < n1 ->
                 values da i
                 = nth ((k * n0 + i "yt_ocean") * n1 + i "xt_ocean")
                       (map pred (rows_of (List.concat list_df) m)) NaN) /\
          (forall s, In s (model_names (List.concat list_df)) ->
                     ~ In s (model_names (rows_of (List.concat list_df) m)) ->
             exists p, nth_error (labels da) p = Some s /\
               forall i, i "model" = p -> values da i = NaN) /\
          (exists p, nth_error (labels da) p = Some "Ensemble" /\
             forall i, i "model" = p -> i "yt_ocean" < n0 -> i "xt_ocean" < n1 ->
               values da i
               = mean (cell_preds (List.concat list_df) m
                                  (nth (i "yt_ocean") ys 0%Qc) (nth (i "xt_ocean") xs 0%Qc))).
Proof.
  intros V list_df grid n0 n1 ys xs Hne Hd Hys Hxs Ays Axs Hpos Hfull Hno.
  set (df := List.concat list_df) in *.
  assert (Hc : concat list_df = Some df) by (destruct list_df; [contradiction | reflexivity]).
  unfold ds_sdm. rewrite Hc. cbn [bind].
  set (months := unique Z.eqb (map month df)).
  assert (Hmonths : forall m, In m months <-> In m (map month df))
    by (intro m; apply (unique_In _ _ Z_eqb_spec)).
  set (nm := fun m => default "" (month_name m)).
  set (arr := fun m => default (mkDA None [] (fun _ => NaN) [] []) (month_array df grid m)).
  assert (Hspec : forall m, In m months ->
            month_array df grid m = Some (arr m) /\ month_name m = Some (nm m) /\
            labels (arr m) = (model_names (rows_of df m) ++ ["Ensemble"])%list /\
            size (arr m) "model" = Some (List.length (model_names (rows_of df m)) + 1) /\
            (forall i, i "model" < List.length (model_names (rows_of df m)) ->
                       i "yt_ocean" < n0 -> i "xt_ocean" < n1 ->
                       values (arr m) i
                       = nth ((i "model" * n0 + i "yt_ocean") * n1 + i "xt_ocean")
                             (map pred (rows_of df m)) NaN) /\
            (forall i, i "model" = List.length (model_names (rows_of df m)) ->
                       i "yt_ocean" < n0 -> i "xt_ocean" < n1 ->
                       values (arr m) i
                       = mean (cell_preds df m (nth (i "yt_ocean") ys 0%Qc)
                                          (nth (i "xt_ocean") xs 0%Qc)))).
  { intros m Hm. apply Hmonths in Hm. destruct (Hfull m Hm) as [Hr Hf].
    destruct (month_array_layers V df grid m n0 n1 ys xs Hd Hys Hxs Ays Axs Hpos Hf Hno)
      as (da & E & Hl & Hsz & Hv).
    destruct (month_array_spec V df grid m n0 n1 ys xs Hd Hys Hxs Ays Axs Hpos Hf Hno)
      as (da' & E' & _ & _ & Hv').
    assert (da' = da) by congruence. subst da'.
    destruct (month_name_some m Hr) as [s Es].
    unfold arr, nm. rewrite E, Es. cbn [default]. repeat split; auto. }
  rewrite (ds_sdm_loop V df grid nm arr months []) by (intros m Hm; destruct (Hspec m Hm); tauto).
  cbn [bind].
  set (ds := fold_left (fun acc m => assign (nm m) (arr m) acc) months []).
  assert (Hinj : forall a b, In a months -> In b months -> nm a = nm b -> a = b).
  { intros a b Ha Hb E.
    destruct (Hspec a Ha) as (_ & Na & _), (Hspec b Hb) as (_ & Nb & _).
    apply Hmonths in Ha, Hb.
    apply month_name_inj; [apply (Hfull a Ha) | apply (Hfull b Hb) | congruence]. }
  assert (Hndm : NoDup months) by apply (unique_NoDup _ _ Z_eqb_spec).
  assert (Hlook : forall m, In m months -> lookup (nm m) ds = Some (arr m)).
  { intros m Hm. apply fold_assign_lookup; auto. }
  assert (Hds : ds = map (fun m => (nm m, arr m)) months).
  { unfold ds. rewrite fold_assign_fresh; [reflexivity |]. cbn [map app].
    now apply NoDup_map_on. }
  eexists. split; [reflexivity |]. split.
  { rewrite Dataset_names, Hds, !map_map. cbn [fst].
    apply map_ext_in. intros m Hm. symmetry. now apply Hspec. }
  intros m Hm. apply Hmonths in Hm.
  destruct (Hspec m Hm) as (_ & Hname & Hl & _ & Hv & Hve).
  destruct (Dataset_layers ds (model_names df)) with (nm := nm m) (da := arr m)
    as (da' & L & Hown & Hother).
  - apply (unique_NoDup _ _ string_eqb_spec).
  - intro I. apply model_names_In in I. destruct I as (r & Hr & Hs). now apply (Hno r).
  - intros e He. apply fold_assign_In in He.
    destruct He as [[] | (m0 & Hm0 & ->)]. cbn [snd].
    destruct (Hspec m0 Hm0) as (_ & _ & Hl0 & Hs0 & _).
    exists (model_names (rows_of df m0)). repeat split; auto.
    + apply (unique_NoDup _ _ string_eqb_spec).
    + intros s Hs. now apply (model_names_rows_of df m0).
  - intros s Hs. destruct (model_names_month df s Hs) as (m0 & Hm0 & Hs0).
    apply Hmonths in Hm0. exists (nm m0, arr m0). split.
    + apply lookup_In. now apply Hlook.
    + cbn [snd]. destruct (Hspec m0 Hm0) as (_ & _ & -> & _).
      apply in_or_app. now left.
  - now apply Hlook.
  - exists (nm m), da'. split; [exact Hname |]. split; [exact L |].
    split; [| split].
    + intros s k Hk.
      assert (Hk' : nth_error (labels (arr m)) k = Some s).
      { rewrite Hl. rewrite nth_error_app1; [exact Hk |].
        apply nth_error_Some. congruence. }
      destruct (Hown s k Hk') as (p & Hp & Hval).
      exists p. split; [exact Hp |]. intros i Hi Hy Hx.
      rewrite (Hval i Hi), Hv.
      * now rewrite upd_same, !upd_other by discriminate.
      * rewrite upd_same. apply nth_error_Some. congruence.
      * now rewrite upd_other by discriminate.
      * now rewrite upd_other by discriminate.
    + intros s Hs Hnot. apply Hother; [exact Hs |].
      rewrite Hl. intro Hin. apply in_app_or in Hin.
      destruct Hin as [Hin | [<- | []]]; [contradiction |].
      apply model_names_In in Hs. destruct Hs as (r & Hr & Hs). now apply (Hno r).
    + destruct (Hown "Ensemble" (List.length (model_names (rows_of df m))))
        as (p & Hp & Hval); [rewrite Hl; apply nth_error_last |].
      exists p. split; [exact Hp |]. intros i Hi Hy Hx.
      rewrite (Hval i Hi), Hve.
      * now rewrite !upd_other by discriminate.
      * apply upd_same.
      * now rewrite upd_other by discriminate.
      * now rewrite upd_other by discriminate.
Qed.

Lemma in_group_key : forall y x r, in_group (y, x) r = true -> key_of r = Some (y, x).
Proof.
  intros y x r H. unfold in_group in H. destruct (key_of r) as [[y' x'] |]; [| discriminate].
  unfold key_eqb in H. cbn [fst snd] in H. apply andb_true_iff in H. destruct H as [Hy Hx].
  apply Qc_eq_bool_spec in Hy, Hx. now subst.
Qed.

Lemma full_month_b_spec : forall df ys xs m,
  full_month_b df ys xs m = true -> full_month df ys xs m.
Proof.
  intros df ys xs m H. unfold full_month_b in H.
  apply andb_true_iff in H. destruct H as [H H3].
  apply andb_true_iff in H. destruct H as [H1 H2].
  rewrite forallb_forall in H1, H2. apply Nat.eqb_eq in H3.
  split; [| split; [| exact H3]].
  - intros r Hr. specialize (H1 r Hr). apply existsb_exists in H1.
    destruct H1 as (y & Hy & H1). apply existsb_exists in H1.
    destruct H1 as (x & Hx & H1). exists y, x. split; [now apply in_group_key | auto].
  - intros y x Hy Hx. specialize (H2 y Hy). rewrite forallb_forall in H2.
    specialize (H2 x Hx). apply existsb_exists in H2. destruct H2 as (r & Hr & H2).
    exists r. split; [exact Hr | now apply in_group_key].
Qed.

Lemma full_tables_spec : forall df ys xs,
  full_tables df ys xs = true ->
  (forall m, In m (map month df) -> (1 <= m <= 12)%Z /\ full_month df ys xs m) /\
  (forall r, In r df -> model r <> Some "Ensemble").
Proof.
  intros df ys xs H. unfold full_tables in H.
  apply andb_true_iff in H. destruct H as [H1 H2].
  rewrite forallb_forall in H1, H2. split.
  - intros m Hm. specialize (H1 m Hm).
    apply andb_true_iff in H1. destruct H1 as [H1 Hf].
    apply andb_true_iff in H1. destruct H1 as [Hlo Hhi].
    apply Z.leb_le in Hlo, Hhi. split; [lia | now apply full_month_b_spec].
  - intros r Hr E. specialize (H2 r Hr). rewrite E in H2. discriminate H2.
Qed.

(** X20: the layer of a model holds the rows of its month in the order
    of the table: the k-th model of the month gets the k-th run of
    (cells of the grid) rows, read row by row, whatever coordinates and
    model names these rows bear. *)
Theorem ds_sdm_fills_model_layers_in_table_order :
  forall (V : Type) (list_df : list DataFrame) (grid_sample : DataArray V)
         (n0 n1 : nat) (ys xs : list Qc),
    list_df <> [] ->
    dims grid_sample = [("yt_ocean", n0); ("xt_ocean", n1)] ->
    index_of grid_sample "yt_ocean" = Some ys ->
    index_of grid_sample "xt_ocean" = Some xs ->
    strictly_ascending ys = true -> strictly_ascending xs = true ->
    0 < n0 * n1 ->
    (forall m, In m (map month (List.concat list_df)) ->
       (1 <= m <= 12)%Z /\ full_month (List.concat list_df) ys xs m) ->
    (forall r, In r (List.concat list_df) -> model r <> Some "Ensemble") ->
    exists out,
      ds_sdm list_df grid_sample = Some out /\
      forall m, In m (map month (List.concat list_df)) ->
        exists mth_name da,
          month_name m = Some mth_name /\
          lookup mth_name out = Some da /\
          forall s k,
            nth_error (model_names (rows_of (List.concat list_df) m)) k = Some s ->
            exists p, nth_error (labels da) p = Some s /\
              forall i, i "model" = p -> i "yt_ocean" < n0 -> i "xt_ocean" < n1 ->
                values da i
                = nth ((k * n0 + i "yt_ocean") * n1 + i "xt_ocean")
                      (map pred (rows_of (List.concat list_df) m)) NaN.
Proof.
  intros V list_df grid n0 n1 ys xs Hne Hd Hys Hxs Ays Axs Hpos Hfull Hno.
  destruct (ds_sdm_layers V list_df grid n0 n1 ys xs Hne Hd Hys Hxs Ays Axs Hpos Hfull Hno)
    as (out & Hout & _ & Hm).
  exists out. split; [exact Hout |]. intros m Hin.
  destruct (Hm m Hin) as (nm & da & H1 & H2 & H3 & _ & _).
  exists nm, da. auto.
Qed.

Lemma ds_sdm_fills_layers_east_first :
  exists out da p,
    ds_sdm [sample_gam; sample_rf_east_first] sample_sdm_grid = Some out /\
    index_of sample_sdm_grid "xt_ocean" = Some [Z2Qc 10; Z2Qc 20] /\
    lookup "January" out = Some da /\
    nth_error (labels da) p = Some "RF" /\
    values da (upd (upd origin "model" p) "xt_ocean" 0) = Num (Z2Qc 3) /\
    values da (upd (upd origin "model" p) "xt_ocean" 1) = Num (Z2Qc 4).
Proof.
  destruct (full_tables_spec (List.concat [sample_gam; sample_rf_east_first])
              [Z2Qc (-60)] [Z2Qc 10; Z2Qc 20] eq_refl) as [Hfull Hno].
  destruct (ds_sdm_fills_model_layers_in_table_order
              f64 [sample_gam; sample_rf_east_first] sample_sdm_grid 1 2
              [Z2Qc (-60)] [Z2Qc 10; Z2Qc 20])
    as (out & Hout & Hm);
    [discriminate | reflexivity | reflexivity | reflexivity | reflexivity | reflexivity
     | lia | exact Hfull | exact Hno |].
  destruct (Hm 1%Z) as (nm & da & H1 & H2 & H3); [now left |].
  injection H1 as <-.
  destruct (H3 "RF" 1 eq_refl) as (p & Hp & Hv).
  exists out, da, p. split; [exact Hout |]. split; [reflexivity |].
  split; [exact H2 |]. split; [exact Hp |].
  split; (rewrite Hv; [reflexivity | reflexivity | cbv; lia | cbv; lia]).
Defined.

(** X21: a model that has rows in some month but none in month m gets a
    layer in the array of month m all the same, filled with missing
    values. *)
Theorem ds_sdm_pads_missing_models_with_nan :
  forall (V : Type) (list_df : list DataFrame) (grid_sample : DataArray V)
         (n0 n1 : nat) (ys xs : list Qc),
    list_df <> [] ->
    dims grid_sample = [("yt_ocean", n0); ("xt_ocean", n1)] ->
    index_of grid_sample "yt_ocean" = Some ys ->
    index_of grid_sample "xt_ocean" = Some xs ->
    strictly_ascending ys = true -> strictly_ascending xs = true ->
    0 < n0 * n1 ->
    (forall m, In m (map month (List.concat list_df)) ->
       (1 <= m <= 12)%Z /\ full_month (List.concat list_df) ys xs m) ->
    (forall r, In r (List.concat list_df) -> model r <> Some "Ensemble") ->
    exists out,
      ds_sdm list_df grid_sample = Some out /\
      forall m, In m (map month (List.concat list_df)) ->
        exists mth_name da,
          month_name m = Some mth_name /\
          lookup mth_name out = Some da /\
          forall s, In s (model_names (List.concat list_df)) ->
                    ~ In s (model_names (rows_of (List.concat list_df) m)) ->
            exists p, nth_error (labels da) p = Some s /\
                      forall i, i "model" = p -> values da i = NaN.
Proof.
  intros V list_df grid n0 n1 ys xs Hne Hd Hys Hxs Ays Axs Hpos Hfull Hno.
  destruct (ds_sdm_layers V list_df grid n0 n1 ys xs Hne Hd Hys Hxs Ays Axs Hpos Hfull Hno)
    as (out & Hout & _ & Hm).
  exists out. split; [exact Hout |]. intros m Hin.
  destruct (Hm m Hin) as (nm & da & H1 & H2 & _ & H4 & _).
  exists nm, da. auto.
Qed.

Lemma ds_sdm_pads_february :
  exists out da p,
    ds_sdm [sample_gam; sample_rf; sample_gam_february] sample_sdm_grid = Some out /\
    lookup "February" out = Some da /\
    nth_error (labels da) p = Some "RF" /\
    values da (upd (upd origin "model" p) "xt_ocean" 0) = NaN /\
    values da (upd (upd origin "model" p) "xt_ocean" 1) = NaN.
Proof.
  destruct (full_tables_spec (List.concat [sample_gam; sample_rf; sample_gam_february])
              [Z2Qc (-60)] [Z2Qc 10; Z2Qc 20] eq_refl) as [Hfull Hno].
  destruct (ds_sdm_pads_missing_models_with_nan
              f64 [sample_gam; sample_rf; sample_gam_february] sample_sdm_grid 1 2
              [Z2Qc (-60)] [Z2Qc 10; Z2Qc 20])
    as (out & Hout & Hm);
    [discriminate | reflexivity | reflexivity | reflexivity | reflexivity | reflexivity
     | lia | exact Hfull | exact Hno |].
  destruct (Hm 2%Z) as (nm & da & H1 & H2 & H3); [cbn; tauto |].
  injection H1 as <-.
  destruct (H3 "RF") as (p & Hp & Hv).
  - cbv. tauto.
  - cbv. intuition discriminate.
  - exists out, da, p. split; [exact Hout |]. split; [exact H2 |].
    split; [exact Hp |]. split; apply Hv; reflexivity.
Defined.

(** X22: the dataset holds one array per month, under the English names
    of the months, in the order in which the months first appear in the
    tables. *)
Theorem ds_sdm_names_months_in_order_of_appearance :
  forall (V : Type) (list_df : list DataFrame) (grid_sample : DataArray V)
         (n0 n1 : nat) (ys xs : list Qc),
    list_df <> [] ->
    dims grid_sample = [("yt_ocean", n0); ("xt_ocean", n1)] ->
    index_of grid_sample "yt_ocean" = Some ys ->
    index_of grid_sample "xt_ocean" = Some xs ->
    strictly_ascending ys = true -> strictly_ascending xs = true ->
    0 < n0 * n1 ->
    (forall m, In m (map month (List.concat list_df)) ->
       (1 <= m <= 12)%Z /\ full_month (List.concat list_df) ys xs m) ->
    (forall r, In r (List.concat list_df) -> model r <> Some "Ensemble") ->
    exists out,
      ds_sdm list_df grid_sample = Some out /\
      map (fun k => Some k) (map fst out)
      = map (fun m => nth_error month_names (Z.to_nat m))
            (unique Z.eqb (map month (List.concat list_df))).
Proof.
  intros V list_df grid n0 n1 ys xs Hne Hd Hys Hxs Ays Axs Hpos Hfull Hno.
  destruct (ds_sdm_layers V list_df grid n0 n1 ys xs Hne Hd Hys Hxs Ays Axs Hpos Hfull Hno)
    as (out & Hout & Hkeys & _).
  exists out. split; [exact Hout |]. rewrite Hkeys.
  apply map_ext_in. intros m Hm. apply (proj1 (unique_In _ _ Z_eqb_spec _ _)) in Hm.
  destruct (Hfull m Hm) as [Hr _]. unfold month_name.
  assert (E : ((0 <=? m) && (m <? 13))%Z = true) by (apply andb_true_iff; lia).
  now rewrite E.
Qed.

Lemma ds_sdm_names_february_first :
  exists out,
    ds_sdm [sample_gam_february; sample_gam; sample_rf] sample_sdm_grid = Some out /\
    map fst out = ["February"; "January"].
Proof.
  destruct (full_tables_spec (List.concat [sample_gam_february; sample_gam; sample_rf])
              [Z2Qc (-60)] [Z2Qc 10; Z2Qc 20] eq_refl) as [Hfull Hno].
  destruct (ds_sdm_names_months_in_order_of_appearance
              f64 [sample_gam_february; sample_gam; sample_rf] sample_sdm_grid 1 2
              [Z2Qc (-60)] [Z2Qc 10; Z2Qc 20])
    as (out & Hout & Hk);
    [discriminate | reflexivity | reflexivity | reflexivity | reflexivity | reflexivity
     | lia | exact Hfull | exact Hno |].
  exists out. split; [exact Hout |].
  cbn in Hk. destruct (map fst out) as [| a [| b [| c t]]]; try discriminate Hk.
  now injection Hk as -> ->.
Defined.

(** ** df_ready into ds_sdm *)

(** [df_ready] on a file that predicts once for every cell. *)
Lemma df_ready_prepared : forall fs file_path name df_coords df,
  fs file_path = Some df -> readable df = true ->
  predicts_once df_coords df = true ->
  df_ready fs file_path name df_coords = Some (map (prepared_row name df) df_coords).
Proof.
  intros fs path name cells df Hf Hr Hone.
  rewrite (df_ready_spec _ _ _ _ df Hf Hr). f_equal.
  unfold predicts_once in Hone. rewrite forallb_forall in Hone.
  rewrite (merge_left_once cells (set_model name (records df))
             (fun c => match predictions df c with
                       | r :: _ => mkRow (yt_ocean r) (xt_ocean r) (pred r) (month r)
                                         (Some name)
                       | [] => mkRow NaN NaN NaN 0 None
                       end)).
  - apply map_ext_in. intros c Hc. specialize (Hone c Hc). apply Nat.eqb_eq in Hone.
    unfold prepared_row, prediction.
    destruct (predictions df c) as [| r [| ? ?]]; try discriminate Hone. reflexivity.
  - intros c Hc. specialize (Hone c Hc). apply Nat.eqb_eq in Hone.
    rewrite filter_set_model. unfold predictions in *.
    destruct (filter (on_cell c) (records df)) as [| r [| ? ?]]; try discriminate Hone.
    reflexivity.
Qed.

Lemma filter_of_concat : forall (A : Type) (p : A -> bool) (ls : list (list A)),
  filter p (List.concat ls) = List.concat (map (filter p) ls).
Proof.
  intros A p ls. induction ls as [| l t IH]; [reflexivity |].
  cbn [List.concat map]. now rewrite filter_app, IH.
Qed.

(** The rows of one month in a table prepared on a grid table. *)
Lemma rows_of_prepared : forall name df months ys xs m,
  NoDup months -> In m months ->
  rows_of (map (prepared_row name df) (grid_table months ys xs)) m
  = map (fun k => prepared_row name df (mkCell (Num (fst k)) (Num (snd k)) m))
        (list_prod ys xs).
Proof.
  intros name df months ys xs m. unfold rows_of, grid_table.
  induction months as [| m0 t IH]; intros Hnd Hin; [contradiction |].
  inversion Hnd as [| ? ? Hm0 Ht]; subst.
  cbn [flat_map]. rewrite map_app, filter_app.
  assert (Hout : forall t', ~ In m t' ->
            filter (fun r => Z.eqb (month r) m)
                   (map (prepared_row name df)
                        (flat_map (fun m' => map (fun k => mkCell (Num (fst k)) (Num (snd k)) m')
                                                 (list_prod ys xs)) t')) = []).
  { intros t' Hn. apply filter_none. intros r Hr.
    apply in_map_iff in Hr. destruct Hr as (c & <- & Hc).
    apply in_flat_map in Hc. destruct Hc as (m' & Hm' & Hc).
    apply in_map_iff in Hc. destruct Hc as (k & <- & _).
    cbn [prepared_row month cell_month]. apply Z.eqb_neq. intros ->. contradiction. }
  destruct (Z.eq_dec m0 m) as [-> | Hne].
  - rewrite (Hout t Hm0), app_nil_r. rewrite map_map. apply filter_all.
    apply Forall_forall. intros r Hr. apply in_map_iff in Hr.
    destruct Hr as (k & <- & _). apply Z.eqb_refl.
  - destruct Hin as [-> | Hin]; [contradiction |].
    rewrite (IH Ht Hin).
    rewrite (filter_none _ _ (map (prepared_row name df) _)); [reflexivity |].
    intros r Hr. apply in_map_iff in Hr. destruct Hr as (c & <- & Hc).
    apply in_map_iff in Hc. destruct Hc as (k & <- & _).
    cbn [prepared_row month cell_month]. now apply Z.eqb_neq.
Qed.

Lemma nth_concat_blocks : forall (A : Type) (blocks : list (list A)) n k j d,
  (forall b, In b blocks -> List.length b = n) ->
  k < List.length blocks -> j < n ->
  nth (k * n + j) (List.concat blocks) d = nth j (nth k blocks []) d.
Proof.
  intros A blocks n. induction blocks as [| b t IH]; intros k j d Hlen Hk Hj;
    [simpl in Hk; lia |].
  cbn [List.concat]. destruct k as [| k].
  - cbn [nth]. rewrite Nat.mul_0_l, Nat.add_0_l.
    apply app_nth1. rewrite (Hlen b (or_introl eq_refl)). exact Hj.
  - cbn [nth]. rewrite app_nth2 by (rewrite (Hlen b (or_introl eq_refl)); lia).
    rewrite (Hlen b (or_introl eq_refl)).
    replace (S k * n + j - n) with (k * n + j) by lia.
    apply IH; [intros b' Hb'; apply Hlen; now right | simpl in Hk; lia | exact Hj].
Qed.

Lemma length_concat_blocks : forall (A : Type) (blocks : list (list A)) n,
  (forall b, In b blocks -> List.length b = n) ->
  List.length (List.concat blocks) = List.length blocks * n.
Proof.
  intros A blocks n. induction blocks as [| b t IH]; intro H; [reflexivity |].
  cbn [List.concat List.length]. rewrite length_app, (H b (or_introl eq_refl)).
  rewrite IH by (intros b' Hb'; apply H; now right). lia.
Qed.

Lemma unique_constant : forall (A : Type) (l : list A) name,
  l <> [] -> unique String.eqb (map (fun _ => name) l) = [name].
Proof.
  intros A l name H. destruct l as [| a t]; [contradiction |]. cbn [map unique].
  f_equal. apply filter_none. intros s Hs.
  apply (proj1 (unique_In _ _ string_eqb_spec _ _)) in Hs.
  apply in_map_iff in Hs. destruct Hs as (x & <- & _). now rewrite String.eqb_refl.
Qed.

(** The models of tables prepared on the same cells. *)
Lemma model_names_prepared : forall (sources : list Source) (cells : list Cell),
  cells <> [] -> NoDup (map source_model sources) ->
  model_names (List.concat (map (fun s => map (prepared_row (source_model s) (source_file s))
                                              cells) sources))
  = map source_model sources.
Proof.
  intros sources cells Hne. unfold model_names.
  induction sources as [| s t IH]; intro Hnd; [reflexivity |].
  inversion Hnd as [| ? ? Hs Ht]; subst.
  cbn [map List.concat]. rewrite flat_map_app, (unique_app _ String.eqb).
  rewrite (IH Ht).
  assert (E : flat_map (fun r => match model r with Some s0 => [s0] | None => [] end)
                       (map (prepared_row (source_model s) (source_file s)) cells)
              = map (fun _ => source_model s) cells).
  { clear. induction cells as [| c t IH]; [reflexivity |]. cbn [map flat_map]. now rewrite IH. }
  rewrite E, (unique_constant _ cells _ Hne). cbn [app]. f_equal.
  apply filter_all. apply Forall_forall. intros x Hx.
  apply negb_true_iff. apply not_true_iff_false. intro Hex.
  apply existsb_exists in Hex. destruct Hex as (y & Hy & Hxy).
  apply in_map_iff in Hy. destruct Hy as (c & <- & _).
  apply String.eqb_eq in Hxy. subst x. contradiction.
Qed.

Lemma key_eqb_spec : forall a b, key_eqb a b = true <-> a = b.
Proof.
  intros [y x] [y' x']. unfold key_eqb. cbn [fst snd].
  rewrite andb_true_iff, !Qc_eq_bool_spec. split; [intros [-> ->] | intros [= -> ->]]; auto.
Qed.

Lemma filter_key_sorted : forall l k0,
  StronglySorted key_lt l -> In k0 l -> filter (key_eqb k0) l = [k0].
Proof.
  induction l as [| a t IH]; intros k0 Hs Hin; [contradiction |].
  inversion Hs as [| ? ? Ht Ha]; subst. cbn [filter].
  destruct (key_eqb k0 a) eqn:E.
  - apply key_eqb_spec in E. subst a. f_equal. apply filter_none.
    intros b Hb. apply not_true_iff_false. intro Eb. apply key_eqb_spec in Eb. subst b.
    rewrite Forall_forall in Ha. exact (key_lt_irrefl _ (Ha _ Hb)).
  - destruct Hin as [-> | Hin]; [| now apply IH].
    rewrite (proj2 (key_eqb_spec k0 k0) eq_refl) in E. discriminate E.
Qed.

Lemma filter_of_map : forall (A B : Type) (p : B -> bool) (f : A -> B) l,
  filter p (map f l) = map f (filter (fun a => p (f a)) l).
Proof.
  intros A B p f l. induction l as [| a t IH]; [reflexivity |].
  cbn [map filter]. destruct (p (f a)); cbn [map]; now rewrite IH.
Qed.

Lemma concat_singletons : forall (A B : Type) (f : A -> B) l,
  List.concat (map (fun a => [f a]) l) = map f l.
Proof. intros A B f l. induction l as [| a t IH]; [reflexivity |]. cbn. now rewrite IH. Qed.

(** X23: the two functions together, on a sample grid whose latitudes
    and longitudes ascend strictly.  Prepare one table per model with
    [df_ready] on the grid table that lists the cells of the sample grid
    row by row, month after month (distinct months between 1 and 12),
    from files that each predict once for every cell, in whatever order,
    under distinct model names other than Ensemble: [ds_sdm] then
    returns for each month an array whose layer for a model holds, at
    every cell of the grid, the prediction the file of that model holds
    for this cell and month, and whose Ensemble layer holds the mean of
    these predictions. *)
Theorem ds_sdm_of_prepared_tables_follows_the_grid :
  forall (V : Type) (fs : Files) (sources : list Source) (grid_sample : DataArray V)
         (n0 n1 : nat) (ys xs : list Qc) (months : list Z),
    let df_coords := grid_table months ys xs in
    dims grid_sample = [("yt_ocean", n0); ("xt_ocean", n1)] ->
    index_of grid_sample "yt_ocean" = Some ys ->
    index_of grid_sample "xt_ocean" = Some xs ->
    strictly_ascending ys = true -> strictly_ascending xs = true ->
    0 < n0 * n1 ->
    NoDup months -> (forall m, In m months -> (1 <= m <= 12)%Z) ->
    sources <> [] ->
    NoDup (map source_model sources) ->
    ~ In "Ensemble" (map source_model sources) ->
    (forall s, In s sources ->
       fs (source_path s) = Some (source_file s) /\
       readable (source_file s) = true /\
       predicts_once df_coords (source_file s) = true) ->
    exists tables out,
      map (fun s => df_ready fs (source_path s) (source_model s) df_coords) sources
      = map (fun t => Some t) tables /\
      ds_sdm tables grid_sample = Some out /\
      forall m, In m months ->
        exists mth_name da,
          month_name m = Some mth_name /\
          lookup mth_name out = Some da /\
          (forall s, In s sources ->
             exists p, nth_error (labels da) p = Some (source_model s) /\
               forall i, i "model" = p -> i "yt_ocean" < n0 -> i "xt_ocean" < n1 ->
                 values da i
                 = prediction (source_file s)
                     (mkCell (Num (nth (i "yt_ocean") ys 0%Qc))
                             (Num (nth (i "xt_ocean") xs 0%Qc)) m)) /\
          (exists p, nth_error (labels da) p = Some "Ensemble" /\
             forall i, i "model" = p -> i "yt_ocean" < n0 -> i "xt_ocean" < n1 ->
               values da i
               = mean (map (fun s => prediction (source_file s)
                                       (mkCell (Num (nth (i "yt_ocean") ys 0%Qc))
                                               (Num (nth (i "xt_ocean") xs 0%Qc)) m))
                           sources)).
Proof.
  intros V fs sources grid n0 n1 ys xs months cells
         Hd Hys Hxs Ays Axs Hpos Hndm Hrange Hne Hndn Hens Hsrc.
  assert (Sy : size grid "yt_ocean" = Some n0) by (unfold size; now rewrite Hd).
  assert (Sx : size grid "xt_ocean" = Some n1) by (unfold size; now rewrite Hd).
  assert (Ly : List.length ys = n0) by (eapply index_of_length; eauto).
  assert (Lx : List.length xs = n1) by (eapply index_of_length; eauto).
  set (L := list_prod ys xs).
  assert (HL : List.length L = n0 * n1) by (unfold L; rewrite length_prod; congruence).
  assert (HLne : L <> []) by (intro E; rewrite E in HL; simpl in HL; lia).
  set (table := fun s : Source => map (prepared_row (source_model s) (source_file s)) cells).
  set (tables := map table sources).
  set (df := List.concat tables).
  set (block := fun m (s : Source) =>
                  map (fun k => prepared_row (source_model s) (source_file s)
                                             (mkCell (Num (fst k)) (Num (snd k)) m)) L).
  assert (Hrows : forall m, In m months ->
            rows_of df m = List.concat (map (block m) sources)).
  { intros m Hm. unfold df, rows_of. rewrite filter_of_concat. unfold tables.
    rewrite map_map. f_equal. apply map_ext. intro s.
    apply (rows_of_prepared _ _ months ys xs m Hndm Hm). }
  assert (Hblock : forall m b, In b (map (block m) sources) -> List.length b = n0 * n1).
  { intros m b Hb. apply in_map_iff in Hb. destruct Hb as (s & <- & _).
    unfold block. now rewrite length_map. }
  assert (Hnames : forall m, In m months ->
            model_names (rows_of df m) = map source_model sources).
  { intros m Hm. rewrite (Hrows m Hm). unfold block.
    rewrite <- (model_names_prepared sources
                  (map (fun k => mkCell (Num (fst k)) (Num (snd k)) m) L)); [| | exact Hndn].
    - do 2 f_equal. apply map_ext. intro s. now rewrite map_map.
    - intro E. apply HLne. now apply map_eq_nil in E. }
  assert (Hmonths : forall m, In m (map month df) <-> In m months).
  { intro m. split.
    - intro Hm. apply in_map_iff in Hm. destruct Hm as (r & <- & Hr).
      unfold df in Hr. apply in_concat in Hr. destruct Hr as (t & Ht & Hr).
      unfold tables in Ht. apply in_map_iff in Ht. destruct Ht as (s & <- & _).
      unfold table in Hr. apply in_map_iff in Hr. destruct Hr as (c & <- & Hc).
      unfold cells, grid_table in Hc. apply in_flat_map in Hc.
      destruct Hc as (m & Hm & Hc). apply in_map_iff in Hc.
      destruct Hc as (k & <- & _). exact Hm.
    - intro Hm. destruct sources as [| s0 rest]; [contradiction |].
      destruct L as [| k0 Lrest] eqn:EL; [contradiction |].
      assert (Hr : In (prepared_row (source_model s0) (source_file s0)
                         (mkCell (Num (fst k0)) (Num (snd k0)) m)) (rows_of df m)).
      { rewrite (Hrows m Hm). cbn [map List.concat]. apply in_or_app. left.
        unfold block. now left. }
      unfold rows_of in Hr. apply filter_In in Hr. destruct Hr as [Hr _].
      apply (in_map month) in Hr. exact Hr. }
  assert (Hfull : forall m, In m (map month df) ->
            (1 <= m <= 12)%Z /\ full_month df ys xs m).
  { intros m Hm. apply Hmonths in Hm. split; [now apply Hrange |].
    unfold full_month. rewrite (Hnames m Hm), (Hrows m Hm). split; [| split].
    - intros r Hr. apply in_concat in Hr. destruct Hr as (b & Hb & Hr).
      apply in_map_iff in Hb. destruct Hb as (s & <- & _).
      unfold block in Hr. apply in_map_iff in Hr. destruct Hr as ([y x] & <- & Hk).
      exists y, x. split; [reflexivity |]. now apply in_prod_iff.
    - intros y x Hy Hx. destruct sources as [| s0 rest]; [contradiction |].
      exists (prepared_row (source_model s0) (source_file s0) (mkCell (Num y) (Num x) m)).
      split; [| reflexivity]. cbn [map List.concat]. apply in_or_app. left.
      unfold block. apply in_map_iff. exists (y, x). split; [reflexivity |].
      unfold L. now apply in_prod_iff.
    - rewrite (length_concat_blocks _ _ (n0 * n1) (Hblock m)).
      rewrite !length_map, Ly, Lx. reflexivity. }
  assert (Hno : forall r, In r df -> model r <> Some "Ensemble").
  { intros r Hr E. unfold df in Hr. apply in_concat in Hr. destruct Hr as (t & Ht & Hr).
    unfold tables in Ht. apply in_map_iff in Ht. destruct Ht as (s & <- & Hs).
    unfold table in Hr. apply in_map_iff in Hr. destruct Hr as (c & <- & _).
    cbn [prepared_row model] in E. injection E as E. apply Hens. rewrite <- E.
    now apply in_map. }
  assert (Hnet : tables <> []).
  { unfold tables. destruct sources; [contradiction | discriminate]. }
  destruct (ds_sdm_layers V tables grid n0 n1 ys xs Hnet Hd Hys Hxs Ays Axs Hpos Hfull Hno)
    as (out & Hout & _ & Hlayers).
  exists tables, out. split.
  { unfold tables. rewrite map_map. apply map_ext_in. intros s Hs.
    destruct (Hsrc s Hs) as (Hf & Hr & Hone). now apply df_ready_prepared. }
  split; [exact Hout |].
  intros m Hm.
  destruct (Hlayers m (proj2 (Hmonths m) Hm))
    as (nm & da & Hname & Hlook & Hown & _ & (pe & Hpe & Hens_val)).
  exists nm, da. split; [exact Hname |]. split; [exact Hlook |].
  split.
  2:{ exists pe. split; [exact Hpe |]. intros i Hi Hy Hx.
      rewrite (Hens_val i Hi Hy Hx). fold df. f_equal.
      unfold cell_preds. rewrite (Hrows m Hm), filter_of_concat, map_map.
      set (y := nth (i "yt_ocean") ys 0%Qc). set (x := nth (i "xt_ocean") xs 0%Qc).
      assert (Hin : In (y, x) L).
      { unfold L. apply in_prod_iff. split; apply nth_In; congruence. }
      assert (Hsorted : StronglySorted key_lt L).
      { unfold L. apply list_prod_sorted; now apply strictly_ascending_sorted. }
      rewrite (map_ext _ (fun s => [prepared_row (source_model s) (source_file s)
                                      (mkCell (Num y) (Num x) m)])).
      - rewrite concat_singletons, map_map. reflexivity.
      - intro s. unfold block. rewrite filter_of_map.
        rewrite (filter_ext _ (key_eqb (y, x))) by (intros [y' x']; reflexivity).
        now rewrite (filter_key_sorted L (y, x) Hsorted Hin). }
  intros s Hs. destruct (In_nth_error _ _ Hs) as [k Hk].
  assert (Hklt : k < List.length sources) by (apply nth_error_Some; congruence).
  destruct (Hown (source_model s) k) as (p & Hp & Hval).
  { fold df. rewrite (Hnames m Hm). now apply map_nth_error. }
  exists p. split; [exact Hp |]. intros i Hi Hy Hx.
  rewrite (Hval i Hi Hy Hx). fold df. rewrite (Hrows m Hm).
  assert (Hcell : i "yt_ocean" * n1 + i "xt_ocean" < n0 * n1) by nia.
  assert (Hidx : (k * n0 + i "yt_ocean") * n1 + i "xt_ocean"
                 < List.length sources * (n0 * n1)).
  { assert (H1 : S k * (n0 * n1) <= List.length sources * (n0 * n1))
      by (apply Nat.mul_le_mono_r; lia).
    assert (H2 : (k * n0 + i "yt_ocean") * n1 + i "xt_ocean" < S k * (n0 * n1)) by nia.
    lia. }
  rewrite (nth_indep _ NaN (pred (mkRow NaN NaN NaN 0 None)))
    by (rewrite length_map, (length_concat_blocks _ _ (n0 * n1) (Hblock m)), length_map;
        exact Hidx).
  rewrite map_nth.
  replace ((k * n0 + i "yt_ocean") * n1 + i "xt_ocean")
    with (k * (n0 * n1) + (i "yt_ocean" * n1 + i "xt_ocean")) by nia.
  rewrite (nth_concat_blocks _ _ (n0 * n1))
    by (solve [apply Hblock | now rewrite length_map | exact Hcell]).
  rewrite (nth_indep _ [] (block m s)) by (rewrite length_map; exact Hklt).
  rewrite map_nth, (nth_error_nth _ _ s Hk).
  unfold block.
  rewrite (nth_indep _ (mkRow NaN NaN NaN 0 None)
             ((fun k0 => prepared_row (source_model s) (source_file s)
                           (mkCell (Num (fst k0)) (Num (snd k0)) m)) (0%Qc, 0%Qc)))
    by (rewrite length_map, HL; exact Hcell).
  rewrite (map_nth (fun k0 => prepared_row (source_model s) (source_file s)
                                (mkCell (Num (fst k0)) (Num (snd k0)) m))).
  assert (E : nth (i "yt_ocean" * n1 + i "xt_ocean") (list_prod ys xs) (0%Qc, 0%Qc)
              = (nth (i "yt_ocean") ys 0%Qc, nth (i "xt_ocean") xs 0%Qc)).
  { rewrite <- Lx at 1. apply nth_list_prod; congruence. }
  unfold L. rewrite E. reflexivity.
Qed.

Lemma ds_sdm_of_prepared_sample_tables :
  exists tables out da p pe,
    map (fun s => df_ready sample_source_files (source_path s) (source_model s)
                           (grid_table [1%Z] [Z2Qc (-60)] [Z2Qc 10; Z2Qc 20]))
        sample_sources
    = map (fun t => Some t) tables /\
    ds_sdm tables sample_sdm_grid = Some out /\
    lookup "January" out = Some da /\
    nth_error (labels da) p = Some "GAM" /\
    values da (upd (upd origin "model" p) "xt_ocean" 0) = Num (Z2Qc 1) /\
    values da (upd (upd origin "model" p) "xt_ocean" 1) = Num (Z2Qc 2) /\
    nth_error (labels da) pe = Some "Ensemble" /\
    values da (upd (upd origin "model" pe) "xt_ocean" 0)
    = mean [Num (Z2Qc 1); Num (Z2Qc 4)].
Proof.
  destruct (ds_sdm_of_prepared_tables_follows_the_grid
              f64 sample_source_files sample_sources sample_sdm_grid 1 2
              [Z2Qc (-60)] [Z2Qc 10; Z2Qc 20] [1%Z]
              eq_refl eq_refl eq_refl eq_refl eq_refl)
    as (tables & out & Ht & Hout & Hm).
  - lia.
  - repeat constructor. intros [].
  - intros m [<- | []]. lia.
  - discriminate.
  - repeat constructor; simpl; intuition discriminate.
  - simpl. intuition discriminate.
  - intros s [<- | [<- | []]]; repeat split; reflexivity.
  - destruct (Hm 1%Z) as (nm & da & H1 & H2 & H3 & (pe & Hpe & Hve)); [now left |].
    injection H1 as <-.
    destruct (H3 ("gam_full.csv", "GAM", sample_csv_gam)) as (p & Hp & Hv); [now left |].
    exists tables, out, da, p, pe. split; [exact Ht |]. split; [exact Hout |].
    split; [exact H2 |]. split; [exact Hp |].
    split; [rewrite Hv; [reflexivity | reflexivity | cbv; lia | cbv; lia] |].
    split; [rewrite Hv; [reflexivity | reflexivity | cbv; lia | cbv; lia] |].
    split; [exact Hpe |].
    rewrite Hve; [reflexivity | reflexivity | cbv; lia | cbv; lia].
Defined.
